(* ===== verification/_CoqProject ===== *)
-Q . S2P
Prelude.v
Geom.v
Coord.v
Stupidsort.v
Volume.v
GridVolume.v
Interpolate.v
Resolution.v
Derived.v
Snapshot.v
SnapshotMemory.v
Nf2ff.v
ModeVolume.v
Split.v
GridIntersect.v
Effort.v
Symmetry.v
Reduce.v
