(* ===== verification/Prelude.v ===== *)
(** * A verification development of the MEEP geometry core (src/1.2.1/src/vec.cpp)

    The program.  [vec.cpp] is the geometry, indexing, symmetry and
    domain-decomposition layer under MEEP's Yee-lattice field solver.
    Coordinates ([ivec]: lattice points in half-cell units; [vec]:
    continuous points) underlie continuous boxes ([volume]) and the
    discretised domain descriptor ([grid_volume]); the domain splitter
    cuts a [grid_volume] into parts for parallel workers; a [symmetry]
    (a chain of point-group generators) acts on directions, points,
    volumes and field components, and [reduce] folds a weighted volume
    list by it.  The snapshot, near-to-far-field and mode-volume classes
    at the end of the file sample fields on boxes through this layer.

    Files, in dependency order, and what they model:
    - [Prelude] (this file): C++ [int] as [Z] ([int]), the outcome type
      [res] of code that can [abort], dereference a null pointer or divide
      by zero, with its [let*] notation in [meep_scope]; loops whose body
      may abort ([res_fold_left]); meep's [min]/[max] on doubles
      ([dmin], [dmax]); products and sums over direction lists; Z
      division lemmas; the lemmas that read an indexed array loop
      ([for (i...) a[i] = f(a[i])], stdpp's [alter]/[insert] folded over
      [seq]) as a [map] ([loop_alter], [res_loop_alter]); the [meep] hint
      databases.
    - [Geom]: the enums of meep/vec.hpp ([ndim], [direction], [component],
      [derived_component]) and their integer values, the direction loops
      [LOOP_OVER_DIRECTIONS] ([loop_dirs]) and [FOR_DIRECTIONS]
      ([all_dirs]), the component helpers; the name tables
      ([dimension_name], [direction_name], the three [component_name]
      overloads), [first_field_component] and [yucky_direction] switch on
      those integer values, with the fall-through of a value out of the
      enum.
    - [Coord]: [ivec] and [vec] (modules [IVec], [Vec]) as a dimension tag
      and a five-entry table; [min] and [max] as the loop over the
      directions of the first argument; [round_up_to_even], [my_round],
      [yucky_val].
    - [Stupidsort]: the two [stupidsort] overloads (module [Stupidsort]),
      the in-place compaction of the interpolation arrays.
    - [Volume]: [class volume] (module [Volume]): constructor, measures,
      [intersect_with], [contains], [normal_direction].
    - [GridVolume]: [class grid_volume] (module [GridVolume]) as a record
      of its fields; every mutating method ([set_num_direction],
      [set_origin], [shift_origin], [pad_self], [halve], [num_changed])
      is a function on the record; [index], [iloc], ownership, corners,
      boundary enumeration, [yee2cent]/[cent2yee] offsets, the
      constructors [volone] ... [volcyl].
    - [Interpolate]: both overloads of [grid_volume::interpolate] (module
      [Interpolate]): the corner loop over [already_have], the
      renormalisation, the clipping and its abort, the equal-weights
      pass, then the ownership filter, the flat indices and the two
      [contains(p)] checks of the [indices] version.
    - [Resolution]: [grid_volume::loc_at_resolution] and
      [ntot_at_resolution] (module [Resolution]): the loop over [X..R]
      with its state [(where, index)] and the product of sample counts.
    - [Derived]: [derived_component_func], [poynting_fun] and
      [energy_fun] (module [Derived]); [grid_volume::has_field] of
      meep/vec.hpp (not in the repository) is a section parameter whose
      one hypothesis is that a grid has components only along its frame.
    - [Snapshot]: [class snapshot] (module [Snapshot]): the constructor's
      sizing and packing of the sampled box ([n_car], [n_dims], [rank]),
      [create_dft] as the list of [add_dft_pt] calls it makes, the
      master's store slots of [pass_data] and the values it stores (the
      chunk averages and the [Ssend] loop over processes),
      [add_component], the file and datasets of [output_snapshot].
    - [SnapshotMemory]: the heap blocks behind [_data_mag], [_data_arg]
      and [_h5file] (module [SnapshotMemory]), a stdpp [gmap] from
      addresses to blocks: the allocations of [pass_data], the reads,
      writes and deletes of [output_snapshot], [output], and the
      [_data_mag]/[_data_arg] part of the destructor.
    - [Nf2ff]: [class nf2ff] (module [Nf2ff]): the constructor and
      [create_snaps] (one snapshot per recorded face), [return_component],
      the shape [allocate] gives [_near_data] and the elements
      [pass_data] stores; and, as explicit state passing over the pointer
      members, [allocate], [pass_data], [process], [calculate],
      [output], [output_snaps] and the destructor.
    - [ModeVolume]: [class mode_volume] (module [ModeVolume]): the
      constructor with its snapshot of [Ex, Ey, Ez], [local_calc] (the
      loop over the local [n_car] box, the averages of the DFT chunks,
      [|E|^2 eps], its maximum and sum), the master's gathering and
      division in [pass_data], and [output] as the two in sequence; the
      DFT chunks and [fields::get_eps] are section parameters.
    - [Split]: [split_at_fraction] and [split] (module [Split]).
    - [GridIntersect]: [grid_volume::intersect_with], with and without the
      slabs of [*this] outside the other grid, and its parity and
      point-count checks (module [GridIntersect]).
    - [Effort]: [split_by_effort] (module [Effort]): the scan of cut
      points weighed by an effort table, the fallback to [split], the
      recursion.
    - [Symmetry]: [class symmetry] as a list of generator nodes (the head
      is [*this], the tail [*next], [[]] the null pointer); [identity],
      [mirror], [rotate2], [rotate4], [r_to_minus_r_symmetry],
      [operator+], [operator*], [multiplicity], [transform] on directions,
      lattice points, points, volumes and components, [phase_shift],
      [is_primitive], [operator==].
    - [Reduce]: [symmetry::reduce] over a [volume_list] kept as a list in
      link order.

    The theorems, by group (claim numbers of the manifest):
    - splitter: [split] is total on its domain, with enough fuel (C3); its
      parts partition the owned lattice points (C1) and conserve the
      owned-point count (C2);
    - grid_volume: [index] inverts [iloc] (C4); every descriptor reached
      from the constructor by the mutating methods keeps its caches and
      origin consistent (C5, a reachability invariant by rule induction);
    - symmetry: [transform] refines the group element in mixed radix on
      directions and flips (C6) and on phases where the chain allows it
      (C7); [operator+] is the product group (C8); [phase_shift] applies
      the determinant rule to pseudovectors (C9); component transforms
      never abort (C10); a generator that maps every direction to itself
      reflects a lattice point about its symmetry point exactly in the
      flipped coordinates, an involution (C11);
    - reduce: the first pass keeps one entry per symmetry orbit, no image
      of an entry matching the key of an entry behind it, and represents
      every input entry of nonzero weight (C36);
    - interpolation: the corner loop is an exact multilinear
      interpolation, weights summing to one and reproducing the point
      (C22); the [locs] version never aborts and returns weights each
      zero or at least [1e-13], summing to one within [8e-13] (C21); the
      [indices] version never aborts (C23); [stupidsort] keeps exactly
      the non-tiny entries, as a permutation, ahead of cleared slots
      (C24);
    - resampling: [ntot_at_resolution] never aborts and is at least one
      ([ntot_at_resolution_total]); [loc_at_resolution] is injective
      below it, a mixed-radix decoding (C27), and places every point
      inside the sampled span ([loc_at_resolution_in_span]);
    - derived components: each Poynting flux [S_d] computes the [d]
      component of [Re(conj(E) x H)] in the grid's frame, except [Sz] of a
      cylindrical grid, which reads the Cartesian [Ex, Hy, Ey, Hx] the
      grid does not have (C29, a code bug); the energy densities never
      abort and read at most twelve well-paired components (C30), and
      their value is a nonnegative half-sum for lossless media
      ([energy_density_nonneg]);
    - snapshots and nf2ff: the packing of a snapshot box and the index
      choices of [create_dft] are inverse, so every lattice point of the
      box is sampled once (C32); [pass_data] fills its output arrays
      exactly (C33) with the sum over processes of their values when
      each sample is non-zero on one process only (C14); the datasets of
      [output_snapshot] have distinct names exactly when the snapshot's
      components are distinct (C26); the hemisphere samples of
      [create_dft_sphere] lie at distance [radius] from the center for
      [d = Z], and from a permutation of it for [d = Y] and [d = X]
      (C17, a code bug); in three dimensions the elements [nf2ff::pass_data]
      stores stay inside [_near_data] when the box spans more than one
      sample on each axis (C34), and fall past the rows [allocate] made
      for every box of one sample along x and more along z whose y faces
      are recorded (C35, a code bug);
    - mode volume: [output] on the master gives a mode volume of at most
      the number of samples in units of a cell, or a non-finite value
      when the field vanishes everywhere (C28);
    - intersect_with: on grids of the same lattice parity none of its
      three runtime checks fires and the slabs conserve the points (C15);
    - where the code departs from the specification: a chained element
      that takes its node's own step and then the tail's drops the power
      of the node's phase (C12, a code bug); [transform(d, n)] is not
      periodic: [n = multiplicity()] dereferences the null tail of every
      chain (C13); [reduce] keeps the low half of a self-symmetric entry
      where the specification's example keeps the high half
      ([reduce_spec_example]); the upper
      parity check of [intersect_with] can never fire (C16), so an odd
      upper corner only trips the point count
      ([intersect_odd_corners]); [split_by_effort]
      with an empty table does not reproduce [split]
      ([effort_empty_table_differs]), applies the
      cut found along Z to R in cylindrical grids with [nr == nz] (C19),
      and converts a NaN to [int] whenever no region of nonzero effort
      meets a side of a cut (C20);
      in three dimensions [mode_volume::local_calc] reads the snapshot's
      chunk array, which has the packed shape [n_dims], over the
      unpacked [n_car] box: out of bounds exactly when an axis of one
      sample precedes an axis of more (C25, a code bug); a non-null DFT
      chunk with no values makes the volume sum non-finite (C31); on the
      master [snapshot::output] and the destructor leave the [2 n_c]
      value arrays of [pass_data] allocated (C18, a code bug);
      [stupidsort] is not the stable compaction the specification
      describes ([stupidsort_not_stable]).

    Numbers.  C++ [int] is [Z]: the arithmetic of the modelled code stays
    far below 2^31 on the grids it describes, and the theorems are stated
    without a width bound.  Truncating C division and remainder are
    [Z.quot] and [Z.rem].  C++ [double] is an exact rational [Q]: exact
    where the code computes on small integers (all of the splitter's
    arithmetic, where [(int)(x + 0.5)] is [c_int]) and an idealisation
    elsewhere (no rounding in [volume] comparisons, [round_float] is the
    identity).  Complex phases are Gaussian integers and complex weights
    pairs of rationals.  In [interpolate] the corner weights are exact
    products, the renormalisation adds zero, and the thresholds [2e-15],
    [1e-13] and [1e-8] are kept as rationals.

    Fuel.  [split] runs [split_fuel] with [split_bound gv] (one plus the
    sum of the extents; each cut shrinks the sum by at least one), and
    [split_by_effort] runs with the same bound (no claim relies on it);
    [transform] runs [transform_fuel] with [transform_bound] (one plus the
    sum of the generator orders; each node recurses at most [g - 1] times
    on itself before passing to its tail); the bounds of [split] and
    [transform] are proved enough, so their [Fatal (Abort "fuel")]
    branches are dead.  [add_while_neg]
    ([iloc]'s [while (x < 0) x += step]) runs with [-x] steps, enough
    for a step of at least 1.

    In [loc_at_resolution] and [ntot_at_resolution] the product of the
    sample counts is a [Z]: the overflow of [mytot] in [int] is not
    modelled.  In [derived_component_func] the writes [cs[nfields++]]
    that could run past [cs[11]] before the [nfields > 12] check are
    not modelled: under the frame hypothesis there are at most twelve
    (C30).

    In [nf2ff] the [(int) ceil(sqrt((double) n))] of [res_angle] is
    [Z.sqrt_up n], exact for the small [n] of a sampled box; the [%f]
    rendering of the frequency in the snapshot names and the
    [(int) ceil(pi * res / sqrt(2.0))] of hemisphere snapshots are
    section parameters.  The pointer members of [nf2ff] are [Uninit],
    [Null], [Live] or [Freed]; testing or deleting an uninitialised
    pointer, and deleting a freed one, are [Fatal (UndefinedBehaviour _)].

    In [mode_volume] a non-finite double (NaN of [0.0 / 0.0], or a
    division by [0.0]) is [None] of [option Q]: it propagates through the
    sums, and a comparison [local_val > max_val] with it is false.  The
    MPI exchange of [pass_data] is the list of the processes' [(vol,
    max_val)] the master receives.

    Not modelled: the printing functions ([grid_volume::print]) and the
    [printf] diagnostics before aborts; the copy constructor and
    assignment of [symmetry], which the list model's value semantics
    make the identity; [grid_volume::has_field] and the other members of
    meep/vec.hpp, which are not in the repository; the MPI layer
    ([Ssend], [send], [am_master]: the values a process receives are
    parameters), the [abs]/[arg] of the stored values, the contents
    written to HDF5 files and the floating-point far-field sums of
    [nf2ff::calculate]; in [create_dft_sphere], [pi], [sin] and [cos]
    are section parameters (the hemisphere theorem assumes only
    [sin^2 + cos^2 = 1]); the [snapshot] destructor's release of the DFT chunk
    arrays, [_center], [_size], [_name] and [_c], which the model does
    not allocate; [delete] of memory from [new[]], which the code does
    throughout, is treated as [delete[]]; in [mode_volume] the destructor, the
    [am_now_working_on] bookkeeping, the [master_printf] of [output] and
    [_snap->output()] (HDF5), and the [fields] class that holds the DFT
    chunks and [get_eps];
    [polar(1, m pi)] phases of [r_to_minus_r_symmetry] for a
    non-integer [m]. *)

From Stdlib Require Export ZArith QArith Qround Qminmax Qabs Lia Lqa String.
From stdpp Require Export base decidable list.

Abbreviation int := BinNums.Z.

Open Scope Z_scope.

(** ** Fatal outcomes

    MEEP's [abort(fmt, ...)] prints a message and terminates the process;
    there is no recoverable error path.  A computation of the model that
    may abort returns [res A]: [Ok a], or [Fatal e] where [e] carries the
    abort message of the code (without its printf arguments).  A null
    pointer dereference of the C++ code is [Fatal (NullDereference _)], an
    integer division by zero [Fatal DivisionByZero], another operation
    whose behaviour C++ leaves undefined (converting a NaN to [int])
    [Fatal (UndefinedBehaviour _)]. *)

Inductive fatal :=
| Abort (msg : string)
| NullDereference (what : string)
| DivisionByZero
| UndefinedBehaviour (what : string).

Inductive res (A : Type) : Type :=
| Ok (a : A)
| Fatal (e : fatal).
Arguments Ok {A} a.
Arguments Fatal {A} e.

Definition res_bind {A B} (c : res A) (k : A -> res B) : res B :=
  match c with
  | Ok a => k a
  | Fatal e => Fatal e
  end.

Definition res_map {A B} (f : A -> B) (c : res A) : res B :=
  res_bind c (fun a => Ok (f a)).

Definition is_ok {A} (c : res A) : bool :=
  match c with Ok _ => true | Fatal _ => false end.

#[export] Instance In_decision {A} `{EqDecision A} (x : A) (l : list A) : Decision (In x l) :=
  in_dec (decide_rel eq) x l.

(** A loop whose body may abort: the first [Fatal] ends it. *)
Fixpoint res_fold_left {A B} (f : A -> B -> res A) (l : list B) (a : A) : res A :=
  match l with
  | [] => Ok a
  | x :: l' => match f a x with Ok a' => res_fold_left f l' a' | Fatal e => Fatal e end
  end.

(** [for (int i = a; i < b; i++)]: the integers [a], ..., [b - 1]. *)
Definition zrange (a b : int) : list int := map (fun k => a + Z.of_nat k) (seq 0 (Z.to_nat (b - a))).

Declare Scope meep_scope.
Delimit Scope meep_scope with meep.
Notation "'let*' x ':=' c 'in' k" := (res_bind c (fun x => k))
  (at level 100, x name, c at level 100, k at level 200) : meep_scope.
Open Scope meep_scope.

(** ** Integer helpers *)

(** The C++ conversion [(int) x] of a double: truncation towards zero. *)
Definition c_int (x : Q) : int := if Qle_bool 0 x then Qfloor x else - Qfloor (- x).

(** Strict comparison of doubles, [x < y]. *)
Definition Qlt_bool (x y : Q) : bool := negb (Qle_bool y x).

(** meep's [min] and [max] on doubles (meep/vec.hpp):
    [(a < b) ? a : b] and [(a > b) ? a : b]. *)
Definition dmin (a b : Q) : Q := if Qlt_bool a b then a else b.
Definition dmax (a b : Q) : Q := if Qlt_bool b a then a else b.

(** Products over a list, the shape of [LOOP_OVER_DIRECTIONS(dim,d) n *= f(d)]. *)
Definition prod_over {A} (f : A -> int) (l : list A) : int :=
  fold_left (fun acc d => acc * f d) l 1.

(** Sums over a list, for [LOOP_OVER_DIRECTIONS(dim,d) idx += f(d)]. *)
Definition sum_over {A} (f : A -> int) (l : list A) : int :=
  fold_left (fun acc d => acc + f d) l 0.

(** [f start + f (start+1) + ... + f (start+k-1)]: the sum over the parts
    [which = start .. start+k-1]. *)
Fixpoint sumZ (f : int -> int) (k : nat) (start : int) : int :=
  match k with
  | O => 0
  | S k' => f start + sumZ f k' (start + 1)
  end.

(** ** Lemmas on results, integers, doubles and sums *)

Lemma res_bind_ok {A B} (c : res A) (k : A -> res B) b :
  res_bind c k = Ok b <-> exists a, c = Ok a /\ k a = Ok b.
Proof.
  destruct c as [a|e]; simpl; split.
  - intros H. eauto.
  - intros (a' & Ha & Hk). congruence.
  - discriminate.
  - intros (a' & Ha & _). discriminate.
Qed.

Lemma res_bind_Ok {A B} (a : A) (k : A -> res B) : res_bind (Ok a) k = k a.
Proof. reflexivity. Qed.

Lemma res_bind_Fatal {A B} e (k : A -> res B) : res_bind (Fatal e) k = Fatal e.
Proof. reflexivity. Qed.

Lemma res_fold_left_Ok {A B} (f : A -> B -> A) (l : list B) (a : A) :
  res_fold_left (fun a x => Ok (f a x)) l a = Ok (fold_left f l a).
Proof. revert a. induction l as [|x l IH]; intros a; [reflexivity|]. apply IH. Qed.

Lemma res_fold_left_inv {A B} (P : A -> Prop) (f : A -> B -> res A) (l : list B) (a r : A) :
  (forall a x r, P a -> f a x = Ok r -> P r) -> P a -> res_fold_left f l a = Ok r -> P r.
Proof.
  intros Hf. revert a. induction l as [|x l IH]; intros a Ha H; simpl in H.
  - injection H as <-. exact Ha.
  - destruct (f a x) eqn:E; [|discriminate]. apply (IH a0); [apply (Hf a x); assumption|exact H].
Qed.

Lemma res_fold_left_ext {A B} (f f' : A -> B -> res A) (l : list B) (a : A) :
  (forall a x, In x l -> f a x = f' a x) -> res_fold_left f l a = res_fold_left f' l a.
Proof.
  revert a. induction l as [|x l IH]; intros a H; [reflexivity|]. simpl.
  rewrite H by (left; reflexivity). destruct (f' a x); [|reflexivity].
  apply IH. intros. apply H. right. assumption.
Qed.

(** C++ [/] and [%] truncate towards zero: on non-negative operands they
    coincide with floor division. *)
Lemma quot_nonneg (x y : int) : 0 <= x -> 0 < y -> Z.quot x y = x / y.
Proof. intros Hx Hy. apply Z.quot_div_nonneg; lia. Qed.

Lemma rem_nonneg (x y : int) : 0 <= x -> 0 < y -> Z.rem x y = x mod y.
Proof. intros Hx Hy. apply Z.rem_mod_nonneg; lia. Qed.

(** Mixed-radix decomposition: the digits of [i] in bases [B] then [A]
    (then [C]) recombine to [i]; the arithmetic of row-major flattening. *)
Lemma radix2 (i A B : int) :
  0 < B -> 0 <= i < A * B -> (i / B) mod A * B + i mod B = i.
Proof.
  intros HB Hi. rewrite (Z.mod_small (i / B) A).
  - rewrite Z.mul_comm. symmetry. apply Z.div_mod. lia.
  - split; [apply Z.div_pos; lia|]. apply Z.div_lt_upper_bound; lia.
Qed.

Lemma radix3 (i A B C : int) :
  0 < A -> 0 < B -> 0 <= i < C * (A * B) ->
  (i / (B * A)) mod C * (B * A) + ((i / B) mod A * B + i mod B) = i.
Proof.
  intros HA HB Hi.
  rewrite <- Z.div_div by lia.
  assert (Hq : 0 <= i / B < C * A).
  { split; [apply Z.div_pos; lia|]. apply Z.div_lt_upper_bound; lia. }
  rewrite (Z.mod_small (i / B / A) C).
  2:{ split; [apply Z.div_pos; lia|]. apply Z.div_lt_upper_bound; lia. }
  pose proof (Z.div_mod (i / B) A ltac:(lia)).
  pose proof (Z.div_mod i B ltac:(lia)).
  nia.
Qed.

(** [Z.mod_mul_r] of the library is stated for [Z.rem]; this is its [mod] form. *)
Lemma mod_mul_r (a b c : int) :
  0 <= a -> 0 < b -> 0 < c -> a mod (b * c) = a mod b + b * ((a / b) mod c).
Proof.
  intros. rewrite <- !Z.rem_mod_nonneg, <- Z.quot_div_nonneg by (try apply Z.div_pos; lia).
  apply Z.mod_mul_r; lia.
Qed.

Lemma Qlt_bool_iff (x y : Q) : Qlt_bool x y = true <-> (x < y)%Q.
Proof.
  unfold Qlt_bool. rewrite negb_true_iff. split.
  - intros H. apply Qnot_le_lt. intros Hle. apply Qle_bool_iff in Hle. congruence.
  - intros H. destruct (Qle_bool y x) eqn:E; [|reflexivity].
    apply Qle_bool_iff in E. exfalso. apply (Qlt_not_le x y); assumption.
Qed.

Lemma c_int_nonneg q : (0 <= q)%Q -> c_int q = Qfloor q.
Proof. intros H. unfold c_int. apply Qle_bool_iff in H. rewrite H. reflexivity. Qed.

Lemma inject_Z_nonzero (B : int) : B <> 0 -> ~ (inject_Z B == 0)%Q.
Proof. intros HB H. apply HB, inject_Z_injective. exact H. Qed.

(** [(int)(A/(double)B + 0.5)] on non-negative integers is a floor division. *)
Lemma qround_div (A B : int) :
  0 <= A -> 0 < B -> c_int (inject_Z A / inject_Z B + (1#2))%Q = (2 * A + B) / (2 * B).
Proof.
  intros HA HB.
  assert (E : (inject_Z A / inject_Z B + (1#2) == inject_Z (2 * A + B) / inject_Z (2 * B))%Q).
  { rewrite !inject_Z_plus, !inject_Z_mult. field.
    repeat apply conj; apply inject_Z_nonzero; lia. }
  rewrite c_int_nonneg, (Qfloor_comp _ _ E), <- Zdiv_Qdiv; [reflexivity|].
  rewrite E. apply Qle_shift_div_l.
  - change 0%Q with (inject_Z 0). rewrite <- Zlt_Qlt. lia.
  - rewrite Qmult_0_l. change 0%Q with (inject_Z 0). rewrite <- Zle_Qle. lia.
Qed.

Lemma prod_over_acc {A} (f : A -> int) (l : list A) (acc : int) :
  fold_left (fun acc d => acc * f d) l acc = acc * prod_over f l.
Proof.
  unfold prod_over. revert acc. induction l as [|x l IH]; intros acc; simpl.
  - lia.
  - rewrite IH, (IH (1 * f x)). lia.
Qed.

Lemma prod_over_cons {A} (f : A -> int) x (l : list A) :
  prod_over f (x :: l) = f x * prod_over f l.
Proof. unfold prod_over at 1. simpl. rewrite prod_over_acc. lia. Qed.

Lemma prod_over_ext {A} (f g : A -> int) (l : list A) :
  (forall x, In x l -> f x = g x) -> prod_over f l = prod_over g l.
Proof.
  induction l as [|x l IH]; intros H; [reflexivity|].
  rewrite !prod_over_cons, H by (left; reflexivity).
  rewrite IH by (intros y Hy; apply H; right; exact Hy). reflexivity.
Qed.

Lemma prod_over_nonneg {A} (f : A -> int) (l : list A) :
  (forall x, In x l -> 0 <= f x) -> 0 <= prod_over f l.
Proof.
  induction l as [|x l IH]; intros H; [unfold prod_over; simpl; lia|].
  rewrite prod_over_cons. apply Z.mul_nonneg_nonneg.
  - apply H. left. reflexivity.
  - apply IH. intros y Hy. apply H. right. exact Hy.
Qed.

Lemma prod_over_le_one {A} (f : A -> int) (l : list A) :
  (forall x, In x l -> 0 <= f x <= 1) -> prod_over f l <= 1.
Proof.
  induction l as [|x l IH]; intros H; [unfold prod_over; simpl; lia|].
  rewrite prod_over_cons.
  assert (0 <= prod_over f l) by (apply prod_over_nonneg; intros y Hy; apply H; right; exact Hy).
  specialize (IH (fun y Hy => H y (or_intror Hy))). specialize (H x (or_introl eq_refl)). nia.
Qed.

Lemma sum_over_acc {A} (f : A -> int) (l : list A) (acc : int) :
  fold_left (fun acc d => acc + f d) l acc = acc + sum_over f l.
Proof.
  unfold sum_over. revert acc. induction l as [|x l IH]; intros acc; simpl.
  - lia.
  - rewrite IH, (IH (0 + f x)). lia.
Qed.

Lemma sum_over_cons {A} (f : A -> int) x (l : list A) :
  sum_over f (x :: l) = f x + sum_over f l.
Proof. unfold sum_over at 1. simpl. rewrite sum_over_acc. lia. Qed.

Lemma sum_over_app_one {A} (f : A -> int) (l : list A) x :
  sum_over f (l ++ [x]) = sum_over f l + f x.
Proof. unfold sum_over at 1. rewrite fold_left_app. simpl. rewrite sum_over_acc. unfold sum_over. simpl. rewrite sum_over_acc. lia. Qed.

Lemma sum_over_ext {A} (f g : A -> int) (l : list A) :
  (forall x, In x l -> f x = g x) -> sum_over f l = sum_over g l.
Proof.
  induction l as [|x l IH]; intros H; [reflexivity|].
  rewrite !sum_over_cons, H by (left; reflexivity).
  rewrite IH by (intros y Hy; apply H; right; exact Hy). reflexivity.
Qed.

(** A product with one factor singled out, for a duplicate-free list. *)
Lemma prod_over_remove {A} `{EqDecision A} (f : A -> int) (l : list A) x :
  NoDup l -> In x l -> prod_over f l = f x * prod_over f (remove (decide_rel eq) x l).
Proof.
  induction l as [|y l IH]; intros Hnd Hx; [destruct Hx|].
  apply NoDup_cons in Hnd as [Hy Hnd].
  rewrite prod_over_cons. simpl. destruct (decide_rel eq x y) as [<-|Hne].
  - rewrite notin_remove; [reflexivity|]. intros Hin. apply Hy. apply list_elem_of_In. exact Hin.
  - destruct Hx as [->|Hx]; [contradiction|].
    rewrite prod_over_cons, IH by assumption. lia.
Qed.

Lemma sumZ_app (f : int -> int) (k1 k2 : nat) (start : int) :
  sumZ f (k1 + k2) start = sumZ f k1 start + sumZ f k2 (start + Z.of_nat k1).
Proof.
  revert start. induction k1 as [|k1 IH]; intros start; cbn [sumZ Nat.add].
  - rewrite Z.add_0_r. reflexivity.
  - rewrite IH. rewrite Nat2Z.inj_succ.
    replace (start + Z.succ (Z.of_nat k1)) with (start + 1 + Z.of_nat k1) by lia. lia.
Qed.

Lemma sumZ_ext (f g : int -> int) (k : nat) (start : int) :
  (forall w, start <= w < start + Z.of_nat k -> f w = g w) -> sumZ f k start = sumZ g k start.
Proof.
  revert start. induction k as [|k IH]; intros start H; simpl; [reflexivity|].
  rewrite H by lia. rewrite IH; [reflexivity|]. intros w Hw. apply H. lia.
Qed.

Lemma sumZ_shift (f : int -> int) (k : nat) (start c : int) :
  sumZ f k (start + c) = sumZ (fun w => f (w + c)) k start.
Proof.
  revert start. induction k as [|k IH]; intros start; simpl; [reflexivity|].
  rewrite <- IH. f_equal. f_equal. lia.
Qed.

(** A conjunction of per-axis conditions, split along one axis [x] into
    two exclusive alternatives while the other axes are unchanged, is the
    exclusive disjunction of the two conjunctions. *)
Lemma forall_split {T} `{EqDecision T} (l : list T) (x : T) (A B C : T -> Prop) :
  In x l ->
  (forall d, In d l -> d <> x -> (A d <-> B d) /\ (A d <-> C d)) ->
  (A x <-> B x \/ C x) -> ~ (B x /\ C x) ->
  ((forall d, In d l -> A d) <-> (forall d, In d l -> B d) \/ (forall d, In d l -> C d))
  /\ ~ ((forall d, In d l -> B d) /\ (forall d, In d l -> C d)).
Proof.
  intros Hx Hoth Hax Hex. split.
  - split.
    + intros HA. destruct (proj1 Hax (HA x Hx)) as [HB|HC]; [left|right]; intros d Hd;
        destruct (decide (d = x)) as [->|Hne]; try assumption;
        destruct (Hoth d Hd Hne) as [H1 H2]; [apply H1|apply H2]; apply HA, Hd.
    + intros [HB|HC] d Hd; destruct (decide (d = x)) as [->|Hne];
        try (apply Hax; auto; fail);
        destruct (Hoth d Hd Hne) as [H1 H2]; [apply H1|apply H2]; auto.
  - intros [HB HC]. apply Hex. split; auto.
Qed.

(** ** Integer loop ranges

    [zrange a b] is the sequence of values of [i] in
    [for (int i = a; i < b; i++)]. *)

Lemma zrange_empty (a b : int) : b <= a -> zrange a b = [].
Proof. intros H. unfold zrange. replace (Z.to_nat (b - a)) with 0%nat by lia. reflexivity. Qed.

Lemma zrange_cons (a b : int) : a < b -> zrange a b = a :: zrange (a + 1) b.
Proof.
  intros H. unfold zrange. replace (Z.to_nat (b - a)) with (S (Z.to_nat (b - (a + 1)))) by lia.
  cbn [seq map]. f_equal; [lia|]. rewrite <- seq_shift, map_map. apply map_ext. intros k. lia.
Qed.

Lemma zrange_app (a b c : int) : a <= b <= c -> zrange a c = zrange a b ++ zrange b c.
Proof.
  intros [H1 H2]. remember (Z.to_nat (b - a)) as n eqn:En. revert a H1 En.
  induction n as [|n IH]; intros a H1 En.
  - replace b with a by lia. rewrite (zrange_empty a a) by lia. reflexivity.
  - rewrite (zrange_cons a c), (zrange_cons a b) by lia. simpl. f_equal. apply IH; lia.
Qed.

Lemma zrange_snoc (a b : int) : a <= b -> zrange a (b + 1) = zrange a b ++ [b].
Proof. intros H. rewrite (zrange_app a b (b + 1)) by lia. rewrite (zrange_cons b (b + 1)), (zrange_empty (b + 1) (b + 1)) by lia. reflexivity. Qed.

Lemma in_zrange (a b x : int) : In x (zrange a b) <-> a <= x < b.
Proof.
  unfold zrange. rewrite in_map_iff. split.
  - intros (k & <- & Hk). apply in_seq in Hk. lia.
  - intros H. exists (Z.to_nat (x - a)). split; [lia|]. apply in_seq. lia.
Qed.

Lemma length_zrange (a b : int) : length (zrange a b) = Z.to_nat (b - a).
Proof. unfold zrange. rewrite length_map, length_seq. reflexivity. Qed.

Lemma zrange_shift (a n : int) : 0 <= n -> map (fun j => a + j) (zrange 0 n) = zrange a (a + n).
Proof.
  intros Hn. unfold zrange. rewrite map_map. replace (a + n - a) with (n - 0) by lia.
  apply map_ext. intros k. lia.
Qed.

(** A loop [for (k = a; k < b; k++)] whose body may fail: when each step
    from a state satisfying [P k] succeeds into one satisfying [P (k+1)],
    the loop succeeds into [P b]. *)
Lemma res_fold_left_zrange {A} (P : int -> A -> Prop) (f : A -> int -> res A) (a b : int) (x : A) :
  a <= b -> P a x ->
  (forall k y, a <= k < b -> P k y -> exists y', f y k = Ok y' /\ P (k + 1) y') ->
  exists r, res_fold_left f (zrange a b) x = Ok r /\ P b r.
Proof.
  intros Hab. remember (Z.to_nat (b - a)) as len eqn:Hlen.
  revert a x Hab Hlen. induction len as [|len IH]; intros a x Hab Hlen Hx Hstep.
  - assert (a = b) as <- by lia. rewrite zrange_empty by lia. exists x. auto.
  - rewrite zrange_cons by lia. destruct (Hstep a x ltac:(lia) Hx) as (y & Hy & HPy).
    cbn [res_fold_left]. rewrite Hy.
    apply (IH (a + 1) y); [lia|lia|exact HPy|]. intros k z Hk Hz. apply Hstep; [lia|exact Hz].
Qed.

(** A loop [for (k = 0; k < len; k++) ... l[k]] reads [l] in order. *)
Lemma map_nth_zrange {A} (l : list A) (d : A) :
  map (fun k => nth (Z.to_nat k) l d) (zrange 0 (Z.of_nat (length l))) = l.
Proof.
  unfold zrange. rewrite map_map, Z.sub_0_r, Nat2Z.id.
  erewrite map_ext by (intros k; rewrite Z.add_0_l, Nat2Z.id; reflexivity).
  induction l as [|x l IH]; [reflexivity|].
  cbn [length seq map nth]. f_equal. rewrite <- seq_shift, map_map. exact IH.
Qed.

Lemma flat_map_map_l {A B C} (f : B -> list C) (g : A -> B) l :
  flat_map f (map g l) = flat_map (fun x => f (g x)) l.
Proof. induction l; simpl; congruence. Qed.

Lemma map_flat_map_l {A B C} (f : B -> C) (g : A -> list B) l :
  map f (flat_map g l) = flat_map (fun x => map f (g x)) l.
Proof. induction l; simpl; [reflexivity|]. rewrite map_app. congruence. Qed.

(** Two names per element, all distinct, exactly when the elements are. *)
Lemma NoDup_flat_map_pair {A B} (f : A -> bool -> B) (l : list A) :
  (forall x y b c, f x b = f y c -> x = y /\ b = c) ->
  NoDup (flat_map (fun x => [f x true; f x false]) l) <-> NoDup l.
Proof.
  intros Hinj. induction l as [|x l IH]; [split; constructor|].
  cbn [flat_map app]. rewrite !NoDup_cons, !list_elem_of_In, IH.
  assert (Hout : forall b, In (f x b) (flat_map (fun x => [f x true; f x false]) l) -> In x l).
  { intros b Hin. apply in_flat_map in Hin as (y & Hy & Hin).
    destruct Hin as [Heq|[Heq|[]]]; apply Hinj in Heq as [-> _]; exact Hy. }
  split.
  - intros (Hn1 & _ & Hnd). split; [|exact Hnd]. intros Hin. apply Hn1. right.
    apply in_flat_map. exists x. split; [exact Hin|left; reflexivity].
  - intros (Hnin & Hnd). split; [|split; [|exact Hnd]].
    + intros [Heq|Hin]; [apply Hinj in Heq as [_ ?]; discriminate|].
      apply Hnin, (Hout true), Hin.
    + intros Hin. apply Hnin, (Hout false), Hin.
Qed.

(** A loop nest [for (i < n) for (j < m) ... a + i * m + j] visits
    [a .. a + n * m - 1] in order. *)
Lemma flat_map_zrange_blocks (a m n : int) (f : int -> list int) :
  0 <= m -> 0 <= n -> (forall i, f i = zrange (a + i * m) (a + i * m + m)) ->
  flat_map f (zrange 0 n) = zrange a (a + n * m).
Proof.
  intros Hm Hn Hf. rewrite <- (Z2Nat.id n) by exact Hn. induction (Z.to_nat n) as [|k IH].
  - simpl. rewrite zrange_empty by lia. reflexivity.
  - rewrite Nat2Z.inj_succ, <- Z.add_1_r, zrange_snoc, flat_map_app, IH by lia. simpl.
    rewrite Hf, app_nil_r, <- zrange_app by nia. f_equal. ring.
Qed.

(** ** Lists updated by index

    The C++ loops [for (i = ...; ...; i++) a[i] = f(a[i]);] on arrays are
    folds of stdpp's [alter] and [insert] over [seq]; these lemmas read
    such a loop as a [map] over the slice it visits. *)

Lemma inject_Z_sub (x y : int) : (inject_Z (x - y) == inject_Z x - inject_Z y)%Q.
Proof. unfold Qeq, Qminus, Qplus, Qopp. simpl. lia. Qed.

Lemma nth_lookup_Some {B} (l : list B) i x dflt : l !! i = Some x -> nth i l dflt = x.
Proof. intros H. rewrite nth_lookup, H. reflexivity. Qed.

Lemma insert_mid {B} (pre post : list B) x y :
  <[length pre := y]> (pre ++ x :: post) = pre ++ y :: post.
Proof. induction pre; simpl; congruence. Qed.

Lemma nth_mid {B} (pre post : list B) x d : nth (length pre) (pre ++ x :: post) d = x.
Proof. induction pre; simpl; auto. Qed.

Lemma alter_mid {B} (g : B -> B) (l1 l2 : list B) x : alter g (length l1) (l1 ++ x :: l2) = l1 ++ g x :: l2.
Proof. induction l1 as [|y l1 IH]; simpl; [reflexivity|]. rewrite <- IH. reflexivity. Qed.

Lemma lookup_mid {B} (l1 l2 : list B) x : (l1 ++ x :: l2) !! length l1 = Some x.
Proof. induction l1; simpl; auto. Qed.

Lemma alter_id_at {B} (f : B -> B) (ws : list B) i e :
  ws !! i = Some e -> f e = e -> alter f i ws = ws.
Proof.
  intros He Hf. apply list_eq. intros j. rewrite list_lookup_alter.
  case_decide; [subst; rewrite He; simpl; rewrite Hf|]; reflexivity.
Qed.

Lemma imap_const {A B} (f : A -> B) (l : list A) : imap (fun _ => f) l = map f l.
Proof. induction l as [|x l IH]; [reflexivity|]. simpl. f_equal. exact IH. Qed.

Section IndexLoops.
Context {B : Type}.
Local Open Scope nat_scope.

(** A loop over the indices of [l2] (placed after [l1]) whose body
    rewrites entry [i] with [g] on entries satisfying [P], and may abort
    elsewhere, maps [g] over [l2]. *)
Lemma res_loop_alter (f : list B -> nat -> res (list B)) (g : B -> B) (P : B -> Prop) l1 l2 l3 :
  Forall P l2 -> (forall ws i e, ws !! i = Some e -> P e -> f ws i = Ok (alter g i ws)) ->
  res_fold_left f (seq (length l1) (length l2)) (l1 ++ l2 ++ l3) = Ok (l1 ++ map g l2 ++ l3).
Proof.
  intros HP Hf. revert l1. induction l2 as [|x l2 IH]; intros l1; [reflexivity|].
  inversion HP as [|? ? Hx HP']; subst. cbn [length seq res_fold_left map app].
  rewrite (Hf _ _ x) by (exact (lookup_mid _ _ _) || exact Hx). rewrite alter_mid.
  replace (l1 ++ g x :: l2 ++ l3) with ((l1 ++ [g x]) ++ l2 ++ l3) by (rewrite <- app_assoc; reflexivity).
  replace (S (length l1)) with (length (l1 ++ [g x])) by (rewrite length_app; simpl; lia).
  rewrite IH by exact HP'. rewrite <- app_assoc. reflexivity.
Qed.

Lemma loop_alter (f : list B -> nat -> list B) (g : B -> B) (P : B -> Prop) l1 l2 l3 :
  Forall P l2 -> (forall ws i e, ws !! i = Some e -> P e -> f ws i = alter g i ws) ->
  fold_left f (seq (length l1) (length l2)) (l1 ++ l2 ++ l3) = l1 ++ map g l2 ++ l3.
Proof.
  intros HP Hf. assert (H := res_loop_alter (fun ws i => Ok (f ws i)) g P l1 l2 l3 HP).
  rewrite res_fold_left_Ok in H. injection H as H0; [exact H0|].
  intros ws i e He HPe. rewrite (Hf ws i e He HPe). reflexivity.
Qed.

End IndexLoops.

(** ** Automation *)

Create HintDb meep.
Create Rewrite HintDb meep_rw.
#[export] Hint Rewrite @res_bind_Ok @res_bind_Fatal @prod_over_cons @sum_over_cons : meep_rw.

(** Unfold a boolean test into its propositional reading and split on it. *)
Ltac case_bool_decide_all :=
  repeat match goal with
         | |- context [bool_decide ?P] => case_bool_decide
         end.

(** Decide the integer comparisons [x <? y] and [x =? y] of the goal
    whose outcome [lia] settles from the context. *)
Ltac zcmp_simpl :=
  repeat match goal with
         | |- context [Z.ltb ?x ?y] =>
             first [rewrite (proj2 (Z.ltb_lt x y)) by lia | rewrite (proj2 (Z.ltb_ge x y)) by lia]
         | |- context [Z.eqb ?x ?y] =>
             first [rewrite (proj2 (Z.eqb_eq x y)) by lia | rewrite (proj2 (Z.eqb_neq x y)) by lia]
         end.

(** Split on a count [a >= 1] being one point or more. *)
Ltac one_or_more a := destruct (Z.eq_dec a 1) as [->|?]; [|assert (1 < a) by lia].
