(* ===== verification/Geom.v ===== *)
(** * Geom: dimension tags, directions and field components

    The enums of meep/vec.hpp ([ndim], [direction], [component],
    [derived_component], [field_type], [boundary_side]), the direction loops
    [LOOP_OVER_DIRECTIONS] / [FOR_DIRECTIONS], the component helpers of the
    header (meep/vec.hpp is not part of the repository: these follow the
    spec and are not mapped to code), the values of the enums, and the
    name tables, [first_field_component] and [yucky_dir] of vec.cpp,
    which switch on those values. *)

From S2P Require Import Prelude.

Inductive ndim := D1 | D2 | D3 | Dcyl.
Inductive direction := X | Y | Z | R | P | NO_DIRECTION.
Inductive boundary_side := High | Low.
Inductive component :=
| Ex | Ey | Er | Ep | Ez | Hx | Hy | Hr | Hp | Hz
| Dx | Dy | Dr | Dp | Dz | Bx | By | Br | Bp | Bz
| Dielectric | Permeability.
Inductive derived_component :=
| Sx | Sy | Sr | Sp | Sz | EnergyDensity | D_EnergyDensity | H_EnergyDensity.
Inductive field_type := E_stuff | H_stuff | D_stuff | B_stuff | PE_stuff | PH_stuff.

(** The code passes stored and derived components through one [int c],
    told apart by [is_derived(c)]; the model uses the tagged sum. *)
Inductive any_component :=
| Comp (c : component)
| Derived (c : derived_component).

#[export] Instance ndim_eq_dec : EqDecision ndim.
Proof. solve_decision. Defined.
#[export] Instance direction_eq_dec : EqDecision direction.
Proof. solve_decision. Defined.
#[export] Instance boundary_side_eq_dec : EqDecision boundary_side.
Proof. solve_decision. Defined.
#[export] Instance component_eq_dec : EqDecision component.
Proof. solve_decision. Defined.
#[export] Instance derived_component_eq_dec : EqDecision derived_component.
Proof. solve_decision. Defined.
#[export] Instance any_component_eq_dec : EqDecision any_component.
Proof. solve_decision. Defined.

(** The integer value of a direction ([enum direction { X=0, Y, Z, R, P,
    NO_DIRECTION }]) and the cast [(direction) n]. *)
Definition dir_to_int (d : direction) : int :=
  match d with X => 0 | Y => 1 | Z => 2 | R => 3 | P => 4 | NO_DIRECTION => 5 end.

Definition dir_of_int (n : int) : direction :=
  match n with
  | 0 => X | 1 => Y | 2 => Z | 3 => R | 4 => P | _ => NO_DIRECTION
  end.

(** [LOOP_OVER_DIRECTIONS(dim, d)] runs [d] from [start_at_direction(dim)]
    to [stop_at_direction(dim) - 1]: Z in 1D, X Y in 2D, X Y Z in 3D, and
    Z R in cylindrical coordinates (in this order). *)
Definition loop_dirs (dim : ndim) : list direction :=
  match dim with
  | D1 => [Z]
  | D2 => [X; Y]
  | D3 => [X; Y; Z]
  | Dcyl => [Z; R]
  end.

(** [FOR_DIRECTIONS(d)]: every direction but [NO_DIRECTION]. *)
Definition all_dirs : list direction := [X; Y; Z; R; P].

Definition has_direction (dim : ndim) (d : direction) : bool :=
  bool_decide (d ∈ loop_dirs dim).

(** Index into the three-entry [num] array: [num[d%3]]. *)
Definition num_index (d : direction) : int := dir_to_int d mod 3.

(** ** Component classification (meep/vec.hpp) *)

Definition is_electric (c : component) : bool :=
  match c with Ex | Ey | Er | Ep | Ez => true | _ => false end.
Definition is_magnetic (c : component) : bool :=
  match c with Hx | Hy | Hr | Hp | Hz => true | _ => false end.
Definition is_D (c : component) : bool :=
  match c with Dx | Dy | Dr | Dp | Dz => true | _ => false end.
Definition is_B (c : component) : bool :=
  match c with Bx | By | Br | Bp | Bz => true | _ => false end.
Definition is_poynting (c : derived_component) : bool :=
  match c with Sx | Sy | Sr | Sp | Sz => true | _ => false end.

Definition component_direction (c : component) : direction :=
  match c with
  | Ex | Hx | Dx | Bx => X
  | Ey | Hy | Dy | By => Y
  | Ez | Hz | Dz | Bz => Z
  | Er | Hr | Dr | Br => R
  | Ep | Hp | Dp | Bp => P
  | Dielectric | Permeability => NO_DIRECTION
  end.

Definition derived_direction (c : derived_component) : direction :=
  match c with
  | Sx => X | Sy => Y | Sz => Z | Sr => R | Sp => P
  | EnergyDensity | D_EnergyDensity | H_EnergyDensity => NO_DIRECTION
  end.

(** [direction_component(c, d)]: the component of the same field kind as
    [c] along [d]; it aborts on a vector component and [NO_DIRECTION]. *)
Definition direction_component (c : component) (d : direction) : res component :=
  let pick (cx cy cz cr cp : component) :=
    match d with
    | X => Ok cx | Y => Ok cy | Z => Ok cz | R => Ok cr | P => Ok cp
    | NO_DIRECTION => Fatal (Abort "vector component in NO_DIRECTION")
    end in
  if is_electric c then pick Ex Ey Ez Er Ep
  else if is_magnetic c then pick Hx Hy Hz Hr Hp
  else if is_D c then pick Dx Dy Dz Dr Dp
  else if is_B c then pick Bx By Bz Br Bp
  else match c, d with
       | Dielectric, NO_DIRECTION => Ok Dielectric
       | Permeability, NO_DIRECTION => Ok Permeability
       | _, _ => Fatal (Abort "unknown field component")
       end.

Definition derived_direction_component (c : derived_component) (d : direction)
  : res derived_component :=
  if is_poynting c then
    match d with
    | X => Ok Sx | Y => Ok Sy | Z => Ok Sz | R => Ok Sr | P => Ok Sp
    | NO_DIRECTION => Fatal (Abort "vector component in NO_DIRECTION")
    end
  else match d with
       | NO_DIRECTION => Ok c
       | _ => Fatal (Abort "unknown field component")
       end.

(** ** Enum values

    The switches of vec.cpp below run on the value an enum holds, and
    their callers cast integers to enums ([(direction) n],
    [component(c)]), so they take the value.  The values are those of
    meep/vec.hpp: [ndim] [D1 = 0 .. Dcyl = 3], [component] [Ex = 0 ..
    Permeability = 21], [derived_component] [Sx = 100 .. H_EnergyDensity
    = 107], [field_type] [E_stuff = 0 .. PH_stuff = 5], and [is_derived(c)]
    is [c >= Sx]. *)

Definition ndim_code (dim : ndim) : int :=
  match dim with D1 => 0 | D2 => 1 | D3 => 2 | Dcyl => 3 end.

Definition component_code (c : component) : int :=
  match c with
  | Ex => 0 | Ey => 1 | Er => 2 | Ep => 3 | Ez => 4
  | Hx => 5 | Hy => 6 | Hr => 7 | Hp => 8 | Hz => 9
  | Dx => 10 | Dy => 11 | Dr => 12 | Dp => 13 | Dz => 14
  | Bx => 15 | By => 16 | Br => 17 | Bp => 18 | Bz => 19
  | Dielectric => 20 | Permeability => 21
  end.

Definition derived_code (c : derived_component) : int :=
  match c with
  | Sx => 100 | Sy => 101 | Sr => 102 | Sp => 103 | Sz => 104
  | EnergyDensity => 105 | D_EnergyDensity => 106 | H_EnergyDensity => 107
  end.

Definition any_code (c : any_component) : int :=
  match c with Comp c => component_code c | Derived c => derived_code c end.

Definition field_type_code (ft : field_type) : int :=
  match ft with
  | E_stuff => 0 | H_stuff => 1 | D_stuff => 2 | B_stuff => 3 | PE_stuff => 4 | PH_stuff => 5
  end.

Definition is_derived (c : int) : bool := Z.leb 100 c.

(** ** Name tables and small helpers of vec.cpp *)

(** [dimension_name(ndim dim)] *)
Definition dimension_name (dim : int) : string :=
  match dim with
  | 0 => "1D" | 1 => "2D" | 2 => "3D" | 3 => "Cylindrical"
  | _ => "Error in dimension_name"
  end.

(** [direction_name(direction d)] *)
Definition direction_name (d : int) : string :=
  match d with
  | 0 => "x" | 1 => "y" | 2 => "z" | 3 => "r" | 4 => "phi" | 5 => "no_direction"
  | _ => "Error in direction_name"
  end.

(** The [switch] of [component_name(component)] and its fall-through
    return. *)
Definition component_switch (c : int) : string :=
  match c with
  | 2 => "er" | 3 => "ep" | 4 => "ez" | 7 => "hr" | 8 => "hp"
  | 9 => "hz" | 0 => "ex" | 1 => "ey" | 5 => "hx" | 6 => "hy"
  | 10 => "dx" | 11 => "dy" | 14 => "dz" | 12 => "dr" | 13 => "dp"
  | 15 => "bx" | 16 => "by" | 19 => "bz" | 17 => "br" | 18 => "bp"
  | 20 => "eps" | 21 => "mu"
  | _ => "Error in component_name"
  end.

(** The [switch] of [component_name(derived_component)] and its
    fall-through return. *)
Definition derived_switch (c : int) : string :=
  match c with
  | 102 => "sr" | 103 => "sp" | 104 => "sz" | 100 => "sx" | 101 => "sy"
  | 105 => "energy" | 106 => "denergy" | 107 => "henergy"
  | _ => "Error in component_name"
  end.

(** [component_name(component c)]: a derived value is passed to
    [component_name(derived_component)], whose own [!is_derived] test is
    then false. *)
Definition component_name (c : int) : string :=
  if is_derived c then (if negb (is_derived c) then component_switch c else derived_switch c)
  else component_switch c.

(** [component_name(derived_component c)]: a stored value is passed to
    [component_name(component)], whose own [is_derived] test is then
    false. *)
Definition derived_component_name (c : int) : string :=
  if negb (is_derived c) then (if is_derived c then derived_switch c else component_switch c)
  else derived_switch c.

(** [component_name(int c)] *)
Definition any_component_name (c : int) : string :=
  if is_derived c then derived_component_name c else component_name c.

(** [first_field_component(field_type ft)] *)
Definition first_field_component (ft : int) : res component :=
  match ft with
  | 0 => Ok Ex
  | 1 => Ok Hx
  | 2 => Ok Dx
  | 3 => Ok Bx
  | _ => Fatal (Abort "bug - only E/H/D/B stuff have components")
  end.

(** [yucky_dir(dim, n)]: the loop order of the nested [LOOP_OVER_IVECS]
    macros (n = 0 outermost, n = 2 innermost), as the value of the
    [direction] it returns.  In cylindrical coordinates an [n] outside
    the [switch] falls through to [return (direction) n]; [%] is the C
    remainder. *)
Definition yucky_dir (dim : ndim) (n : int) : int :=
  match dim with
  | Dcyl =>
      match n with
      | 0 => dir_to_int P | 1 => dir_to_int R | 2 => dir_to_int Z | _ => n
      end
  | D2 => Z.rem (n + 2) 3
  | _ => n
  end.

(** ** Lemmas on the direction loops *)

(** The three [component_name] overloads name every value alike: each
    hands the value to the switch of its kind. *)
Lemma component_name_overloads (c : int) :
  derived_component_name c = component_name c /\ any_component_name c = component_name c.
Proof.
  unfold any_component_name, derived_component_name, component_name.
  destruct (is_derived c); split; reflexivity.
Qed.

Lemma component_name_code (c : component) : component_name (component_code c) = component_switch (component_code c).
Proof. destruct c; reflexivity. Qed.


Lemma has_direction_spec dim d : has_direction dim d = true <-> In d (loop_dirs dim).
Proof.
  destruct dim, d; vm_compute; intuition discriminate.
Qed.

Lemma loop_dirs_not_no dim d : In d (loop_dirs dim) -> d <> NO_DIRECTION.
Proof. destruct dim; simpl; intros H; intuition (subst; discriminate). Qed.

Lemma loop_dirs_NoDup dim : NoDup (loop_dirs dim).
Proof. destruct dim; apply (bool_decide_unpack _); reflexivity. Qed.

(** Distinct active directions read distinct entries of [num]. *)
Lemma active_index_inj dm d1 d2 :
  In d1 (loop_dirs dm) -> In d2 (loop_dirs dm) -> num_index d1 = num_index d2 -> d1 = d2.
Proof.
  destruct dm; simpl; intros H1 H2;
    intuition (subst; first [reflexivity | vm_compute; discriminate]).
Qed.

Lemma num_index_range d : In (num_index d) [0; 1; 2].
Proof. destruct d; vm_compute; tauto. Qed.

#[export] Hint Resolve loop_dirs_not_no : meep.
