(* ===== verification/Coord.v ===== *)
(** * Coord: lattice points [ivec] and continuous points [vec]

    Both C++ classes hold a dimension tag and an array [t[5]] indexed by
    direction; operations touch the active directions of the tag
    ([LOOP_OVER_DIRECTIONS]).  [table A] is that array.  The constructor
    [ivec(ndim)] leaves [t] uninitialised; the model starts from zeros, and
    the equivalence [ivec_equiv] compares active directions only, as
    [ivec::operator==] does.  Reading [t[NO_DIRECTION]] is out of bounds in
    C++; no modelled path does it, and [tget] returns the X cell there. *)

From S2P Require Import Prelude Geom.

Record table (A : Type) := mktable { tX : A; tY : A; tZ : A; tR : A; tP : A }.
Arguments mktable {A} _ _ _ _ _.
Arguments tX {A} _.
Arguments tY {A} _.
Arguments tZ {A} _.
Arguments tR {A} _.
Arguments tP {A} _.

Definition tconst {A} (x : A) : table A := mktable x x x x x.

Definition tget {A} (t : table A) (d : direction) : A :=
  match d with
  | X => tX t | Y => tY t | Z => tZ t | R => tR t | P => tP t
  | NO_DIRECTION => tX t
  end.

Definition tset {A} (t : table A) (d : direction) (x : A) : table A :=
  match d with
  | X => mktable x (tY t) (tZ t) (tR t) (tP t)
  | Y => mktable (tX t) x (tZ t) (tR t) (tP t)
  | Z => mktable (tX t) (tY t) x (tR t) (tP t)
  | R => mktable (tX t) (tY t) (tZ t) x (tP t)
  | P => mktable (tX t) (tY t) (tZ t) (tR t) x
  | NO_DIRECTION => t
  end.

(** [LOOP_OVER_DIRECTIONS(dim, d) t[d] = f(d)] on a copy of [init]. *)
Definition loop_set {A} (dim : ndim) (f : direction -> A) (init : table A) : table A :=
  fold_left (fun t d => tset t d (f d)) (loop_dirs dim) init.

(** ** Integer lattice points *)

Module IVec.

Record ivec := mkivec { dim : ndim; t : table int }.

Definition in_direction (v : ivec) (d : direction) : int := tget (t v) d.
Definition set_direction (v : ivec) (d : direction) (x : int) : ivec :=
  mkivec (dim v) (tset (t v) d x).

Definition blank (dim : ndim) : ivec := mkivec dim (tconst 0).
Definition zero_ivec (dim : ndim) : ivec := blank dim.
Definition one_ivec (dim : ndim) : ivec := mkivec dim (loop_set dim (fun _ => 1) (tconst 0)).

(** Pointwise operations on the active directions of the left operand. *)
Definition map2 (f : int -> int -> int) (a b : ivec) : ivec :=
  mkivec (dim a) (loop_set (dim a) (fun d => f (in_direction a d) (in_direction b d)) (tconst 0)).
Definition map1 (f : int -> int) (a : ivec) : ivec :=
  mkivec (dim a) (loop_set (dim a) (fun d => f (in_direction a d)) (tconst 0)).

Definition add (a b : ivec) : ivec := map2 Z.add a b.
Definition sub (a b : ivec) : ivec := map2 Z.sub a b.
Definition scale (a : ivec) (s : int) : ivec := map1 (fun x => x * s) a.
Definition neg (a : ivec) : ivec := map1 Z.opp a.

(** [min(const ivec &ivec1, const ivec &ivec2)]: [ivec m(ivec1.dim)],
    then [LOOP_OVER_DIRECTIONS(ivec1.dim, d) m.set_direction(d,
    min(...))]. *)
Definition min (ivec1 ivec2 : ivec) : ivec :=
  fold_left (fun m d => set_direction m d (Z.min (in_direction ivec1 d) (in_direction ivec2 d)))
    (loop_dirs (dim ivec1)) (blank (dim ivec1)).

(** [max(const ivec &ivec1, const ivec &ivec2)] *)
Definition max (ivec1 ivec2 : ivec) : ivec :=
  fold_left (fun m d => set_direction m d (Z.max (in_direction ivec1 d) (in_direction ivec2 d)))
    (loop_dirs (dim ivec1)) (blank (dim ivec1)).

(** [round_up_to_even]: [t + (t >= 0 ? t % 2 : -t % 2)] per direction. *)
Definition round_up_to_even (a : ivec) : ivec :=
  map1 (fun x => x + (if Z.leb 0 x then Z.rem x 2 else Z.rem (- x) 2)) a.

(** Dimension-specific constructors [ivec(z)], [ivec(x,y)],
    [ivec(x,y,z)] and [iveccyl(r,z)]. *)
Definition ivec1 (z : int) : ivec := set_direction (blank D1) Z z.
Definition ivec2 (x y : int) : ivec := set_direction (set_direction (blank D2) X x) Y y.
Definition ivec3 (x y z : int) : ivec :=
  set_direction (set_direction (set_direction (blank D3) X x) Y y) Z z.
Definition iveccyl (r z : int) : ivec := set_direction (set_direction (blank Dcyl) R r) Z z.

(** [ivec::operator==]: the active directions agree. *)
Definition eqb (a b : ivec) : bool :=
  forallb (fun d => Z.eqb (in_direction a d) (in_direction b d)) (loop_dirs (dim a)).

Definition equiv (a b : ivec) : Prop :=
  dim a = dim b /\ forall d, In d (loop_dirs (dim a)) -> in_direction a d = in_direction b d.

(** [ivec::yucky_val(n)].  [has_direction] holds of no value outside the
    directions, so the cast [dir_of_int] (which sends those values to
    [NO_DIRECTION]) decides it as the header does. *)
Definition yucky_val (v : ivec) (n : int) : int :=
  if has_direction (dim v) (dir_of_int (yucky_dir (dim v) n))
  then in_direction v (dir_of_int (yucky_dir (dim v) n)) else 0.

End IVec.

(** ** Continuous points *)

Module Vec.

Record vec := mkvec { dim : ndim; t : table Q }.

Definition in_direction (v : vec) (d : direction) : Q := tget (t v) d.
Definition set_direction (v : vec) (d : direction) (x : Q) : vec :=
  mkvec (dim v) (tset (t v) d x).

Definition blank (dim : ndim) : vec := mkvec dim (tconst 0%Q).
Definition zero_vec (dim : ndim) : vec := blank dim.

Definition map2 (f : Q -> Q -> Q) (a b : vec) : vec :=
  mkvec (dim a) (loop_set (dim a) (fun d => f (in_direction a d) (in_direction b d)) (tconst 0%Q)).
Definition map1 (f : Q -> Q) (a : vec) : vec :=
  mkvec (dim a) (loop_set (dim a) (fun d => f (in_direction a d)) (tconst 0%Q)).

Definition add (a b : vec) : vec := map2 Qplus a b.
Definition sub (a b : vec) : vec := map2 Qminus a b.
Definition scale (a : vec) (s : Q) : vec := map1 (fun x => x * s)%Q a.

(** [vec min(const vec&, const vec&)] and [max] (vec.cpp). *)
(** [min(const vec &vec1, const vec &vec2)]: [vec m(vec1.dim)], then
    [LOOP_OVER_DIRECTIONS(vec1.dim, d) m.set_direction(d, min(...))]. *)
Definition min (vec1 vec2 : vec) : vec :=
  fold_left (fun m d => set_direction m d (dmin (in_direction vec1 d) (in_direction vec2 d)))
    (loop_dirs (dim vec1)) (blank (dim vec1)).

(** [max(const vec &vec1, const vec &vec2)] *)
Definition max (vec1 vec2 : vec) : vec :=
  fold_left (fun m d => set_direction m d (dmax (in_direction vec1 d) (in_direction vec2 d)))
    (loop_dirs (dim vec1)) (blank (dim vec1)).

Definition vec1 (z : Q) : vec := set_direction (blank D1) Z z.
Definition vec2 (x y : Q) : vec := set_direction (set_direction (blank D2) X x) Y y.
Definition vec3 (x y z : Q) : vec :=
  set_direction (set_direction (set_direction (blank D3) X x) Y y) Z z.
Definition veccyl (r z : Q) : vec := set_direction (set_direction (blank Dcyl) R r) Z z.

(** [ivec * double]: the lattice point scaled to continuous coordinates. *)
Definition of_ivec (p : IVec.ivec) (s : Q) : vec :=
  mkvec (IVec.dim p) (loop_set (IVec.dim p) (fun d => inject_Z (IVec.in_direction p d) * s)%Q (tconst 0%Q)).

(** [vec::operator==] up to rational equality. *)
Definition eqb (a b : vec) : bool :=
  forallb (fun d => Qeq_bool (in_direction a d) (in_direction b d)) (loop_dirs (dim a)).

(** [vec::project_to_boundary(d, loc)]. *)
Definition project_to_boundary (v : vec) (d : direction) (boundary_loc : Q) : Q :=
  Qabs (boundary_loc - in_direction v d).

End Vec.

(** [my_round(x)] (meep/vec.hpp): round half away from zero. *)
Definition my_round (x : Q) : int :=
  if Qle_bool 0 x then Qfloor (x + (1#2)) else - Qfloor (- x + (1#2)).

Lemma tget_tset {A} (t : table A) d e x :
  e <> NO_DIRECTION ->
  tget (tset t d x) e = if decide (d = e) then x else tget t e.
Proof. intros He. destruct d, e; try contradiction; reflexivity. Qed.

Lemma tget_loop_set {A} dim (f : direction -> A) init d :
  d <> NO_DIRECTION ->
  tget (loop_set dim f init) d =
    if has_direction dim d then f d else tget init d.
Proof. intros Hd. destruct dim, d; try contradiction; reflexivity. Qed.

#[export] Hint Rewrite @tget_loop_set using discriminate : meep_rw.

(** ** Lemmas on the active-direction operations *)

Lemma ivec_map2_get f a b d :
  In d (loop_dirs (IVec.dim a)) ->
  IVec.in_direction (IVec.map2 f a b) d = f (IVec.in_direction a d) (IVec.in_direction b d).
Proof.
  intros Hd. unfold IVec.map2, IVec.in_direction at 1. simpl.
  destruct (IVec.dim a), d; simpl in Hd; intuition discriminate.
Qed.

Lemma ivec_map1_get f a d :
  In d (loop_dirs (IVec.dim a)) ->
  IVec.in_direction (IVec.map1 f a) d = f (IVec.in_direction a d).
Proof.
  intros Hd. unfold IVec.map1, IVec.in_direction at 1. simpl.
  destruct (IVec.dim a), d; simpl in Hd; intuition discriminate.
Qed.

Lemma vec_map2_get f a b d :
  In d (loop_dirs (Vec.dim a)) ->
  Vec.in_direction (Vec.map2 f a b) d = f (Vec.in_direction a d) (Vec.in_direction b d).
Proof.
  intros Hd. unfold Vec.map2, Vec.in_direction at 1. simpl.
  destruct (Vec.dim a), d; simpl in Hd; intuition discriminate.
Qed.

Lemma vec_map1_get f v d :
  In d (loop_dirs (Vec.dim v)) -> Vec.in_direction (Vec.map1 f v) d = f (Vec.in_direction v d).
Proof.
  intros Hd. unfold Vec.map1, Vec.in_direction at 1. simpl.
  destruct (Vec.dim v), d; simpl in Hd; intuition discriminate.
Qed.

Lemma ivec_get_set v d e x :
  e <> NO_DIRECTION ->
  IVec.in_direction (IVec.set_direction v d x) e = if decide (d = e) then x else IVec.in_direction v e.
Proof. intros He. unfold IVec.in_direction, IVec.set_direction. simpl. apply tget_tset, He. Qed.

Lemma vec_get_set v d e x :
  e <> NO_DIRECTION ->
  Vec.in_direction (Vec.set_direction v d x) e = if decide (d = e) then x else Vec.in_direction v e.
Proof. intros He. unfold Vec.in_direction, Vec.set_direction. simpl. apply tget_tset, He. Qed.

Lemma ivec_ext a b :
  IVec.dim a = IVec.dim b ->
  (forall d, d <> NO_DIRECTION -> IVec.in_direction a d = IVec.in_direction b d) -> a = b.
Proof.
  destruct a as [da [ax ay az ar ap]], b as [db [bx by0 bz br bp]].
  unfold IVec.in_direction. simpl. intros -> H. f_equal. f_equal;
    [apply (H X) | apply (H Y) | apply (H Z) | apply (H R) | apply (H P)]; discriminate.
Qed.

(** Writing [h d] at each direction of a duplicate-free list of directions. *)
Lemma ivec_set_fold (h : direction -> int) ds out :
  NoDup ds -> (forall d, In d ds -> d <> NO_DIRECTION) ->
  IVec.dim (fold_left (fun o d => IVec.set_direction o d (h d)) ds out) = IVec.dim out
  /\ forall e, e <> NO_DIRECTION ->
     IVec.in_direction (fold_left (fun o d => IVec.set_direction o d (h d)) ds out) e
     = if decide (In e ds) then h e else IVec.in_direction out e.
Proof.
  revert out. induction ds as [|d ds IH]; intros out Hnd Hno; [split; [reflexivity|]|].
  - intros e _. reflexivity.
  - inversion Hnd as [|? ? Hd Hnd']; subst. simpl.
    destruct (IH (IVec.set_direction out d (h d)) Hnd' (fun x Hx => Hno x (or_intror Hx))) as [H1 H2].
    split; [exact H1|]. intros e He. rewrite H2 by exact He. rewrite ivec_get_set by exact He.
    destruct (decide (In e ds)), (decide (d = e)), (decide (d = e \/ In e ds)); subst; tauto || reflexivity.
Qed.

Lemma ivec_set_dim v d x : IVec.dim (IVec.set_direction v d x) = IVec.dim v.
Proof. reflexivity. Qed.

Lemma ivec_eqb_equiv a b :
  IVec.dim a = IVec.dim b -> (IVec.eqb a b = true <-> IVec.equiv a b).
Proof.
  intros Hdim. unfold IVec.eqb, IVec.equiv. rewrite forallb_forall.
  split.
  - intros H. split; [exact Hdim|]. intros d Hd. apply Z.eqb_eq, H, Hd.
  - intros [_ H] d Hd. apply Z.eqb_eq, H, Hd.
Qed.

#[export] Hint Rewrite ivec_map2_get ivec_map1_get vec_map2_get using (simpl; tauto) : meep_rw.

(** A round-up-to-even coordinate is even, and exceeds its input by at most one. *)
Lemma round_up_to_even_spec (x : int) :
  let y := x + (if Z.leb 0 x then Z.rem x 2 else Z.rem (- x) 2) in
  Z.Even y /\ x <= y <= x + 1.
Proof.
  simpl. destruct (Z.leb_spec 0 x); rewrite rem_nonneg by lia;
    Z.div_mod_to_equations; (split; [|lia]).
  - destruct (Z.eq_dec r 0); [exists q | exists (q + 1)]; lia.
  - exists (- q). lia.
Qed.
