(* ===== verification/Stupidsort.v ===== *)
(** * Stupidsort: compaction of the interpolation arrays ([stupidsort])

    The two [static inline stupidsort] overloads of vec.cpp walk a pair
    of parallel arrays ([ind]/[locs] and [w]) of length [l]: an entry whose
    weight is below [2e-15] in magnitude is overwritten by the last entry
    of the window, the last slot is cleared to [(0, 0.0)], and the window
    shrinks; otherwise the window moves on.  The parallel arrays are one
    list of pairs here, updated together as the code does, with stdpp's
    [insert] for the indexed writes.

    The specification of a pass is [stupidsort_loop_spec]: the window
    becomes the entries of non-tiny weight, in some order, followed by
    cleared slots.  The order is not the order of the input
    ([stupidsort_not_stable]). *)

From S2P Require Import Prelude Geom Coord.

Module Stupidsort.

(** [fabs(w[0]) < 2e-15] *)
Definition tiny : Q := 2 # 1000000000000000.
Definition is_tiny (w : Q) : bool := Qlt_bool (Qabs w) tiny.

Section Pass.
Context {A : Type} (zero : A).

(** [while (l) { ... l -= 1; }], with [base] the offset of the pointers
    [w] and [ind] from the start of the arrays. *)
Fixpoint stupidsort_loop (l base : nat) (ws : list (A * Q)) : list (A * Q) :=
  match l with
  | O => ws
  | S l' =>
      if is_tiny (snd (nth base ws (zero, 0%Q))) then
        let last := nth (base + l')%nat ws (zero, 0%Q) in
        stupidsort_loop l' base (<[(base + l')%nat := (zero, 0%Q)]> (<[base := last]> ws))
      else stupidsort_loop l' (S base) ws
  end.

Definition stupidsort (ws : list (A * Q)) (l : nat) : list (A * Q) := stupidsort_loop l 0 ws.

(** The entries a pass keeps. *)
Definition kept (e : A * Q) : Prop := is_tiny (snd e) = false.
#[export] Instance kept_dec (e : A * Q) : Decision (kept e) := decide (is_tiny (snd e) = false).

End Pass.

(** [stupidsort(int *ind, double *w, int l)] *)
Definition stupidsort_ind (ws : list (int * Q)) (l : nat) : list (int * Q) := stupidsort 0 ws l.

(** [stupidsort(ivec *locs, double *w, int l)]: [locs[l-1] = 0] is the
    one-dimensional point [ivec(0)]. *)
Definition stupidsort_locs (ws : list (IVec.ivec * Q)) (l : nat) : list (IVec.ivec * Q) :=
  stupidsort (IVec.ivec1 0) ws l.

(** ** One pass *)

Section PassSpec.
Context {A : Type} (zero : A).
Local Open Scope nat_scope.

Lemma stupidsort_loop_spec l pre win post :
  length win = l ->
  exists big,
    stupidsort_loop zero l (length pre) (pre ++ win ++ post)
      = pre ++ big ++ replicate (l - length big) (zero, 0%Q) ++ post
    /\ Forall kept big /\ big ≡ₚ filter kept win.
Proof.
  revert pre win post. induction l as [|l IH]; intros pre win post Hl.
  - destruct win; [|discriminate]. exists []. simpl. auto.
  - destruct win as [|x mid]; [discriminate|]. injection Hl as Hl. cbn [stupidsort_loop].
    change ((x :: mid) ++ post) with (x :: (mid ++ post)).
    rewrite nth_mid. destruct (is_tiny (snd x)) eqn:Ex.
    + destruct l as [|l].
      * (* the last entry of the window is the tiny one *)
        destruct mid; [|discriminate]. simpl.
        rewrite Nat.add_0_r, insert_mid, insert_mid. exists []. simpl.
        split; [reflexivity|]. split; [constructor|]. unfold kept. rewrite filter_cons_False; [reflexivity|congruence].
      * (* the last entry [y0] moves to the front of the window *)
        destruct mid as [|m mid']; [discriminate|].
        destruct (@exists_last _ (m :: mid') (ltac:(discriminate))) as [mid0 [y0 Hm]].
        rewrite Hm. rewrite Hm in Hl.
        assert (Hlen : length mid0 = l) by (rewrite length_app in Hl; simpl in Hl; lia).
        assert (Hn : nth (length pre + S l) (pre ++ x :: ((mid0 ++ [y0]) ++ post)) (zero, 0%Q) = y0).
        { replace (pre ++ x :: ((mid0 ++ [y0]) ++ post)) with ((pre ++ x :: mid0) ++ y0 :: post)
            by (rewrite <- !app_assoc; reflexivity).
          replace (length pre + S l) with (length (pre ++ x :: mid0)) by (rewrite length_app; simpl; lia).
          apply nth_mid. }
        rewrite Hn.
        replace (pre ++ x :: ((mid0 ++ [y0]) ++ post)) with (pre ++ x :: (mid0 ++ [y0] ++ post))
          by (rewrite <- !app_assoc; reflexivity).
        rewrite insert_mid.
        replace (pre ++ y0 :: mid0 ++ [y0] ++ post) with ((pre ++ y0 :: mid0) ++ y0 :: post)
          by (rewrite <- !app_assoc; reflexivity).
        replace (length pre + S l) with (length (pre ++ y0 :: mid0)) by (rewrite length_app; simpl; lia).
        rewrite insert_mid, <- app_assoc. cbn [app].
        destruct (IH pre (y0 :: mid0) ((zero, 0%Q) :: post)) as (big & Hr & Hk & Hp); [simpl; lia|].
        exists big. split; [|split; [exact Hk|]].
        -- change ((y0 :: mid0) ++ (zero, 0%Q) :: post) with (y0 :: mid0 ++ (zero, 0%Q) :: post) in Hr.
           rewrite Hr. f_equal. f_equal.
           assert (length big <= S l).
           { apply Permutation_length in Hp. rewrite Hp. etransitivity; [apply length_filter|]. simpl; lia. }
           replace (S (S l) - length big) with (S (S l - length big)) by lia.
           rewrite replicate_S_end, <- app_assoc. reflexivity.
        -- rewrite Hp, (filter_cons_False _ x) by (unfold kept; congruence).
           rewrite filter_app, (filter_cons _ y0), (filter_cons _ y0), filter_nil.
           destruct (decide (kept y0)); rewrite ?app_nil_r; [apply Permutation_cons_append|reflexivity].
    + (* a kept entry: the window moves past it *)
      destruct (IH (pre ++ [x]) mid post) as (big & Hr & Hk & Hp); [exact Hl|].
      exists (x :: big).
      replace (S (length pre)) with (length (pre ++ [x])) by (rewrite length_app; simpl; lia).
      replace (pre ++ x :: (mid ++ post)) with ((pre ++ [x]) ++ mid ++ post) by (rewrite <- !app_assoc; reflexivity).
      rewrite Hr. split; [rewrite <- !app_assoc; reflexivity|].
      split; [constructor; assumption|].
      rewrite filter_cons_True by exact Ex. constructor. exact Hp.
Qed.

Lemma stupidsort_loop_length l base ws : length (stupidsort_loop zero l base ws) = length ws.
Proof.
  revert base ws. induction l as [|l IH]; intros base ws; [reflexivity|]. simpl.
  destruct (is_tiny _); rewrite IH; [rewrite !length_insert|]; reflexivity.
Qed.

End PassSpec.

Lemma kept_nonzero {B} (e : B * Q) : kept e -> ~ (snd e == 0)%Q.
Proof.
  unfold kept, is_tiny. intros Hk E. apply not_true_iff_false in Hk. apply Hk, Qlt_bool_iff.
  rewrite (Qabs_wd _ _ E). reflexivity.
Qed.

Lemma Forall_filter_kept {B} (P : B * Q -> Prop) l :
  Forall (fun e => kept e -> P e) l -> Forall P (filter kept l).
Proof.
  induction 1 as [|e l He _ IH]; [constructor|]. rewrite filter_cons.
  case_decide; [constructor; auto|exact IH].
Qed.

(** A window of zero weights is cleared. *)
Lemma stupidsort_zero {A} (zero : A) (ws : list (A * Q)) :
  Forall (fun e => snd e == 0)%Q ws -> stupidsort zero ws (length ws) = replicate (length ws) (zero, 0%Q).
Proof.
  intros Hz. unfold stupidsort.
  assert (Hf : filter kept ws = []).
  { clear -Hz. induction Hz as [|e ws He _ IH]; [reflexivity|]. rewrite filter_cons.
    case_decide as Hk; [exfalso; apply (kept_nonzero _ Hk), He|exact IH]. }
  destruct (stupidsort_loop_spec zero (length ws) [] ws [] eq_refl) as (big & Hs & _ & Hp).
  rewrite Hf in Hp. apply Permutation_sym, Permutation_nil in Hp. subst big.
  rewrite app_nil_r in Hs. simpl in Hs. rewrite Hs, Nat.sub_0_r, app_nil_r. reflexivity.
Qed.

(** ** What [stupidsort] computes *)

(** C24. [stupidsort(ind, w, l)] on a whole array keeps exactly the
    entries whose weight is not tiny ([|w| >= 2e-15]), as a permutation of
    them, at the front, and clears every other slot to [(0, 0.0)]. *)
Theorem stupidsort_compacts (ws : list (int * Q)) :
  exists big,
    stupidsort_ind ws (length ws) = big ++ replicate (length ws - length big) (0, 0%Q)
    /\ Forall (fun e => is_tiny (snd e) = false) big
    /\ big ≡ₚ filter kept ws.
Proof.
  destruct (stupidsort_loop_spec 0 (length ws) [] ws [] eq_refl) as (big & Hs & Hk & Hp).
  exists big. unfold stupidsort_ind, stupidsort. rewrite app_nil_r in Hs. simpl in Hs.
  rewrite app_nil_r in Hs. split; [exact Hs|]. split; [exact Hk|exact Hp].
Qed.

(** The compaction does not keep the order of the kept entries (the
    specification calls it stable): the last entry is moved into the
    first tiny slot, so [(1, 0); (2, 1); (3, 1)] becomes
    [(3, 1); (2, 1); (0, 0)]. *)
Theorem stupidsort_not_stable :
  stupidsort_ind [(1, 0%Q); (2, 1%Q); (3, 1%Q)] 3 = [(3, 1%Q); (2, 1%Q); (0, 0%Q)]
  /\ filter kept [(1, 0%Q); (2, 1%Q); (3, 1%Q)] = [(2, 1%Q); (3, 1%Q)].
Proof. split; vm_compute; reflexivity. Qed.

End Stupidsort.
