(* ===== verification/Volume.v ===== *)
(** * Volume: continuous axis-aligned boxes ([class volume])

    A [volume] is a dimension tag and two corners.  The constructor from
    two points orders the corners per axis ([min]/[max]).  Doubles are exact
    rationals here; [volume::round_float] (rounding each corner to single
    precision before a comparison) is the identity of the model, so volume
    comparisons are exact.  [pi] appears only in the cylindrical measures
    and is a parameter of those definitions. *)

From S2P Require Import Prelude Geom Coord.

Module Volume.

Record volume := mkvol { dim : ndim; min_corner : Vec.vec; max_corner : Vec.vec }.

(** [volume(const vec &vec1, const vec &vec2)] *)
Definition make (vec1 vec2 : Vec.vec) : volume :=
  mkvol (Vec.dim vec1) (Vec.min vec1 vec2) (Vec.max vec1 vec2).

(** [volume(const vec &pt)] *)
Definition of_point (pt : Vec.vec) : volume := mkvol (Vec.dim pt) pt pt.

(** [volume(ndim)]: corners uninitialised in C++, zero here. *)
Definition blank (dim : ndim) : volume := mkvol dim (Vec.blank dim) (Vec.blank dim).

Definition in_direction_min (v : volume) (d : direction) : Q := Vec.in_direction (min_corner v) d.
Definition in_direction_max (v : volume) (d : direction) : Q := Vec.in_direction (max_corner v) d.
Definition in_direction (v : volume) (d : direction) : Q := (in_direction_max v d - in_direction_min v d)%Q.

Definition set_direction_min (v : volume) (d : direction) (x : Q) : volume :=
  mkvol (dim v) (Vec.set_direction (min_corner v) d x) (max_corner v).
Definition set_direction_max (v : volume) (d : direction) (x : Q) : volume :=
  mkvol (dim v) (min_corner v) (Vec.set_direction (max_corner v) d x).

(** A product over the active directions, [LOOP_OVER_DIRECTIONS(dim,d) vol *= f(d)]. *)
Definition qprod (dim : ndim) (f : direction -> Q) : Q :=
  fold_left (fun acc d => acc * f d)%Q (loop_dirs dim) 1%Q.

Definition computational_volume (v : volume) : Q := qprod (dim v) (in_direction v).

Section Cylindrical.
Variable pi : Q.

Definition integral_volume (v : volume) : Q :=
  let vol := qprod (dim v) (fun d => if Qeq_bool (in_direction v d) 0 then 1%Q else in_direction v d) in
  if decide (dim v = Dcyl) then (vol * (pi * (in_direction_max v R + in_direction_min v R)))%Q
  else vol.

Definition full_volume (v : volume) : Q :=
  let vol := computational_volume v in
  if decide (dim v = Dcyl) then (vol * (pi * (in_direction_max v R + in_direction_min v R)))%Q
  else vol.
End Cylindrical.

Definition diameter (v : volume) : Q :=
  fold_left (fun diam d => dmax diam (in_direction v d)) (loop_dirs (dim v)) 0%Q.

(** [intersect_with]: per-axis clamp; the zero volume once an axis is
    disjoint; abort on a dimension mismatch. *)
Fixpoint intersect_loop (self other : volume) (ds : list direction) (result : volume) : volume :=
  match ds with
  | [] => result
  | d :: ds' =>
      let minval := dmax (in_direction_min self d) (in_direction_min other d) in
      let maxval := dmin (in_direction_max self d) (in_direction_max other d) in
      if Qlt_le_dec maxval minval then make (Vec.zero_vec (dim self)) (Vec.zero_vec (dim self))
      else intersect_loop self other ds'
             (set_direction_max (set_direction_min result d minval) d maxval)
  end.

Definition intersect_with (self other : volume) : res volume :=
  if decide (dim other = dim self) then
    Ok (intersect_loop self other (loop_dirs (dim self)) (blank (dim self)))
  else Fatal (Abort "Can't intersect volumes of dissimilar dimensions.").

Definition intersects (self other : volume) : res bool :=
  if decide (dim other = dim self) then
    Ok (forallb (fun d =>
          let minval := dmax (in_direction_min self d) (in_direction_min other d) in
          let maxval := dmin (in_direction_max self d) (in_direction_max other d) in
          Qle_bool minval maxval) (loop_dirs (dim self)))
  else Fatal (Abort "Can't intersect volumes of dissimilar dimensions.").

(** [normal_direction]: the unique axis of zero extent of a box of
    codimension one, else [NO_DIRECTION]; in 1D always Z. *)
Definition normal_direction (v : volume) : direction :=
  match dim v with
  | D1 => Z
  | D2 =>
      if Qeq_bool (in_direction v X) 0 && Qlt_bool 0 (in_direction v Y) then X
      else if Qlt_bool 0 (in_direction v X) && Qeq_bool (in_direction v Y) 0 then Y
      else NO_DIRECTION
  | Dcyl =>
      if Qeq_bool (in_direction v R) 0 && Qlt_bool 0 (in_direction v Z) then R
      else if Qlt_bool 0 (in_direction v R) && Qeq_bool (in_direction v Z) 0 then Z
      else NO_DIRECTION
  | D3 =>
      let zx := Qeq_bool (in_direction v X) 0 in
      let zy := Qeq_bool (in_direction v Y) 0 in
      let zz := Qeq_bool (in_direction v Z) 0 in
      if zx && negb zy && negb zz then X
      else if negb zx && zy && negb zz then Y
      else if negb zx && negb zy && zz then Z
      else NO_DIRECTION
  end.

(** [contains(const vec &p)]: inclusive bounds on every active axis. *)
Definition contains (v : volume) (p : Vec.vec) : bool :=
  forallb (fun d =>
    negb (Qlt_bool (in_direction_max v d) (Vec.in_direction p d)) &&
    negb (Qlt_bool (Vec.in_direction p d) (in_direction_min v d))) (loop_dirs (dim v)).

Definition contains_volume (v a : volume) : bool :=
  contains v (min_corner a) && contains v (max_corner a).

Definition empty_volume (dim : ndim) : volume :=
  mkvol dim (Vec.blank dim) (Vec.blank dim).

(** [volume::operator==] after [round_float]: exact corner equality. *)
Definition eqb (v w : volume) : bool :=
  Vec.eqb (min_corner v) (min_corner w) && Vec.eqb (max_corner v) (max_corner w).

End Volume.
