(* ===== verification/GridVolume.v ===== *)
(** * GridVolume: the discretised domain descriptor ([class grid_volume])

    State: dimension tag, resolution [a] and [inva = 1/a], extents
    [num[3]], the origin index [io] (half-cell units) with its continuous
    image [origin], and the caches [the_stride[5]] and [the_ntot] that
    [num_changed()] recomputes.  Accessors of meep/vec.hpp that vec.cpp
    relies on ([num_direction], [stride], [shift_origin], [iyee_shift],
    [little_owned_corner0], [nowned_min], [num_changed]) are modelled
    from the spec.  Every state change of the C++ class is a function
    [grid_volume -> grid_volume] here. *)

From S2P Require Import Prelude Geom Coord Volume.

Module GridVolume.

Record grid_volume := mkgv {
  dim : ndim; a : Q; inva : Q;
  num0 : int; num1 : int; num2 : int;
  io : IVec.ivec; origin : Vec.vec;
  the_stride : table int; the_ntot : int }.

(** ** Field access and raw field writes *)

Definition num (gv : grid_volume) (i : int) : int :=
  match i with 0 => num0 gv | 1 => num1 gv | _ => num2 gv end.
Definition num_direction (gv : grid_volume) (d : direction) : int := num gv (num_index d).
Definition nx (gv : grid_volume) : int := num0 gv.
Definition ny (gv : grid_volume) : int := num1 gv.
Definition nz (gv : grid_volume) : int := num2 gv.
Definition nr (gv : grid_volume) : int := num0 gv.
Definition stride (gv : grid_volume) (d : direction) : int := tget (the_stride gv) d.
Definition ntot (gv : grid_volume) : int := the_ntot gv.

Definition set_num_raw (gv : grid_volume) (i v : int) : grid_volume :=
  mkgv (dim gv) (a gv) (inva gv)
    (if Z.eqb i 0 then v else num0 gv) (if Z.eqb i 1 then v else num1 gv)
    (if Z.eqb i 0 || Z.eqb i 1 then num2 gv else v)
    (io gv) (origin gv) (the_stride gv) (the_ntot gv).
Definition with_io (gv : grid_volume) (io' : IVec.ivec) (origin' : Vec.vec) : grid_volume :=
  mkgv (dim gv) (a gv) (inva gv) (num0 gv) (num1 gv) (num2 gv) io' origin'
    (the_stride gv) (the_ntot gv).
Definition with_caches (gv : grid_volume) (s : table int) (n : int) : grid_volume :=
  mkgv (dim gv) (a gv) (inva gv) (num0 gv) (num1 gv) (num2 gv) (io gv) (origin gv) s n.

(** ** Caches: [update_ntot], [set_strides], [num_changed] *)

Definition ntot_of (gv : grid_volume) : int :=
  prod_over (fun d => num_direction gv d + 1) (loop_dirs (dim gv)).

Definition update_ntot (gv : grid_volume) : grid_volume :=
  with_caches gv (the_stride gv) (ntot_of gv).

Definition stride_of (gv : grid_volume) (d : direction) : int :=
  match d with
  | Z => 1
  | R => nz gv + 1
  | X => (nz gv + 1) * (ny gv + 1)
  | Y => nz gv + 1
  | P => 0
  | NO_DIRECTION => 0
  end.

Definition set_strides (gv : grid_volume) : grid_volume :=
  with_caches gv (loop_set (dim gv) (stride_of gv) (tconst 0)) (the_ntot gv).

Definition num_changed (gv : grid_volume) : grid_volume := set_strides (update_ntot gv).

(** ** Origin *)

(** [operator[](const ivec &p)]: [p * (0.5 * inva)]. *)
Definition vec_at (gv : grid_volume) (p : IVec.ivec) : Vec.vec :=
  Vec.of_ivec p ((1#2) * inva gv)%Q.

Definition round_vec (gv : grid_volume) (p : Vec.vec) : IVec.ivec :=
  IVec.mkivec (dim gv)
    (loop_set (dim gv) (fun d => my_round (Vec.in_direction p d * 2 * a gv)%Q) (tconst 0)).

Definition set_origin (gv : grid_volume) (o : IVec.ivec) : grid_volume :=
  with_io gv o (vec_at gv o).

Definition set_origin_dir (gv : grid_volume) (d : direction) (o : int) : grid_volume :=
  let io' := IVec.set_direction (io gv) d o in with_io gv io' (vec_at gv io').

Definition set_origin_vec (gv : grid_volume) (o : Vec.vec) : grid_volume :=
  set_origin gv (round_vec gv o).

Definition shift_origin (gv : grid_volume) (d : direction) (s : int) : grid_volume :=
  set_origin_dir gv d (IVec.in_direction (io gv) d + s).

(** [set_num_direction(d, value)]: [num[d%3] = value; num_changed();]. *)
Definition set_num_direction (gv : grid_volume) (d : direction) (value : int) : grid_volume :=
  num_changed (set_num_raw gv (num_index d) value).

(** [grid_volume(ndim td, double ta, int na, int nb, int nc)] *)
Definition make (td : ndim) (ta : Q) (na nb nc : int) : grid_volume :=
  let gv0 := mkgv td ta (/ ta)%Q na nb nc (IVec.blank td) (Vec.blank td) (tconst 0) 0 in
  set_origin_vec (num_changed gv0) (Vec.zero_vec td).

(** ** Corners and Yee shifts *)

Definition little_corner (gv : grid_volume) : IVec.ivec := io gv.

Definition big_corner (gv : grid_volume) : IVec.ivec :=
  match dim gv with
  | D1 => IVec.add (io gv) (IVec.scale (IVec.ivec1 (nz gv)) 2)
  | D2 => IVec.add (io gv) (IVec.scale (IVec.ivec2 (nx gv) (ny gv)) 2)
  | D3 => IVec.add (io gv) (IVec.scale (IVec.ivec3 (nx gv) (ny gv) (nz gv)) 2)
  | Dcyl => IVec.add (io gv) (IVec.scale (IVec.iveccyl (nr gv) (nz gv)) 2)
  end.

(** The Yee offset of [c] along [d]: the centred material grid is shifted
    on every axis, E and D along their own axis, H and B off it. *)
Definition yee_shifted (c : component) (d : direction) : bool :=
  match c with
  | Dielectric | Permeability => true
  | _ => ((is_electric c || is_D c) && bool_decide (d = component_direction c))
         || ((is_magnetic c || is_B c) && negb (bool_decide (d = component_direction c)))
  end.

Definition iyee_shift (gv : grid_volume) (c : component) : IVec.ivec :=
  IVec.mkivec (dim gv) (loop_set (dim gv) (fun d => if yee_shifted c d then 1 else 0) (tconst 0)).

Definition yee_shift (gv : grid_volume) (c : component) : Vec.vec := vec_at gv (iyee_shift gv c).

Definition little_owned_corner0 (gv : grid_volume) (c : component) : IVec.ivec :=
  IVec.sub (IVec.add (io gv) (IVec.scale (IVec.one_ivec (dim gv)) 2)) (iyee_shift gv c).

Definition little_owned_corner (gv : grid_volume) (c : component) : IVec.ivec :=
  let iloc := little_owned_corner0 gv c in
  if bool_decide (dim gv = Dcyl) && Qeq_bool (Vec.in_direction (origin gv) R) 0
     && Z.eqb (IVec.in_direction iloc R) 2
  then IVec.set_direction iloc R 0 else iloc.

Definition nowned (gv : grid_volume) (c : component) : int :=
  let pt := IVec.sub (big_corner gv) (little_owned_corner gv c) in
  prod_over (fun d => Z.quot (IVec.in_direction pt d) 2 + 1) (loop_dirs (dim gv)).

Definition nowned_min (gv : grid_volume) : int := prod_over (num_direction gv) (loop_dirs (dim gv)).

(** ** Ownership and containment *)

Definition owns (gv : grid_volume) (p : IVec.ivec) : bool :=
  let o := IVec.sub p (io gv) in
  let ox := IVec.in_direction o X in let oy := IVec.in_direction o Y in
  let oz := IVec.in_direction o Z in let or := IVec.in_direction o R in
  match dim gv with
  | Dcyl =>
      (Qeq_bool (Vec.in_direction (origin gv) R) 0 && (0 <? oz) && (oz <=? nz gv * 2) && (or =? 0))
      || ((0 <? or) && (0 <? oz) && (or <=? nr gv * 2) && (oz <=? nz gv * 2))
  | D3 => (0 <? ox) && (ox <=? nx gv * 2) && (0 <? oy) && (oy <=? ny gv * 2)
          && (0 <? oz) && (oz <=? nz gv * 2)
  | D2 => (0 <? ox) && (ox <=? nx gv * 2) && (0 <? oy) && (oy <=? ny gv * 2)
  | D1 => (0 <? oz) && (oz <=? nz gv * 2)
  end.

Definition contains_ivec (gv : grid_volume) (p : IVec.ivec) : bool :=
  let o := IVec.sub p (io gv) in
  forallb (fun d => negb ((IVec.in_direction o d <? 0)
                          || ((num_direction gv d + 1) * 2 <=? IVec.in_direction o d)))
    (loop_dirs (dim gv)).

Definition contains_vec (gv : grid_volume) (p : Vec.vec) : bool :=
  let o := Vec.sub p (origin gv) in
  forallb (fun d => negb (Qlt_bool (Vec.in_direction o d) (- inva gv)
                          || Qlt_bool (inject_Z (num_direction gv d) * inva gv + inva gv) (Vec.in_direction o d)))%Q
    (loop_dirs (dim gv)).

Definition has_boundary (gv : grid_volume) (b : boundary_side) (d : direction) : bool :=
  match dim gv with
  | Dcyl => bool_decide (d = Z)
            || (bool_decide (d = R)
                && (bool_decide (b = High) || Qlt_bool 0 (Vec.in_direction (origin gv) R)))
  | D1 => bool_decide (d = Z)
  | D2 => bool_decide (d = X) || bool_decide (d = Y)
  | D3 => bool_decide (d = X) || bool_decide (d = Y) || bool_decide (d = Z)
  end.

(** ** Flattened indexing *)

Definition index (gv : grid_volume) (c : component) (p : IVec.ivec) : int :=
  let offset := IVec.sub (IVec.sub p (io gv)) (iyee_shift gv c) in
  sum_over (fun d => Z.quot (IVec.in_direction offset d) 2 * stride gv d) (loop_dirs (dim gv)).

(** [while (x < 0) x += step;], run with enough fuel for [step >= 1]. *)
Fixpoint add_while_neg (fuel : nat) (x step : int) : int :=
  match fuel with
  | O => x
  | S f => if x <? 0 then add_while_neg f (x + step) step else x
  end.

Definition iloc (gv : grid_volume) (c : component) (ind : int) : IVec.ivec :=
  let out := IVec.mkivec (dim gv) (loop_set (dim gv) (fun d =>
               let ind_over_stride := Z.quot ind (stride gv d) in
               let ios := add_while_neg (Z.to_nat (- ind_over_stride)) ind_over_stride
                            (num_direction gv d + 1) in
               2 * Z.rem ios (num_direction gv d + 1)) (tconst 0)) in
  IVec.add (IVec.add out (iyee_shift gv c)) (io gv).

Definition loc (gv : grid_volume) (c : component) (ind : int) : Vec.vec := vec_at gv (iloc gv c ind).

(** ** Centre, halving, padding *)

(** [icenter()]: the symmetry point; [icenter - io] is even on every axis. *)
Definition icenter (gv : grid_volume) : IVec.ivec :=
  match dim gv with
  | D1 => IVec.add (io gv) (IVec.round_up_to_even (IVec.ivec1 (nz gv)))
  | D2 => IVec.add (io gv) (IVec.round_up_to_even (IVec.ivec2 (nx gv) (ny gv)))
  | D3 => IVec.add (io gv) (IVec.round_up_to_even (IVec.ivec3 (nx gv) (ny gv) (nz gv)))
  | Dcyl => IVec.add (io gv) (IVec.round_up_to_even (IVec.iveccyl 0 (nz gv)))
  end.

Definition center (gv : grid_volume) : Vec.vec := vec_at gv (icenter gv).

Definition halve (gv : grid_volume) (d : direction) : grid_volume :=
  set_num_direction gv d
    (Z.quot (IVec.in_direction (icenter gv) d - IVec.in_direction (io gv) d) 2).

(** [pad_self(d)]: [num[d%3] += 2; num_changed(); shift_origin(d, -2);]. *)
Definition pad_self (gv : grid_volume) (d : direction) : grid_volume :=
  shift_origin (num_changed (set_num_raw gv (num_index d) (num_direction gv d + 2))) d (-2).

Definition pad (gv : grid_volume) (d : direction) : grid_volume := pad_self gv d.

(** ** Yee-lattice helpers *)

Definition eps_component (gv : grid_volume) : component :=
  match dim gv with D1 => Hy | D2 => Hz | D3 => Dielectric | Dcyl => Hp end.

Fixpoint yee2cent_loop (gv : grid_volume) (c : component) (ds : list direction)
    (offset1 offset2 : int) : res (int * int) :=
  match ds with
  | [] => Ok (offset1, offset2)
  | d :: ds' =>
      if Z.eqb (IVec.in_direction (iyee_shift gv c) d) 0 then
        if negb (Z.eqb offset2 0) then Fatal (Abort "weird yee shift for component")
        else if negb (Z.eqb offset1 0) then yee2cent_loop gv c ds' offset1 (stride gv d)
        else yee2cent_loop gv c ds' (stride gv d) offset2
      else yee2cent_loop gv c ds' offset1 offset2
  end.

Definition yee2cent_offsets (gv : grid_volume) (c : component) : res (int * int) :=
  yee2cent_loop gv c (loop_dirs (dim gv)) 0 0.

Definition cent2yee_offsets (gv : grid_volume) (c : component) : res (int * int) :=
  res_map (fun '(o1, o2) => (- o1, - o2)) (yee2cent_offsets gv c).

(** [grid_volume::yucky_num(n)]; [yucky_direction(n)] is the value of
    the direction [yucky_dir] returns. *)
Definition yucky_num (gv : grid_volume) (n : int) : int :=
  if has_direction (dim gv) (dir_of_int (yucky_dir (dim gv) n))
  then num_direction gv (dir_of_int (yucky_dir (dim gv) n)) else 1.

Definition yucky_direction (gv : grid_volume) (n : int) : int := yucky_dir (dim gv) n.

Definition surroundings (gv : grid_volume) : Volume.volume :=
  Volume.make (vec_at gv (little_corner gv)) (vec_at gv (big_corner gv)).

Definition interior (gv : grid_volume) : Volume.volume :=
  Volume.make (vec_at gv (little_corner gv))
    (vec_at gv (IVec.sub (big_corner gv) (IVec.scale (IVec.one_ivec (dim gv)) 2))).

(** ** Boundary patches: [get_boundary_icorners(c, ib, &cs, &ce)]

    The loop visits the active directions; on each, a low patch when the
    first point of [c] is not owned, then a high patch when the last one
    is beyond the owned range, counting patches in [jb] and stopping at
    [jb == ib]. *)
Fixpoint boundary_loop (cl cb clo cbo : IVec.ivec) (ib : int) (ds : list direction)
    (cs ce : IVec.ivec) (jb : int) : bool * IVec.ivec * IVec.ivec :=
  match ds with
  | [] => (false, cs, ce)
  | d :: ds' =>
      let high (cs ce : IVec.ivec) (jb : int) :=
        if IVec.in_direction cbo d <? IVec.in_direction cb d then
          if Z.eqb jb ib then (true, IVec.set_direction cs d (IVec.in_direction ce d), ce)
          else boundary_loop cl cb clo cbo ib ds' cs
                 (IVec.set_direction ce d (IVec.in_direction cbo d)) (jb + 1)
        else boundary_loop cl cb clo cbo ib ds' cs ce jb in
      if IVec.in_direction cl d <? IVec.in_direction clo d then
        if Z.eqb jb ib then (true, cs, IVec.set_direction ce d (IVec.in_direction cs d))
        else high (IVec.set_direction cs d (IVec.in_direction clo d)) ce (jb + 1)
      else high cs ce jb
  end.

Definition get_boundary_icorners (gv : grid_volume) (c : component) (ib : int)
    : bool * IVec.ivec * IVec.ivec :=
  let cl := IVec.add (little_corner gv) (iyee_shift gv c) in
  let cb := IVec.add (big_corner gv) (iyee_shift gv c) in
  let clo := little_owned_corner gv c in
  let cbo := IVec.sub (big_corner gv) (iyee_shift gv c) in
  match boundary_loop cl cb clo cbo ib (loop_dirs (dim gv)) cl cb 0 with
  | (true, cs, ce) => (true, cs, ce)
  | (false, _, _) => (false, IVec.one_ivec (dim gv), IVec.neg (IVec.one_ivec (dim gv)))
  end.

(** ** Cells, extents and corners *)

Definition dV_at (gv : grid_volume) (here : IVec.ivec) (diameter : Q) : Volume.volume :=
  let hinva := ((1#2) * inva gv * diameter)%Q in
  let h := vec_at gv here in
  let out := fold_left (fun out d =>
               Volume.set_direction_min
                 (Volume.set_direction_max out d (Vec.in_direction h d + hinva))
                 d (Vec.in_direction h d - hinva))%Q
               (loop_dirs (dim gv)) (Volume.blank (dim gv)) in
  if bool_decide (dim gv = Dcyl) && Z.eqb (IVec.in_direction here R) 0
  then Volume.set_direction_min out R 0 else out.

Definition dV (gv : grid_volume) (c : component) (ind : int) : Volume.volume :=
  if negb (owns gv (iloc gv c ind)) then Volume.empty_volume (dim gv)
  else dV_at gv (iloc gv c ind) 1.

Definition qinva (gv : grid_volume) : Q := ((1#4) * inva gv)%Q.
Definition xmax (gv : grid_volume) : Q := (Vec.in_direction (origin gv) X + inject_Z (nx gv) * inva gv + qinva gv)%Q.
Definition xmin (gv : grid_volume) : Q := (Vec.in_direction (origin gv) X + qinva gv)%Q.
Definition ymax (gv : grid_volume) : Q := (Vec.in_direction (origin gv) Y + inject_Z (ny gv) * inva gv + qinva gv)%Q.
Definition ymin (gv : grid_volume) : Q := (Vec.in_direction (origin gv) Y + qinva gv)%Q.
Definition zmax (gv : grid_volume) : Q := (Vec.in_direction (origin gv) Z + inject_Z (nz gv) * inva gv + qinva gv)%Q.
Definition zmin (gv : grid_volume) : Q := (Vec.in_direction (origin gv) Z + qinva gv)%Q.
Definition rmax (gv : grid_volume) : res Q :=
  if decide (dim gv = Dcyl) then Ok (Vec.in_direction (origin gv) R + inject_Z (nr gv) * inva gv + qinva gv)%Q
  else Fatal (Abort "No rmax in these dimensions.").
Definition rmin (gv : grid_volume) : res Q :=
  if decide (dim gv = Dcyl) then
    if Qeq_bool (Vec.in_direction (origin gv) R) 0 then Ok 0%Q
    else Ok (Vec.in_direction (origin gv) R + qinva gv)%Q
  else Fatal (Abort "No rmin in these dimensions.").

(** [boundary_location(b, d)]: the metallic walls, read off the first and
    last array points of Ez, Ep or Ex. *)
Definition boundary_location (gv : grid_volume) (b : boundary_side) (d : direction) : res Q :=
  let i := match b with High => ntot gv - 1 | Low => 0 end in
  match d with
  | X => Ok (Vec.in_direction (loc gv Ez i) X)
  | Y => Ok (Vec.in_direction (loc gv Ez i) Y)
  | R => Ok (Vec.in_direction (loc gv Ep i) R)
  | Z => if decide (dim gv = Dcyl) then Ok (Vec.in_direction (loc gv Ep i) Z)
         else Ok (Vec.in_direction (loc gv Ex i) Z)
  | P => Fatal (Abort "P has no boundary!")
  | NO_DIRECTION => Fatal (Abort "NO_DIRECTION has no boundary!")
  end.

Definition corner (gv : grid_volume) (b : boundary_side) : Vec.vec :=
  match b with
  | Low => origin gv
  | High => fold_left (fun tmp d =>
              Vec.set_direction tmp d (Vec.in_direction tmp d + inject_Z (num_direction gv d) * inva gv)%Q)
              (loop_dirs (dim gv)) (origin gv)
  end.

(** Unit steps [dr()], [dx()], [dy()], [dz()]. *)
Definition dr (gv : grid_volume) : res Vec.vec :=
  match dim gv with Dcyl => Ok (Vec.veccyl (inva gv) 0) | _ => Fatal (Abort "Error in dr") end.
Definition dx (gv : grid_volume) : res Vec.vec :=
  match dim gv with
  | D3 => Ok (Vec.vec3 (inva gv) 0 0) | D2 => Ok (Vec.vec2 (inva gv) 0)
  | _ => Fatal (Abort "Error in dx.")
  end.
Definition dy (gv : grid_volume) : res Vec.vec :=
  match dim gv with
  | D3 => Ok (Vec.vec3 0 (inva gv) 0) | D2 => Ok (Vec.vec2 0 (inva gv))
  | _ => Fatal (Abort "Error in dy.")
  end.
Definition dz (gv : grid_volume) : res Vec.vec :=
  match dim gv with
  | Dcyl => Ok (Vec.veccyl 0 (inva gv)) | D3 => Ok (Vec.vec3 0 0 (inva gv))
  | D1 => Ok (Vec.vec1 (inva gv)) | D2 => Fatal (Abort "dz doesn't exist in 2D")
  end.

(** ** Constructors of whole-cell grids *)

Definition cells (size res_a : Q) : int := c_int (size * res_a + (1#2))%Q.

Definition volone (zsize ta : Q) : grid_volume := make D1 ta 0 0 (cells zsize ta).
Definition voltwo (xsize ysize ta : Q) : grid_volume :=
  make D2 ta (if Qeq_bool xsize 0 then 1 else cells xsize ta)
             (if Qeq_bool ysize 0 then 1 else cells ysize ta) 0.
Definition vol1d (zsize ta : Q) : grid_volume := volone zsize ta.
Definition vol2d (xsize ysize ta : Q) : grid_volume := voltwo xsize ysize ta.
Definition vol3d (xsize ysize zsize ta : Q) : grid_volume :=
  make D3 ta (if Qeq_bool xsize 0 then 1 else cells xsize ta)
             (if Qeq_bool ysize 0 then 1 else cells ysize ta)
             (if Qeq_bool zsize 0 then 1 else cells zsize ta).
Definition volcyl (rsize zsize ta : Q) : grid_volume :=
  if Qeq_bool zsize 0 then make Dcyl ta (cells rsize ta) 0 1
  else make Dcyl ta (cells rsize ta) 0 (cells zsize ta).

(** ** The descriptor as a state machine

    The operations of the class that change a [grid_volume] in place or
    return a changed copy, as steps of one transition system. *)
Inductive gv_op :=
| OpSetNumDirection (d : direction) (value : int)
| OpSetOrigin (o : IVec.ivec)
| OpSetOriginDir (d : direction) (o : int)
| OpSetOriginVec (o : Vec.vec)
| OpShiftOrigin (d : direction) (s : int)
| OpPad (d : direction)
| OpHalve (d : direction).

Definition apply_op (gv : grid_volume) (op : gv_op) : grid_volume :=
  match op with
  | OpSetNumDirection d v => set_num_direction gv d v
  | OpSetOrigin o => set_origin gv o
  | OpSetOriginDir d o => set_origin_dir gv d o
  | OpSetOriginVec o => set_origin_vec gv o
  | OpShiftOrigin d s => shift_origin gv d s
  | OpPad d => pad_self gv d
  | OpHalve d => halve gv d
  end.

(** The preconditions the callers respect: extents stay non-negative, an
    origin has the grid's dimension, halving is along an active axis. *)
Definition op_ok (gv : grid_volume) (op : gv_op) : Prop :=
  match op with
  | OpSetNumDirection _ v => 0 <= v
  | OpSetOrigin o => IVec.dim o = dim gv
  | OpHalve d => In d (loop_dirs (dim gv))
  | _ => True
  end.

Inductive reachable : grid_volume -> Prop :=
| reach_make td ta na nb nc :
    (0 < ta)%Q -> 0 <= na -> 0 <= nb -> 0 <= nc -> reachable (make td ta na nb nc)
| reach_step gv op : reachable gv -> op_ok gv op -> reachable (apply_op gv op).

(** ** Well-formedness

    [caches_ok]: the cached strides and point count are those that
    [num_changed()] computes from the current extents.  [wf] adds a
    positive resolution, [inva = 1/a], an origin index of the grid's
    dimension, the continuous origin matching [io], and non-negative
    extents. *)

Definition caches_ok (gv : grid_volume) : Prop :=
  the_stride gv = loop_set (dim gv) (stride_of gv) (tconst 0) /\ the_ntot gv = ntot_of gv.

Definition wf (gv : grid_volume) : Prop :=
  (0 < a gv)%Q /\ inva gv = (/ a gv)%Q /\ IVec.dim (io gv) = dim gv /\ caches_ok gv
  /\ origin gv = vec_at gv (io gv) /\ 0 <= num0 gv /\ 0 <= num1 gv /\ 0 <= num2 gv.

Definition origin_ok (gv : grid_volume) : Prop := origin gv = vec_at gv (io gv).

(** The planar layout of 2D grids: [voltwo] leaves [nz = 0], which the
    strides of X and Y rely on. *)
Definition planar_ok (gv : grid_volume) : Prop := dim gv = D2 -> nz gv = 0.

(** The ownership condition along one active axis, for the offset [o]
    of a point from [io]: the half-open range [(0, 2 num]], plus the axis
    [r = 0] of a cylindrical grid whose origin lies on it. *)
Definition own_axis (gv : grid_volume) (d : direction) (o : int) : Prop :=
  if bool_decide (dim gv = Dcyl /\ d = R)
  then (IVec.in_direction (io gv) R = 0 /\ o = 0) \/ (0 < o <= 2 * num_direction gv R)
  else 0 < o <= 2 * num_direction gv d.

(** A planar 4 x 3 grid, used by the witnesses. *)
Definition gv_example : grid_volume := make D2 (10#1) 4 3 0.

(** ** Helper lemmas *)

Lemma stride_active gv d :
  caches_ok gv -> In d (loop_dirs (dim gv)) -> stride gv d = stride_of gv d.
Proof.
  intros [Hs _] Hd. unfold stride. rewrite Hs, tget_loop_set by eauto with meep.
  apply has_direction_spec in Hd. rewrite Hd. reflexivity.
Qed.

Lemma stride_of_pos gv d :
  0 <= num1 gv -> 0 <= num2 gv -> In d (loop_dirs (dim gv)) -> 0 < stride_of gv d.
Proof.
  unfold stride_of, ny, nz. intros H1 H2 Hd.
  destruct (dim gv), d; simpl in Hd; intuition (try discriminate); nia.
Qed.

Lemma num_direction_nonneg gv d :
  0 <= num0 gv -> 0 <= num1 gv -> 0 <= num2 gv -> 0 <= num_direction gv d.
Proof. unfold num_direction, num, num_index. intros. destruct d; simpl; lia. Qed.

Lemma ivec_mk_get (dm : ndim) (f : direction -> int) d :
  In d (loop_dirs dm) ->
  IVec.in_direction (IVec.mkivec dm (loop_set dm f (tconst 0))) d = f d.
Proof.
  intros Hd. unfold IVec.in_direction. simpl.
  rewrite tget_loop_set by eauto with meep. apply has_direction_spec in Hd. rewrite Hd. reflexivity.
Qed.

Lemma add_while_neg_nonneg fuel x step : 0 <= x -> add_while_neg fuel x step = x.
Proof. destruct fuel; simpl; [reflexivity|]. intros Hx. destruct (Z.ltb_spec x 0); lia. Qed.

(** The coordinate of [iloc c i] along an active axis, for [i >= 0]. *)
Lemma iloc_get gv c i d :
  IVec.dim (io gv) = dim gv -> In d (loop_dirs (dim gv)) -> 0 <= i ->
  0 < stride gv d -> 0 <= num_direction gv d ->
  IVec.in_direction (iloc gv c i) d =
    2 * ((i / stride gv d) mod (num_direction gv d + 1))
    + IVec.in_direction (iyee_shift gv c) d + IVec.in_direction (io gv) d.
Proof.
  intros Hio Hd Hi Hs Hn. unfold iloc, IVec.add.
  rewrite !ivec_map2_get by (simpl; exact Hd).
  rewrite ivec_mk_get by exact Hd.
  rewrite quot_nonneg, add_while_neg_nonneg, rem_nonneg by (try apply Z.div_pos; lia).
  reflexivity.
Qed.

(** [index] unfolded on a point of the grid's dimension. *)
Lemma index_unfold gv c p :
  IVec.dim p = dim gv ->
  index gv c p = sum_over (fun d =>
    Z.quot (IVec.in_direction p d - IVec.in_direction (io gv) d
            - IVec.in_direction (iyee_shift gv c) d) 2 * stride gv d) (loop_dirs (dim gv)).
Proof.
  intros Hp. unfold index, IVec.sub. apply sum_over_ext. intros d Hd.
  rewrite !ivec_map2_get by (simpl; rewrite Hp; exact Hd). reflexivity.
Qed.

(** Row-major flattening with the strides of [set_strides]. *)
Lemma flatten_digits gv i :
  0 <= num0 gv -> 0 <= num1 gv -> 0 <= num2 gv -> planar_ok gv ->
  0 <= i < ntot_of gv ->
  sum_over (fun d => (i / stride_of gv d) mod (num_direction gv d + 1) * stride_of gv d)
    (loop_dirs (dim gv)) = i.
Proof.
  unfold planar_ok, ntot_of, stride_of, num_direction, num, num_index, ny, nz.
  intros H0 H1 H2 Hpl Hi. destruct (dim gv); simpl in *; unfold prod_over, sum_over in *; simpl in *.
  - rewrite Z.div_1_r, Z.mul_1_r, Z.mod_small; lia.
  - rewrite Hpl in * by reflexivity. rewrite Z.div_1_r, Z.mul_1_r, Z.add_0_l, Z.mul_1_l.
    apply radix2; lia.
  - rewrite Z.div_1_r, Z.mul_1_r, Z.add_0_l, <- Z.add_assoc. apply radix3; lia.
  - rewrite Z.div_1_r, Z.mul_1_r, Z.add_0_l.
    rewrite Z.add_comm. apply radix2; lia.
Qed.

Lemma caches_ok_num_changed gv : caches_ok (num_changed gv).
Proof. split; reflexivity. Qed.

Lemma caches_ok_with_io gv io' o' : caches_ok gv -> caches_ok (with_io gv io' o').
Proof. intros [H1 H2]. split; assumption. Qed.

Lemma origin_ok_num_changed gv : origin_ok gv -> origin_ok (num_changed gv).
Proof. intros H. exact H. Qed.

Lemma origin_ok_set_num_raw gv i v : origin_ok gv -> origin_ok (set_num_raw gv i v).
Proof. intros H. exact H. Qed.

Lemma origin_ok_set_origin gv o : origin_ok (set_origin gv o).
Proof. reflexivity. Qed.

Lemma origin_ok_shift_origin gv d s : origin_ok (shift_origin gv d s).
Proof. reflexivity. Qed.

#[export] Hint Resolve caches_ok_num_changed caches_ok_with_io origin_ok_num_changed
  origin_ok_set_num_raw origin_ok_set_origin origin_ok_shift_origin : meep.

(** The field equations of the setters, for [lia] and [congruence]. *)
Lemma num_changed_fields gv :
  dim (num_changed gv) = dim gv /\ a (num_changed gv) = a gv /\ inva (num_changed gv) = inva gv
  /\ io (num_changed gv) = io gv /\ origin (num_changed gv) = origin gv
  /\ num0 (num_changed gv) = num0 gv /\ num1 (num_changed gv) = num1 gv /\ num2 (num_changed gv) = num2 gv.
Proof. repeat split. Qed.

Lemma set_num_raw_nonneg gv i v :
  0 <= num0 gv -> 0 <= num1 gv -> 0 <= num2 gv -> 0 <= v ->
  0 <= num0 (set_num_raw gv i v) /\ 0 <= num1 (set_num_raw gv i v) /\ 0 <= num2 (set_num_raw gv i v).
Proof. intros. simpl. destruct (Z.eqb i 0), (Z.eqb i 1); simpl; lia. Qed.

Lemma wf_set_num gv i v :
  wf gv -> 0 <= v -> wf (num_changed (set_num_raw gv i v)).
Proof.
  intros (Ha & Hinv & Hio & Hc & Horg & H0 & H1 & H2) Hv.
  destruct (set_num_raw_nonneg gv i v H0 H1 H2 Hv) as (G0 & G1 & G2).
  repeat split; simpl; auto.
Qed.

Lemma wf_with_io gv o :
  wf gv -> IVec.dim o = dim gv -> wf (with_io gv o (vec_at gv o)).
Proof.
  intros (Ha & Hinv & Hio & Hc & Horg & H0 & H1 & H2) Ho.
  repeat split; simpl; auto with meep; apply Hc.
Qed.

(** [icenter - io] is even and non-negative on every active axis: it is a
    rounded-up extent. *)
Lemma icenter_offset gv d :
  IVec.dim (io gv) = dim gv -> 0 <= num0 gv -> 0 <= num1 gv -> 0 <= num2 gv ->
  In d (loop_dirs (dim gv)) ->
  Z.Even (IVec.in_direction (icenter gv) d - IVec.in_direction (io gv) d)
  /\ 0 <= IVec.in_direction (icenter gv) d - IVec.in_direction (io gv) d.
Proof.
  intros Hio H0 H1 H2 Hd. unfold icenter, nx, ny, nz, nr.
  destruct (dim gv) eqn:E; unfold IVec.add, IVec.round_up_to_even;
    rewrite ivec_map2_get by (rewrite Hio; exact Hd);
    rewrite ivec_map1_get by (simpl; exact Hd);
    match goal with |- context [IVec.in_direction ?v d] =>
      match v with io gv => fail 1 | _ => set (x := IVec.in_direction v d) end end;
    assert (Hx : 0 <= x) by (unfold x; destruct d; simpl in Hd;
                             intuition (try discriminate); simpl; lia);
    destruct (round_up_to_even_spec x) as [Hev Hb]; simpl in Hev, Hb;
    (split; [match goal with |- Z.Even ?e => replace e with
       (x + (if 0 <=? x then Z.rem x 2 else Z.rem (- x) 2)) by lia end; exact Hev | lia]).
Qed.

Lemma make_wf td ta na nb nc :
  (0 < ta)%Q -> 0 <= na -> 0 <= nb -> 0 <= nc -> wf (make td ta na nb nc).
Proof. intros. repeat split; simpl; auto. Qed.

Lemma apply_op_wf gv op : wf gv -> op_ok gv op -> wf (apply_op gv op).
Proof.
  intros Hwf Hop. pose proof Hwf as (Ha & Hinv & Hio & Hc & Horg & H0 & H1 & H2).
  destruct op; simpl in Hop |- *.
  - apply wf_set_num; assumption.
  - apply wf_with_io; assumption.
  - apply wf_with_io; [assumption|]. simpl. assumption.
  - apply wf_with_io; [assumption|reflexivity].
  - apply wf_with_io; [assumption|]. simpl. assumption.
  - unfold pad_self, shift_origin, set_origin_dir.
    apply wf_with_io; [apply wf_set_num; [assumption|]|simpl; assumption].
    pose proof (num_direction_nonneg gv d H0 H1 H2). lia.
  - apply wf_set_num; [assumption|].
    pose proof (icenter_offset gv d Hio H0 H1 H2 Hop).
    rewrite quot_nonneg by lia. apply Z.div_pos; lia.
Qed.

(** C5. Every descriptor built by the constructor and changed by any
    sequence of the class's state-changing operations (set_num_direction,
    the three set_origin overloads, shift_origin, pad_self, halve), under
    their callers' preconditions, is well formed: its strides and point
    count are the ones [num_changed()] computes from its extents, its
    continuous origin matches [io], and its extents are non-negative. *)
Theorem reachable_wf gv : reachable gv -> wf gv.
Proof.
  induction 1 as [td ta na nb nc Ha H0 H1 H2 | gv op _ IH Hop].
  - apply make_wf; assumption.
  - apply apply_op_wf; assumption.
Qed.

(** ** Flattened indexing *)

(** C4. [index] inverts [iloc]: for every component and every flat index
    [0 <= i < ntot()], [index(c, iloc(c, i)) == i] (the spec states it for
    [i < nowned(c)], a subrange). *)
Theorem index_iloc gv c i :
  wf gv -> planar_ok gv -> 0 <= i < ntot gv -> index gv c (iloc gv c i) = i.
Proof.
  intros (Ha & Hinv & Hio & Hc & Horg & H0 & H1 & H2) Hpl Hi.
  destruct Hc as [Hs Hn]. unfold ntot in Hi. rewrite Hn in Hi.
  rewrite index_unfold by reflexivity.
  etransitivity; [|apply (flatten_digits gv i); assumption].
  apply sum_over_ext. intros d Hd.
  assert (Hst : 0 < stride_of gv d) by (apply stride_of_pos; assumption).
  assert (Hc : caches_ok gv) by (split; assumption).
  rewrite iloc_get; [| exact Hio | exact Hd | lia
                    | rewrite stride_active by assumption; exact Hst
                    | apply num_direction_nonneg; assumption].
  rewrite stride_active by assumption.
  f_equal. set (k := (i / stride_of gv d) mod (num_direction gv d + 1)).
  transitivity (Z.quot (k * 2) 2); [f_equal; lia | apply Z.quot_mul; lia].
Qed.

(** ** Ownership *)

Lemma vec_at_get gv p d :
  In d (loop_dirs (IVec.dim p)) ->
  Vec.in_direction (vec_at gv p) d = (inject_Z (IVec.in_direction p d) * ((1#2) * inva gv))%Q.
Proof.
  intros Hd. unfold vec_at, Vec.of_ivec, Vec.in_direction. simpl.
  rewrite tget_loop_set by eauto with meep. apply has_direction_spec in Hd. rewrite Hd. reflexivity.
Qed.

(** The test [origin.r() == 0.0] of a well-formed cylindrical grid is the
    integer test [io.r() == 0]. *)
Lemma origin_r_zero gv :
  wf gv -> dim gv = Dcyl ->
  Qeq_bool (Vec.in_direction (origin gv) R) 0 = (IVec.in_direction (io gv) R =? 0).
Proof.
  intros (Ha & Hinv & Hio & Hc & Horg & _) Hd. rewrite Horg, vec_at_get by (rewrite Hio, Hd; simpl; tauto).
  rewrite Hinv. destruct (Z.eqb_spec (IVec.in_direction (io gv) R) 0) as [E|E].
  - rewrite E. apply Qeq_bool_iff. reflexivity.
  - apply not_true_is_false. rewrite Qeq_bool_iff. intros H.
    apply Qmult_integral in H as [H|H].
    + apply E, inject_Z_injective. exact H.
    + assert (0 < (1#2) * / a gv)%Q.
      { apply Qmult_lt_0_compat; [reflexivity|]. apply Qinv_lt_0_compat. exact Ha. }
      rewrite H in *. discriminate.
Qed.

(** [owns] is the conjunction of [own_axis] over the active axes. *)
Lemma owns_iff gv p :
  wf gv -> IVec.dim p = dim gv ->
  owns gv p = true <-> forall d, In d (loop_dirs (dim gv)) ->
    own_axis gv d (IVec.in_direction p d - IVec.in_direction (io gv) d).
Proof.
  intros Hwf Hp. destruct p as [pd pt]; simpl in Hp; subst pd.
  unfold owns, own_axis. destruct (dim gv) eqn:E;
    [| | | rewrite (origin_r_zero gv Hwf E)];
    unfold IVec.sub, IVec.map2, IVec.in_direction, nx, ny, nz, nr, num_direction, num, num_index; simpl;
    repeat rewrite ?orb_true_iff, ?andb_true_iff, ?Z.ltb_lt, ?Z.leb_le, ?Z.eqb_eq;
    (split; [intros H d Hd; simpl in Hd; intuition (subst; simpl; lia)
            | intros H; pose proof (H X) as HX; pose proof (H Y) as HY; pose proof (H Z) as HZ;
              pose proof (H R) as HR; simpl in HX, HY, HZ, HR; intuition lia]).
Qed.

(** The example grid is well formed. *)
Lemma gv_example_wf : wf gv_example.
Proof. repeat split; try lia; try reflexivity; vm_compute; try reflexivity; intros; discriminate. Qed.

(** ** Witnesses *)

Lemma index_iloc_witness :
  wf gv_example /\ planar_ok gv_example /\ index gv_example Ez (iloc gv_example Ez 7) = 7.
Proof.
  pose proof gv_example_wf as W.
  assert (Pl : planar_ok gv_example) by (intros _; reflexivity).
  split; [exact W|split; [exact Pl|]].
  apply (index_iloc gv_example Ez 7 W Pl). split; [lia | vm_compute; reflexivity].
Defined.

Lemma reachable_wf_witness :
  reachable (apply_op (make D3 (10#1) 2 3 4) (OpPad X))
  /\ wf (apply_op (make D3 (10#1) 2 3 4) (OpPad X)).
Proof.
  assert (Hr : reachable (apply_op (make D3 (10#1) 2 3 4) (OpPad X))).
  { apply reach_step; [apply reach_make; [reflexivity|lia|lia|lia]|exact I]. }
  split; [exact Hr|]. apply (reachable_wf _ Hr).
Defined.

End GridVolume.
