(* ===== verification/Interpolate.v ===== *)
(** * Interpolate: [grid_volume::interpolate]

    The two overloads of vec.cpp.  [interpolate_locs] (the [ivec locs[8]]
    version) finds the cell of the lattice of component [c] holding the
    point, builds its [2^dim] corners by doubling along each active
    direction ([corners_loop], the loop over [already_have]), zeroes the
    unused slots, renormalises the weights to sum to one, aborts on a
    weight below [-1e-8] and clears those below [SMALL = 1e-13]
    ([clip_step]), compacts with [stupidsort] and finally makes equal
    weights exactly [1/num_weights] ([equalise]).  [interpolate] (the
    [int indices[8]] version) zeroes the corners the grid does not own,
    compacts, computes the flat indices, checks [contains(p)], zeroes the
    out-of-range indices (testing [indices[0]] as the code does) and
    compacts again.

    The eight-entry arrays [locs]/[weights] and [indices]/[weights] are
    lists of pairs; [indices] starts as the caller's array [ind0].
    Doubles are exact rationals, so the corner weights are exact products
    of [(1 -+ dv)/2] and the renormalisation adds zero. *)

From S2P Require Import Prelude Geom Coord Stupidsort Volume GridVolume.
Import GridVolume Stupidsort.

Module Interpolate.

(** [for (int i=0; i<8 && weights[i]; i++) body(i)]: the loop stops at the
    first zero weight; [fuel] is [8 - i]. *)
Fixpoint for_nonzero {B} (dflt : B * Q) (body : list (B * Q) -> nat -> list (B * Q))
  (fuel i : nat) (ws : list (B * Q)) : list (B * Q) :=
  match fuel with
  | O => ws
  | S f => if Qeq_bool (snd (nth i ws dflt)) 0 then ws
           else for_nonzero dflt body f (S i) (body ws i)
  end.

(** The number of iterations of that loop. *)
Fixpoint nonzero_prefix {B} (ws : list (B * Q)) : nat :=
  match ws with
  | [] => O
  | e :: r => if Qeq_bool (snd e) 0 then O else S (nonzero_prefix r)
  end.

(** [weights[i] = w]. *)
Definition set_weight {B} (ws : list (B * Q)) (i : nat) (w : Q) : list (B * Q) :=
  alter (fun e => (fst e, w)) i ws.

Definition SMALL : Q := 1 # 10000000000000.
Definition neg_limit : Q := SMALL * 100000.

Definition dflt_loc (gv : grid_volume) : IVec.ivec * Q := (IVec.blank (dim gv), 0%Q).

(** [p = (pc - yee_shift(c)) * a]. *)
Definition interp_p (gv : grid_volume) (c : component) (pc : Vec.vec) : Vec.vec :=
  Vec.scale (Vec.sub pc (yee_shift gv c)) (a gv).

(** [middle]: the centre of the cell of the lattice of [c] holding [pc]. *)
Definition interp_middle (gv : grid_volume) (c : component) (pc : Vec.vec) : IVec.ivec :=
  IVec.add
    (fold_left (fun m d => IVec.set_direction m d (Qfloor (Vec.in_direction (interp_p gv c pc) d) * 2 + 1))
       (loop_dirs (dim gv)) (IVec.blank (dim gv)))
    (iyee_shift gv c).

(** [dv = (pc - midv) * (2 * a)]. *)
Definition interp_dv (gv : grid_volume) (c : component) (pc : Vec.vec) : Vec.vec :=
  Vec.scale (Vec.sub pc (vec_at gv (interp_middle gv c pc))) (2 * a gv).

Definition lo_corner (d : direction) (m : int) (dvd : Q) (e : IVec.ivec * Q) : IVec.ivec * Q :=
  (IVec.set_direction (fst e) d (m - 1), snd e * ((1#2) * (1 - dvd)))%Q.
Definition hi_corner (d : direction) (m : int) (dvd : Q) (e : IVec.ivec * Q) : IVec.ivec * Q :=
  (IVec.set_direction (fst e) d (m + 1), snd e * ((1#2) * (1 + dvd)))%Q.

(** One pass of the inner loop [for (i < already_have)] along [d]:
    corner [i] moves to [middle - 1], its copy [already_have + i] to
    [middle + 1], with the weights [(1 -+ dv)/2]. *)
Definition double_step (gv : grid_volume) (d : direction) (m : int) (dvd : Q) (ah : nat)
  (ws : list (IVec.ivec * Q)) (i : nat) : list (IVec.ivec * Q) :=
  let e := nth i ws (dflt_loc gv) in
  let ws1 := <[(ah + i)%nat := e]> ws in
  let ws2 := <[i := lo_corner d m dvd e]> ws1 in
  let e' := nth (ah + i) ws2 (dflt_loc gv) in
  <[(ah + i)%nat := hi_corner d m dvd e']> ws2.

(** [LOOP_OVER_DIRECTIONS(dim, d) { ...; already_have *= 2; }] *)
Fixpoint corners_loop (gv : grid_volume) (middle : IVec.ivec) (dv : Vec.vec) (ds : list direction)
  (ah : nat) (ws : list (IVec.ivec * Q)) : nat * list (IVec.ivec * Q) :=
  match ds with
  | [] => (ah, ws)
  | d :: ds' =>
      corners_loop gv middle dv ds' (2 * ah)
        (fold_left (double_step gv d (IVec.in_direction middle d) (Vec.in_direction dv d) ah) (seq 0 ah) ws)
  end.

(** The renormalisation [weights[i] += (1 - total_weight) / already_have]. *)
Definition renormalise (ah : nat) (ws : list (IVec.ivec * Q)) : list (IVec.ivec * Q) :=
  let total_weight := fold_left (fun t i => t + snd (nth i ws (IVec.blank D1, 0)))%Q (seq 0 ah) 0%Q in
  fold_left (fun ws i => set_weight ws i (snd (nth i ws (IVec.blank D1, 0)) + (1 - total_weight) * (1 / inject_Z (Z.of_nat ah))))%Q
    (seq 0 ah) ws.

(** The clipping loop: a weight below [-1e-8] aborts, the other negative
    weights and those below [SMALL] become zero. *)
Definition clip_step (ws : list (IVec.ivec * Q)) (i : nat) : res (list (IVec.ivec * Q)) :=
  let w := snd (nth i ws (IVec.blank D1, 0%Q)) in
  if Qlt_bool w 0 then
    if Qle_bool neg_limit (- w) then Fatal (Abort "large negative interpolation weight")
    else Ok (set_weight ws i 0)
  else if Qlt_bool w SMALL then Ok (set_weight ws i 0) else Ok ws.

(** [all_same]: the nonzero weights all equal [weights[0]], then each is
    set to [1/num_weights]. *)
Definition equalise (ws : list (IVec.ivec * Q)) : list (IVec.ivec * Q) :=
  let k := nonzero_prefix ws in
  let w0 := snd (nth 0 ws (IVec.blank D1, 0%Q)) in
  if forallb (fun e => Qeq_bool (snd e) w0) (take k ws)
  then for_nonzero (IVec.blank D1, 0%Q) (fun ws i => set_weight ws i (1 / inject_Z (Z.of_nat k))%Q) 8 0 ws
  else ws.

(** [grid_volume::interpolate(c, pc, locs, weights)]: the corners and
    weights as one list of eight pairs. *)
Definition interpolate_locs (gv : grid_volume) (c : component) (pc : Vec.vec)
  : res (list (IVec.ivec * Q)) :=
  let middle := interp_middle gv c pc in
  let midv := vec_at gv middle in
  let dv := interp_dv gv c pc in
  let init := repeat (round_vec gv midv, 1%Q) 8 in
  let '(ah, ws) := corners_loop gv middle dv (loop_dirs (dim gv)) 1 init in
  let ws := fold_left (fun ws i => set_weight ws i 0%Q) (seq ah (8 - ah)) ws in
  let ws := renormalise ah ws in
  let* ws := res_fold_left clip_step (seq 0 ah) ws in
  let ws := stupidsort_locs ws ah in
  Ok (equalise ws).

Definition interp_error (c : component) : fatal :=
  Abort ("Error made in interpolation of " ++ component_name (component_code c) ++ "--fix this bug!!!").

(** [grid_volume::interpolate(c, p, indices, weights)], from the caller's
    array [ind0]: the indices and weights as one list of eight pairs. *)
Definition interpolate (gv : grid_volume) (c : component) (p : Vec.vec) (ind0 : list int)
  : res (list (int * Q)) :=
  let* ws := interpolate_locs gv c p in
  let ws := for_nonzero (dflt_loc gv)
              (fun ws i => if owns gv (fst (nth i ws (dflt_loc gv))) then ws else set_weight ws i 0%Q) 8 0 ws in
  let ws := stupidsort_locs ws 8 in
  let iw := for_nonzero (0, 0%Q)
              (fun iw i => <[i := (index gv c (fst (nth i ws (dflt_loc gv))), snd (nth i iw (0, 0%Q)))]> iw)
              8 0 (zip ind0 (map snd ws)) in
  if negb (contains_vec gv p) && negb (Qeq_bool (snd (nth 0 iw (0, 0%Q))) 0) then Fatal (interp_error c) else
  let iw := for_nonzero (0, 0%Q)
              (fun iw i => let i0 := fst (nth 0 iw (0, 0%Q)) in
                           if (i0 <? 0) || (ntot gv <=? i0) then set_weight iw i 0%Q else iw) 8 0 iw in
  let iw := stupidsort_ind iw 8 in
  if negb (contains_vec gv p) && negb (Qeq_bool (snd (nth 0 iw (0, 0%Q))) 0) then Fatal (interp_error c) else
  Ok iw.

(** The corners as a function: along each direction every corner is
    replaced by its low copies, followed by its high copies. *)
Fixpoint corners_ref (middle : IVec.ivec) (dv : Vec.vec) (ds : list direction)
  (l : list (IVec.ivec * Q)) : list (IVec.ivec * Q) :=
  match ds with
  | [] => l
  | d :: ds' =>
      corners_ref middle dv ds'
        (map (lo_corner d (IVec.in_direction middle d) (Vec.in_direction dv d)) l
         ++ map (hi_corner d (IVec.in_direction middle d) (Vec.in_direction dv d)) l)
  end.


(** ** Specification helpers *)

(** The sum of the weights, and their moment along [d] (in half-cells). *)
Definition wsum {B} (l : list (B * Q)) : Q := fold_right (fun e s => snd e + s)%Q 0%Q l.
Definition moment (d : direction) (l : list (IVec.ivec * Q)) : Q :=
  fold_right (fun e s => snd e * inject_Z (IVec.in_direction (fst e) d) + s)%Q 0%Q l.

(** [weights[i] = 0.0], [weights[i] += delta] and the clipping of a small weight. *)
Definition zero_w {B} (e : B * Q) : B * Q := (fst e, 0%Q).
Definition renorm {B} (delta : Q) (e : B * Q) : B * Q := (fst e, snd e + delta)%Q.
Definition clipw {B} (e : B * Q) : B * Q := if Qlt_bool (snd e) SMALL then (fst e, 0%Q) else e.

(** A corner of nonzero weight lies within one cell (two half-cells) of
    the point [t], on the axes [S]. *)
Definition near_e (t : direction -> Q) (S : direction -> Prop) (e : IVec.ivec * Q) : Prop :=
  ~ (snd e == 0)%Q -> forall d, S d -> (t d - 2 < inject_Z (IVec.in_direction (fst e) d) < t d + 2)%Q.


(** A lattice point within one cell of the continuous point [pc] on every
    active axis (positions in half-cells: [2 a pc]). *)
Definition near (gv : grid_volume) (pc : Vec.vec) (p : IVec.ivec) : Prop :=
  forall d, In d (loop_dirs (dim gv)) ->
    (2 * a gv * Vec.in_direction pc d - 2 < inject_Z (IVec.in_direction p d)
     < 2 * a gv * Vec.in_direction pc d + 2)%Q.

(** ** The corner loop *)

Section Doubling.
Context (gv : grid_volume) (d : direction) (m : int) (dvd : Q) (ah : nat).
Local Open Scope nat_scope.

Lemma double_loop_lookup ws k j :
  k <= ah -> 2 * ah <= length ws ->
  fold_left (double_step gv d m dvd ah) (seq 0 k) ws !! j =
    if decide (j < k) then lo_corner d m dvd <$> ws !! j
    else if decide (ah <= j < ah + k) then hi_corner d m dvd <$> ws !! (j - ah)
    else ws !! j.
Proof.
  intros Hk Hl. revert j. induction k as [|k IH]; intros j.
  - simpl. repeat case_decide; try lia. reflexivity.
  - rewrite seq_S, fold_left_app. simpl.
    set (wk := fold_left (double_step gv d m dvd ah) (seq 0 k) ws).
    assert (Hlen : length wk = length ws).
    { subst wk. clear IH. induction k as [|k IHk]; [reflexivity|].
      rewrite seq_S, fold_left_app. simpl. unfold double_step. rewrite !length_insert. apply IHk. lia. }
    destruct (lookup_lt_is_Some_2 ws k) as [x Hx]; [lia|].
    assert (Hwk : wk !! k = Some x) by (unfold wk; rewrite IH by lia; repeat case_decide; try lia; exact Hx).
    unfold double_step. rewrite (nth_lookup_Some _ _ _ _ Hwk).
    rewrite (nth_lookup_Some _ (ah + k) x).
    2:{ rewrite list_lookup_insert_ne by lia. apply list_lookup_insert_eq. lia. }
    rewrite !list_lookup_insert, !length_insert. unfold wk in *. rewrite IH by lia.
    repeat case_decide; try lia; subst; try reflexivity;
      try (rewrite Hx; reflexivity);
      try (replace j with k by lia; rewrite Hx; reflexivity);
      try (replace (j - ah) with k by lia; rewrite Hx; reflexivity).
Qed.

Lemma double_loop pre post :
  length pre = ah -> ah <= length post ->
  fold_left (double_step gv d m dvd ah) (seq 0 ah) (pre ++ post)
    = map (lo_corner d m dvd) pre ++ map (hi_corner d m dvd) pre ++ drop ah post.
Proof.
  intros Hp Hq. apply list_eq. intros j.
  rewrite double_loop_lookup by (rewrite ?length_app; lia).
  repeat case_decide.
  - rewrite lookup_app_l by lia. rewrite lookup_app_l by (rewrite length_map; lia).
    rewrite list_lookup_fmap. reflexivity.
  - rewrite (lookup_app_l pre post) by lia.
    rewrite (lookup_app_r (map _ pre)) by (rewrite length_map; lia).
    rewrite (lookup_app_l (map _ pre)) by (rewrite !length_map; lia).
    rewrite length_map, list_lookup_fmap, Hp. reflexivity.
  - rewrite lookup_app_r by lia. rewrite lookup_app_r by (rewrite length_map; lia).
    rewrite lookup_app_r by (rewrite !length_map; lia). rewrite lookup_drop, !length_map.
    f_equal. lia.
Qed.

End Doubling.


Lemma corners_loop_ref gv middle dv ds ah l post :
  length l = ah -> (ah * 2 ^ length ds <= ah + length post)%nat ->
  corners_loop gv middle dv ds ah (l ++ post)
    = ((ah * 2 ^ length ds)%nat, corners_ref middle dv ds l ++ drop (ah * 2 ^ length ds - ah) post).
Proof.
  revert ah l post. induction ds as [|d ds IH]; intros ah l post Hl Hb; simpl in *.
  - rewrite Nat.mul_1_r, Nat.sub_diag. reflexivity.
  - assert (2 ^ length ds <> 0)%nat by (apply Nat.pow_nonzero; lia).
    rewrite double_loop by nia. rewrite app_assoc.
    rewrite IH by (rewrite ?length_app, ?length_map, ?length_drop; nia).
    rewrite drop_drop. f_equal; [nia|]. f_equal. f_equal. nia.
Qed.

(** ** Sums of weights and moments of the corners *)

(** ** Sums and moments of the corners *)

Lemma wsum_app {B} (l1 l2 : list (B * Q)) : (wsum (l1 ++ l2) == wsum l1 + wsum l2)%Q.
Proof. induction l1 as [|e l1 IH]; simpl; [ring|]. rewrite IH. ring. Qed.

Lemma moment_app d l1 l2 : (moment d (l1 ++ l2) == moment d l1 + moment d l2)%Q.
Proof. induction l1 as [|e l1 IH]; simpl; [ring|]. rewrite IH. ring. Qed.


Lemma lo_corner_w d m dvd e : snd (lo_corner d m dvd e) = (snd e * ((1#2) * (1 - dvd)))%Q.
Proof. reflexivity. Qed.
Lemma hi_corner_w d m dvd e : snd (hi_corner d m dvd e) = (snd e * ((1#2) * (1 + dvd)))%Q.
Proof. reflexivity. Qed.
Lemma lo_corner_get d m dvd e d' :
  d' <> NO_DIRECTION ->
  IVec.in_direction (fst (lo_corner d m dvd e)) d' = if decide (d = d') then m - 1 else IVec.in_direction (fst e) d'.
Proof. apply ivec_get_set. Qed.
Lemma hi_corner_get d m dvd e d' :
  d' <> NO_DIRECTION ->
  IVec.in_direction (fst (hi_corner d m dvd e)) d' = if decide (d = d') then m + 1 else IVec.in_direction (fst e) d'.
Proof. apply ivec_get_set. Qed.

Section CornerSums.
Context (middle : IVec.ivec) (dv : Vec.vec).
Local Abbreviation lo d := (lo_corner d (IVec.in_direction middle d) (Vec.in_direction dv d)).
Local Abbreviation hi d := (hi_corner d (IVec.in_direction middle d) (Vec.in_direction dv d)).

Lemma wsum_double d l : (wsum (map (lo d) l ++ map (hi d) l) == wsum l)%Q.
Proof.
  rewrite wsum_app. induction l as [|e l IH]; cbn [map wsum fold_right]; [ring|].
  fold (wsum (map (lo d) l)) (wsum (map (hi d) l)) (wsum l).
  rewrite lo_corner_w, hi_corner_w, <- IH. ring.
Qed.

Lemma moment_double_same d l :
  d <> NO_DIRECTION ->
  (moment d (map (lo d) l ++ map (hi d) l)
   == (inject_Z (IVec.in_direction middle d) + Vec.in_direction dv d) * wsum l)%Q.
Proof.
  intros Hd. rewrite moment_app. induction l as [|e l IH]; cbn [map wsum moment fold_right]; [ring|].
  fold (moment d (map (lo d) l)) (moment d (map (hi d) l)) (wsum l).
  rewrite lo_corner_w, hi_corner_w, lo_corner_get, hi_corner_get by exact Hd.
  rewrite !decide_True by reflexivity. rewrite inject_Z_sub, inject_Z_plus.
  match goal with |- (?x + ?a + (?y + ?b) == _)%Q =>
    transitivity (x + y + (a + b))%Q; [ring|] end.
  rewrite IH. ring.
Qed.

Lemma moment_double_other d d' l :
  d' <> NO_DIRECTION -> d <> d' ->
  (moment d' (map (lo d) l ++ map (hi d) l) == moment d' l)%Q.
Proof.
  intros Hd' Hne. rewrite moment_app. induction l as [|e l IH]; cbn [map moment fold_right]; [ring|].
  fold (moment d' (map (lo d) l)) (moment d' (map (hi d) l)) (moment d' l).
  rewrite lo_corner_w, hi_corner_w, lo_corner_get, hi_corner_get by exact Hd'.
  rewrite !decide_False by exact Hne. rewrite <- IH. ring.
Qed.

Lemma corners_ref_wsum ds l : (wsum (corners_ref middle dv ds l) == wsum l)%Q.
Proof.
  revert l. induction ds as [|d ds IH]; intros l; simpl; [reflexivity|]. rewrite IH. apply wsum_double.
Qed.

Lemma corners_ref_moment ds l d' :
  NoDup ds -> d' <> NO_DIRECTION -> (forall d, In d ds -> d <> NO_DIRECTION) ->
  (moment d' (corners_ref middle dv ds l)
   == if decide (In d' ds)
      then (inject_Z (IVec.in_direction middle d') + Vec.in_direction dv d') * wsum l
      else moment d' l)%Q.
Proof.
  revert l. induction ds as [|d ds IH]; intros l Hnd Hd' Hno; cbn [corners_ref In]; [reflexivity|].
  inversion Hnd as [|? ? Hnin Hnd']; subst. rewrite list_elem_of_In in Hnin.
  etransitivity; [apply IH; auto; intros; apply Hno; right; assumption|].
  repeat case_decide; try tauto.
  - rewrite wsum_double. reflexivity.
  - destruct (decide (d = d')) as [<-|Hne]; [|tauto].
    apply moment_double_same; auto.
  - apply moment_double_other; auto.
Qed.

Lemma corners_ref_nonneg ds l :
  (forall d, In d ds -> -1 <= Vec.in_direction dv d <= 1)%Q ->
  Forall (fun e => 0 <= snd e)%Q l -> Forall (fun e => 0 <= snd e)%Q (corners_ref middle dv ds l).
Proof.
  revert l. induction ds as [|d ds IH]; intros l Hdv Hl; simpl; [exact Hl|].
  apply IH; [intros; apply Hdv; simpl; auto|].
  specialize (Hdv d (or_introl eq_refl)).
  apply Forall_app; split; apply Forall_map; eapply Forall_impl; try exact Hl;
    intros [p w] Hw; unfold lo_corner, hi_corner; simpl in *; apply Qmult_le_0_compat; lra.
Qed.

Lemma corners_ref_near (t : direction -> Q) ds (S : direction -> Prop) l :
  NoDup ds -> (forall d, In d ds -> ~ S d /\ d <> NO_DIRECTION) -> (forall d, S d -> d <> NO_DIRECTION) ->
  (forall d, In d ds -> t d == inject_Z (IVec.in_direction middle d) + Vec.in_direction dv d
                         /\ -1 <= Vec.in_direction dv d < 1)%Q ->
  Forall (near_e t S) l -> Forall (near_e t (fun x => In x ds \/ S x)) (corners_ref middle dv ds l).
Proof.
  revert S l. induction ds as [|d ds IH]; intros S l Hnd Hds HS Ht Hl; cbn [corners_ref].
  - eapply Forall_impl; [exact Hl|]. intros e He Hw x [[]|Hx]. apply He; auto.
  - inversion Hnd as [|? ? Hnin Hnd']; subst. rewrite list_elem_of_In in Hnin.
    destruct (Hds d (or_introl eq_refl)) as [HdS Hdno].
    destruct (Ht d (or_introl eq_refl)) as [Htd Hdv].
    eapply Forall_impl.
    + apply (IH (fun x => x = d \/ S x)).
      * exact Hnd'.
      * intros x Hx. destruct (Hds x (or_intror Hx)) as [H1 H2]. split; [|exact H2].
        intros [->|Hs]; [contradiction|contradiction].
      * intros x [->|Hx]; [exact Hdno|auto].
      * intros x Hx. apply Ht. right. exact Hx.
      * apply Forall_app; split; apply Forall_map; eapply Forall_impl; try exact Hl;
          intros e He Hw x Hx; unfold near_e in *;
          [rewrite lo_corner_w in Hw|rewrite hi_corner_w in Hw];
          (rewrite ?lo_corner_get, ?hi_corner_get by (destruct Hx as [->|Hx]; auto));
          (destruct (decide (d = x)) as [<-|Hne];
           [rewrite ?inject_Z_sub, ?inject_Z_plus, Htd
           |destruct Hx as [->|Hx]; [congruence|apply He; auto;
              intros E; apply Hw; rewrite E; ring]]).
        -- change (inject_Z 1) with 1%Q. lra.
        -- change (inject_Z 1) with 1%Q. split; [lra|].
           destruct (Qlt_le_dec (-1) (Vec.in_direction dv d)) as [Hlt|Hge]; [lra|].
           exfalso. apply Hw. assert (E : (Vec.in_direction dv d == -1)%Q) by lra. rewrite E. ring.
    + intros e He Hw x Hx. apply He; [exact Hw|]. destruct Hx as [[->|Hx]|Hx]; auto.
Qed.

Lemma corners_ref_dim ds l D :
  Forall (fun e => IVec.dim (fst e) = D) l -> Forall (fun e => IVec.dim (fst e) = D) (corners_ref middle dv ds l).
Proof.
  revert l. induction ds as [|d ds IH]; intros l Hl; cbn [corners_ref]; [exact Hl|].
  apply IH. apply Forall_app; split; apply Forall_map; eapply Forall_impl; try exact Hl; intros e He; exact He.
Qed.

End CornerSums.

(** ** Where the corners lie *)

Section Geometry.
Context (gv : grid_volume) (c : component) (pc : Vec.vec).
Hypothesis Hwf : wf gv.
Hypothesis Hdim : Vec.dim pc = dim gv.

Local Abbreviation iy d := (IVec.in_direction (iyee_shift gv c) d).

Lemma iyee_get d : In d (loop_dirs (dim gv)) -> iy d = if yee_shifted c d then 1 else 0.
Proof.
  intros Hd. unfold iyee_shift, IVec.in_direction. simpl.
  rewrite tget_loop_set by eauto with meep. apply has_direction_spec in Hd. rewrite Hd. reflexivity.
Qed.

Lemma iyee_dim : IVec.dim (iyee_shift gv c) = dim gv.
Proof. reflexivity. Qed.

Lemma interp_p_get d :
  In d (loop_dirs (dim gv)) ->
  Vec.in_direction (interp_p gv c pc) d
  = ((Vec.in_direction pc d - inject_Z (iy d) * ((1#2) * inva gv)) * a gv)%Q.
Proof.
  intros Hd. unfold interp_p, Vec.scale, Vec.sub.
  rewrite vec_map1_get by (simpl; rewrite Hdim; exact Hd).
  rewrite vec_map2_get by (rewrite Hdim; exact Hd).
  unfold yee_shift. rewrite vec_at_get by (rewrite iyee_dim; exact Hd). reflexivity.
Qed.

Lemma interp_middle_dim : IVec.dim (interp_middle gv c pc) = dim gv.
Proof.
  unfold interp_middle, IVec.add, IVec.map2. simpl.
  apply ivec_set_fold; [apply loop_dirs_NoDup | eauto with meep].
Qed.

Lemma interp_middle_get d :
  In d (loop_dirs (dim gv)) ->
  IVec.in_direction (interp_middle gv c pc) d
  = Qfloor (Vec.in_direction (interp_p gv c pc) d) * 2 + 1 + iy d.
Proof.
  intros Hd. unfold interp_middle, IVec.add.
  destruct (ivec_set_fold (fun d => Qfloor (Vec.in_direction (interp_p gv c pc) d) * 2 + 1)
              (loop_dirs (dim gv)) (IVec.blank (dim gv)) (loop_dirs_NoDup _) (loop_dirs_not_no _)) as [H1 H2].
  rewrite ivec_map2_get by (rewrite H1; exact Hd).
  rewrite H2 by eauto with meep. rewrite decide_True by exact Hd. reflexivity.
Qed.

Lemma interp_dv_get d :
  In d (loop_dirs (dim gv)) ->
  (Vec.in_direction (interp_dv gv c pc) d
   == 2 * a gv * Vec.in_direction pc d - inject_Z (IVec.in_direction (interp_middle gv c pc) d))%Q.
Proof.
  intros Hd. destruct Hwf as (Ha & Hinv & _).
  unfold interp_dv, Vec.scale, Vec.sub.
  rewrite vec_map1_get by (simpl; rewrite Hdim; exact Hd).
  rewrite vec_map2_get by (rewrite Hdim; exact Hd).
  rewrite vec_at_get by (rewrite interp_middle_dim; exact Hd). rewrite Hinv.
  field. intros E. rewrite E in Ha. discriminate.
Qed.

Lemma interp_dv_range d :
  In d (loop_dirs (dim gv)) ->
  (-1 <= Vec.in_direction (interp_dv gv c pc) d < 1)%Q.
Proof.
  intros Hd. rewrite interp_dv_get by exact Hd. rewrite interp_middle_get by exact Hd.
  rewrite interp_p_get by exact Hd.
  set (x := ((Vec.in_direction pc d - inject_Z (iy d) * ((1#2) * inva gv)) * a gv)%Q).
  pose proof (Qfloor_le x) as Hl. pose proof (Qlt_floor x) as Hu.
  assert (Ex : (2 * a gv * Vec.in_direction pc d == 2 * x + inject_Z (iy d))%Q).
  { destruct Hwf as (Ha & Hinv & _). unfold x. rewrite Hinv. field. intros E. rewrite E in Ha. discriminate. }
  rewrite Ex, !inject_Z_plus, inject_Z_mult. rewrite inject_Z_plus in Hu.
  change (inject_Z 2) with 2%Q. change (inject_Z 1) with 1%Q in *. lra.
Qed.

Lemma corners_ref_length middle dv ds l :
  length (corners_ref middle dv ds l) = (2 ^ length ds * length l)%nat.
Proof.
  revert l. induction ds as [|d ds IH]; intros l; cbn [corners_ref]; [simpl; lia|].
  rewrite IH, length_app, !length_map. simpl. lia.
Qed.

Lemma loop_dirs_length dm : (length (loop_dirs dm) <= 3)%nat.
Proof. destruct dm; simpl; lia. Qed.

Local Abbreviation middle := (interp_middle gv c pc).
Local Abbreviation dv := (interp_dv gv c pc).
Local Abbreviation e0 := (round_vec gv (vec_at gv (interp_middle gv c pc)), 1%Q).
Local Abbreviation ds := (loop_dirs (dim gv)).

Lemma corners_facts :
  corners_loop gv middle dv ds 1 (repeat e0 8)
    = (length (corners_ref middle dv ds [e0]),
       corners_ref middle dv ds [e0] ++ drop (2 ^ length ds - 1) (repeat e0 7))
  /\ length (corners_ref middle dv ds [e0] ++ drop (2 ^ length ds - 1) (repeat e0 7)) = 8%nat
  /\ (wsum (corners_ref middle dv ds [e0]) == 1)%Q
  /\ Forall (fun e => 0 <= snd e)%Q (corners_ref middle dv ds [e0])
  /\ (forall d, In d ds -> moment d (corners_ref middle dv ds [e0]) == 2 * a gv * Vec.in_direction pc d)%Q
  /\ Forall (near_e (fun d => 2 * a gv * Vec.in_direction pc d)%Q (fun d => In d ds)) (corners_ref middle dv ds [e0])
  /\ Forall (fun e => IVec.dim (fst e) = dim gv) (corners_ref middle dv ds [e0]).
Proof.
  pose proof (loop_dirs_length (dim gv)) as Hl3.
  assert (Hp : (2 ^ length ds <= 8)%nat).
  { change 8%nat with (2 ^ 3)%nat. apply Nat.pow_le_mono_r; lia. }
  assert (Hp1 : (2 ^ length ds <> 0)%nat) by (apply Nat.pow_nonzero; lia).
  assert (Hdv : forall d, In d ds -> (Vec.in_direction dv d == 2 * a gv * Vec.in_direction pc d
                                     - inject_Z (IVec.in_direction middle d))%Q)
    by (intros; apply interp_dv_get; assumption).
  repeat split.
  - change (repeat e0 8) with ([e0] ++ repeat e0 7).
    rewrite corners_loop_ref by (simpl; rewrite ?repeat_length; lia).
    rewrite corners_ref_length. cbn [length]. rewrite !Nat.mul_1_l, Nat.mul_1_r. reflexivity.
  - rewrite length_app, corners_ref_length, length_drop, repeat_length. simpl. lia.
  - rewrite corners_ref_wsum. simpl. ring.
  - apply corners_ref_nonneg; [|constructor; [simpl; lra|constructor]].
    intros d Hd. pose proof (interp_dv_range d Hd). lra.
  - intros d Hd. rewrite corners_ref_moment by (auto using loop_dirs_NoDup; eauto with meep).
    rewrite decide_True by exact Hd. rewrite Hdv by exact Hd. simpl. ring.
  - eapply Forall_impl.
    + apply (corners_ref_near middle dv (fun d => 2 * a gv * Vec.in_direction pc d)%Q ds (fun _ => False)).
      * apply loop_dirs_NoDup.
      * intros d Hd; split; [tauto|eauto with meep].
      * tauto.
      * intros d Hd. split; [rewrite Hdv by exact Hd; ring|]. apply interp_dv_range; assumption.
      * constructor; [|constructor]. intros _ d [].
    + intros e He Hw x Hx. apply He; auto.
  - apply corners_ref_dim. constructor; [reflexivity|constructor].
Qed.

End Geometry.

(** ** The weighted loops *)

Lemma set_weight_nth {B} (ws : list (B * Q)) i e dflt (h : B * Q -> Q) :
  ws !! i = Some e -> set_weight ws i (h (nth i ws dflt)) = alter (fun e => (fst e, h e)) i ws.
Proof.
  intros He. rewrite (nth_lookup_Some _ _ _ _ He). apply list_eq. intros j.
  unfold set_weight. rewrite !list_lookup_alter. case_decide; subst; [rewrite He|]; reflexivity.
Qed.

(** [for (i = 0; i < 8 && weights[i]; i++)] over [pre ++ F ++ zs], where the
    weights of [F] are nonzero and the next weight is zero, runs the body
    on the entries of [F] only. *)
Lemma for_nonzero_map {B} (dflt : B * Q) (body : list (B * Q) -> nat -> list (B * Q))
  (g : nat -> B * Q -> B * Q) (P : B * Q -> Prop) fuel pre F zs :
  (length F <= fuel)%nat -> Forall (fun e => ~ (snd e == 0)%Q /\ P e) F ->
  (snd dflt == 0)%Q -> (forall e, head zs = Some e -> (snd e == 0)%Q) ->
  (forall ws i e, ws !! i = Some e -> P e -> body ws i = alter (g i) i ws) ->
  for_nonzero dflt body fuel (length pre) (pre ++ F ++ zs)
  = pre ++ imap (fun j => g (length pre + j)%nat) F ++ zs.
Proof.
  intros Hf HF Hd Hz Hb. revert fuel pre Hf. induction F as [|x F IH]; intros fuel pre Hf.
  - simpl. destruct fuel; [reflexivity|]. cbn [for_nonzero].
    destruct zs as [|z zs]; simpl.
    + rewrite app_nil_r, nth_overflow by lia. apply Qeq_bool_iff in Hd. rewrite Hd. reflexivity.
    + rewrite nth_mid. rewrite (proj2 (Qeq_bool_iff _ _) (Hz z eq_refl)). reflexivity.
  - inversion HF as [|? ? [Hx HPx] HF']; subst. destruct fuel as [|fuel]; [simpl in Hf; lia|].
    cbn [for_nonzero app]. rewrite nth_mid.
    destruct (Qeq_bool (snd x) 0) eqn:E; [apply Qeq_bool_iff in E; contradiction|].
    rewrite (Hb _ _ x) by (exact (lookup_mid _ _ _) || exact HPx). rewrite alter_mid.
    replace (pre ++ g (length pre) x :: F ++ zs) with ((pre ++ [g (length pre) x]) ++ F ++ zs)
      by (rewrite <- app_assoc; reflexivity).
    replace (S (length pre)) with (length (pre ++ [g (length pre) x])) by (rewrite length_app; simpl; lia).
    rewrite IH by (auto; simpl in Hf; lia). rewrite <- app_assoc. simpl. rewrite Nat.add_0_r.
    f_equal. f_equal. f_equal. apply imap_ext. intros j y _. unfold compose. f_equal. rewrite length_app. simpl. lia.
Qed.


(** ** The stages after the corners *)

(** ** The stages after the corners *)

Lemma wsum_perm {B} (l l' : list (B * Q)) : l ≡ₚ l' -> (wsum l == wsum l')%Q.
Proof.
  induction 1 as [|x l l' _ IH|x y l|l l' l'' _ IH1 _ IH2]; simpl.
  - reflexivity.
  - rewrite IH. reflexivity.
  - ring.
  - rewrite IH1. exact IH2.
Qed.

Lemma SMALL_pos : (0 < SMALL)%Q.
Proof. reflexivity. Qed.

Lemma tiny_clipped (w : Q) : (w == 0 \/ SMALL <= w)%Q -> is_tiny w = true -> (w == 0)%Q.
Proof.
  unfold is_tiny, tiny, SMALL. rewrite Qlt_bool_iff. intros [H|H] Ht; [exact H|].
  exfalso. rewrite Qabs_pos in Ht by (eapply Qle_trans; [|exact H]; discriminate). lra.
Qed.

Lemma wsum_filter_kept {B} (l : list (B * Q)) :
  Forall (fun e => snd e == 0 \/ SMALL <= snd e)%Q l -> (wsum (filter kept l) == wsum l)%Q.
Proof.
  induction 1 as [|e l He _ IH]; [reflexivity|]. rewrite filter_cons. unfold kept at 1.
  destruct (decide (is_tiny (snd e) = false)) as [Hk|Hk]; simpl; rewrite IH; [reflexivity|].
  apply not_false_is_true in Hk. rewrite (tiny_clipped _ He Hk). ring.
Qed.

Lemma renorm_w {B} delta (e : B * Q) : snd (renorm delta e) = (snd e + delta)%Q.
Proof. reflexivity. Qed.

Lemma clipw_cases {B} (e : B * Q) :
  (clipw e = (fst e, 0%Q) /\ snd e < SMALL \/ clipw e = e /\ SMALL <= snd e)%Q.
Proof.
  unfold clipw. destruct (Qlt_bool (snd e) SMALL) eqn:E; [left; split; [reflexivity|]|right; split; [reflexivity|]].
  - apply Qlt_bool_iff. exact E.
  - apply Qnot_lt_le. rewrite <- Qlt_bool_iff. congruence.
Qed.

Lemma clipw_bounds {B} (delta : Q) (l : list (B * Q)) :
  (delta == 0)%Q -> Forall (fun e => 0 <= snd e)%Q l ->
  (wsum l - inject_Z (Z.of_nat (length l)) * SMALL <= wsum (map clipw (map (renorm delta) l)) <= wsum l)%Q
  /\ Forall (fun e => snd e == 0 \/ SMALL <= snd e)%Q (map clipw (map (renorm delta) l)).
Proof.
  intros Hd. induction 1 as [|e l He _ [IH1 IH2]]; [simpl; split; [split; unfold Qle; simpl; lia|constructor]|].
  cbn [map wsum fold_right length]. fold (wsum l) (wsum (map clipw (map (renorm delta) l))).
  rewrite Nat2Z.inj_succ, <- Z.add_1_l, inject_Z_plus. change (inject_Z 1) with 1%Q.
  set (K := wsum (map clipw (map (renorm delta) l))) in *. pose proof SMALL_pos.
  destruct (clipw_cases (renorm delta e)) as [[-> Hlt]|[-> Hge]]; unfold renorm in *; simpl in *;
    (split; [|constructor; [|exact IH2]]).
  - lra.
  - left. reflexivity.
  - lra.
  - right. exact Hge.
Qed.

Lemma nonzero_prefix_app {B} (F zs : list (B * Q)) :
  Forall (fun e => ~ (snd e == 0)%Q) F -> (forall e, head zs = Some e -> (snd e == 0)%Q) ->
  nonzero_prefix (F ++ zs) = length F.
Proof.
  intros HF Hz. induction HF as [|e F He _ IH]; simpl.
  - destruct zs as [|z zs]; [reflexivity|]. simpl. rewrite (proj2 (Qeq_bool_iff _ _) (Hz z eq_refl)). reflexivity.
  - destruct (Qeq_bool (snd e) 0) eqn:E; [apply Qeq_bool_iff in E; contradiction|]. rewrite IH. reflexivity.
Qed.


Lemma wsum_map_const {B} (q : Q) (l : list (B * Q)) :
  (wsum (map (fun e => (fst e, q)) l) == inject_Z (Z.of_nat (length l)) * q)%Q.
Proof.
  induction l as [|e l IH]; [simpl; ring|]. cbn [map wsum fold_right length]. fold (wsum (map (fun e => (fst e, q)) l)).
  rewrite IH, Nat2Z.inj_succ, <- Z.add_1_r, inject_Z_plus. simpl. ring.
Qed.

Lemma total_weight_sum {B} (l1 l2 : list (B * Q)) dflt t0 :
  (fold_left (fun t i => t + snd (nth i (l1 ++ l2) dflt)) (seq 0 (length l1)) t0 == t0 + wsum l1)%Q.
Proof.
  assert (G : forall pre, (fold_left (fun t i => t + snd (nth i (pre ++ l1 ++ l2) dflt))
                              (seq (length pre) (length l1)) t0 == t0 + wsum l1)%Q).
  { revert t0. induction l1 as [|x l1 IH]; intros t0 pre; [simpl; ring|].
    cbn [length seq fold_left]. cbn [app]. rewrite nth_mid.
    replace (pre ++ x :: l1 ++ l2) with ((pre ++ [x]) ++ l1 ++ l2) by (rewrite <- app_assoc; reflexivity).
    replace (S (length pre)) with (length (pre ++ [x])) by (rewrite length_app; simpl; lia).
    rewrite IH. simpl. ring. }
  apply (G []).
Qed.

Lemma clip_step_ok ws i e :
  ws !! i = Some e -> (0 <= snd e)%Q -> clip_step ws i = Ok (alter clipw i ws).
Proof.
  intros He Hn. unfold clip_step. rewrite (nth_lookup_Some _ _ _ _ He).
  assert (Qlt_bool (snd e) 0 = false) as -> by (apply not_true_is_false; rewrite Qlt_bool_iff; lra).
  destruct (clipw_cases e) as [[Hc Hlt]|[Hc Hge]].
  - rewrite (proj2 (Qlt_bool_iff _ _) Hlt). f_equal. apply list_eq. intros j.
    unfold set_weight. rewrite !list_lookup_alter. case_decide; [subst; rewrite He; simpl; rewrite Hc|]; reflexivity.
  - assert (Qlt_bool (snd e) SMALL = false) as -> by (apply not_true_is_false; rewrite Qlt_bool_iff; lra).
    f_equal. apply list_eq. intros j. rewrite !list_lookup_alter.
    case_decide; [subst; rewrite He; simpl; rewrite Hc|]; reflexivity.
Qed.


Lemma interpolate_locs_facts gv c pc :
  wf gv -> Vec.dim pc = dim gv ->
  exists F zs, interpolate_locs gv c pc = Ok (F ++ zs)
    /\ length (F ++ zs) = 8%nat
    /\ Forall (fun e => SMALL <= snd e)%Q F
    /\ Forall (fun e => snd e == 0)%Q zs
    /\ (1 - 8 * SMALL <= wsum F <= 1)%Q
    /\ Forall (fun e => IVec.dim (fst e) = dim gv /\ near gv pc (fst e)) F.
Proof.
  intros Hwf Hdim.
  destruct (corners_facts gv c pc Hwf Hdim) as (Hloop & Hlen & Hsum & Hnn & _ & Hnear & Hdims).
  set (C := corners_ref _ _ _ _) in *. set (T := drop _ _) in *.
  assert (HC8 : (length C <= 8)%nat) by (rewrite length_app in Hlen; lia).
  unfold interpolate_locs. rewrite Hloop. cbv zeta.
  (* the weights past [already_have] are zeroed *)
  replace (8 - length C)%nat with (length T) by (rewrite length_app in Hlen; lia).
  assert (E1 : fold_left (fun ws i => set_weight ws i 0%Q) (seq (length C) (length T)) (C ++ T)
               = C ++ map zero_w T).
  { pose proof (loop_alter (fun ws i => set_weight ws i 0%Q) zero_w (fun _ => True) C T []) as H.
    rewrite !app_nil_r in H. apply H; [apply Forall_true; auto|reflexivity]. }
  rewrite E1. clear E1.
  (* the renormalisation adds zero *)
  unfold renormalise. cbv zeta.
  match goal with |- context [ ((1 - ?tw) * (1 / ?k))%Q ] => set (delta := ((1 - tw) * (1 / k))%Q) end.
  assert (Hdelta : (delta == 0)%Q) by (unfold delta; rewrite total_weight_sum, Hsum; ring).
  assert (E2 : fold_left (fun ws i => set_weight ws i (snd (nth i ws (IVec.blank D1, 0%Q)) + delta)%Q)
                 (seq 0 (length C)) (C ++ map zero_w T) = map (renorm delta) C ++ map zero_w T).
  { apply (loop_alter _ (renorm delta) (fun _ => True) [] C (map zero_w T)); [apply Forall_true; auto|].
    intros ws i e He _. apply (set_weight_nth _ _ _ _ (fun e => snd e + delta)%Q He). }
  rewrite E2. clear E2.
  (* clipping never aborts *)
  assert (E3 : res_fold_left clip_step (seq 0 (length C)) (map (renorm delta) C ++ map zero_w T)
               = Ok (map clipw (map (renorm delta) C) ++ map zero_w T)).
  { rewrite <- (length_map (renorm delta) C).
    apply (res_loop_alter clip_step clipw (fun e => 0 <= snd e)%Q [] _ (map zero_w T)).
    - apply Forall_map. eapply Forall_impl; [exact Hnn|]. intros e He. cbv beta in *. rewrite renorm_w. lra.
    - intros ws i e He Hn. apply (clip_step_ok ws i e); assumption. }
  rewrite E3. clear E3. cbn [res_bind].
  (* compaction *)
  destruct (clipw_bounds delta C Hdelta Hnn) as [Hb HK].
  set (K := map clipw (map (renorm delta) C)) in *.
  assert (HKlen : length K = length C) by (unfold K; rewrite !length_map; reflexivity).
  unfold stupidsort_locs, stupidsort.
  destruct (stupidsort_loop_spec (IVec.ivec1 0) (length C) [] K (map zero_w T) HKlen) as (big & Hs & Hk & Hp).
  change (length (@nil (IVec.ivec * Q))) with 0%nat in Hs. cbn [app] in Hs. rewrite Hs.
  set (zs := replicate _ _ ++ map zero_w T).
  assert (Hzs : Forall (fun e => snd e == 0)%Q zs).
  { apply Forall_app. split; [apply Forall_replicate; reflexivity|apply Forall_map, Forall_true; reflexivity]. }
  assert (Hzh : forall e, head zs = Some e -> (snd e == 0)%Q).
  { intros e He. destruct zs as [|z zs']; [discriminate|]. injection He as <-. inversion Hzs; assumption. }
  assert (Hbig : Forall (fun e => SMALL <= snd e /\ IVec.dim (fst e) = dim gv /\ near gv pc (fst e))%Q big).
  { apply (Permutation_Forall (Permutation_sym Hp)). apply Forall_filter_kept.
    (* the entries of [K] with nonzero weight come from corners of nonzero weight *)
    assert (HKn : Forall (fun e => ~ (snd e == 0)%Q -> IVec.dim (fst e) = dim gv /\ near gv pc (fst e)) K).
    { unfold K. rewrite Forall_map. rewrite Forall_map. rewrite Forall_forall in Hnear, Hdims |- *.
      intros e He Hw. destruct (clipw_cases (renorm delta e)) as [[Hc _]|[Hc _]]; rewrite Hc in Hw |- *;
        simpl in Hw |- *; [contradiction Hw; reflexivity|].
      split; [apply Hdims, He|]. intros d Hd. apply (Hnear e He); [|exact Hd].
      intros E. apply Hw. rewrite E, Hdelta. reflexivity. }
    rewrite Forall_forall in HK, HKn |- *. intros e He Hke.
    pose proof (kept_nonzero _ Hke) as Hnz. destruct (HK e He) as [H0|H0]; [contradiction|].
    split; [exact H0|]. apply HKn; assumption. }
  assert (Hbsum : (wsum big == wsum K)%Q)
    by (transitivity (wsum (filter kept K)); [apply wsum_perm, Hp|apply wsum_filter_kept, HK]).
  assert (Hblen : (length big <= 8)%nat).
  { apply Permutation_length in Hp. rewrite Hp. etransitivity; [apply length_filter|]. lia. }
  assert (HbF : Forall (fun e => ~ (snd e == 0)%Q) big).
  { eapply Forall_impl; [exact Hbig|]. intros e [He _] E. cbv beta in *. rewrite E in He. pose proof SMALL_pos. lra. }
  assert (Hlo : (1 - 8 * SMALL <= wsum big <= 1)%Q).
  { rewrite Hbsum. destruct Hb as [Hb1 Hb2]. rewrite Hsum in Hb1, Hb2. split; [|exact Hb2].
    eapply Qle_trans; [|exact Hb1].
    assert (Hn : (inject_Z (Z.of_nat (length C)) * SMALL <= 8 * SMALL)%Q).
    { apply Qmult_le_compat_r; [unfold Qle; simpl; lia|apply Qlt_le_weak, SMALL_pos]. }
    lra. }
  assert (Hlen8 : length (big ++ zs) = 8%nat).
  { unfold zs. rewrite <- Hs, stupidsort_loop_length, length_app, length_map, HKlen, <- length_app. exact Hlen. }
  (* the final pass over equal weights *)
  unfold equalise. rewrite nonzero_prefix_app by assumption.
  rewrite take_app_length.
  destruct (forallb _ big) eqn:Eall.
  - exists (imap (fun _ e => (fst e, 1 / inject_Z (Z.of_nat (length big)))%Q) big), zs.
    assert (Hb1 : (1 <= length big)%nat).
    { destruct big; [|simpl; lia]. simpl in Hlo. exfalso. unfold SMALL in Hlo. lra. }
    rewrite (for_nonzero_map _ _ (fun _ e => (fst e, 1 / inject_Z (Z.of_nat (length big)))%Q) (fun _ => True) 8 [] big zs)
      by first [lia | reflexivity | assumption | (intros; reflexivity)
               | (eapply Forall_impl; [exact HbF|]; intros; split; auto)].
    rewrite imap_const. cbn [app].
    assert (Hk8 : (1 / inject_Z (Z.of_nat (length big)) == / inject_Z (Z.of_nat (length big)))%Q) by (unfold Qdiv; ring).
    assert (Hkpos : (0 < inject_Z (Z.of_nat (length big)))%Q) by (unfold Qlt; simpl; lia).
    repeat split.
    + rewrite length_app, length_map. rewrite length_app in Hlen8. exact Hlen8.
    + apply Forall_map, Forall_true. intros e. simpl.
      apply Qle_shift_div_l; [exact Hkpos|]. unfold Qle, SMALL. simpl. lia.
    + exact Hzs.
    + rewrite wsum_map_const. field_simplify; [|lra]. unfold SMALL. lra.
    + rewrite wsum_map_const. field_simplify; [|lra]. lra.
    + apply Forall_map. apply (Forall_impl _ _ _ Hbig). simpl. tauto.
  - exists big, zs. repeat split; try assumption.
    + apply (Forall_impl _ _ _ Hbig). tauto.
    + apply Hlo.
    + apply Hlo.
    + apply (Forall_impl _ _ _ Hbig). tauto.
Qed.


(** ** The containment checks of the index version *)

(** ** The containment checks of the index version *)

Lemma own_axis_range gv d o : wf gv -> own_axis gv d o -> 0 <= o <= 2 * num_direction gv d.
Proof.
  intros (_ & _ & _ & _ & _ & H0 & H1 & H2). pose proof (num_direction_nonneg gv d H0 H1 H2).
  unfold own_axis. case_bool_decide as Hc; [destruct Hc as [_ ->]; intros [[_ ->]|Ho]|]; lia.
Qed.

Lemma near_owns_contains gv pc p :
  wf gv -> Vec.dim pc = dim gv -> IVec.dim p = dim gv -> near gv pc p -> owns gv p = true ->
  contains_vec gv pc = true.
Proof.
  intros Hwf Hdim Hp Hn Ho. pose proof (proj1 (owns_iff gv p Hwf Hp) Ho) as Hown. clear Ho. rename Hown into Ho.
  pose proof (fun d Hd => own_axis_range _ _ _ Hwf (Ho d Hd)) as Hrange.
  destruct Hwf as (Ha & Hinv & Hio & _ & Horg & _).
  unfold contains_vec. apply forallb_forall. intros d Hd.
  pose proof (Hrange d Hd) as Hr. specialize (Hn d Hd).
  unfold Vec.sub. rewrite vec_map2_get by (rewrite Hdim; exact Hd).
  rewrite Horg, vec_at_get by (rewrite Hio; exact Hd). rewrite Hinv.
  set (x := Vec.in_direction pc d) in *. set (n := num_direction gv d) in *.
  set (io_d := IVec.in_direction (io gv) d) in *. set (p_d := IVec.in_direction p d) in *.
  assert (Hu : (0 < / a gv)%Q) by (apply Qinv_lt_0_compat, Ha).
  assert (Ex : (x - inject_Z io_d * ((1#2) * / a gv) == (1#2) * / a gv * (2 * a gv * x - inject_Z io_d))%Q).
  { field. intros E. rewrite E in Ha. discriminate. }
  assert (Hlo : (-2 < 2 * a gv * x - inject_Z io_d)%Q).
  { assert (inject_Z io_d <= inject_Z p_d)%Q by (rewrite <- Zle_Qle; lia). lra. }
  assert (Hhi : (2 * a gv * x - inject_Z io_d < 2 * inject_Z n + 2)%Q).
  { assert (inject_Z p_d <= inject_Z io_d + 2 * inject_Z n)%Q.
    { change 2%Q with (inject_Z 2). rewrite <- inject_Z_mult, <- inject_Z_plus, <- Zle_Qle. lia. }
    lra. }
  apply negb_true_iff, orb_false_iff. rewrite <- !not_true_iff_false, !Qlt_bool_iff. rewrite Ex.
  split; intros H.
  - assert (H2 : ((1#2) * / a gv * (-2) < (1#2) * / a gv * (2 * a gv * x - inject_Z io_d))%Q)
      by (apply Qmult_lt_l; [lra|exact Hlo]). lra.
  - assert (H2 : ((1#2) * / a gv * (2 * a gv * x - inject_Z io_d) < (1#2) * / a gv * (2 * inject_Z n + 2))%Q)
      by (apply Qmult_lt_l; [lra|exact Hhi]). lra.
Qed.


(** C23. The [indices] version of [interpolate] never aborts: a corner
    it keeps is owned by the grid and lies within one cell of the point,
    so the point is contained whenever a weight survives, and both
    [contains(p)] checks pass. *)
Theorem interpolate_never_aborts gv c pc ind0 :
  wf gv -> Vec.dim pc = dim gv -> length ind0 = 8%nat ->
  exists iw, interpolate gv c pc ind0 = Ok iw.
Proof.
  intros Hwf Hdim Hind.
  destruct (interpolate_locs_facts gv c pc Hwf Hdim) as (F & zs & Hok & Hlen & HF & Hz & _ & Hn).
  unfold interpolate. rewrite Hok. cbn [res_bind].
  destruct (contains_vec gv pc) eqn:Ec; [eexists; reflexivity|].
  (* outside the grid no corner is owned: every weight is zeroed *)
  assert (Hzh : forall e, head zs = Some e -> (snd e == 0)%Q).
  { intros e He. destruct zs; [discriminate|]. injection He as <-. inversion Hz; assumption. }
  assert (HF' : Forall (fun e => ~ (snd e == 0)%Q /\ IVec.dim (fst e) = dim gv /\ near gv pc (fst e)) F).
  { apply Forall_and; split; [|exact Hn]. eapply Forall_impl; [exact HF|].
    intros e He E. cbv beta in *. rewrite E in He. pose proof SMALL_pos. lra. }
  rewrite (for_nonzero_map (dflt_loc gv) _ (fun _ => zero_w) (fun e => IVec.dim (fst e) = dim gv /\ near gv pc (fst e)) 8 [] F zs)
    by first [reflexivity | exact HF' | exact Hzh | (rewrite length_app in Hlen; simpl; lia)
             | (intros ws i e He [Hd Hne]; rewrite (nth_lookup_Some _ _ _ _ He);
                destruct (owns gv (fst e)) eqn:Eo; [|reflexivity];
                rewrite (near_owns_contains gv pc (fst e) Hwf Hdim Hd Hne Eo) in Ec; discriminate)].
  rewrite imap_const. cbn [app].
  assert (Hl' : length (map zero_w F ++ zs) = 8%nat) by (rewrite length_app, length_map, <- length_app; exact Hlen).
  assert (Hst : stupidsort_locs (map zero_w F ++ zs) 8 = replicate 8 (IVec.ivec1 0, 0%Q)).
  { unfold stupidsort_locs. rewrite <- Hl'. apply stupidsort_zero.
    apply Forall_app; split; [apply Forall_map, Forall_true; reflexivity|exact Hz]. }
  rewrite Hst.
  do 8 (destruct ind0 as [|? ind0]; [discriminate|]). destruct ind0; [|discriminate].
  eexists. vm_compute. reflexivity.
Qed.


Lemma wsum_zero_app {B} (F zs : list (B * Q)) :
  Forall (fun e => snd e == 0)%Q zs -> (wsum (F ++ zs) == wsum F)%Q.
Proof.
  intros Hz. rewrite wsum_app. induction Hz as [|e zs He _ IH]; simpl; [ring|].
  fold (wsum zs) in *. rewrite He. lra.
Qed.

(** ** What [interpolate] computes *)

(** C21. For every point of the grid's dimension, the [locs] version of
    [interpolate] returns (it never aborts: the weights it renormalises are
    never negative) eight weights, each zero or at least [1e-13], whose
    sum lies within [8e-13] below one; the nonzero weights come first. *)
Theorem interpolate_locs_spec gv c pc :
  wf gv -> Vec.dim pc = dim gv ->
  exists ws, interpolate_locs gv c pc = Ok ws /\ length ws = 8%nat
    /\ Forall (fun e => snd e == 0 \/ SMALL <= snd e)%Q ws
    /\ (1 - 8 * SMALL <= wsum ws <= 1)%Q
    /\ exists F zs, ws = F ++ zs /\ Forall (fun e => ~ (snd e == 0))%Q F /\ Forall (fun e => snd e == 0)%Q zs.
Proof.
  intros Hwf Hdim.
  destruct (interpolate_locs_facts gv c pc Hwf Hdim) as (F & zs & Hok & Hlen & HF & Hz & Hs & _).
  exists (F ++ zs). split; [exact Hok|]. split; [exact Hlen|]. split; [|split].
  - apply Forall_app. split; [eapply Forall_impl; [exact HF|]; tauto|].
    eapply Forall_impl; [exact Hz|]. tauto.
  - rewrite wsum_zero_app by exact Hz. exact Hs.
  - exists F, zs. split; [reflexivity|]. split; [|exact Hz].
    eapply Forall_impl; [exact HF|]. intros e He E. cbv beta in *. rewrite E in He.
    pose proof SMALL_pos. lra.
Qed.

(** C22. The corners the loop over [already_have] builds are an exact
    multilinear interpolation: [2^dim] corners with nonnegative weights
    summing to one whose weighted mean position, [sum w * loc * (0.5 *
    inva)], is the point itself on every active axis. *)
Theorem interp_corners_exact gv c pc :
  wf gv -> Vec.dim pc = dim gv ->
  exists C T,
    corners_loop gv (interp_middle gv c pc) (interp_dv gv c pc) (loop_dirs (dim gv)) 1
      (repeat (round_vec gv (vec_at gv (interp_middle gv c pc)), 1%Q) 8) = (length C, C ++ T)
    /\ length C = (2 ^ length (loop_dirs (dim gv)))%nat
    /\ (wsum C == 1)%Q /\ Forall (fun e => 0 <= snd e)%Q C
    /\ (forall d, In d (loop_dirs (dim gv)) ->
          moment d C * ((1#2) * inva gv) == Vec.in_direction pc d)%Q.
Proof.
  intros Hwf Hdim.
  destruct (corners_facts gv c pc Hwf Hdim) as (Hloop & _ & Hsum & Hnn & Hm & _).
  do 2 eexists. split; [exact Hloop|]. split; [rewrite corners_ref_length; simpl; lia|].
  split; [exact Hsum|]. split; [exact Hnn|].
  intros d Hd. rewrite (Hm d Hd). destruct Hwf as (Ha & Hinv & _). rewrite Hinv.
  field. intros E. rewrite E in Ha. discriminate.
Qed.

(** ** Witnesses *)

Lemma interpolate_locs_spec_witness :
  exists ws, interpolate_locs gv_example Ez (Vec.vec2 (13#100) (7#100)) = Ok ws /\ length ws = 8%nat
    /\ Forall (fun e => snd e == 0 \/ SMALL <= snd e)%Q ws
    /\ (1 - 8 * SMALL <= wsum ws <= 1)%Q
    /\ exists F zs, ws = F ++ zs /\ Forall (fun e => ~ (snd e == 0))%Q F /\ Forall (fun e => snd e == 0)%Q zs.
Proof. apply (interpolate_locs_spec gv_example Ez (Vec.vec2 (13#100) (7#100)) gv_example_wf). reflexivity. Defined.

Lemma interp_corners_exact_witness :
  exists C T,
    corners_loop gv_example (interp_middle gv_example Hx (Vec.vec2 (13#100) (7#100)))
      (interp_dv gv_example Hx (Vec.vec2 (13#100) (7#100))) (loop_dirs (dim gv_example)) 1
      (repeat (round_vec gv_example (vec_at gv_example (interp_middle gv_example Hx (Vec.vec2 (13#100) (7#100)))), 1%Q) 8)
      = (length C, C ++ T)
    /\ length C = (2 ^ length (loop_dirs (dim gv_example)))%nat
    /\ (wsum C == 1)%Q /\ Forall (fun e => 0 <= snd e)%Q C
    /\ (forall d, In d (loop_dirs (dim gv_example)) ->
          moment d C * ((1#2) * inva gv_example) == Vec.in_direction (Vec.vec2 (13#100) (7#100)) d)%Q.
Proof. apply (interp_corners_exact gv_example Hx (Vec.vec2 (13#100) (7#100)) gv_example_wf). reflexivity. Defined.

Lemma interpolate_never_aborts_witness :
  exists iw, interpolate gv_example Hz (Vec.vec2 (41#100) (1#100)) (repeat 0 8) = Ok iw.
Proof. apply (interpolate_never_aborts gv_example Hz (Vec.vec2 (41#100) (1#100)) (repeat 0 8) gv_example_wf); reflexivity. Defined.

End Interpolate.
