(* ===== verification/Resolution.v ===== *)
(** * Resolution: sampling a grid volume at another resolution

    [grid_volume::loc_at_resolution] and [grid_volume::ntot_at_resolution]
    (vec.cpp).  Both loop over [X..R]; along each direction with a high
    wall they take [nhere = max(1, (int)(dist*res + 0.5))] samples, where
    [dist] is the distance between the walls.  [ntot_at_resolution]
    multiplies the counts; [loc_at_resolution] reads the index as a
    mixed-radix number, one digit per direction, and places the point at
    the centre of the digit's cell.  The loop state is the pair
    [(where, index)]; C [%] and [/] on [int] are [Z.rem] and [Z.quot].

    The theorems: [ntot_at_resolution] never aborts and is at least 1
    ([ntot_at_resolution_total]); distinct indices below it give distinct
    points ([loc_at_resolution_injective]); every point lies inside the
    sampled span ([loc_at_resolution_in_span]).  The product is taken in
    [Z]: the overflow of [mytot] on [int] is not modelled. *)

From S2P Require Import Prelude Geom Coord Volume GridVolume.
Import GridVolume.

Module Resolution.

(** [for (int dd = X; dd <= R; dd++)] *)
Definition res_dirs : list direction := [X; Y; Z; R].

(** [boundary_location(High,d) - boundary_location(Low,d)] *)
Definition wall_dist (gv : grid_volume) (d : direction) : res Q :=
  let* hi := boundary_location gv High d in
  let* lo := boundary_location gv Low d in
  Ok (hi - lo)%Q.

(** One pass of the loop of [loc_at_resolution]: the state is [where] ([where_])
    and the remaining [index]. *)
Definition loc_step (gv : grid_volume) (resol : Q) (st : Vec.vec * int) (d : direction)
  : res (Vec.vec * int) :=
  let '(where_, index) := st in
  if has_boundary gv High d then
    let* dist := wall_dist gv d in
    let nhere := Z.max 1 (Qfloor (dist * resol + (1#2))) in
    Ok (Vec.set_direction where_ d
          (Vec.in_direction (origin gv) d + (inject_Z (Z.rem index nhere) + (1#2)) * (1 / resol))%Q,
        Z.quot index nhere)
  else Ok (where_, index).

Definition loc_at_resolution (gv : grid_volume) (index : int) (resol : Q) : res Vec.vec :=
  let* st := res_fold_left (loc_step gv resol) res_dirs (origin gv, index) in
  Ok (fst st).

Definition ntot_step (gv : grid_volume) (resol : Q) (mytot : int) (d : direction) : res int :=
  if has_boundary gv High d then
    let* dist := wall_dist gv d in
    Ok (mytot * Z.max 1 (c_int (dist * resol + (1#2))))
  else Ok mytot.

Definition ntot_at_resolution (gv : grid_volume) (resol : Q) : res int :=
  res_fold_left (ntot_step gv resol) res_dirs 1.

(** The number of samples along [d] ([1] where there is no wall). *)
Definition nhere (gv : grid_volume) (resol : Q) (d : direction) : int :=
  if has_boundary gv High d then
    match wall_dist gv d with
    | Ok dist => Z.max 1 (Qfloor (dist * resol + (1#2)))
    | Fatal _ => 1
    end
  else 1.

Definition nprod (gv : grid_volume) (resol : Q) (ds : list direction) : int :=
  fold_right (fun d p => nhere gv resol d * p) 1 ds.

(** ** Lemmas *)

Lemma wall_dist_ok gv d : In d res_dirs -> exists q, wall_dist gv d = Ok q.
Proof.
  unfold wall_dist, boundary_location. intros Hd.
  destruct d; simpl in Hd; try (intuition discriminate);
    try (destruct (decide (dim gv = Dcyl))); eexists; reflexivity.
Qed.

Lemma max1_floor_c_int (x : Q) : Z.max 1 (Qfloor x) = Z.max 1 (c_int x).
Proof.
  unfold c_int. destruct (Qle_bool 0 x) eqn:E; [reflexivity|].
  assert (Hx : (x < 0)%Q) by (apply Qnot_le_lt; intros H; apply Qle_bool_iff in H; congruence).
  assert (H1 : Qfloor x < 1).
  { pose proof (Qfloor_le x) as H. assert (Hq : (inject_Z (Qfloor x) < inject_Z 1)%Q) by (change (inject_Z 1) with 1%Q; lra).
    rewrite <- Zlt_Qlt in Hq. exact Hq. }
  assert (H2 : 0 <= Qfloor (- x)).
  { pose proof (Qlt_floor (- x)) as H. assert (Hq : (inject_Z (-1) < inject_Z (Qfloor (- x)))%Q).
    { rewrite inject_Z_plus in H. change (inject_Z 1) with 1%Q in H. change (inject_Z (-1)) with (-1)%Q. lra. }
    rewrite <- Zlt_Qlt in Hq. lia. }
  lia.
Qed.

Lemma nhere_pos gv resol d : 1 <= nhere gv resol d.
Proof. unfold nhere. destruct (has_boundary _ _ _); [destruct (wall_dist _ _)|]; lia. Qed.

Lemma nprod_pos gv resol ds : 1 <= nprod gv resol ds.
Proof. induction ds as [|d ds IH]; simpl; [lia|]. pose proof (nhere_pos gv resol d). nia. Qed.

Lemma ntot_loop gv resol ds acc :
  incl ds res_dirs -> res_fold_left (ntot_step gv resol) ds acc = Ok (acc * nprod gv resol ds).
Proof.
  revert acc. induction ds as [|d ds IH]; intros acc Hincl; simpl; [f_equal; lia|].
  unfold ntot_step. destruct (has_boundary gv High d) eqn:Hb.
  - destruct (wall_dist_ok gv d (Hincl d (or_introl eq_refl))) as [q Hq]. rewrite Hq. simpl.
    rewrite IH by (intros x Hx; apply Hincl; right; exact Hx). f_equal.
    rewrite <- max1_floor_c_int. unfold nhere. rewrite Hb, Hq. lia.
  - rewrite IH by (intros x Hx; apply Hincl; right; exact Hx). f_equal. unfold nhere. rewrite Hb. lia.
Qed.

(** The loop of [loc_at_resolution] never aborts and leaves the
    directions it does not visit alone. *)
Lemma loc_loop_ok gv resol ds st :
  incl ds res_dirs -> exists st', res_fold_left (loc_step gv resol) ds st = Ok st'.
Proof.
  revert st. induction ds as [|d ds IH]; intros [w i] Hincl; simpl; [eexists; reflexivity|].
  unfold loc_step. destruct (has_boundary gv High d).
  - destruct (wall_dist_ok gv d (Hincl d (or_introl eq_refl))) as [q Hq]. rewrite Hq. simpl.
    apply IH. intros x Hx; apply Hincl; right; exact Hx.
  - apply IH. intros x Hx; apply Hincl; right; exact Hx.
Qed.

Lemma loc_loop_keep gv resol ds st st' d :
  ~ In d ds -> d <> NO_DIRECTION -> res_fold_left (loc_step gv resol) ds st = Ok st' ->
  Vec.in_direction (fst st') d = Vec.in_direction (fst st) d.
Proof.
  revert st. induction ds as [|e ds IH]; intros [w i] Hnin Hd H; simpl in H.
  - injection H as <-. reflexivity.
  - unfold loc_step in H. destruct (has_boundary gv High e).
    + destruct (wall_dist gv e) as [q|]; [|discriminate]. simpl in H.
      rewrite (IH _ (fun Hx => Hnin (or_intror Hx)) Hd H). simpl.
      rewrite vec_get_set by exact Hd. rewrite decide_False; [reflexivity|].
      intros ->. apply Hnin. left. reflexivity.
    + exact (IH _ (fun Hx => Hnin (or_intror Hx)) Hd H).
Qed.

Lemma quot_bound (i n p : int) : 1 <= n -> 0 <= i < n * p -> 0 <= Z.quot i n < p.
Proof.
  intros Hn Hi. rewrite quot_nonneg by lia. split; [apply Z.div_pos; lia|].
  apply Z.div_lt_upper_bound; lia.
Qed.

Lemma loc_step_wall gv resol w i d q :
  has_boundary gv High d = true -> wall_dist gv d = Ok q ->
  loc_step gv resol (w, i) d =
    let n := Z.max 1 (Qfloor (q * resol + (1#2))) in
    Ok (Vec.set_direction w d (Vec.in_direction (origin gv) d + (inject_Z (Z.rem i n) + (1#2)) * (1 / resol))%Q,
        Z.quot i n).
Proof. intros Hb Hq. unfold loc_step. rewrite Hb, Hq. reflexivity. Qed.

Lemma loc_step_nowall gv resol w i d :
  has_boundary gv High d = false -> loc_step gv resol (w, i) d = Ok (w, i).
Proof. intros Hb. unfold loc_step. rewrite Hb. reflexivity. Qed.

(** Distinct indices below the product of the sample counts are placed
    at distinct points: the loop reads the index in mixed radix. *)
Lemma loc_loop_inj gv resol ds w1 w2 i j st1 st2 :
  (0 < resol)%Q -> NoDup ds -> incl ds res_dirs ->
  0 <= i < nprod gv resol ds -> 0 <= j < nprod gv resol ds ->
  res_fold_left (loc_step gv resol) ds (w1, i) = Ok st1 ->
  res_fold_left (loc_step gv resol) ds (w2, j) = Ok st2 ->
  (forall d, In d ds -> Vec.in_direction (fst st1) d = Vec.in_direction (fst st2) d) -> i = j.
Proof.
  intros Hr. revert w1 w2 i j. induction ds as [|d ds IH]; intros w1 w2 i j Hnd Hincl Hi Hj H1 H2 Hw.
  - simpl in Hi, Hj. lia.
  - inversion Hnd as [|? ? Hnin Hnd']; subst. rewrite list_elem_of_In in Hnin.
    assert (Hincl' : incl ds res_dirs) by (intros x Hx; apply Hincl; right; exact Hx).
    assert (Hdno : d <> NO_DIRECTION).
    { intros ->. specialize (Hincl NO_DIRECTION (or_introl eq_refl)). simpl in Hincl. intuition discriminate. }
    cbn [nprod fold_right] in Hi, Hj. fold (nprod gv resol ds) in Hi, Hj.
    pose proof (nprod_pos gv resol ds). pose proof (nhere_pos gv resol d) as Hn.
    cbn [res_fold_left] in H1, H2. unfold nhere in Hi, Hj, Hn.
    destruct (has_boundary gv High d) eqn:Hb.
    + destruct (wall_dist_ok gv d (Hincl d (or_introl eq_refl))) as [q Hq]. rewrite Hq in Hi, Hj, Hn.
      rewrite (loc_step_wall _ _ _ _ _ _ Hb Hq) in H1. rewrite (loc_step_wall _ _ _ _ _ _ Hb Hq) in H2. cbn zeta in H1, H2. cbn [res_bind] in H1, H2.
      set (n := Z.max 1 (Qfloor (q * resol + (1#2)))) in *.
      assert (Eq : Z.quot i n = Z.quot j n).
      { apply (IH _ _ _ _ Hnd' Hincl' (quot_bound i n _ Hn Hi) (quot_bound j n _ Hn Hj) H1 H2).
        intros x Hx. apply Hw. right. exact Hx. }
      assert (Er : Z.rem i n = Z.rem j n).
      { specialize (Hw d (or_introl eq_refl)).
        rewrite (loc_loop_keep _ _ _ _ _ d Hnin Hdno H1), (loc_loop_keep _ _ _ _ _ d Hnin Hdno H2) in Hw.
        simpl in Hw. rewrite !vec_get_set, !decide_True in Hw by (reflexivity || exact Hdno).
        apply inject_Z_injective. apply (f_equal (fun x => x - Vec.in_direction (origin gv) d)%Q) in Hw.
        assert (Hp : (0 < 1 / resol)%Q) by (unfold Qdiv; rewrite Qmult_1_l; apply Qinv_lt_0_compat; exact Hr).
        assert (Hnz : ~ (1 / resol == 0)%Q) by (intros E; rewrite E in Hp; discriminate).
        assert (H' : ((inject_Z (Z.rem i n) + (1#2)) * (1 / resol) == (inject_Z (Z.rem j n) + (1#2)) * (1 / resol))%Q).
        { transitivity (Vec.in_direction (origin gv) d + (inject_Z (Z.rem i n) + (1#2)) * (1 / resol) - Vec.in_direction (origin gv) d)%Q; [ring|].
          rewrite Hw. ring. }
        apply (proj1 (Qmult_inj_r _ _ _ Hnz)) in H'. lra. }
      rewrite (Z.quot_rem' i n), (Z.quot_rem' j n), Eq, Er. reflexivity.
    + rewrite loc_step_nowall in H1, H2 by exact Hb. cbn [res_bind] in H1, H2.
      refine (IH _ _ _ _ Hnd' Hincl' _ _ H1 H2 _); [lia|lia|]. intros x Hx. apply Hw. right. exact Hx.
Qed.

Lemma res_dirs_NoDup : NoDup res_dirs.
Proof. apply NoDup_ListNoDup. repeat constructor; simpl; intuition discriminate. Qed.

(** The coordinate written for a visited direction is the centre of one
    of the [nhere] cells of width [1/resol] along it. *)
Lemma loc_loop_cell gv resol ds w i st d :
  0 <= i -> NoDup ds -> incl ds res_dirs -> In d ds -> has_boundary gv High d = true ->
  res_fold_left (loc_step gv resol) ds (w, i) = Ok st ->
  exists k, (0 <= k < nhere gv resol d)%Z /\
    Vec.in_direction (fst st) d = (Vec.in_direction (origin gv) d + (inject_Z k + (1#2)) * (1 / resol))%Q.
Proof.
  revert w i. induction ds as [|e ds IH]; intros w i Hi Hnd Hincl Hd Hb H; [destruct Hd|].
  inversion Hnd as [|? ? Hnin Hnd']; subst. rewrite list_elem_of_In in Hnin.
  assert (Hincl' : incl ds res_dirs) by (intros x Hx; apply Hincl; right; exact Hx).
  cbn [res_fold_left] in H. destruct (has_boundary gv High e) eqn:Hbe.
  - destruct (wall_dist_ok gv e (Hincl e (or_introl eq_refl))) as [q Hq].
    rewrite (loc_step_wall _ _ _ _ _ _ Hbe Hq) in H. cbn zeta in H. cbn [res_bind] in H.
    pose proof (Z.le_max_l 1 (Qfloor (q * resol + (1#2)))) as Hn.
    destruct Hd as [<-|Hd].
    + assert (Hdno : e <> NO_DIRECTION).
      { intros ->. specialize (Hincl NO_DIRECTION (or_introl eq_refl)). simpl in Hincl. intuition discriminate. }
      exists (Z.rem i (Z.max 1 (Qfloor (q * resol + (1#2))))). split.
      * unfold nhere. rewrite Hbe, Hq. pose proof (Z.rem_bound_pos i (Z.max 1 (Qfloor (q * resol + (1#2))))). lia.
      * rewrite (loc_loop_keep _ _ _ _ _ e Hnin Hdno H). simpl.
        rewrite vec_get_set, decide_True by (reflexivity || exact Hdno). reflexivity.
    + refine (IH _ _ _ Hnd' Hincl' Hd Hb H). apply Z.quot_pos; lia.
  - rewrite loc_step_nowall in H by exact Hbe. cbn [res_bind] in H.
    destruct Hd as [<-|Hd]; [congruence|]. exact (IH _ _ Hi Hnd' Hincl' Hd Hb H).
Qed.

(** ** What [ntot_at_resolution] and [loc_at_resolution] compute *)

(** [ntot_at_resolution] never aborts: it is the product over the
    directions with a high wall of [max(1, (int)(dist*resol + 0.5))], at
    least 1. *)
Theorem ntot_at_resolution_total gv resol :
  ntot_at_resolution gv resol = Ok (nprod gv resol res_dirs) /\ 1 <= nprod gv resol res_dirs.
Proof.
  split; [|apply nprod_pos]. unfold ntot_at_resolution.
  rewrite ntot_loop by (intros d Hd; exact Hd). f_equal. lia.
Qed.

(** C27. [loc_at_resolution] is injective on [0, ntot_at_resolution):
    for a positive resolution two distinct indices give two distinct
    points. *)
Theorem loc_at_resolution_injective gv resol n i j :
  (0 < resol)%Q -> ntot_at_resolution gv resol = Ok n -> 0 <= i < n -> 0 <= j < n ->
  loc_at_resolution gv i resol = loc_at_resolution gv j resol -> i = j.
Proof.
  intros Hr Hn Hi Hj E. rewrite (proj1 (ntot_at_resolution_total gv resol)) in Hn. injection Hn as <-.
  unfold loc_at_resolution in E.
  destruct (loc_loop_ok gv resol res_dirs (origin gv, i) (fun d Hd => Hd)) as [st1 H1].
  destruct (loc_loop_ok gv resol res_dirs (origin gv, j) (fun d Hd => Hd)) as [st2 H2].
  rewrite H1, H2 in E. injection E as E.
  refine (loc_loop_inj gv resol res_dirs _ _ i j st1 st2 Hr res_dirs_NoDup (fun d Hd => Hd) Hi Hj H1 H2 _).
  intros d _. rewrite E. reflexivity.
Qed.

(** Every point [loc_at_resolution] returns for a nonnegative index
    lies strictly inside the [nhere/resol] span above the origin along
    each direction with a high wall: it is the centre of one of the
    [nhere] cells. *)
Theorem loc_at_resolution_in_span gv resol index v d :
  (0 < resol)%Q -> 0 <= index -> loc_at_resolution gv index resol = Ok v ->
  In d res_dirs -> has_boundary gv High d = true ->
  (Vec.in_direction (origin gv) d < Vec.in_direction v d <
     Vec.in_direction (origin gv) d + inject_Z (nhere gv resol d) * (1 / resol))%Q.
Proof.
  intros Hr Hi Hv Hd Hb. unfold loc_at_resolution in Hv.
  destruct (res_fold_left (loc_step gv resol) res_dirs (origin gv, index)) as [st|] eqn:H; [|discriminate].
  injection Hv as <-.
  destruct (loc_loop_cell gv resol res_dirs (origin gv) index st d Hi res_dirs_NoDup (fun d Hd => Hd) Hd Hb H)
    as (k & Hk & ->).
  assert (Hp : (0 < 1 / resol)%Q) by (unfold Qdiv; rewrite Qmult_1_l; apply Qinv_lt_0_compat; exact Hr).
  assert (Hk' : (inject_Z k + 1 <= inject_Z (nhere gv resol d))%Q)
    by (change 1%Q with (inject_Z 1); rewrite <- inject_Z_plus, <- Zle_Qle; lia).
  assert (Hk0 : (0 <= inject_Z k)%Q) by (change 0%Q with (inject_Z 0); rewrite <- Zle_Qle; lia).
  split; nra.
Qed.

(** ** Witnesses *)

Lemma loc_at_resolution_injective_witness :
  exists n, ntot_at_resolution gv_example 20 = Ok n /\ 0 <= 5 < n /\ 5 = 5.
Proof.
  exists 48. split; [vm_compute; reflexivity|]. split; [lia|].
  refine (loc_at_resolution_injective gv_example 20 48 5 5 _ _ _ _ eq_refl);
    [reflexivity|vm_compute; reflexivity|lia|lia].
Defined.

Lemma loc_at_resolution_in_span_witness :
  exists v, loc_at_resolution gv_example 5 20 = Ok v /\
    (Vec.in_direction (origin gv_example) X < Vec.in_direction v X <
       Vec.in_direction (origin gv_example) X + inject_Z (nhere gv_example 20 X) * (1 / 20))%Q.
Proof.
  destruct (loc_at_resolution gv_example 5 20) as [v|] eqn:E; [|vm_compute in E; discriminate].
  exists v. split; [reflexivity|].
  apply (loc_at_resolution_in_span gv_example 20 5 v X); [reflexivity|lia|exact E|left; reflexivity|reflexivity].
Defined.

End Resolution.
