(* ===== verification/Derived.v ===== *)
(** * Derived: Poynting flux and energy density ([derived_component_func])

    [derived_component_func(c, gv, nfields, cs)] of vec.cpp chooses, for a
    derived component [c], the stored components a field function reads
    ([cs], [nfields] of them) and the function itself: [poynting_fun] for
    the five flux components, [energy_fun] for the three energy
    densities.  The array [cs[12]] is a list here, the function pointer
    the tag [field_rfunction], and [complex<double>] a pair of rationals.

    [grid_volume::has_field] is a member of meep/vec.hpp, which is not
    part of the repository: it is a parameter of the section, with the one
    property the theorems need, that a grid only has components along the
    directions of its frame ([has_field_frame]). *)

From S2P Require Import Prelude Geom Coord Volume GridVolume.
Import GridVolume.

Module Derived.

(** [complex<double>]: real and imaginary parts. *)
Definition cplx : Type := (Q * Q)%type.

(** [real(conj(a) * b)] *)
Definition re_conj_mul (a b : cplx) : Q := (a.1 * b.1 + a.2 * b.2)%Q.

Definition field_at (fields : list cplx) (k : nat) : cplx := nth k fields (0%Q, 0%Q).

(** [static double poynting_fun(fields, loc, data)] *)
Definition poynting_fun (fields : list cplx) : Q :=
  (re_conj_mul (field_at fields 0) (field_at fields 1)
   - re_conj_mul (field_at fields 2) (field_at fields 3))%Q.

(** [static double energy_fun(fields, loc, data)]: [data] points to the
    number of fields, [nfields = *data / 2] pairs are summed. *)
Definition energy_fun (fields : list cplx) (data : int) : Q :=
  let nfields := Z.quot data 2 in
  (fold_left (fun sum k => sum + re_conj_mul (field_at fields (2 * k)) (field_at fields (2 * k + 1)))
     (seq 0 (Z.to_nat nfields)) 0 * (1#2))%Q.

(** The function pointer [derived_component_func] returns. *)
Inductive field_rfunction := poynting_fun_ref | energy_fun_ref.

(** [FOR_ELECTRIC_COMPONENTS], [FOR_MAGNETIC_COMPONENTS]: [Ex .. Ez] and
    [Hx .. Hz] in the order of the enum. *)
Definition electric_components : list component := [Ex; Ey; Er; Ep; Ez].
Definition magnetic_components : list component := [Hx; Hy; Hr; Hp; Hz].

(** The directions along which a grid of dimension [dim] can have field
    components (Cartesian, or [R P Z] in cylindrical coordinates). *)
Definition field_dirs (dim : ndim) : list direction :=
  match dim with Dcyl => [R; P; Z] | _ => [X; Y; Z] end.

Section Func.
Context (has_field : grid_volume -> component -> bool).

(** The Poynting cases: [cs[0]], [cs[1]] from the inner switch, then
    [cs[2] = direction_component(Ex, component_direction(cs[1]))] and
    [cs[3] = direction_component(Hx, component_direction(cs[0]))]. *)
Definition poynting_cs (c0 c1 : component) : res (int * list component * field_rfunction) :=
  let* c2 := direction_component Ex (component_direction c1) in
  let* c3 := direction_component Hx (component_direction c0) in
  Ok (4, [c0; c1; c2; c3], poynting_fun_ref).

(** One pass of [FOR_..._COMPONENTS(c0) if (gv.has_field(c0)) { cs[nfields++]
    = c0; cs[nfields++] = direction_component(partner, ...); }]. *)
Definition energy_push (gv : grid_volume) (partner : component) (st : int * list component)
    (c0 : component) : res (int * list component) :=
  let '(nfields, cs) := st in
  if has_field gv c0 then
    let* p := direction_component partner (component_direction c0) in
    Ok (nfields + 2, cs ++ [c0; p])
  else Ok (nfields, cs).

(** [derived_component_func]; its [default:] abort cannot be reached by a
    value of [derived_component].  The list [cs] grows past twelve
    entries where the C++ code would write past [cs[11]] before its
    [nfields > 12] check. *)
Definition derived_component_func (c : derived_component) (gv : grid_volume)
    : res (int * list component * field_rfunction) :=
  match c with
  | Sx => poynting_cs Ey Hz
  | Sy => poynting_cs Ez Hx
  | Sz => poynting_cs Ex Hy
  | Sr => poynting_cs Ep Hz
  | Sp => poynting_cs Ez Hr
  | EnergyDensity | D_EnergyDensity | H_EnergyDensity =>
      let* st := if bool_decide (c <> H_EnergyDensity)
                 then res_fold_left (energy_push gv Dx) electric_components (0, [])
                 else Ok (0, []) in
      let* st := if bool_decide (c <> D_EnergyDensity)
                 then res_fold_left (energy_push gv Bx) magnetic_components st
                 else Ok st in
      if Z.ltb 12 st.1 then Fatal (Abort "too many field components")
      else Ok (st.1, st.2, energy_fun_ref)
  end.

End Func.

(** ** Specification helpers *)

(** The flux density paired with a field component: [D] with [E], [B]
    with [H], along the same direction. *)
Definition flux_of (c : component) : component :=
  match c with
  | Ex => Dx | Ey => Dy | Er => Dr | Ep => Dp | Ez => Dz
  | Hx => Bx | Hy => By | Hr => Br | Hp => Bp | Hz => Bz
  | c => c
  end.

(** The stored components an energy density sums over. *)
Definition energy_sources (has_field : grid_volume -> component -> bool) (gv : grid_volume)
    (c : derived_component) : list component :=
  (if bool_decide (c <> H_EnergyDensity) then filter (fun c0 => has_field gv c0 = true) electric_components else [])
  ++ (if bool_decide (c <> D_EnergyDensity) then filter (fun c0 => has_field gv c0 = true) magnetic_components else []).

Definition pairs_of (cs : list component) : list component :=
  flat_map (fun c0 => [c0; flux_of c0]) cs.

(** The directions [(a, b)] with [(a, b, d)] right-handed in the frame of
    a grid of dimension [dim]: [(X, Y, Z)] for Cartesian grids, [(R, P,
    Z)] for cylindrical ones. *)
Definition frame_pair (dim : ndim) (d : direction) : option (direction * direction) :=
  match dim, d with
  | Dcyl, R => Some (P, Z) | Dcyl, P => Some (Z, R) | Dcyl, Z => Some (R, P)
  | Dcyl, _ => None
  | _, X => Some (Y, Z) | _, Y => Some (Z, X) | _, Z => Some (X, Y)
  | _, _ => None
  end.

(** [E] and [H] along a direction ([direction_component(Ex, d)] and
    [direction_component(Hx, d)]). *)
Definition e_along (d : direction) : component :=
  match d with X => Ex | Y => Ey | Z => Ez | R => Er | P => Ep | NO_DIRECTION => Dielectric end.
Definition h_along (d : direction) : component :=
  match d with X => Hx | Y => Hy | Z => Hz | R => Hr | P => Hp | NO_DIRECTION => Permeability end.

(** A grid whose components are those of its frame, for the examples. *)
Definition frame_has_field (gv : grid_volume) (c : component) : bool :=
  bool_decide (component_direction c ∈ field_dirs (dim gv))
  && (is_electric c || is_magnetic c || is_D c || is_B c).

(** The [d] component of [Re(conj(E) x H)] in the frame of the grid,
    from the value [fld c] of each stored component. *)
Definition cross_component (dim : ndim) (d : direction) (fld : component -> cplx) : option Q :=
  match frame_pair dim d with
  | Some (a, b) => Some (re_conj_mul (fld (e_along a)) (fld (h_along b))
                         - re_conj_mul (fld (e_along b)) (fld (h_along a)))%Q
  | None => None
  end.

(** The contribution of one source component to the energy density:
    [real(conj(f) * flux)]. *)
Definition energy_term (fld : component -> cplx) (c0 : component) : Q :=
  re_conj_mul (fld c0) (fld (flux_of c0)).

Definition sumq (l : list Q) : Q := fold_right Qplus 0%Q l.

(** ** Lemmas *)

Lemma pairs_of_app l1 l2 : pairs_of (l1 ++ l2) = pairs_of l1 ++ pairs_of l2.
Proof. apply flat_map_app. Qed.

Lemma length_pairs_of l : length (pairs_of l) = (2 * length l)%nat.
Proof. induction l as [|c l IH]; simpl; [reflexivity|]. rewrite IH. lia. Qed.

Lemma field_at_pairs fld pre x r :
  field_at (map fld (pairs_of (pre ++ x :: r))) (2 * length pre) = fld x /\
  field_at (map fld (pairs_of (pre ++ x :: r))) (2 * length pre + 1) = fld (flux_of x).
Proof.
  unfold field_at. rewrite pairs_of_app, map_app. cbn [pairs_of flat_map app map].
  rewrite <- (length_pairs_of pre), <- (length_map fld (pairs_of pre)). split; [apply nth_mid|].
  rewrite app_nth2 by lia. replace (length _ + 1 - length _)%nat with 1%nat by lia. reflexivity.
Qed.

Lemma energy_fold fld l pre acc :
  (fold_left (fun sum k => sum + re_conj_mul (field_at (map fld (pairs_of (pre ++ l))) (2 * k))
                                           (field_at (map fld (pairs_of (pre ++ l))) (2 * k + 1)))
     (seq (length pre) (length l)) acc == acc + sumq (map (energy_term fld) l))%Q.
Proof.
  revert pre acc. induction l as [|x l IH]; intros pre acc; cbn [seq fold_left map sumq fold_right length]; [unfold sumq; simpl; ring|].
  destruct (field_at_pairs fld pre x l) as [E1 E2]. rewrite E1, E2.
  replace (pre ++ x :: l) with ((pre ++ [x]) ++ l) by (rewrite <- app_assoc; reflexivity).
  replace (S (length pre)) with (length (pre ++ [x])) by (rewrite length_app; simpl; lia).
  rewrite IH. unfold energy_term, sumq. cbn [fold_right]. ring.
Qed.

(** [energy_fun] on the fields read for a list of [(c0, flux)] pairs is
    half the sum of [real(conj(c0) * flux)]. *)
Lemma energy_fun_pairs fld l :
  (energy_fun (map fld (pairs_of l)) (Z.of_nat (length (pairs_of l)))
   == (1#2) * sumq (map (energy_term fld) l))%Q.
Proof.
  unfold energy_fun. rewrite length_pairs_of.
  replace (Z.quot (Z.of_nat (2 * length l)) 2) with (Z.of_nat (length l))
    by (rewrite Nat2Z.inj_mul, Z.mul_comm, Z.quot_mul; lia).
  rewrite Nat2Z.id. pose proof (energy_fold fld l [] 0%Q) as H. simpl in H. rewrite H. ring.
Qed.

Section Energy.
Context (has_field : grid_volume -> component -> bool) (gv : grid_volume).

Lemma energy_loop partner comps n cs :
  Forall (fun c0 => direction_component partner (component_direction c0) = Ok (flux_of c0)) comps ->
  res_fold_left (energy_push has_field gv partner) comps (n, cs)
    = Ok (n + 2 * Z.of_nat (length (filter (fun c0 => has_field gv c0 = true) comps)),
          cs ++ pairs_of (filter (fun c0 => has_field gv c0 = true) comps)).
Proof.
  intros H. revert n cs. induction H as [|c0 comps Hp _ IH]; intros n cs.
  - simpl. rewrite app_nil_r. f_equal. f_equal. lia.
  - cbn [res_fold_left]. unfold energy_push at 1. rewrite filter_cons.
    destruct (has_field gv c0) eqn:E.
    + rewrite decide_True by reflexivity. cbn [res_bind]. rewrite Hp. cbn [res_bind]. rewrite IH.
      cbn [length pairs_of flat_map]. rewrite <- app_assoc. f_equal. f_equal. lia.
    + rewrite decide_False by discriminate. apply IH.
Qed.

Lemma filter_dirs_length (P : component -> Prop) `{!forall c, Decision (P c)} (l : list component) (ds : list direction) :
  NoDup (component_direction <$> l) ->
  (forall c, c ∈ l -> P c -> component_direction c ∈ ds) ->
  (length (filter P l) <= length ds)%nat.
Proof.
  intros Hnd Hin. rewrite <- (length_fmap component_direction). apply submseteq_length, NoDup_submseteq.
  - apply (sublist_NoDup _ (component_direction <$> l)); [exact Hnd|]. apply fmap_sublist, sublist_filter.
  - intros x Hx. apply list_elem_of_fmap in Hx as (c & -> & Hc). apply list_elem_of_filter in Hc as [HP Hc]. auto.
Qed.

Lemma electric_partners : Forall (fun c0 => direction_component Dx (component_direction c0) = Ok (flux_of c0)) electric_components.
Proof. repeat constructor. Qed.

Lemma magnetic_partners : Forall (fun c0 => direction_component Bx (component_direction c0) = Ok (flux_of c0)) magnetic_components.
Proof. repeat constructor. Qed.

(** The energy cases of [derived_component_func] read the pairs of the
    source components, in the order of the loops, unless there are more
    than twelve. *)
Lemma energy_func_eq c :
  is_poynting c = false ->
  derived_component_func has_field c gv =
    let cs := pairs_of (energy_sources has_field gv c) in
    if Z.ltb 12 (Z.of_nat (length cs)) then Fatal (Abort "too many field components")
    else Ok (Z.of_nat (length cs), cs, energy_fun_ref).
Proof.
  intros Hc. unfold energy_sources.
  destruct c; try discriminate; cbn [derived_component_func];
    repeat first [rewrite bool_decide_eq_true_2 by discriminate
                 |rewrite bool_decide_eq_false_2 by (intros Hn; apply Hn; reflexivity)];
    rewrite ?energy_loop by (exact electric_partners || exact magnetic_partners); cbn [res_bind];
    rewrite ?energy_loop by (exact electric_partners || exact magnetic_partners); cbn [res_bind fst snd];
    rewrite ?app_nil_l, ?app_nil_r, ?pairs_of_app, ?length_app, ?length_pairs_of;
    cbv zeta; match goal with
    | |- (if 12 <? ?x then _ else _) = (if 12 <? ?y then _ else _) => replace x with y by lia
    end; reflexivity.
Qed.

End Energy.

Lemma sumq_nonneg l : Forall (fun q => 0 <= q)%Q l -> (0 <= sumq l)%Q.
Proof. induction 1 as [|q l Hq _ IH]; unfold sumq; simpl; [lra|]. fold (sumq l). lra. Qed.

Lemma energy_sources_incl has_field gv c c0 :
  c0 ∈ energy_sources has_field gv c -> c0 ∈ electric_components ++ magnetic_components.
Proof.
  unfold energy_sources. intros H. apply elem_of_app in H as [H|H]; apply elem_of_app; [left|right];
    (destruct (bool_decide _); [apply list_elem_of_filter in H; tauto|inversion H]).
Qed.

Section Frame.
Context (has_field : grid_volume -> component -> bool).

(** A grid has field components only along the directions of its frame. *)
Hypothesis has_field_frame :
  forall gv c, has_field gv c = true -> component_direction c ∈ field_dirs (dim gv).

Lemma filter_frame_length gv comps :
  NoDup (component_direction <$> comps) ->
  (length (filter (fun c0 => has_field gv c0 = true) comps) <= 3)%nat.
Proof.
  intros Hnd. replace 3%nat with (length (field_dirs (dim gv))) by (destruct (dim gv); reflexivity).
  apply filter_dirs_length; [exact Hnd|]. intros c0 _ H. exact (has_field_frame gv c0 H).
Qed.

Lemma energy_sources_length gv c : (length (energy_sources has_field gv c) <= 6)%nat.
Proof.
  unfold energy_sources. rewrite length_app.
  pose proof (filter_frame_length gv electric_components ltac:(apply NoDup_ListNoDup; repeat constructor; simpl; intuition discriminate)).
  pose proof (filter_frame_length gv magnetic_components ltac:(apply NoDup_ListNoDup; repeat constructor; simpl; intuition discriminate)).
  do 2 case_bool_decide; simpl; lia.
Qed.

Lemma energy_func_ok gv c :
  is_poynting c = false ->
  derived_component_func has_field c gv =
    Ok (Z.of_nat (length (pairs_of (energy_sources has_field gv c))),
        pairs_of (energy_sources has_field gv c), energy_fun_ref).
Proof.
  intros Hc. rewrite energy_func_eq by exact Hc. cbv zeta.
  rewrite length_pairs_of. pose proof (energy_sources_length gv c).
  destruct (Z.ltb_spec 12 (Z.of_nat (2 * length (energy_sources has_field gv c)))); [lia|reflexivity].
Qed.

(** ** What [derived_component_func] computes *)

(** C29. For each Poynting component [S_d] along a direction of the
    grid's frame, [derived_component_func] returns [poynting_fun] on four
    components, and [poynting_fun] computes the [d] component of
    [Re(conj(E) x H)] in the grid's frame for every value of the fields,
    except for [Sz] on a cylindrical grid: there the code reads the
    Cartesian [Ex, Hy, Ey, Hx] instead of [Er, Hp, Ep, Hr], and the result
    is not the flux. *)
Theorem poynting_cross c gv :
  is_poynting c = true -> derived_direction c ∈ field_dirs (dim gv) ->
  exists cs, derived_component_func has_field c gv = Ok (4, cs, poynting_fun_ref)
    /\ ((forall fld, exists q, cross_component (dim gv) (derived_direction c) fld = Some q
                               /\ (poynting_fun (map fld cs) == q)%Q)
        <-> ~ (dim gv = Dcyl /\ c = Sz)).
Proof.
  intros Hc Hd. apply list_elem_of_In in Hd.
  destruct c; try discriminate; (eexists; split; [reflexivity|]);
    destruct (dim gv); simpl in Hd; try (intuition discriminate);
    (split; [intros _ [? ?]; discriminate|intros _ fld; eexists; split; reflexivity])
    || (split; [|intros H; exfalso; apply H; split; reflexivity]).
  intros H. destruct (H (fun c0 => match c0 with Er | Hp => (1, 0) | _ => (0, 0) end)%Q) as [q [Hq Heq]].
  injection Hq as <-. vm_compute in Heq. discriminate Heq.
Qed.

(** C30. For the three energy densities [derived_component_func] never
    aborts: it returns [energy_fun] with [cs] the pairs [(c0, D or B along
    c0)] of the electric (unless [H_EnergyDensity]) and magnetic (unless
    [D_EnergyDensity]) components the grid has, in the order of the loops,
    [nfields] their number, at most 12, so the writes stay inside
    [cs[12]]. *)
Theorem energy_components gv c :
  is_poynting c = false ->
  derived_component_func has_field c gv =
    Ok (Z.of_nat (length (pairs_of (energy_sources has_field gv c))),
        pairs_of (energy_sources has_field gv c), energy_fun_ref)
  /\ (length (pairs_of (energy_sources has_field gv c)) <= 12)%nat.
Proof.
  intros Hc. split; [exact (energy_func_ok gv c Hc)|].
  rewrite length_pairs_of. pose proof (energy_sources_length gv c). lia.
Qed.

(** When every flux density is a nonnegative real multiple of its
    field ([D = eps E], [B = mu H] with [eps, mu >= 0]), the energy
    density [energy_fun] computes from the fields [derived_component_func]
    selects is nonnegative, and equals half the sum of [Re(conj(f) flux)]
    over the selected components. *)
Theorem energy_density_nonneg gv c (fld : component -> cplx) (eps : component -> Q) :
  is_poynting c = false ->
  (forall c0, c0 ∈ electric_components ++ magnetic_components -> 0 <= eps c0)%Q ->
  (forall c0, c0 ∈ electric_components ++ magnetic_components ->
     fld (flux_of c0) = (eps c0 * (fld c0).1, eps c0 * (fld c0).2)%Q) ->
  exists n cs,
    derived_component_func has_field c gv = Ok (n, cs, energy_fun_ref)
    /\ (energy_fun (map fld cs) n == (1#2) * sumq (map (energy_term fld) (energy_sources has_field gv c)))%Q
    /\ (0 <= energy_fun (map fld cs) n)%Q.
Proof.
  intros Hc Heps Hfl. rewrite energy_func_ok by exact Hc. do 2 eexists. split; [reflexivity|].
  rewrite energy_fun_pairs. split; [reflexivity|].
  assert (0 <= sumq (map (energy_term fld) (energy_sources has_field gv c)))%Q; [|lra].
  apply sumq_nonneg, Forall_forall. intros q Hq. apply list_elem_of_In, in_map_iff in Hq as (c0 & <- & Hin).
  apply list_elem_of_In, energy_sources_incl in Hin. unfold energy_term, re_conj_mul.
  rewrite (Hfl c0 Hin). simpl. pose proof (Heps c0 Hin). destruct (fld c0) as [u v]. simpl. nra.
Qed.

End Frame.

(** ** Witnesses *)

Lemma frame_has_field_frame gv c :
  frame_has_field gv c = true -> component_direction c ∈ field_dirs (dim gv).
Proof. unfold frame_has_field. intros H. apply andb_true_iff in H as [H _]. exact (bool_decide_eq_true_1 _ H). Qed.

Lemma poynting_cross_witness :
  exists cs, derived_component_func frame_has_field Sz (make Dcyl (10#1) 2 0 2) = Ok (4, cs, poynting_fun_ref)
    /\ ((forall fld, exists q, cross_component (dim (make Dcyl (10#1) 2 0 2)) (derived_direction Sz) fld = Some q
                               /\ (poynting_fun (map fld cs) == q)%Q)
        <-> ~ (dim (make Dcyl (10#1) 2 0 2) = Dcyl /\ Sz = Sz)).
Proof. apply (poynting_cross frame_has_field Sz (make Dcyl (10#1) 2 0 2)); [reflexivity|]. apply list_elem_of_In. simpl. tauto. Defined.

Lemma energy_components_witness :
  derived_component_func frame_has_field EnergyDensity gv_example
    = Ok (12, [Ex; Dx; Ey; Dy; Ez; Dz; Hx; Bx; Hy; By; Hz; Bz], energy_fun_ref)
  /\ (length (pairs_of (energy_sources frame_has_field gv_example EnergyDensity)) <= 12)%nat.
Proof.
  destruct (energy_components frame_has_field frame_has_field_frame gv_example EnergyDensity eq_refl) as [E L].
  split; [rewrite E; reflexivity|exact L].
Defined.

Lemma energy_density_nonneg_witness :
  exists n cs,
    derived_component_func frame_has_field H_EnergyDensity gv_example = Ok (n, cs, energy_fun_ref)
    /\ (energy_fun (map (fun _ => (1, 2)%Q) cs) n
         == (1#2) * sumq (map (energy_term (fun _ => (1, 2)%Q)) (energy_sources frame_has_field gv_example H_EnergyDensity)))%Q
    /\ (0 <= energy_fun (map (fun _ => (1, 2)%Q) cs) n)%Q.
Proof.
  apply (energy_density_nonneg frame_has_field frame_has_field_frame gv_example H_EnergyDensity
           (fun _ => (1, 2)%Q) (fun _ => 1%Q)); [reflexivity|intros; discriminate|intros; reflexivity].
Defined.

End Derived.
