(* ===== verification/Snapshot.v ===== *)
(** * Snapshot: the sampling layout of [class snapshot]

    A [snapshot] (vec.cpp) samples field components at the lattice points
    of a box, [resolution] points per unit length, through one DFT point
    per sample registered with the [fields] object ([add_dft_pt]).  The
    constructor sizes the box per dimension ([n_car], points along x, y,
    z) and packs the axes with more than one point to the front of
    [n_dims] ([rank] of them); [create_dft] walks the packed box and maps
    each packed index back to an (x, y, z) sample; [pass_data] stores one
    value per packed index at [n_0 * n_dims[1] * n_dims[2] + n_1 *
    n_dims[2] + n_2].

    The [fields] object is not part of vec.cpp: [create_dft] is the list of
    the [add_dft_pt] calls it makes, in order.  The hemisphere variant
    ([radius != 0], [create_dft_sphere]) samples at [sin]/[cos] of angles,
    with [pi], [sin], [cos] and the [(int) ceil(pi * res / sqrt(2.0))]
    of its sizing as section parameters.  [pass_data]'s values are the
    chunk averages and the master's [Ssend] loop, whose received values
    are parameters; [output_snapshot] is the file and the datasets it
    writes (names, rank, sizes), not their contents. *)

From S2P Require Import Prelude Geom Coord Derived.

Module Snapshot.

Record snapshot := mksnapshot {
  dimension : ndim;        (* [_f->v.dim] *)
  radius : Q;
  d : direction;
  freq : Q;
  resolution : Q;
  center : Vec.vec;        (* [*_center] *)
  size : Vec.vec;          (* [*_size] *)
  n_car : list int;        (* [n_car[3]] *)
  n_dims : list int;       (* [n_dims[3]] *)
  rank : int;
  cs : list component;     (* [_c[n_c]] *)
  n_c : int;
  name : string
}.

(** [(int) ceil(len * resolution + 1.0)] *)
Definition ceil_samples (len res : Q) : int := Qceiling (len * res + 1)%Q.

(** The dimension switch of the constructor: [_center], [_size] (built
    with the three-argument [vec] constructor) and [n_car]. *)
Definition center_size_ncar (dim : ndim) (ctr sz : Vec.vec) (res : Q) : Vec.vec * Vec.vec * list int :=
  let in_ := Vec.in_direction in
  match dim with
  | D1 =>
      let s := Vec.vec3 0 0 (in_ sz Z) in
      (Vec.vec3 0 0 (in_ ctr Z), s, [1; 1; ceil_samples (in_ s Z) res])
  | D2 =>
      let s := Vec.vec3 (in_ sz X) (in_ sz Y) 0 in
      (Vec.vec3 (in_ ctr X) (in_ ctr Y) 0, s, [ceil_samples (in_ s X) res; ceil_samples (in_ s Y) res; 1])
  | Dcyl =>
      let s := Vec.vec3 (in_ sz R) 0 (in_ sz Z) in
      (Vec.vec3 (in_ ctr R) 0 (in_ ctr Z), s, [ceil_samples (in_ s X) res; 1; ceil_samples (in_ s Z) res])
  | D3 =>
      let s := Vec.vec3 (in_ sz X) (in_ sz Y) (in_ sz Z) in
      (Vec.vec3 (in_ ctr X) (in_ ctr Y) (in_ ctr Z), s,
       [ceil_samples (in_ s X) res; ceil_samples (in_ s Y) res; ceil_samples (in_ s Z) res])
  end.

(** [for (n = 0; n < 3; n++) if (n_car[n] > 1) { n_dims[rank] =
    vals[n]; rank++; }]: the packing loop, on the counts ([vals = n_car])
    or on an index triple. *)
Definition compact_step (ncar vals : list int) (st : int * list int) (n : nat) : int * list int :=
  let '(rk, dims) := st in
  if Z.ltb 1 (nth n ncar 1) then (rk + 1, <[Z.to_nat rk := nth n vals 0]> dims) else (rk, dims).

Definition compact (ncar vals init : list int) : int * list int :=
  fold_left (compact_step ncar vals) (seq 0 3) (0, init).

(** [rank = 0; ...] of the constructor for [radius == 0]. *)
Definition compact_dims (ncar : list int) : int * list int := compact ncar ncar [1; 1; 1].

Section Make.
(** [(int) ceil(pi * resolution / sqrt(2.0))] *)
Context (sphere_n0 : Q -> int).

(** [snapshot::snapshot(f, n_comp, name, center, size, r, dir, l, res)]
    with [f->v.dim = dim]; [_c] is [n_comp] copies of [Ex].  The
    [(int) ceil((float) n_dims[0] / 2.0)] of the hemisphere is
    [(n_dims[0] + 1) / 2] rounded down. *)
Definition make (dim : ndim) (n_comp : int) (nm : string) (ctr sz : Vec.vec) (r : Q) (dir : direction)
    (l res : Q) : snapshot :=
  let '(c, s, ncar) := center_size_ncar dim ctr sz res in
  let '(rk, dims) :=
    if Qeq_bool r 0 then compact_dims ncar
    else (2, [sphere_n0 res; Z.div (sphere_n0 res + 1) 2; 1]) in
  mksnapshot dim r dir l res c s ncar dims rk (repeat Ex (Z.to_nat n_comp)) n_comp nm.

End Make.

(** The three conditional expressions of [create_dft] that pick the loop
    index standing for x, y and z. *)
Definition axis_index (ncar : list int) (n0 n1 n2 : int) : int * int * int :=
  let one k := Z.eqb (nth k ncar 1) 1 in
  (if negb (one 0%nat) || (one 1%nat && one 2%nat) then n0
   else if negb (one 1%nat) && negb (one 2%nat) then n2 else n1,
   if negb (one 0%nat) && (negb (one 1%nat) || one 2%nat) then n1
   else if one 0%nat && (negb (one 1%nat) || one 2%nat) then n0 else n2,
   if one 0%nat && one 1%nat && negb (one 2%nat) then n0
   else if negb (one 2%nat) && (one 0%nat || one 1%nat) then n1 else n2).

(** [x_loc], [y_loc], [z_loc] and the point passed to [add_dft_pt]. *)
Definition dft_point (s : snapshot) (n0 n1 n2 : int) : Vec.vec :=
  let '(ix, iy, iz) := axis_index (n_car s) n0 n1 n2 in
  let loc dd i := (Vec.in_direction (center s) dd - Vec.in_direction (size s) dd / 2
                   + inject_Z i / resolution s)%Q in
  let x_loc := loc X ix in
  let y_loc := loc Y iy in
  let z_loc := loc Z iz in
  match dimension s with
  | D1 => Vec.vec1 z_loc
  | D2 => Vec.vec2 x_loc y_loc
  | Dcyl => Vec.veccyl x_loc z_loc
  | D3 => Vec.vec3 x_loc y_loc z_loc
  end.

Definition dim_at (s : snapshot) (k : nat) : int := nth k (n_dims s) 1.

(** [snapshot::create_dft()]: the [add_dft_pt(_c[comp], point, freq,
    freq, 1)] calls, in loop order. *)
Definition create_dft (s : snapshot) : list (component * Vec.vec) :=
  flat_map (fun comp =>
    flat_map (fun n0 =>
      flat_map (fun n1 =>
        map (fun n2 => (nth (Z.to_nat comp) (cs s) Ex, dft_point s n0 n1 n2)) (zrange 0 (dim_at s 2)))
        (zrange 0 (dim_at s 1)))
      (zrange 0 (dim_at s 0)))
    (zrange 0 (n_c s)).

Section Sphere.
(** [pi], [sin] and [cos] of the C library. *)
Context (pi : Q) (sin cos : Q -> Q).

(** The point [create_dft_sphere] passes to [add_dft_pt] for [(k, l)]:
    [phi = k / (n_dims[0] - 1) * 2 pi - pi], [theta = l / (n_dims[1] -
    1) * pi / 2], and the three branches on [d]; [None] when a
    denominator is [0] (the angle is [0.0 / 0.0]). *)
Definition sphere_point (s : snapshot) (k l : int) : option Vec.vec :=
  let d0 := (inject_Z (dim_at s 0) - 1)%Q in
  let d1 := (inject_Z (dim_at s 1) - 1)%Q in
  if Qeq_bool d0 0 || Qeq_bool d1 0 then None
  else
    let phi := (inject_Z k / d0 * 2 * pi - pi)%Q in
    let theta := (inject_Z l / d1 * pi / 2)%Q in
    let r := radius s in
    let cx := Vec.in_direction (center s) X in
    let cy := Vec.in_direction (center s) Y in
    let cz := Vec.in_direction (center s) Z in
    Some (match d s with
          | Z => Vec.vec3 (r * sin theta * cos phi + cx) (r * sin theta * sin phi + cy) (r * cos theta + cz)
          | Y => Vec.vec3 (r * sin theta * sin phi + cy) (r * cos theta + cz) (r * sin theta * cos phi + cx)
          | _ => Vec.vec3 (r * cos theta + cz) (r * sin theta * cos phi + cx) (r * sin theta * sin phi + cy)
          end)%Q.

(** [snapshot::create_dft_sphere()]: the [add_dft_pt] calls, in loop
    order, each stored at [_dft_chunk_array_ptr[comp][k][l][0]]. *)
Definition create_dft_sphere (s : snapshot) : list (component * option Vec.vec) :=
  flat_map (fun comp =>
    flat_map (fun k =>
      map (fun l => (nth (Z.to_nat comp) (cs s) Ex, sphere_point s k l)) (zrange 0 (dim_at s 1)))
      (zrange 0 (dim_at s 0)))
    (zrange 0 (n_c s)).

End Sphere.

(** The slots of [_data_mag[comp]] (and [_data_arg[comp]]) the master
    writes in [pass_data], in loop order. *)
Definition pass_data_slots (s : snapshot) : list int :=
  flat_map (fun n0 =>
    flat_map (fun n1 =>
      map (fun n2 => n0 * dim_at s 1 * dim_at s 2 + n1 * dim_at s 2 + n2) (zrange 0 (dim_at s 2)))
      (zrange 0 (dim_at s 1)))
    (zrange 0 (dim_at s 0)).

(** [snapshot::add_component(c, num)]: [_c[num] = c], unchecked. *)
Definition add_component (s : snapshot) (c : component) (num : int) : res snapshot :=
  if (0 <=? num) && (num <? n_c s) then
    Ok (mksnapshot (dimension s) (radius s) (d s) (freq s) (resolution s) (center s) (size s)
          (n_car s) (n_dims s) (rank s) (<[Z.to_nat num := c]> (cs s)) (n_c s) (name s))
  else Fatal (UndefinedBehaviour "_c[num] out of range").

(** ** The values of [pass_data]

    A sample's value on one process is the average of its DFT chunk; the
    master then runs [data_c_buf = Ssend(proc, 0, data_c)] for every
    [proc], and a non-zero value received replaces its [data_c].
    [Ssend] is not in vec.cpp: on the master it returns the [data_c] of
    process [proc], its own for [proc = 0]; [others] are those of
    processes [1 .. procs - 1]. *)

Definition csum (l : list Derived.cplx) : Derived.cplx :=
  fold_right (fun a b => (a.1 + b.1, a.2 + b.2)%Q) (0%Q, 0%Q) l.

(** [data_c != 0.0] *)
Definition cnonzero (z : Derived.cplx) : bool := negb (Qeq_bool z.1 0 && Qeq_bool z.2 0).

Section Values.
(** The chunk [_dft_chunk_array_ptr[comp][n_0][n_1][n_2]]: [None] for a
    null pointer, otherwise its [dft[0 .. N-1]]. *)
Context (chunk : int -> int -> int -> int -> option (list Derived.cplx)).

(** [data_c = 0.0; if (chunk && chunk->N > 0) { sum; data_c /= N; }] *)
Definition chunk_value (comp n0 n1 n2 : int) : Derived.cplx :=
  match chunk comp n0 n1 n2 with
  | Some l =>
      if Nat.ltb 0 (length l) then
        let sm := csum l in
        let nn := inject_Z (Z.of_nat (length l)) in
        (sm.1 / nn, sm.2 / nn)%Q
      else (0%Q, 0%Q)
  | None => (0%Q, 0%Q)
  end.

(** The [proc] loop on the master. *)
Definition gather (own : Derived.cplx) (others : list Derived.cplx) : Derived.cplx :=
  fold_left (fun data_c buf => if cnonzero buf then buf else data_c) (own :: others) own.

(** The value whose [abs] and [arg] the master stores for a sample. *)
Definition sample_value (others : int -> int -> int -> int -> list Derived.cplx) (comp n0 n1 n2 : int)
    : Derived.cplx :=
  gather (chunk_value comp n0 n1 n2) (others comp n0 n1 n2).

End Values.

(** ** [output_snapshot] *)

Definition suffix (mag : bool) : string := if mag then "-mag" else "-arg".

(** [sprintf(_string, "%s-mag", component_name(_c[comp]))] and
    [sprintf(_string, "%s-arg", ...)]. *)
Definition dataset_name (c : component) (mag : bool) : string :=
  (component_name (component_code c) ++ suffix mag)%string.

(** [snapshot::output_snapshot()]: on the master, the file [_name.h5]
    and, for each component, the datasets [_h5file->write(name, rank,
    n_dims, ...)] of its magnitudes and of its phases; nothing on the
    other processes. *)
Definition output_snapshot (master : bool) (s : snapshot) : option (string * list (string * int * list int)) :=
  if master then
    Some ((name s ++ ".h5")%string,
          flat_map (fun comp =>
            let c := nth (Z.to_nat comp) (cs s) Ex in
            [(dataset_name c true, rank s, n_dims s); (dataset_name c false, rank s, n_dims s)])
            (zrange 0 (n_c s)))
  else None.

(** ** Specification helpers *)

(** The point the samples of [create_dft_sphere] are at distance
    [radius] from: the center's coordinates in the order the three
    branches on [d] add them. *)
Definition sphere_center (s : snapshot) : Q * Q * Q :=
  let cx := Vec.in_direction (center s) X in
  let cy := Vec.in_direction (center s) Y in
  let cz := Vec.in_direction (center s) Z in
  match d s with Z => (cx, cy, cz) | Y => (cy, cz, cx) | _ => (cz, cx, cy) end.

(** Equality of complex doubles, componentwise. *)
Definition ceq (z w : Derived.cplx) : Prop := (z.1 == w.1)%Q /\ (z.2 == w.2)%Q.

(** The index triple of a sample, packed as the constructor packs the
    counts. *)
Definition compact_index (ncar : list int) (ix iy iz : int) : int * int * int :=
  let l := (compact ncar [ix; iy; iz] [0; 0; 0]).2 in
  (nth 0 l 0, nth 1 l 0, nth 2 l 0).

Definition in_box (dims : list int) (p : int * int * int) : Prop :=
  0 <= p.1.1 < nth 0 dims 1 /\ 0 <= p.1.2 < nth 1 dims 1 /\ 0 <= p.2 < nth 2 dims 1.

(** ** Lemmas *)

Lemma ceil_samples_zero r : ceil_samples 0 r = 1.
Proof. unfold ceil_samples. rewrite (Qceiling_comp _ 1) by ring. reflexivity. Qed.

Lemma add_component_keeps s c k s' :
  Snapshot.add_component s c k = Ok s' ->
  n_dims s' = n_dims s /\ n_c s' = n_c s /\ n_car s' = n_car s.
Proof. unfold Snapshot.add_component. destruct (_ && _); [|discriminate]. intros [= <-]. auto. Qed.

Lemma make_n_c sphere_n0 dim n_comp nm c sz r dir l resol :
  n_c (Snapshot.make sphere_n0 dim n_comp nm c sz r dir l resol) = n_comp.
Proof.
  unfold Snapshot.make. destruct (center_size_ncar _ _ _ _) as [[? ?] ?].
  destruct (if Qeq_bool r 0 then _ else _). reflexivity.
Qed.

(** With radius [0] the constructor keeps the packed counts. *)
Lemma make_radius0 sphere_n0 dim n_comp nm c sz dir l resol :
  Snapshot.make sphere_n0 dim n_comp nm c sz 0 dir l resol =
  let '(c', s', ncar) := center_size_ncar dim c sz resol in
  mksnapshot dim 0 dir l resol c' s' ncar (compact_dims ncar).2 (compact_dims ncar).1
    (repeat Ex (Z.to_nat n_comp)) n_comp nm.
Proof.
  unfold Snapshot.make. destruct (center_size_ncar _ _ _ _) as [[c' s'] ncar].
  change (Qeq_bool 0 0) with true. cbn iota. destruct (compact_dims ncar); reflexivity.
Qed.

Lemma cnonzero_false z : cnonzero z = false -> ceq z (0%Q, 0%Q).
Proof.
  unfold cnonzero, ceq. destruct (Qeq_bool z.1 0) eqn:E1, (Qeq_bool z.2 0) eqn:E2; try discriminate.
  intros _. apply Qeq_bool_iff in E1, E2. auto.
Qed.

(** The master's loop from a current value [acc], when at most one of
    [acc] and the values still to come is non-zero, ends at their sum. *)
Lemma gather_fold_sum acc rest :
  (length (List.filter cnonzero (acc :: rest)) <= 1)%nat ->
  ceq (fold_left (fun data_c buf => if cnonzero buf then buf else data_c) rest acc) (csum (acc :: rest)).
Proof.
  revert acc. induction rest as [|b rest IH]; intros acc Hle.
  - unfold ceq. simpl. split; ring.
  - cbn [fold_left]. cbn [List.filter] in Hle. destruct (cnonzero b) eqn:Eb.
    + destruct (cnonzero acc) eqn:Ea; cbn [length] in Hle; [lia|].
      apply cnonzero_false in Ea as [Ea1 Ea2].
      destruct (IH b ltac:(cbn [List.filter]; rewrite Eb; exact Hle)) as [H1 H2].
      unfold ceq in *; simpl in *. rewrite H1, H2, Ea1, Ea2. split; ring.
    + apply cnonzero_false in Eb as [Eb1 Eb2].
      destruct (IH acc ltac:(exact Hle)) as [H1 H2].
      unfold ceq in *; simpl in *. rewrite H1, H2, Eb1, Eb2. split; ring.
Qed.

(** The dataset names tell the component and the part apart. *)
Lemma dataset_name_inj c1 c2 b1 b2 : dataset_name c1 b1 = dataset_name c2 b2 -> c1 = c2 /\ b1 = b2.
Proof. destruct c1, c2, b1, b2; vm_compute; intros H; first [split; reflexivity | discriminate]. Qed.

(** [|(r sin theta cos phi, r sin theta sin phi, r cos theta)| = r]. *)
Lemma sphere_dist (r st ct sp cp : Q) :
  (st * st + ct * ct == 1)%Q -> (sp * sp + cp * cp == 1)%Q ->
  ((r * st * cp) * (r * st * cp) + (r * st * sp) * (r * st * sp) + (r * ct) * (r * ct) == r * r)%Q.
Proof.
  intros Ht Hp.
  assert (E : ((r * st * cp) * (r * st * cp) + (r * st * sp) * (r * st * sp) + (r * ct) * (r * ct)
               == r * r * (st * st * (sp * sp + cp * cp) + ct * ct))%Q) by ring.
  rewrite E, Hp, Qmult_1_r, Ht. ring.
Qed.

(** ** The sampling of [create_dft] *)

(** C32. For counts [n_car = (a, b, c)], each at least 1, the packed
    box [n_dims] that the constructor computes and the three index
    choices of [create_dft] are inverse to each other: every sample
    (x, y, z) of the [n_car] box is reached from exactly one packed
    index, so [create_dft] registers each lattice point of the snapshot
    box once. *)
Theorem create_dft_index_roundtrip a b c :
  1 <= a -> 1 <= b -> 1 <= c ->
  let dims := (compact_dims [a; b; c]).2 in
  (forall ix iy iz, in_box [a; b; c] (ix, iy, iz) ->
     in_box dims (compact_index [a; b; c] ix iy iz)
     /\ (let '(n0, n1, n2) := compact_index [a; b; c] ix iy iz in axis_index [a; b; c] n0 n1 n2)
        = (ix, iy, iz))
  /\ (forall n0 n1 n2, in_box dims (n0, n1, n2) ->
     in_box [a; b; c] (axis_index [a; b; c] n0 n1 n2)
     /\ (let '(ix, iy, iz) := axis_index [a; b; c] n0 n1 n2 in compact_index [a; b; c] ix iy iz)
        = (n0, n1, n2)).
Proof.
  intros Ha Hb Hc dims. subst dims.
  unfold compact_dims, compact_index, compact, compact_step, axis_index, in_box.
  one_or_more a; one_or_more b; one_or_more c;
    do 3 (simpl; zcmp_simpl); split; intros; (split; [lia|repeat f_equal; lia]).
Qed.

(** C33. The master's stores of [pass_data] fill [_data_mag[comp]] (of
    [n_dims[0] * n_dims[1] * n_dims[2]] entries) exactly: slot [0], [1],
    ... up to the last, each once and in order, none outside. *)
Theorem pass_data_slots_fill s :
  0 <= dim_at s 0 -> 0 <= dim_at s 1 -> 0 <= dim_at s 2 ->
  pass_data_slots s = zrange 0 (dim_at s 0 * dim_at s 1 * dim_at s 2).
Proof.
  intros H0 H1 H2. unfold pass_data_slots.
  replace (dim_at s 0 * dim_at s 1 * dim_at s 2) with (0 + dim_at s 0 * (dim_at s 1 * dim_at s 2)) by ring.
  apply flat_map_zrange_blocks; [nia|lia|]. intros n0.
  replace (0 + n0 * (dim_at s 1 * dim_at s 2) + dim_at s 1 * dim_at s 2)
    with (n0 * (dim_at s 1 * dim_at s 2) + dim_at s 1 * dim_at s 2) by ring.
  apply flat_map_zrange_blocks; [lia|lia|]. intros n1.
  rewrite <- zrange_shift by lia. apply map_ext. intros n2. ring.
Qed.

(** ** The master's gathering of [pass_data] *)

(** C14. When a sample's value is non-zero on at most one process (the
    process that owns its DFT chunk), the value the master's loop of
    [pass_data] ends with, whose [abs] and [arg] it stores, is the sum
    of the values of all processes: the [Ssend] loop is a sum
    reduction over processes with disjoint contributions. *)
Theorem sample_value_sum chunk others comp n0 n1 n2 :
  (length (List.filter cnonzero (chunk_value chunk comp n0 n1 n2 :: others comp n0 n1 n2)) <= 1)%nat ->
  ceq (sample_value chunk others comp n0 n1 n2) (csum (chunk_value chunk comp n0 n1 n2 :: others comp n0 n1 n2)).
Proof.
  intros Hle. unfold sample_value, gather. cbn [fold_left].
  replace (if cnonzero _ then _ else _) with (chunk_value chunk comp n0 n1 n2) by (destruct (cnonzero _); reflexivity).
  apply gather_fold_sum. exact Hle.
Qed.

(** Two processes with a non-zero value for the same sample: the master
    keeps the later one, [(3, 0)], where the sum is [(5, 0)]. *)
Example sample_value_overlap :
  sample_value (fun _ _ _ _ => Some [(2%Q, 0%Q)]) (fun _ _ _ _ => [(0%Q, 0%Q); (3%Q, 0%Q)]) 0 0 0 0 = (3%Q, 0%Q)
  /\ ~ ceq (csum [(2%Q, 0%Q); (0%Q, 0%Q); (3%Q, 0%Q)]) (3%Q, 0%Q).
Proof. split; [reflexivity|unfold ceq; simpl; intros [H _]; discriminate]. Qed.

(** ** The hemisphere of [create_dft_sphere] *)

(** C17. Given [sin^2 + cos^2 = 1], every point [create_dft_sphere]
    samples lies at distance [radius] from [sphere_center]: the center
    itself when [d = Z], but [(c.y, c.z, c.x)] when [d = Y] and [(c.z,
    c.x, c.y)] otherwise, since those branches add [_center->x()],
    [_center->y()], [_center->z()] to the coordinates in the order of
    the [d = Z] branch.  Unless the center lies on the diagonal, the
    hemispheres about Y and X are sampled around the wrong point. *)
Theorem sphere_point_center pi sin cos s k l p :
  (forall t, sin t * sin t + cos t * cos t == 1)%Q ->
  sphere_point pi sin cos s k l = Some p ->
  let '(a, b, e) := sphere_center s in
  ((Vec.in_direction p X - a) * (Vec.in_direction p X - a) + (Vec.in_direction p Y - b) * (Vec.in_direction p Y - b)
   + (Vec.in_direction p Z - e) * (Vec.in_direction p Z - e) == radius s * radius s)%Q.
Proof.
  intros Htrig. unfold sphere_point, sphere_center. destruct (_ || _); [discriminate|].
  intros [= <-].
  set (phi := (_ * 2 * pi - pi)%Q). set (theta := (_ * pi / 2)%Q).
  pose proof (sphere_dist (radius s) (sin theta) (cos theta) (sin phi) (cos phi) (Htrig theta) (Htrig phi)) as H.
  destruct (d s); cbn; (eapply Qeq_trans; [|exact H]); ring.
Qed.

(** A hemisphere about Y centred at [(1, 0, 0)] with radius 1: its first
    sample is at squared distance 3 from the center. *)
Example sphere_point_off_center :
  match sphere_point 0 (fun _ => 0%Q) (fun _ => 1%Q)
          (make (fun _ => 3) D3 1 ""%string (Vec.vec3 1 0 0) (Vec.vec3 2 2 2) 1 Y 1 10) 0 0 with
  | Some p => ~ ((Vec.in_direction p X - 1) * (Vec.in_direction p X - 1) + Vec.in_direction p Y * Vec.in_direction p Y
                 + Vec.in_direction p Z * Vec.in_direction p Z == 1)%Q
  | None => False
  end.
Proof. vm_compute. discriminate. Qed.

(** ** The output file *)

(** C26. On the master, [output_snapshot] creates [_name.h5] and writes
    two datasets per component, each of rank [rank] and sizes [n_dims];
    their names [<component>-mag] and [<component>-arg] are pairwise
    distinct exactly when the components [_c] of the snapshot are, so no
    dataset overwrites another unless a component is recorded twice. *)
Theorem output_snapshot_datasets s :
  length (cs s) = Z.to_nat (n_c s) -> 0 <= n_c s ->
  exists ws, output_snapshot true s = Some ((name s ++ ".h5")%string, ws)
    /\ Forall (fun w => w.1.2 = rank s /\ w.2 = n_dims s) ws
    /\ (NoDup (map (fun w => w.1.1) ws) <-> NoDup (cs s)).
Proof.
  intros Hlen Hn. eexists. split; [reflexivity|].
  replace (n_c s) with (Z.of_nat (length (cs s))) by lia.
  set (G := fun c => [(dataset_name c true, rank s, n_dims s); (dataset_name c false, rank s, n_dims s)]).
  change (flat_map (fun comp => _) (zrange 0 _))
    with (flat_map (fun k => G (nth (Z.to_nat k) (cs s) Ex)) (zrange 0 (Z.of_nat (length (cs s))))).
  rewrite <- flat_map_map_l, map_nth_zrange. split.
  - apply List.Forall_forall. intros w Hw. apply in_flat_map in Hw as (k & _ & [<-|[<-|[]]]); auto.
  - rewrite map_flat_map_l. apply (NoDup_flat_map_pair dataset_name (cs s) dataset_name_inj).
Qed.

(** ** Witnesses *)

Lemma create_dft_index_roundtrip_witness :
  in_box (compact_dims [1; 5; 3]).2 (compact_index [1; 5; 3] 0 4 2)
  /\ axis_index [1; 5; 3] 4 2 0 = (0, 4, 2).
Proof.
  destruct (create_dft_index_roundtrip 1 5 3 ltac:(lia) ltac:(lia) ltac:(lia)) as [Hf _].
  destruct (Hf 0 4 2 ltac:(unfold in_box; simpl; lia)) as [Hb He].
  split; [exact Hb|exact He].
Defined.

Lemma pass_data_slots_fill_witness :
  pass_data_slots (make (fun _ => 0) D3 4 ""%string (Vec.vec3 0 0 0) (Vec.vec3 (1#10) (2#10) 0) 0 X 1 10)
  = zrange 0 6.
Proof.
  rewrite (pass_data_slots_fill _); [reflexivity|vm_compute; intros; discriminate ..].
Defined.

Lemma sample_value_sum_witness :
  ceq (sample_value (fun _ _ _ _ => Some [(2%Q, 0%Q); (4%Q, 2%Q)]) (fun _ _ _ _ => [(0%Q, 0%Q); (0%Q, 0%Q)]) 1 0 0 0)
      (csum [chunk_value (fun _ _ _ _ => Some [(2%Q, 0%Q); (4%Q, 2%Q)]) 1 0 0 0; (0%Q, 0%Q); (0%Q, 0%Q)]).
Proof.
  apply (sample_value_sum (fun _ _ _ _ => Some [(2%Q, 0%Q); (4%Q, 2%Q)]) (fun _ _ _ _ => [(0%Q, 0%Q); (0%Q, 0%Q)]) 1 0 0 0).
  vm_compute. lia.
Defined.

(** The snapshot of a mode volume records [Ex], [Ey], [Ez]: six distinct
    datasets [ex-mag] ... [ez-arg]. *)
Lemma output_snapshot_datasets_witness :
  match (let* s1 := add_component (make (fun _ => 0) D3 3 "mv"%string (Vec.vec3 0 0 0) (Vec.vec3 1 1 1)
                                     0 NO_DIRECTION 1 1) Ex 0 in
         let* s2 := add_component s1 Ey 1 in
         add_component s2 Ez 2) with
  | Ok s => exists ws, output_snapshot true s = Some ((name s ++ ".h5")%string, ws)
                       /\ NoDup (map (fun w => w.1.1) ws)
  | Fatal _ => False
  end.
Proof.
  destruct (let* s1 := _ in _) as [s|f] eqn:E; [|vm_compute in E; discriminate].
  vm_compute in E. injection E as <-.
  cbv iota beta.
  lazymatch goal with
  | |- exists ws, output_snapshot true ?s = _ /\ _ =>
      destruct (output_snapshot_datasets s ltac:(reflexivity) ltac:(vm_compute; discriminate)) as (ws & Hw & _ & Hiff)
  end.
  exists ws. split; [exact Hw|]. apply Hiff. apply (bool_decide_unpack _). vm_compute. reflexivity.
Defined.

Lemma sphere_point_center_witness :
  let s := make (fun _ => 3) D3 1 ""%string (Vec.vec3 1 0 0) (Vec.vec3 2 2 2) 1 Y 1 10 in
  match sphere_point 0 (fun _ => 0%Q) (fun _ => 1%Q) s 0 0 with
  | Some p =>
      let '(a, b, e) := sphere_center s in
      ((Vec.in_direction p X - a) * (Vec.in_direction p X - a) + (Vec.in_direction p Y - b) * (Vec.in_direction p Y - b)
       + (Vec.in_direction p Z - e) * (Vec.in_direction p Z - e) == radius s * radius s)%Q
  | None => False
  end.
Proof.
  intros s. destruct (sphere_point _ _ _ s 0 0) as [p|] eqn:E; [|vm_compute in E; discriminate].
  exact (sphere_point_center 0 (fun _ => 0%Q) (fun _ => 1%Q) s 0 0 p (fun _ => eq_refl) E).
Defined.

End Snapshot.
