(* ===== verification/SnapshotMemory.v ===== *)
(** * SnapshotMemory: the heap blocks of [class snapshot]'s output path

    [snapshot::pass_data] gives the master two arrays of [n_c] pointers,
    [_data_mag] and [_data_arg], and one array of values per component
    behind each; [output_snapshot] creates the [h5file], writes from the
    value arrays and deletes the file and the two pointer arrays; the
    destructor deletes the pointer arrays again when they are set.  The
    heap is a finite map from block addresses to blocks, addresses drawn
    from a counter; a null pointer is [None].  [delete] of a block that is
    not allocated is undefined; [delete p] of a block made with [new[]]
    is treated as [delete[] p] (the code uses [delete] throughout). *)

From stdpp Require Import gmap.
From S2P Require Import Prelude Geom Snapshot.

Module SnapshotMemory.

Inductive block :=
  | PtrArray (cells : list (option nat))   (* [new realnum *[n]] *)
  | ValArray                               (* [new realnum[n]] *)
  | CharArray                              (* [new char[n]] *)
  | H5File.                                (* [new h5file(...)] *)

#[export] Instance block_eq_dec : EqDecision block.
Proof. solve_decision. Defined.

(** The pointer members [_data_mag], [_data_arg], [_h5file] and the heap. *)
Record memory := mkmem {
  heap : gmap nat block;
  next : nat;
  data_mag : option nat;
  data_arg : option nat;
  h5file : option nat
}.

Definition with_heap m h := mkmem h (next m) (data_mag m) (data_arg m) (h5file m).
Definition with_mag m p := mkmem (heap m) (next m) p (data_arg m) (h5file m).
Definition with_arg m p := mkmem (heap m) (next m) (data_mag m) p (h5file m).
Definition with_h5 m p := mkmem (heap m) (next m) (data_mag m) (data_arg m) p.

(** The constructor: [_data_mag = NULL; _data_arg = NULL;] ([_h5file] is
    not set; nothing reads it before [output_snapshot] sets it). *)
Definition init : memory := mkmem ∅ 0 None None None.

(** [new]: a fresh block. *)
Definition alloc (b : block) (m : memory) : nat * memory :=
  (next m, mkmem (<[next m := b]> (heap m)) (S (next m)) (data_mag m) (data_arg m) (h5file m)).

(** [delete p] *)
Definition free (what : string) (p : option nat) (m : memory) : res memory :=
  match p with
  | None => Ok m
  | Some a =>
      match heap m !! a with
      | Some _ => Ok (with_heap m (delete a (heap m)))
      | None => Fatal (UndefinedBehaviour what)
      end
  end.

(** [p[i] = q] for an array of pointers [p]. *)
Definition store_ptr (what : string) (p : option nat) (i : int) (q : nat) (m : memory) : res memory :=
  match p with
  | None => Fatal (NullDereference what)
  | Some a =>
      match heap m !! a with
      | Some (PtrArray cells) =>
          if (0 <=? i) && (i <? Z.of_nat (length cells))
          then Ok (with_heap m (<[a := PtrArray (<[Z.to_nat i := Some q]> cells)]> (heap m)))
          else Fatal (UndefinedBehaviour what)
      | _ => Fatal (UndefinedBehaviour what)
      end
  end.

(** [&p[i][0]] for an array of pointers [p]: its cell [i] points to a
    live array of values. *)
Definition load_row (what : string) (p : option nat) (i : int) (m : memory) : res unit :=
  match p with
  | None => Fatal (NullDereference what)
  | Some a =>
      match heap m !! a with
      | Some (PtrArray cells) =>
          match cells !! Z.to_nat i with
          | Some (Some q) => if (0 <=? i) && bool_decide (heap m !! q = Some ValArray)
                             then Ok tt else Fatal (UndefinedBehaviour what)
          | _ => Fatal (UndefinedBehaviour what)
          end
      | _ => Fatal (UndefinedBehaviour what)
      end
  end.

(** [snapshot::pass_data()]: the allocations; the master makes
    [_data_mag] and [_data_arg], then for each [comp] the arrays
    [_data_mag[comp]] and [_data_arg[comp]] (the values stored there are
    [Snapshot.sample_value]). *)
Definition pass_data (master : bool) (n_c : int) (m : memory) : res memory :=
  if master then
    let '(pm, m) := alloc (PtrArray (replicate (Z.to_nat n_c) None)) m in
    let m := with_mag m (Some pm) in
    let '(pa, m) := alloc (PtrArray (replicate (Z.to_nat n_c) None)) m in
    let m := with_arg m (Some pa) in
    res_fold_left (fun m comp =>
      let '(q, m) := alloc ValArray m in
      let* m := store_ptr "_data_mag[comp]" (data_mag m) comp q m in
      let '(q', m) := alloc ValArray m in
      store_ptr "_data_arg[comp]" (data_arg m) comp q' m) (zrange 0 n_c) m
  else Ok m.

(** [snapshot::output_snapshot()]: on the master, [_string = new char[..]],
    [_h5file = new h5file(..)], the reads [&_data_mag[comp][0]] and
    [&_data_arg[comp][0]] of the writes, [delete _h5file; delete
    _data_mag; delete _data_arg;], the three [NULL]s and [delete
    _string]. *)
Definition output_snapshot (master : bool) (n_c : int) (m : memory) : res memory :=
  if master then
    let '(str, m) := alloc CharArray m in
    let '(h, m) := alloc H5File m in
    let m := with_h5 m (Some h) in
    let* _ := res_fold_left (fun _ comp =>
                let* _ := load_row "_data_mag[comp]" (data_mag m) comp m in
                load_row "_data_arg[comp]" (data_arg m) comp m) (zrange 0 n_c) tt in
    let* m := free "_h5file" (h5file m) m in
    let* m := free "_data_mag" (data_mag m) m in
    let* m := free "_data_arg" (data_arg m) m in
    let m := with_h5 (with_arg (with_mag m None) None) None in
    free "_string" (Some str) m
  else Ok m.

(** [snapshot::output()]: [pass_data()] then [output_snapshot()]. *)
Definition output (master : bool) (n_c : int) (m : memory) : res memory :=
  let* m := pass_data master n_c m in
  output_snapshot master n_c m.

(** The [_data_mag] and [_data_arg] part of [snapshot::~snapshot()]. *)
Definition destroy (m : memory) : res memory :=
  let* m := match data_mag m with
             | Some _ => free "_data_mag" (data_mag m) (with_mag m None)
             | None => Ok m
             end in
  match data_arg m with
  | Some _ => free "_data_arg" (data_arg m) (with_arg m None)
  | None => Ok m
  end.

(** ** Specification helpers *)

(** The cells of a pointer array whose first [k] entries point at
    [base], [base + 2], ..., the others still unset. *)
Definition cells (base k n : nat) : list (option nat) :=
  (fun i => if decide (i < k)%nat then Some (base + 2 * i)%nat else None) <$> seq 0 n.

(** The state after [k] rounds of the [comp] loop of [pass_data]. *)
Definition pd_inv (n k : nat) (m : memory) : Prop :=
  next m = (2 + 2 * k)%nat /\ data_mag m = Some 0%nat /\ data_arg m = Some 1%nat /\ h5file m = None /\
  heap m !! 0%nat = Some (PtrArray (cells 2 k n)) /\ heap m !! 1%nat = Some (PtrArray (cells 3 k n)) /\
  forall j, (2 <= j)%nat -> heap m !! j = if decide (j < 2 + 2 * k)%nat then Some ValArray else None.

(** ** Lemmas *)

Ltac lookup_simpl :=
  repeat first [ rewrite lookup_insert_eq | rewrite lookup_insert_ne by lia
               | rewrite lookup_delete_eq | rewrite lookup_delete_ne by lia ].

Lemma length_cells base k n : length (cells base k n) = n.
Proof. unfold cells. rewrite length_fmap, length_seq. reflexivity. Qed.

Lemma lookup_cells base k n i :
  cells base k n !! i = if decide (i < n)%nat then Some (if decide (i < k)%nat then Some (base + 2 * i)%nat else None) else None.
Proof.
  unfold cells. rewrite list_lookup_fmap. destruct (decide (i < n)%nat).
  - rewrite lookup_seq_lt by lia. reflexivity.
  - rewrite lookup_seq_ge by lia. reflexivity.
Qed.

Lemma cells_zero base n : cells base 0 n = replicate n None.
Proof.
  apply list_eq. intros i. rewrite lookup_cells.
  destruct (decide (i < n)%nat).
  - rewrite lookup_replicate_2 by lia. reflexivity.
  - symmetry. apply lookup_replicate_None. lia.
Qed.

Lemma cells_step base k n : (k < n)%nat ->
  <[k := Some (base + 2 * k)%nat]> (cells base k n) = cells base (S k) n.
Proof.
  intros Hk. apply list_eq. intros i. rewrite lookup_cells.
  destruct (decide (i = k)) as [->|Hne].
  - rewrite list_lookup_insert_eq by (rewrite length_cells; lia).
    repeat case_decide; first [reflexivity | lia].
  - rewrite list_lookup_insert_ne by congruence. rewrite lookup_cells.
    repeat case_decide; first [reflexivity | lia].
Qed.

(** The master's [pass_data] from a fresh snapshot succeeds: both
    pointer arrays are filled, the value arrays are [2 .. 2 n_c + 1]. *)
Lemma pass_data_master n_c : 0 <= n_c ->
  exists m, pass_data true n_c init = Ok m /\ pd_inv (Z.to_nat n_c) (Z.to_nat n_c) m.
Proof.
  intros Hn. unfold pass_data. cbn -[zrange res_fold_left].
  set (n := Z.to_nat n_c).
  apply (res_fold_left_zrange (fun k m => pd_inv n (Z.to_nat k) m)); [lia| |].
  - unfold pd_inv. cbn. rewrite !cells_zero. lookup_simpl. repeat split; try reflexivity.
    intros j Hj. lookup_simpl. rewrite lookup_empty. case_decide; [lia|reflexivity].
  - intros k m Hk (Hnx & Hmag & Harg & Hh5 & H0 & H1 & Hv).
    unfold alloc. rewrite Hnx. cbn [data_mag data_arg heap next]. rewrite Hmag.
    unfold store_ptr. cbn [heap]. lookup_simpl. rewrite H0, length_cells.
    replace ((0 <=? k) && (k <? Z.of_nat n)) with true by (symmetry; apply andb_true_iff; lia).
    cbn. rewrite Harg. lookup_simpl. rewrite H1, length_cells.
    replace ((0 <=? k) && (k <? Z.of_nat n)) with true by (symmetry; apply andb_true_iff; lia).
    eexists. split; [reflexivity|].
    replace (Z.to_nat (k + 1)) with (S (Z.to_nat k)) by lia.
    unfold pd_inv; cbn. lookup_simpl. split; [lia|]. repeat split; try assumption;
      try (rewrite <- cells_step by lia; repeat f_equal; lia).
    intros j Hj. destruct (decide (j = S (2 + 2 * Z.to_nat k))) as [->|?];
        [|destruct (decide (j = 2 + 2 * Z.to_nat k)%nat) as [->|?]]; lookup_simpl;
        [case_decide; [reflexivity|lia] ..|].
      rewrite Hv by lia. repeat case_decide; first [reflexivity|lia].
Qed.

(** Then [output_snapshot] reads only live rows, frees the file, the
    pointer arrays and its string, and leaves the value arrays. *)
Lemma output_snapshot_master n_c m : 0 <= n_c -> pd_inv (Z.to_nat n_c) (Z.to_nat n_c) m ->
  exists m', output_snapshot true n_c m = Ok m' /\ data_mag m' = None /\ data_arg m' = None /\
    forall j, heap m' !! j = if decide (2 <= j < 2 + 2 * Z.to_nat n_c)%nat then Some ValArray else None.
Proof.
  set (n := Z.to_nat n_c). intros Hn (Hnx & Hmag & Harg & Hh5 & H0 & H1 & Hv).
  unfold output_snapshot, alloc. rewrite Hnx. cbn -[zrange res_fold_left]. rewrite Hmag, Harg.
  lazymatch goal with
  | |- context [res_fold_left ?f (zrange 0 n_c) tt] =>
      destruct (res_fold_left_zrange (fun _ (_ : unit) => True) f 0 n_c tt ltac:(lia) I) as (u & Hloop & _)
  end.
  { intros k [] Hk _. exists tt. split; [|exact I].
    unfold load_row, with_h5. cbn [heap data_mag data_arg]. lookup_simpl. rewrite H0, H1, !lookup_cells.
    destruct (decide (Z.to_nat k < n)%nat) as [_|]; [|lia].
    destruct (decide (Z.to_nat k < n)%nat) as [_|]; [|lia].
    replace (0 <=? k) with true by lia. cbn [andb].
    rewrite !bool_decide_eq_true_2; [reflexivity| |]; lookup_simpl; rewrite Hv by lia;
      case_decide; first [reflexivity|lia]. }
  rewrite Hloop. cbn. lookup_simpl. cbn. lookup_simpl. rewrite H0. cbn. lookup_simpl. rewrite H1. cbn.
  lookup_simpl. cbn.
  eexists. split; [reflexivity|]. split; [reflexivity|]. split; [reflexivity|].
  intros j. cbn [heap with_heap with_h5 with_arg with_mag]. destruct (decide (j = 0%nat)) as [->|?]; [lookup_simpl; reflexivity|].
  destruct (decide (j = 1%nat)) as [->|?]; [lookup_simpl; reflexivity|].
  destruct (decide (j = 2 + 2 * n)%nat) as [->|?]; [lookup_simpl; case_decide; [lia|reflexivity]|].
  destruct (decide (j = S (2 + 2 * n))%nat) as [->|?]; [lookup_simpl; case_decide; [lia|reflexivity]|].
  lookup_simpl. rewrite Hv by lia. repeat case_decide; first [reflexivity|lia].
Qed.

(** ** Lifetime of the value arrays *)

(** C18. On the master, [snapshot::output()] followed by the destructor
    never touches a freed or unset pointer, and leaves allocated exactly
    the [2 * n_c] arrays [_data_mag[comp]] and [_data_arg[comp]] that
    [pass_data] made: [delete _data_mag] and [delete _data_arg] free only
    the arrays of pointers.  On the other processes nothing is
    allocated and nothing remains. *)
Theorem output_leaks_value_arrays (master : bool) n_c : 0 <= n_c ->
  exists m, (let* m := output master n_c init in destroy m) = Ok m /\
    forall j, heap m !! j =
      if master && bool_decide (2 <= j < 2 + 2 * Z.to_nat n_c)%nat then Some ValArray else None.
Proof.
  intros Hn. destruct master.
  - destruct (pass_data_master n_c Hn) as (m1 & Hp & Hinv).
    destruct (output_snapshot_master n_c m1 Hn Hinv) as (m2 & Ho & Hmag & Harg & Hh).
    unfold output. rewrite Hp. cbn [res_bind]. rewrite Ho. cbn [res_bind].
    unfold destroy. rewrite Hmag. cbn [res_bind]. rewrite Harg.
    eexists. split; [reflexivity|]. intros j. rewrite Hh. cbn [andb].
    case_decide; [rewrite bool_decide_eq_true_2|rewrite bool_decide_eq_false_2]; auto.
  - eexists. split; [reflexivity|]. intros j. apply lookup_empty.
Qed.

(** ** Witnesses *)

Lemma output_leaks_value_arrays_witness :
  exists m, (let* m := output true 3 init in destroy m) = Ok m /\
    forall j, heap m !! j = if true && bool_decide (2 <= j < 2 + 2 * Z.to_nat 3)%nat then Some ValArray else None.
Proof. apply (output_leaks_value_arrays true 3). lia. Defined.

End SnapshotMemory.
