(* ===== verification/Nf2ff.v ===== *)
(** * Nf2ff: the near-to-far-field transform's data layout and lifetime

    [class nf2ff] (vec.cpp) records the fields on the faces of a box
    with one [snapshot] per face ([create_snaps]), gathers them into the
    five-level array [_near_data[dir][pos][comp][x][y]] ([allocate],
    [pass_data]), sums them into far-field arrays ([calculate]) and
    writes HDF5 files ([output], [output_snaps]).

    Modelled here: the constructor (sizes, [res_angle], the face
    snapshots with their centres, sizes and components, and the
    [add_dft_pt] calls they make), [return_component], the shape
    [allocate] gives [_near_data] and the elements [pass_data] stores in
    it, and the pointer members' lifetime through [process] and the
    destructor.  The values (DFT sums, MPI [Ssend], the far-field
    trigonometry of [calculate]) and the HDF5 files are not modelled;
    the [%f] rendering of the frequency in the snapshot names is the
    section parameter [fmt_freq]. *)

From S2P Require Import Prelude Geom Coord Snapshot.
Import Snapshot.

Module Nf2ff.

(** [d == dir_index || d == NO_DIRECTION]: the faces normal to
    [dir_index] are recorded. *)
Definition has_face (d : direction) (dir_index : int) : bool :=
  Z.eqb (dir_to_int d) dir_index || bool_decide (d = NO_DIRECTION).

(** [pos < (d == NO_DIRECTION ? 2 : 1)] *)
Definition npos (d : direction) : int := if bool_decide (d = NO_DIRECTION) then 2 else 1.

(** The [(dir_index, pos)] pairs of the loops [for (dir_index < 3) if
    (...) for (pos < ...)], in order. *)
Definition faces (d : direction) : list (int * int) :=
  flat_map (fun di => if has_face d di then map (fun pos => (di, pos)) (zrange 0 (npos d)) else [])
    (zrange 0 3).

(** [nf2ff::return_component(dir, pos)] *)
Definition return_component (dir : direction) (pos : int) : res component :=
  let bad := Fatal (Abort "bug - nf2ff return_component invalid pos") in
  match dir with
  | X => match pos with 0 => Ok Ey | 1 => Ok Ez | 2 => Ok Hy | 3 => Ok Hz | _ => bad end
  | Y => match pos with 0 => Ok Ex | 1 => Ok Ez | 2 => Ok Hx | 3 => Ok Hz | _ => bad end
  | Z => match pos with 0 => Ok Ex | 1 => Ok Ey | 2 => Ok Hx | 3 => Ok Hy | _ => bad end
  | _ => Fatal (Abort "bug - nf2ff return_component invalid direction")
  end.

Record nf2ff := mknf2ff {
  dimension : ndim;                 (* [f->v.dim], passed on to the snapshots *)
  center : Vec.vec;                 (* [*_center] *)
  vsize : Vec.vec;                  (* [*_size] *)
  name : string;
  size : list int;                  (* [size[3]] *)
  freq : Q;
  resolution : Q;
  d : direction;
  out : bool;
  res_angle : list int;             (* [res_angle[2]] *)
  snaps : list (int * int * snapshot)  (* [_snaps[dir_index][pos]] *)
}.

Definition size_at (n : nf2ff) (k : nat) : int := nth k (size n) 1.

Section Construct.
(** The [%f] rendering of a double, for the snapshot names. *)
Context (fmt_freq : Q -> string).
(** [(int) ceil(pi * res / sqrt(2.0))], unused by the face snapshots
    (radius 0). *)
Context (sphere_n0 : Q -> int).

(** [sprintf(string, "%s-%s%c-%f", _name, direction_name(dir_index),
    pos == 0 ? 'p' : 'm', freq)] *)
Definition face_name (nm : string) (di pos : int) (l : Q) : string :=
  (nm ++ "-" ++ direction_name di ++ (if Z.eqb pos 0 then "p" else "m") ++ "-" ++ fmt_freq l)%string.

(** The centre and size of the snapshot on face [(dir_index, pos)]. *)
Definition face_center (c sz : Vec.vec) (di pos : int) : Vec.vec :=
  let sgn := if Z.eqb pos 0 then 1%Q else (-1)%Q in
  let off k dd := if Z.eqb di k then (Vec.in_direction sz dd / 2)%Q else 0%Q in
  Vec.vec3 (Vec.in_direction c X + sgn * off 0 X) (Vec.in_direction c Y + sgn * off 1 Y)
           (Vec.in_direction c Z + sgn * off 2 Z).

Definition face_size (sz : Vec.vec) (di : int) : Vec.vec :=
  let keep k dd := if Z.eqb di k then 0%Q else Vec.in_direction sz dd in
  Vec.vec3 (keep 0 X) (keep 1 Y) (keep 2 Z).

(** The body of [create_snaps] for one face: [new snapshot(_f, 4, ...)],
    the four [add_component] calls and [create()] (radius 0, so
    [create_dft]).  Returns the snapshot and its [add_dft_pt] calls. *)
Definition make_face (dim : ndim) (nm : string) (c sz : Vec.vec) (l resol : Q) (di pos : int)
    : res (snapshot * list (component * Vec.vec)) :=
  let s0 := Snapshot.make sphere_n0 dim 4 (face_name nm di pos l) (face_center c sz di pos)
              (face_size sz di) 0 NO_DIRECTION l resol in
  let* s := res_fold_left (fun s k =>
              let* comp := return_component (dir_of_int di) k in
              Snapshot.add_component s comp k) (zrange 0 4) s0 in
  Ok (s, create_dft s).

(** [nf2ff::create_snaps()] *)
Definition create_snaps (dim : ndim) (nm : string) (c sz : Vec.vec) (l resol : Q) (dir : direction)
    : res (list (int * int * snapshot) * list (component * Vec.vec)) :=
  res_fold_left (fun acc f =>
    let* r := make_face dim nm c sz l resol f.1 f.2 in
    Ok (acc.1 ++ [(f.1, f.2, r.1)], acc.2 ++ r.2)) (faces dir) ([], []).

(** [nf2ff::nf2ff(f, center, v_size, l, res, dir, name, output)]: the
    object and the DFT points its snapshots register. *)
Definition make (dim : ndim) (ctr v_size : Vec.vec) (l resol : Q) (dir : direction) (nm : string)
    (output : bool) : res (nf2ff * list (component * Vec.vec)) :=
  let c := Vec.vec3 (Vec.in_direction ctr X) (Vec.in_direction ctr Y) (Vec.in_direction ctr Z) in
  let sz := Vec.vec3 (Vec.in_direction v_size X) (Vec.in_direction v_size Y) (Vec.in_direction v_size Z) in
  let sizes := [ceil_samples (Vec.in_direction sz X) resol; ceil_samples (Vec.in_direction sz Y) resol;
                ceil_samples (Vec.in_direction sz Z) resol] in
  let s0 := nth 0 sizes 1 in
  let s1 := nth 1 sizes 1 in
  let s2 := nth 2 sizes 1 in
  let ra1 := Z.sqrt_up (s0 * s1 + s0 * s2 + s1 * s2) in
  let* r := create_snaps dim nm c sz l resol dir in
  Ok (mknf2ff dim c sz nm sizes l resol dir output [2 * ra1; ra1] r.1, r.2).

End Construct.

(** [allocate()]: [_near_data[dir_index][pos][comp]] holds
    [size[dir_index == 0 ? 1 : 0]] rows of [size[dir_index == 2 ? 1 : 2]]
    entries. *)
Definition near_rows (n : nf2ff) (di : int) : int := size_at n (if Z.eqb di 0 then 1%nat else 0%nat).
Definition near_cols (n : nf2ff) (di : int) : int := size_at n (if Z.eqb di 2 then 1%nat else 2%nat).

(** The elements [_near_data[dir_index][pos][comp][n_0][n_1]] the master
    stores in [pass_data], in order, with [n_0], [n_1] running over the
    face snapshot's [n_dims[0]], [n_dims[1]]. *)
Definition pass_data_writes (n : nf2ff) : list (int * int * int * int * int) :=
  flat_map (fun '(di, pos, s) =>
    flat_map (fun comp =>
      flat_map (fun n0 => map (fun n1 => (di, pos, comp, n0, n1)) (zrange 0 (dim_at s 1)))
        (zrange 0 (dim_at s 0)))
      (zrange 0 (n_c s)))
    (snaps n).

(** An element inside what [allocate] gave the face. *)
Definition near_in_bounds (n : nf2ff) (w : int * int * int * int * int) : Prop :=
  let '(di, pos, comp, n0, n1) := w in
  (di, pos) ∈ faces (d n) /\ 0 <= comp < 4 /\ 0 <= n0 < near_rows n di /\ 0 <= n1 < near_cols n di.

(** ** Lifetime of the pointer members

    The pointer members the methods allocate, test and delete: [_h5file],
    [_near_data], the eight far-field arrays (one pointer here: they are
    allocated, tested and freed together), [_snaps] and its rows
    [_snaps[dir_index]].  A member the constructor does not set is
    [Uninit] (meep.hpp, not in the repository, is taken to give
    [_h5file] no initializer); testing or deleting it is undefined.  A
    deleted pointer that is not reset is [Freed]: deleting or
    dereferencing it again is undefined. *)

Inductive ptr := Uninit | Null | Live | Freed.

Record members := mkmembers {
  h5file : ptr;
  near_data : ptr;
  far_data : ptr;
  snaps_arr : ptr;
  snaps_rows : list ptr       (* [_snaps[0..2]] *)
}.

(** [if (p)] *)
Definition test (what : string) (p : ptr) : res bool :=
  match p with
  | Uninit => Fatal (UndefinedBehaviour what)
  | Null => Ok false
  | Live | Freed => Ok true
  end.

(** [delete p] *)
Definition delete (what : string) (p : ptr) : res unit :=
  match p with
  | Uninit | Freed => Fatal (UndefinedBehaviour what)
  | Null | Live => Ok tt
  end.

(** [*p] *)
Definition deref (what : string) (p : ptr) : res unit :=
  match p with
  | Uninit | Freed => Fatal (UndefinedBehaviour what)
  | Null => Fatal (NullDereference what)
  | Live => Ok tt
  end.

Definition with_h5file m p := mkmembers p (near_data m) (far_data m) (snaps_arr m) (snaps_rows m).
Definition with_near m p := mkmembers (h5file m) p (far_data m) (snaps_arr m) (snaps_rows m).
Definition with_far m p := mkmembers (h5file m) (near_data m) p (snaps_arr m) (snaps_rows m).
Definition with_snaps m p := mkmembers (h5file m) (near_data m) (far_data m) p (snaps_rows m).

Definition row (m : members) (di : int) : ptr := nth (Z.to_nat di) (snaps_rows m) Uninit.

(** The constructor: the far-field pointers and [_near_data] are set to
    [NULL], [_h5file] is not set, and [create_snaps] allocates [_snaps]
    and the rows of the recorded faces. *)
Definition construct (dir : direction) : members :=
  mkmembers Uninit Null Null Live (map (fun di => if has_face dir di then Live else Uninit) (zrange 0 3)).

(** [allocate()]: the master allocates [_near_data]. *)
Definition allocate (master : bool) (m : members) : members :=
  if master then with_near m Live else m.

(** [pass_data()]: every process reads [_snaps[dir_index][pos]] of the
    recorded faces; the master stores into [_near_data]. *)
Definition pass_data (master : bool) (dir : direction) (m : members) : res members :=
  let* _ := res_fold_left (fun _ f =>
              let* _ := deref "_snaps" (snaps_arr m) in
              let* _ := deref "_snaps[dir_index]" (row m f.1) in
              if master then deref "_near_data" (near_data m) else Ok tt) (faces dir) tt in
  Ok m.

(** The loop of [process()] that deletes the face snapshots and their
    rows, then [delete _snaps; _snaps = NULL]. *)
Definition free_snaps (dir : direction) (m : members) : res members :=
  let* _ := res_fold_left (fun _ di =>
              if has_face dir di then delete "_snaps[dir]" (row m di) else Ok tt) (zrange 0 3) tt in
  let* _ := delete "_snaps" (snaps_arr m) in
  let m := with_snaps m Freed in
  Ok (with_snaps m Null).

(** [output_snaps()]: on the master, one [h5file] per face, and
    [_h5file = NULL] after each recorded direction. *)
Definition output_snaps (master : bool) (dir : direction) (m : members) : members :=
  if master && existsb (has_face dir) (zrange 0 3) then with_h5file m Null else m.

(** The allocation and release of [calculate()]: on the master the
    far-field arrays are allocated and [_near_data] is freed and set to
    [NULL]. *)
Definition calculate (master : bool) (m : members) : res members :=
  if master then
    let* _ := deref "_near_data" (near_data m) in
    let m := with_near (with_far m Live) Freed in
    Ok (with_near m Null)
  else Ok m.

(** [output()]: on the master, [_h5file] is created, written and
    deleted, the far-field arrays deleted, and all set to [NULL]. *)
Definition output (master : bool) (m : members) : res members :=
  if master then
    let* _ := deref "_far_data" (far_data m) in
    let m := with_far (with_h5file m Freed) Freed in
    Ok (with_far (with_h5file m Null) Null)
  else Ok m.

(** [nf2ff::process()] *)
Definition process (master : bool) (dir : direction) (out_ : bool) (m : members) : res members :=
  let m := allocate master m in
  let* m := pass_data master dir m in
  let* m := free_snaps dir m in
  let m := if out_ then output_snaps master dir m else m in
  let* m := calculate master m in
  output master m.

(** [nf2ff::~nf2ff()].  Its [_near_data] loop frees [size[dir_index ==
    0 ? 1 : 2]] rows where [allocate] made [size[dir_index == 0 ? 1 :
    0]]; the loop only runs when [_near_data] is set, which [process()]
    never leaves, so it is one [delete] here. *)
Definition destroy (dir : direction) (m : members) : res unit :=
  let* b := test "_h5file" (h5file m) in
  let* _ := if b then delete "_h5file" (h5file m) else Ok tt in
  let* b := test "_far_data" (far_data m) in
  let* _ := if b then delete "_far_data" (far_data m) else Ok tt in
  let* b := test "_near_data" (near_data m) in
  let* _ := if b then delete "_near_data" (near_data m) else Ok tt in
  let* b := test "_snaps" (snaps_arr m) in
  if b then
    let* _ := res_fold_left (fun _ di =>
                let* _ := deref "_snaps" (snaps_arr m) in
                delete "_snaps[dir_index]" (row m di)) (zrange 0 3) tt in
    delete "_snaps" (snaps_arr m)
  else Ok tt.

(** ** Lemmas *)



Lemma faces_range d di pos : (di, pos) ∈ faces d -> 0 <= di < 3 /\ 0 <= pos < npos d.
Proof.
  unfold faces. rewrite list_elem_of_In, in_flat_map. intros (di' & Hdi & Hin).
  apply in_zrange in Hdi. destruct (has_face d di'); [|destruct Hin].
  apply in_map_iff in Hin as (pos' & Heq & Hp). injection Heq as <- <-. apply in_zrange in Hp. lia.
Qed.

(** In three dimensions the snapshot on a face normal to [dir_index]
    packs the two other axes, when both have more than one sample, as
    [n_dims = (a, b, 1)]. *)
Lemma face_dims_D3 sphere_n0 nm c sz l resol di pos :
  0 <= di < 3 ->
  let sa := ceil_samples (Vec.in_direction sz (if Z.eqb di 0 then Y else X)) resol in
  let sb := ceil_samples (Vec.in_direction sz (if Z.eqb di 2 then Y else Z)) resol in
  1 < sa -> 1 < sb ->
  let s := Snapshot.make sphere_n0 D3 4 nm (face_center c sz di pos) (face_size sz di) 0 NO_DIRECTION l resol in
  dim_at s 0 = sa /\ dim_at s 1 = sb.
Proof.
  intros Hdi sa sb Ha Hb s. subst s sa sb.
  assert (di = 0 \/ di = 1 \/ di = 2) as [ -> | [ -> | -> ] ] by lia;
    cbn -[ceil_samples] in *; rewrite ?ceil_samples_zero; unfold compact_dims, compact;
    do 3 (simpl; zcmp_simpl); split; reflexivity.
Qed.

(** On a face normal to [y] of a box flat along [x] the snapshot
    collapses the empty axis and packs [z] first: [n_dims = (s_z, 1, 1)]. *)
Lemma face_dims_D3_flat sphere_n0 nm c sz l resol pos :
  ceil_samples (Vec.in_direction sz X) resol = 1 -> 1 < ceil_samples (Vec.in_direction sz Z) resol ->
  let s := Snapshot.make sphere_n0 D3 4 nm (face_center c sz 1 pos) (face_size sz 1) 0 NO_DIRECTION l resol in
  dim_at s 0 = ceil_samples (Vec.in_direction sz Z) resol /\ dim_at s 1 = 1.
Proof.
  intros Ha Hb s. subst s.
  cbn -[ceil_samples] in *; rewrite ?ceil_samples_zero; unfold compact_dims, compact;
    do 3 (simpl; zcmp_simpl); split; reflexivity.
Qed.
Section Faces.
Context (fmt_freq : Q -> string) (sphere_n0 : Q -> int).

Lemma make_face_keeps dim nm c sz l resol di pos s tr :
  make_face fmt_freq sphere_n0 dim nm c sz l resol di pos = Ok (s, tr) ->
  let s0 := Snapshot.make sphere_n0 dim 4 (face_name fmt_freq nm di pos l) (face_center c sz di pos)
              (face_size sz di) 0 NO_DIRECTION l resol in
  n_dims s = n_dims s0 /\ n_c s = 4.
Proof.
  intros H. cbv zeta. unfold make_face in H.
  set (s0 := Snapshot.make sphere_n0 dim 4 _ _ _ _ _ _ _) in *.
  destruct (res_fold_left _ (zrange 0 4) s0) as [s1|] eqn:E; [|discriminate]. injection H as <- _.
  refine (res_fold_left_inv (fun s => n_dims s = n_dims s0 /\ n_c s = 4) _ _ _ _ _ _ E); [|split; [reflexivity|apply make_n_c]].
  intros a k r [Ha Hc] Hr. destruct (return_component _ k); [|discriminate].
  cbn [res_bind] in Hr. apply add_component_keeps in Hr as (H1 & H2 & _). split; congruence.
Qed.

Lemma create_snaps_faces dim nm c sz l resol dir r :
  create_snaps fmt_freq sphere_n0 dim nm c sz l resol dir = Ok r ->
  Forall (fun '(di, pos, s) =>
    (di, pos) ∈ faces dir /\ n_c s = 4 /\
    n_dims s = n_dims (Snapshot.make sphere_n0 dim 4 (face_name fmt_freq nm di pos l) (face_center c sz di pos)
                         (face_size sz di) 0 NO_DIRECTION l resol)) r.1.
Proof.
  unfold create_snaps. intros H.
  set (P := fun '(di, pos, s) => (di, pos) ∈ faces dir /\ n_c s = 4 /\
    n_dims s = n_dims (Snapshot.make sphere_n0 dim 4 (face_name fmt_freq nm di pos l) (face_center c sz di pos)
                         (face_size sz di) 0 NO_DIRECTION l resol)).
  assert (Hg : forall fs acc r, (forall f, f ∈ fs -> f ∈ faces dir) -> Forall P acc.1 ->
    res_fold_left (fun acc f =>
      let* r := make_face fmt_freq sphere_n0 dim nm c sz l resol f.1 f.2 in
      Ok (acc.1 ++ [(f.1, f.2, r.1)], acc.2 ++ r.2)) fs acc = Ok r -> Forall P r.1).
  { induction fs as [|f fs IH]; intros acc r' Hin Hacc Hr; cbn [res_fold_left] in Hr.
    - injection Hr as <-. exact Hacc.
    - destruct (make_face _ _ _ _ _ _ _ _ f.1 f.2) as [[s tr]|] eqn:Ef; [|discriminate].
      cbn [res_bind] in Hr. refine (IH _ _ (fun f' Hf' => Hin f' (list_elem_of_further _ _ _ Hf')) _ Hr).
      simpl. apply Forall_app; split; [exact Hacc|]. constructor; [|constructor].
      destruct f as [di pos]. apply make_face_keeps in Ef as [Hd Hc]. simpl.
      split; [apply Hin; left|split; [exact Hc|exact Hd]]. }
  exact (Hg _ ([], []) r (fun f Hf => Hf) (Forall_nil_2 _) H).
Qed.

(** [create_snaps] makes one snapshot per face, in the order of [faces]. *)
Lemma create_snaps_keys dim nm c sz l resol dir r :
  create_snaps fmt_freq sphere_n0 dim nm c sz l resol dir = Ok r ->
  map (fun x => (x.1.1, x.1.2)) r.1 = faces dir.
Proof.
  unfold create_snaps.
  assert (Hg : forall fs acc r, res_fold_left (fun acc f =>
      let* r := make_face fmt_freq sphere_n0 dim nm c sz l resol f.1 f.2 in
      Ok (acc.1 ++ [(f.1, f.2, r.1)], acc.2 ++ r.2)) fs acc = Ok r ->
      map (fun x => (x.1.1, x.1.2)) r.1 = map (fun x => (x.1.1, x.1.2)) acc.1 ++ fs).
  { induction fs as [|f fs IH]; intros acc r' Hr; cbn [res_fold_left] in Hr.
    - injection Hr as <-. now rewrite app_nil_r.
    - destruct (make_face _ _ _ _ _ _ _ _ f.1 f.2) as [[s tr]|]; [|discriminate].
      cbn [res_bind] in Hr. rewrite (IH _ _ Hr). cbn [fst]. rewrite map_app, <- app_assoc.
      destruct f. reflexivity. }
  intros H. exact (Hg _ ([], []) r H).
Qed.
End Faces.

(** ** The stores of [pass_data] *)

(** C34. In three dimensions, when the box spans more than one sample
    along each axis, every element [_near_data[dir][pos][comp][n_0][n_1]]
    that [pass_data] stores lies inside what [allocate] gave the face:
    the face snapshot packs its two axes in the order [allocate] uses. *)
Theorem pass_data_in_bounds fmt_freq sphere_n0 ctr v_size l resol dir nm o n pts :
  make fmt_freq sphere_n0 D3 ctr v_size l resol dir nm o = Ok (n, pts) ->
  1 < size_at n 0 -> 1 < size_at n 1 -> 1 < size_at n 2 ->
  Forall (near_in_bounds n) (pass_data_writes n).
Proof.
  unfold make. intros H. destruct (create_snaps _ _ _ _ _ _ _ _ _) as [r|] eqn:Ec; [|discriminate].
  injection H as <- _. apply create_snaps_faces in Ec. unfold size_at; cbn [size snaps nth]. intros H0 H1 H2.
  apply Forall_forall. intros w Hw. apply list_elem_of_In, in_flat_map in Hw as ([[di pos] s] & Hs & Hw).
  apply list_elem_of_In in Hs. rewrite Forall_forall in Ec. specialize (Ec _ Hs) as (Hf & Hc & Hd).
  rewrite Hc in Hw. apply in_flat_map in Hw as (comp & Hcomp & Hw). apply in_flat_map in Hw as (n0 & Hn0 & Hw).
  apply in_map_iff in Hw as (n1 & <- & Hn1). apply in_zrange in Hcomp, Hn0, Hn1.
  destruct (faces_range _ _ _ Hf) as [Hdi _].
  match type of Hd with
  | n_dims s = n_dims (Snapshot.make _ _ _ ?nm' (face_center ?c ?sz _ _) _ _ _ _ _) =>
      pose proof (face_dims_D3 sphere_n0 nm' c sz l resol di pos Hdi) as Hfd
  end.
  cbv zeta in Hfd. unfold dim_at in Hn0, Hn1, Hfd. rewrite Hd in Hn0, Hn1.
  split; [exact Hf|]. split; [lia|]. unfold near_rows, near_cols, size_at. cbn [size].
  assert (di = 0 \/ di = 1 \/ di = 2) as [ -> | [ -> | -> ] ] by lia;
    cbn -[ceil_samples Snapshot.make] in Hfd, Hn0, Hn1 |- *;
    destruct (Hfd ltac:(assumption) ltac:(assumption)) as [E0 E1]; lia.
Qed.

(** C35. For every three-dimensional box flat along x ([size[0] == 1])
    that spans more than one sample along z, when the faces normal to y
    are recorded, the face snapshot packs its axes as [(size[2], 1)]
    while [allocate] gives the face [size[0] = 1] row of [size[2]]:
    [pass_data] stores [_near_data[1][0][0][1][0]], past the end of the
    row array. *)
Theorem pass_data_flat_box_overflow fmt_freq sphere_n0 ctr v_size l resol dir nm o n pts :
  make fmt_freq sphere_n0 D3 ctr v_size l resol dir nm o = Ok (n, pts) ->
  has_face dir 1 = true -> size_at n 0 = 1 -> 1 < size_at n 2 ->
  (1, 0, 0, 1, 0) ∈ pass_data_writes n /\ ~ near_in_bounds n (1, 0, 0, 1, 0).
Proof.
  unfold make. intros H Hf. destruct (create_snaps _ _ _ _ _ _ _ _ _) as [r|] eqn:Ec; [|discriminate].
  injection H as <- _. unfold size_at; cbn [size snaps nth]. intros H0 H2.
  assert (Hk : (1, 0) ∈ faces dir).
  { unfold faces. apply list_elem_of_In, in_flat_map. exists 1. split; [apply in_zrange; lia|].
    rewrite Hf. apply in_map_iff. exists 0. split; [reflexivity|]. apply in_zrange. unfold npos. case_bool_decide; lia. }
  rewrite <- (create_snaps_keys _ _ _ _ _ _ _ _ _ _ Ec) in Hk.
  apply list_elem_of_In, in_map_iff in Hk as ([[di pos] s] & Heq & Hs). injection Heq as -> ->. pose proof Hs as Hs'. apply list_elem_of_In in Hs'.
  apply create_snaps_faces in Ec. rewrite Forall_forall in Ec. destruct (Ec _ Hs') as (_ & Hc & Hd).
  match type of Hd with
  | n_dims s = n_dims (Snapshot.make _ _ _ ?nm' (face_center ?c ?sz _ _) _ _ _ _ _) =>
      pose proof (face_dims_D3_flat sphere_n0 nm' c sz l resol 0 H0 H2) as [E0 E1]
  end.
  unfold dim_at in E0, E1. rewrite <- Hd in E0, E1. split.
  - apply list_elem_of_In, in_flat_map. exists (1, 0, s). split; [exact Hs|].
    rewrite Hc. apply in_flat_map. exists 0. split; [apply in_zrange; lia|].
    apply in_flat_map. exists 1. split; [apply in_zrange; unfold dim_at; rewrite E0; split; [lia|exact H2]|].
    apply in_map_iff. exists 0. split; [reflexivity|]. apply in_zrange. unfold dim_at. lia.
  - unfold near_in_bounds, near_rows, size_at. cbn [size nth]. simpl. lia.
Qed.

(** ** Witnesses *)

Lemma pass_data_in_bounds_witness :
  exists n pts,
    make (fun _ => ""%string) (fun _ => 0) D3 (Vec.vec3 0 0 0) (Vec.vec3 1 1 1) 1 2 NO_DIRECTION "ff" false
      = Ok (n, pts)
    /\ Forall (near_in_bounds n) (pass_data_writes n).
Proof.
  destruct (make (fun _ => ""%string) (fun _ => 0) D3 (Vec.vec3 0 0 0) (Vec.vec3 1 1 1) 1 2 NO_DIRECTION "ff" false)
    as [[n pts]|] eqn:E; [|vm_compute in E; discriminate].
  exists n, pts. split; [reflexivity|].
  apply (pass_data_in_bounds _ _ _ _ _ _ _ _ _ n pts E);
    vm_compute in E; injection E as <- _; reflexivity.
Defined.

Lemma pass_data_flat_box_overflow_witness :
  exists n pts,
    make (fun _ => ""%string) (fun _ => 0) D3 (Vec.vec3 0 0 0) (Vec.vec3 0 1 1) 1 2 Y "ff" false = Ok (n, pts)
    /\ (1, 0, 0, 1, 0) ∈ pass_data_writes n /\ ~ near_in_bounds n (1, 0, 0, 1, 0).
Proof.
  destruct (make (fun _ => ""%string) (fun _ => 0) D3 (Vec.vec3 0 0 0) (Vec.vec3 0 1 1) 1 2 Y "ff" false)
    as [[n pts]|] eqn:E; [|vm_compute in E; discriminate].
  exists n, pts. split; [reflexivity|].
  apply (pass_data_flat_box_overflow _ _ _ _ _ _ _ _ _ n pts E); [reflexivity| |];
    vm_compute in E; injection E as <- _; reflexivity.
Defined.

End Nf2ff.
