(* ===== verification/ModeVolume.v ===== *)
(** * ModeVolume: the mode volume of a field in a box ([class mode_volume])

    [mode_volume] (vec.cpp) samples [Ex], [Ey], [Ez] on a box with one
    [snapshot] (constructor), then [local_calc] walks the box, averages
    each sample's DFT values, and accumulates [local_val = |E|^2 eps] into
    its maximum [max_val] and its sum [vol]; [pass_data] gathers the
    processes' [vol] and [max_val] on the master and divides the total by
    [max_val * (wavelength / n)^3 * res^3]; [output] runs the two.

    The [fields] object is not part of vec.cpp: the DFT chunks the
    snapshot registered are the section parameter [chunk] ([None] for a
    null chunk pointer, otherwise its [dft[0 .. N-1]]) and
    [fields::get_eps] the parameter [get_eps].  Doubles are rationals;
    [None] of type [option Q] is the non-finite double of [0.0 / 0.0]
    or [x / 0.0], which then propagates through sums and products. *)

From S2P Require Import Prelude Geom Coord Snapshot Derived.
Import Snapshot Derived.

Module ModeVolume.

Record mode_volume := mkmv {
  center : Vec.vec;            (* [*_center] *)
  size : Vec.vec;              (* [*_size] *)
  name : string;
  freq : Q;
  refractive_index : Q;
  resolution : Q;
  out : bool;
  snap : snapshot;             (* [*_snap] *)
  max_val : Q;
  vol : option Q
}.

Section Make.
(** [(int) ceil(pi * res / sqrt(2.0))], unused by the radius-0 snapshot. *)
Context (sphere_n0 : Q -> int).

(** [mode_volume::mode_volume(f, center, size, l, n, res, name, output)]
    with [f->v.dim = dim]: the object and the [add_dft_pt] calls its
    snapshot makes in [create()] (radius [0], so [create_dft]).  [max_val] and [vol] are left unset until
    [local_calc]; they are [0] here. *)
Definition make (dim : ndim) (ctr sz : Vec.vec) (l n resol : Q) (nm : string) (output : bool)
    : res (mode_volume * list (component * Vec.vec)) :=
  let c := Vec.vec3 (Vec.in_direction ctr X) (Vec.in_direction ctr Y) (Vec.in_direction ctr Z) in
  let s := Vec.vec3 (Vec.in_direction sz X) (Vec.in_direction sz Y) (Vec.in_direction sz Z) in
  let s0 := Snapshot.make sphere_n0 dim 3 nm c s 0 NO_DIRECTION l resol in
  let* s1 := Snapshot.add_component s0 Ex 0 in
  let* s2 := Snapshot.add_component s1 Ey 1 in
  let* s3 := Snapshot.add_component s2 Ez 2 in
  Ok (mkmv c s nm l n resol output s3 0 (Some 0%Q), create_dft s3).

End Make.

(** The local [n_car[3]] of [local_calc]: [(int) ceil(_size->x() *
    resolution + 1.0)] and likewise for y and z. *)
Definition local_ncar (mv : mode_volume) : list int :=
  [ceil_samples (Vec.in_direction (size mv) X) (resolution mv);
   ceil_samples (Vec.in_direction (size mv) Y) (resolution mv);
   ceil_samples (Vec.in_direction (size mv) Z) (resolution mv)].

Definition ncar_at (mv : mode_volume) (k : nat) : int := nth k (local_ncar mv) 1.

(** [vec(x_loc, y_loc, z_loc)]: the three conditional index choices of
    [create_dft], here applied to the indices of the unpacked loop. *)
Definition local_point (mv : mode_volume) (n0 n1 n2 : int) : Vec.vec :=
  let '(ix, iy, iz) := axis_index (local_ncar mv) n0 n1 n2 in
  let loc dd i := (Vec.in_direction (center mv) dd - Vec.in_direction (size mv) dd / 2
                   + inject_Z i / resolution mv)%Q in
  Vec.vec3 (loc X ix) (loc Y iy) (loc Z iz).

(** The loop nest [n_0 < n_car[0]], [n_1 < n_car[1]], [n_2 < n_car[2]]. *)
Definition local_points (mv : mode_volume) : list (int * int * int) :=
  flat_map (fun n0 =>
    flat_map (fun n1 => map (fun n2 => (n0, n1, n2)) (zrange 0 (ncar_at mv 2)))
      (zrange 0 (ncar_at mv 1)))
    (zrange 0 (ncar_at mv 0)).

(** The elements [_snap->_dft_chunk_array_ptr[comp][n_0][n_1][n_2]] the
    loop reads, in order. *)
Definition local_reads (mv : mode_volume) : list (int * int * int * int) :=
  flat_map (fun '(n0, n1, n2) => map (fun comp => (comp, n0, n1, n2)) (zrange 0 3)) (local_points mv).

(** An element inside what [snapshot::allocate_memory] made:
    [_dft_chunk_array_ptr[n_c][n_dims[0]][n_dims[1]][n_dims[2]]]. *)
Definition chunk_in_bounds (s : snapshot) (r : int * int * int * int) : Prop :=
  let '(comp, n0, n1, n2) := r in
  0 <= comp < n_c s /\ 0 <= n0 < dim_at s 0 /\ 0 <= n1 < dim_at s 1 /\ 0 <= n2 < dim_at s 2.

Section Values.
(** The DFT chunk registered for [(comp, n_0, n_1, n_2)] and its values. *)
Context (chunk : int -> int -> int -> int -> option (list cplx)).
(** [fields::get_eps] *)
Context (get_eps : Vec.vec -> Q).

(** [temp[comp]]: [0.0] for a null chunk, otherwise the sum of its [N]
    values divided by [N] ([None] when [N = 0]). *)
Definition dft_average (comp n0 n1 n2 : int) : option cplx :=
  match chunk comp n0 n1 n2 with
  | None => Some (0%Q, 0%Q)
  | Some l =>
      if Nat.eqb (length l) 0 then None
      else let sm := csum l in
           let nn := inject_Z (Z.of_nat (length l)) in
           Some (sm.1 / nn, sm.2 / nn)%Q
  end.

(** [local_val = (temp[0] conj(temp[0]) + ...).real() * get_eps(...)] *)
Definition local_value (mv : mode_volume) (n0 n1 n2 : int) : option Q :=
  match dft_average 0 n0 n1 n2, dft_average 1 n0 n1 n2, dft_average 2 n0 n1 n2 with
  | Some t0, Some t1, Some t2 =>
      Some ((re_conj_mul t0 t0 + re_conj_mul t1 t1 + re_conj_mul t2 t2) * get_eps (local_point mv n0 n1 n2))%Q
  | _, _, _ => None
  end.

(** One sample: [if (local_val > max_val) max_val = local_val; vol = vol
    + local_val;] (a non-finite [local_val] is not greater than
    [max_val] and makes [vol] non-finite). *)
Definition local_step (mv : mode_volume) (st : Q * option Q) (p : int * int * int) : Q * option Q :=
  let '(mx, v) := st in
  let '(n0, n1, n2) := p in
  match local_value mv n0 n1 n2 with
  | Some lv => (if Qlt_bool mx lv then lv else mx, option_map (Qplus lv) v)
  | None => (mx, None)
  end.

(** [mode_volume::local_calc()] *)
Definition local_calc (mv : mode_volume) : mode_volume :=
  let '(mx, v) := fold_left (local_step mv) (local_points mv) (0%Q, Some 0%Q) in
  mkmv (center mv) (size mv) (name mv) (freq mv) (refractive_index mv) (resolution mv) (out mv)
       (snap mv) mx v.

End Values.

(** [x / y] on doubles. *)
Definition ddiv (x : option Q) (y : Q) : option Q :=
  if Qeq_bool y 0 then None else option_map (fun a => a / y)%Q x.

(** [mode_volume::pass_data()] on the process whose state is [mv];
    [results] are the [(vol, max_val)] of processes [0 .. count_processors()
    - 1], which the master receives through [send(proc, 0, ...)]; the
    other processes keep a total of [0]. *)
Definition pass_data (master : bool) (results : list (option Q * Q)) (mv : mode_volume) : mode_volume :=
  let '(tot, mx) :=
    if master then
      fold_left (fun '(tot, mx) r =>
        (match tot, r.1 with Some a, Some b => Some (a + b)%Q | _, _ => None end,
         if Qlt_bool mx r.2 then r.2 else mx)) results (Some 0%Q, max_val mv)
    else (Some 0%Q, max_val mv) in
  let wl := (1 / freq mv / refractive_index mv)%Q in
  let r := resolution mv in
  mkmv (center mv) (size mv) (name mv) (freq mv) (refractive_index mv) (resolution mv) (out mv)
       (snap mv) mx (ddiv tot (mx * (wl * wl * wl) * (r * r * r))%Q).

(** [mode_volume::output()] without its printing and the optional
    [_snap->output()]: [local_calc()] then [pass_data()], where process
    [0] (the master) reports its own [vol] and [max_val] and [others] are
    those of processes [1 .. count_processors() - 1]. *)
Definition output (master : bool) (others : list (option Q * Q))
    (chunk : int -> int -> int -> int -> option (list cplx)) (get_eps : Vec.vec -> Q)
    (mv : mode_volume) : mode_volume :=
  let mv := local_calc chunk get_eps mv in
  pass_data master ((vol mv, max_val mv) :: others) mv.

(** ** Lemmas *)

Lemma re_conj_mul_self_nonneg (t : cplx) : (0 <= re_conj_mul t t)%Q.
Proof. unfold re_conj_mul. nra. Qed.

(** In 3D the snapshot samples the box of the local loop: three
    components, the same [n_car], and the packed [n_dims] of it. *)
Lemma make_D3_snap sphere_n0 ctr sz l n resol nm output mv pts :
  make sphere_n0 D3 ctr sz l n resol nm output = Ok (mv, pts) ->
  n_c (snap mv) = 3 /\ n_car (snap mv) = local_ncar mv
  /\ n_dims (snap mv) = (compact_dims (local_ncar mv)).2
  /\ forall n0 n1 n2, dft_point (snap mv) n0 n1 n2 = local_point mv n0 n1 n2.
Proof.
  unfold make.
  destruct (Snapshot.add_component _ Ex 0) as [s1|] eqn:E1; [|discriminate]; cbn [res_bind].
  destruct (Snapshot.add_component s1 Ey 1) as [s2|] eqn:E2; [|discriminate]; cbn [res_bind].
  destruct (Snapshot.add_component s2 Ez 2) as [s3|] eqn:E3; [|discriminate]; cbn [res_bind].
  intros [= <- _]; cbn [snap].
  unfold Snapshot.add_component in E1, E2, E3.
  destruct (_ && _) in E1; [|discriminate]. injection E1 as <-.
  destruct (_ && _) in E2; [|discriminate]. injection E2 as <-.
  destruct (_ && _) in E3; [|discriminate]. injection E3 as <-.
  rewrite make_radius0. repeat split; reflexivity.
Qed.

Lemma local_ncar_at mv : local_ncar mv = [ncar_at mv 0; ncar_at mv 1; ncar_at mv 2].
Proof. reflexivity. Qed.

(** The reads of the loop are the whole box [3 x n_car]. *)
Lemma local_reads_forall mv (P : int * int * int * int -> Prop) :
  Forall P (local_reads mv) <->
  (forall comp n0 n1 n2, 0 <= comp < 3 -> 0 <= n0 < ncar_at mv 0 -> 0 <= n1 < ncar_at mv 1 ->
     0 <= n2 < ncar_at mv 2 -> P (comp, n0, n1, n2)).
Proof.
  rewrite List.Forall_forall. unfold local_reads, local_points. split.
  - intros H comp n0 n1 n2 Hc H0 H1 H2. apply H, in_flat_map. exists (n0, n1, n2). split.
    + apply in_flat_map. exists n0. split; [apply in_zrange; lia|].
      apply in_flat_map. exists n1. split; [apply in_zrange; lia|].
      apply in_map_iff. exists n2. split; [reflexivity|apply in_zrange; lia].
    + apply in_map_iff. exists comp. split; [reflexivity|apply in_zrange; lia].
  - intros H r Hr. apply in_flat_map in Hr as ([[n0 n1] n2] & Hp & Hr).
    apply in_map_iff in Hr as (comp & <- & Hc).
    apply in_flat_map in Hp as (x & Hx & Hp). apply in_flat_map in Hp as (y & Hy & Hp).
    apply in_map_iff in Hp as (z & [= -> -> ->] & Hz).
    apply in_zrange in Hx, Hy, Hz, Hc. apply H; lia.
Qed.

(** A box [a x b x c] fits in the packed box of its counts exactly when
    packing leaves the counts in place. *)
Lemma box_fits_compact a b c :
  1 <= a -> 1 <= b -> 1 <= c ->
  let dims := (compact_dims [a; b; c]).2 in
  (a <= nth 0 dims 1 /\ b <= nth 1 dims 1 /\ c <= nth 2 dims 1) <-> dims = [a; b; c].
Proof.
  intros Ha Hb Hc dims. subst dims. unfold compact_dims, compact, compact_step.
  one_or_more a; one_or_more b; one_or_more c; do 3 (simpl; zcmp_simpl);
    (split; [intros (? & ? & ?); repeat f_equal; lia|intros Heq; simpl; (injection Heq; intros; lia) || lia]).
Qed.

(** C25. In 3D, [local_calc] reads the element
    [_dft_chunk_array_ptr[comp][n_0][n_1][n_2]] for every [comp < 3] and
    every [(n_0, n_1, n_2)] of the unpacked [n_car] box, while the array
    has the packed shape [n_dims] of the snapshot.  All those reads are
    inside the allocation exactly when packing leaves [n_car] in place,
    that is when no axis of one sample comes before an axis of more;
    and the chunk read at [(n_0, n_1, n_2)] is the one [create_dft]
    registered at the very point where [local_calc] evaluates [eps]. *)
Theorem local_calc_reads_snapshot sphere_n0 ctr sz l n resol nm output mv pts :
  make sphere_n0 D3 ctr sz l n resol nm output = Ok (mv, pts) ->
  1 <= ncar_at mv 0 -> 1 <= ncar_at mv 1 -> 1 <= ncar_at mv 2 ->
  (Forall (chunk_in_bounds (snap mv)) (local_reads mv) <-> (compact_dims (local_ncar mv)).2 = local_ncar mv)
  /\ forall n0 n1 n2, dft_point (snap mv) n0 n1 n2 = local_point mv n0 n1 n2.
Proof.
  intros HE H0 H1 H2. destruct (make_D3_snap _ _ _ _ _ _ _ _ _ _ HE) as (Hc & _ & Hdims & Hpt).
  split; [|exact Hpt].
  rewrite local_reads_forall. unfold chunk_in_bounds, dim_at. rewrite Hc, Hdims, local_ncar_at.
  rewrite <- (box_fits_compact _ _ _ H0 H1 H2). split.
  - intros H. destruct (H 0 (ncar_at mv 0 - 1) (ncar_at mv 1 - 1) (ncar_at mv 2 - 1)) as (_ & ? & ? & ?); lia.
  - intros (? & ? & ?) comp n0 n1 n2 ? ? ? ?. lia.
Qed.

Section Bounds.
Context (chunk : int -> int -> int -> int -> option (list cplx)) (get_eps : Vec.vec -> Q).
(** A chunk that exists holds at least one DFT value, and [eps >= 0]. *)
Hypothesis chunk_nonempty : forall comp n0 n1 n2 l, chunk comp n0 n1 n2 = Some l -> l <> [].
Hypothesis eps_nonneg : forall p, (0 <= get_eps p)%Q.

Lemma dft_average_some comp n0 n1 n2 : exists t, dft_average chunk comp n0 n1 n2 = Some t.
Proof.
  unfold dft_average. destruct (chunk comp n0 n1 n2) as [l|] eqn:E; [|eexists; reflexivity].
  apply chunk_nonempty in E. destruct l as [|x l]; [congruence|]. eexists. reflexivity.
Qed.

Lemma local_value_nonneg mv n0 n1 n2 :
  exists lv, local_value chunk get_eps mv n0 n1 n2 = Some lv /\ (0 <= lv)%Q.
Proof.
  unfold local_value.
  destruct (dft_average_some 0 n0 n1 n2) as [t0 ->], (dft_average_some 1 n0 n1 n2) as [t1 ->],
    (dft_average_some 2 n0 n1 n2) as [t2 ->].
  eexists. split; [reflexivity|].
  pose proof (re_conj_mul_self_nonneg t0). pose proof (re_conj_mul_self_nonneg t1).
  pose proof (re_conj_mul_self_nonneg t2). pose proof (eps_nonneg (local_point mv n0 n1 n2)).
  apply Qmult_le_0_compat; lra.
Qed.

(** After [k] samples, [0 <= vol <= k * max_val]. *)
Lemma local_fold_bounds mv ps (k : nat) mx v :
  (0 <= mx)%Q -> (0 <= v <= inject_Z (Z.of_nat k) * mx)%Q ->
  exists mx' v', fold_left (local_step chunk get_eps mv) ps (mx, Some v) = (mx', Some v')
    /\ (0 <= mx')%Q /\ (0 <= v' <= inject_Z (Z.of_nat (k + length ps)) * mx')%Q.
Proof.
  revert k mx v. induction ps as [|[[n0 n1] n2] ps IH]; intros k mx v Hmx Hv.
  - exists mx, v. rewrite Nat.add_0_r. auto.
  - simpl. destruct (local_value_nonneg mv n0 n1 n2) as (lv & -> & Hlv).
    replace (k + S (length ps))%nat with (S k + length ps)%nat by lia. apply IH.
    + destruct (Qlt_bool mx lv); lra.
    + rewrite Nat2Z.inj_succ, <- Z.add_1_r, inject_Z_plus. cbn [option_map].
      assert (Hk : (0 <= inject_Z (Z.of_nat k))%Q) by (change 0%Q with (inject_Z 0); rewrite <- Zle_Qle; lia).
      destruct (Qlt_bool mx lv) eqn:E.
      * apply Qlt_bool_iff in E. split; [lra|]. change (inject_Z 1) with 1%Q. nra.
      * assert (lv <= mx)%Q by (apply Qnot_lt_le; intros H; apply Qlt_bool_iff in H; congruence).
        split; [lra|]. change (inject_Z 1) with 1%Q. nra.
Qed.

(** When every non-null DFT chunk holds a value and [eps >= 0],
    [local_calc] ends with [0 <= vol <= (number of samples) * max_val]. *)
Lemma local_calc_bounds mv :
  let mv' := local_calc chunk get_eps mv in
  exists v, vol mv' = Some v /\ (0 <= max_val mv')%Q
    /\ (0 <= v <= inject_Z (Z.of_nat (length (local_points mv))) * max_val mv')%Q.
Proof.
  destruct (local_fold_bounds mv (local_points mv) 0 0 0) as (mx & v & Hf & Hmx & Hv);
    [lra|simpl; lra|].
  unfold local_calc. rewrite Hf. exists v. auto.
Qed.

End Bounds.

(** The master's gathering loop keeps [0 <= tot <= (K + sum of caps) * mx]
    when every process reports [0 <= vol_p <= k_p * max_p]. *)
Lemma master_fold_bounds results ks t mx (K : Q) :
  Forall2 (fun r k => (0 <= k)%Q /\ exists v, r.1 = Some v /\ (0 <= r.2)%Q /\ (0 <= v <= k * r.2)%Q)
    results ks ->
  (0 <= mx)%Q -> (0 <= K)%Q -> (0 <= t <= K * mx)%Q ->
  exists t' mx',
    fold_left (fun '(tot, mx) r =>
        (match tot, r.1 with Some a, Some b => Some (a + b)%Q | _, _ => None end,
         if Qlt_bool mx r.2 then r.2 else mx)) results (Some t, mx) = (Some t', mx')
    /\ (0 <= mx')%Q /\ (mx <= mx')%Q /\ (0 <= t' <= (K + fold_right Qplus 0 ks) * mx')%Q.
Proof.
  intros Hall. revert t mx K.
  induction Hall as [|[ov m] k results ks (Hk & v & Hv & Hm & Hvb) _ IH]; intros t mx K Hmx HK Ht.
  - exists t, mx. simpl. split; [reflexivity|]. rewrite Qplus_0_r. lra.
  - simpl in Hv, Hm, Hvb |- *. subst ov.
    destruct (IH (t + v)%Q (if Qlt_bool mx m then m else mx) (K + k)%Q) as (t' & mx' & Hf & H1 & H2 & H3).
    + destruct (Qlt_bool mx m); lra.
    + lra.
    + destruct (Qlt_bool mx m) eqn:E.
      * apply Qlt_bool_iff in E. nra.
      * assert (m <= mx)%Q by (apply Qnot_lt_le; intros H; apply Qlt_bool_iff in H; congruence). nra.
    + exists t', mx'. split; [exact Hf|]. split; [exact H1|].
      split; [destruct (Qlt_bool mx m) eqn:E; [apply Qlt_bool_iff in E|]; lra|].
      simpl. lra.
Qed.

Lemma unit_volume_pos f n r : (0 < f)%Q -> (0 < n)%Q -> (0 < r)%Q ->
  (0 < (1 / f / n) * (1 / f / n) * (1 / f / n) * (r * r * r))%Q.
Proof.
  intros Hf Hn Hr.
  assert (0 < 1 / f / n)%Q.
  { unfold Qdiv. apply Qmult_lt_0_compat; [|apply Qinv_lt_0_compat; lra].
    apply Qmult_lt_0_compat; [reflexivity|apply Qinv_lt_0_compat; lra]. }
  apply Qmult_lt_0_compat; [apply Qmult_lt_0_compat; [apply Qmult_lt_0_compat|]|apply Qmult_lt_0_compat; [apply Qmult_lt_0_compat|]]; assumption.
Qed.

(** The master's division: non-finite when the overall maximum is [0],
    otherwise at most the reported caps in units of a cell. *)
Lemma pass_data_master_bounds results ks mv :
  Forall2 (fun r k => (0 <= k)%Q /\ exists v, r.1 = Some v /\ (0 <= r.2)%Q /\ (0 <= v <= k * r.2)%Q)
    results ks ->
  (0 <= max_val mv)%Q -> (0 < freq mv)%Q -> (0 < refractive_index mv)%Q -> (0 < resolution mv)%Q ->
  let mv' := pass_data true results mv in
  let wl := (1 / freq mv / refractive_index mv)%Q in
  let u := (wl * wl * wl * (resolution mv * resolution mv * resolution mv))%Q in
  ((max_val mv' == 0)%Q -> vol mv' = None)
  /\ ((0 < max_val mv')%Q -> exists V, vol mv' = Some V /\ (0 <= V * u <= fold_right Qplus 0 ks)%Q).
Proof.
  intros Hall Hm Hf Hn Hr mv' wl u.
  destruct (master_fold_bounds results ks 0 (max_val mv) 0 Hall Hm) as (t & mx & Hfold & Hmx & _ & Ht);
    [lra|lra|].
  pose proof (unit_volume_pos _ _ _ Hf Hn Hr) as Hu. fold wl u in Hu.
  subst mv'. unfold pass_data. rewrite Hfold. cbn [max_val vol]. unfold ddiv. fold wl. split.
  - intros Hz. rewrite (proj2 (Qeq_bool_iff _ _)); [reflexivity|]. rewrite Hz. ring.
  - intros Hp. assert (Hd : (0 < mx * u)%Q) by (apply Qmult_lt_0_compat; assumption).
    destruct (Qeq_bool _ 0) eqn:E.
    { exfalso. apply Qeq_bool_iff in E. subst u. lra. }
    eexists. split; [reflexivity|].
    assert (Hwl : ~ (wl == 0)%Q) by (intros Hw; subst u; rewrite Hw in Hu; lra).
    assert (Heq : (t / (mx * (wl * wl * wl) * (resolution mv * resolution mv * resolution mv)) * u
                   == t / mx)%Q) by (subst u; field; repeat split; lra).
    rewrite Heq.
    split; [apply Qle_shift_div_l|apply Qle_shift_div_r]; lra.
Qed.

Lemma local_calc_fields chunk get_eps mv :
  let mv' := local_calc chunk get_eps mv in
  freq mv' = freq mv /\ refractive_index mv' = refractive_index mv /\ resolution mv' = resolution mv.
Proof. unfold local_calc. destruct (fold_left _ _ _). auto. Qed.

Lemma in_local_points mv n0 n1 n2 :
  In (n0, n1, n2) (local_points mv) <->
  0 <= n0 < ncar_at mv 0 /\ 0 <= n1 < ncar_at mv 1 /\ 0 <= n2 < ncar_at mv 2.
Proof.
  unfold local_points. rewrite in_flat_map. split.
  - intros (x & Hx & Hp). apply in_flat_map in Hp as (y & Hy & Hp).
    apply in_map_iff in Hp as (z & [= -> -> ->] & Hz). apply in_zrange in Hx, Hy, Hz. lia.
  - intros (H0 & H1 & H2). exists n0. split; [apply in_zrange; lia|].
    apply in_flat_map. exists n1. split; [apply in_zrange; lia|].
    apply in_map_iff. exists n2. split; [reflexivity|apply in_zrange; lia].
Qed.

Section Nan.
Context (chunk : int -> int -> int -> int -> option (list cplx)) (get_eps : Vec.vec -> Q).

(** A non-finite sum stays non-finite. *)
Lemma local_fold_none mv ps mx :
  (fold_left (local_step chunk get_eps mv) ps (mx, None)).2 = None.
Proof.
  revert mx. induction ps as [|[[n0 n1] n2] ps IH]; intros mx; [reflexivity|].
  simpl. destruct (local_value chunk get_eps mv n0 n1 n2); apply IH.
Qed.

Lemma local_fold_hits_none mv ps st n0 n1 n2 :
  In (n0, n1, n2) ps -> local_value chunk get_eps mv n0 n1 n2 = None ->
  (fold_left (local_step chunk get_eps mv) ps st).2 = None.
Proof.
  revert st. induction ps as [|[[m0 m1] m2] ps IH]; intros [mx v] Hin Hnone; [destruct Hin|].
  destruct Hin as [[= -> -> ->]|Hin].
  - simpl. rewrite Hnone. apply local_fold_none.
  - apply IH; assumption.
Qed.

Lemma local_value_empty mv comp n0 n1 n2 :
  0 <= comp < 3 -> chunk comp n0 n1 n2 = Some [] -> local_value chunk get_eps mv n0 n1 n2 = None.
Proof.
  intros Hc He. unfold local_value.
  assert (dft_average chunk comp n0 n1 n2 = None) as Hd by (unfold dft_average; rewrite He; reflexivity).
  assert (comp = 0 \/ comp = 1 \/ comp = 2) as [ -> | [ -> | -> ] ] by lia;
    destruct (dft_average chunk 0 n0 n1 n2), (dft_average chunk 1 n0 n1 n2), (dft_average chunk 2 n0 n1 n2);
    congruence.
Qed.

(** C31. A DFT chunk of the box that is not null but holds no values
    ([N = 0]) makes [temp[comp] = 0.0 / 0.0] in [local_calc]: the volume
    sum of the process is then non-finite, whatever the other samples
    hold. *)
Theorem local_calc_empty_chunk_nan mv comp n0 n1 n2 :
  0 <= comp < 3 -> 0 <= n0 < ncar_at mv 0 -> 0 <= n1 < ncar_at mv 1 -> 0 <= n2 < ncar_at mv 2 ->
  chunk comp n0 n1 n2 = Some [] ->
  vol (local_calc chunk get_eps mv) = None.
Proof.
  intros Hc H0 H1 H2 He. unfold local_calc.
  pose proof (local_fold_hits_none mv (local_points mv) (0%Q, Some 0%Q) n0 n1 n2
    (proj2 (in_local_points mv n0 n1 n2) (conj H0 (conj H1 H2))) (local_value_empty mv comp n0 n1 n2 Hc He)).
  destruct (fold_left _ _ _) as [mx v]. exact H.
Qed.

End Nan.

(** C28. [output()] on the master: when every non-null DFT chunk holds
    a value, [eps >= 0], every other process reports a finite [0 <=
    vol_p <= k_p * max_p] with [max_p >= 0] (which [local_calc] gives
    there with [k_p] its number of samples), and frequency, refractive
    index and resolution are positive, the mode volume is non-finite (a
    division [0.0 / 0.0]) when the overall maximum of [|E|^2 eps] is
    [0], and otherwise a value [V] with [0 <= V * (wavelength / n)^3 *
    res^3 <=] the number of samples of all processes: at most the
    sampled box in units of a cell. *)
Theorem output_mode_volume_bounds chunk get_eps others ks mv :
  (forall comp n0 n1 n2 l, chunk comp n0 n1 n2 = Some l -> l <> []) ->
  (forall p, (0 <= get_eps p)%Q) ->
  Forall2 (fun r k => (0 <= k)%Q /\ exists v, r.1 = Some v /\ (0 <= r.2)%Q /\ (0 <= v <= k * r.2)%Q)
    others ks ->
  (0 < freq mv)%Q -> (0 < refractive_index mv)%Q -> (0 < resolution mv)%Q ->
  let mv' := output true others chunk get_eps mv in
  let wl := (1 / freq mv / refractive_index mv)%Q in
  let u := (wl * wl * wl * (resolution mv * resolution mv * resolution mv))%Q in
  ((max_val mv' == 0)%Q -> vol mv' = None)
  /\ ((0 < max_val mv')%Q -> exists V, vol mv' = Some V /\
        (0 <= V * u <= inject_Z (Z.of_nat (length (local_points mv))) + fold_right Qplus 0 ks)%Q).
Proof.
  intros Hne Heps Hall Hf Hn Hr mv' wl u. subst mv'. unfold output.
  destruct (local_calc_bounds chunk get_eps Hne Heps mv) as (v & Hv & Hm & Hb).
  destruct (local_calc_fields chunk get_eps mv) as (Ef & En & Er).
  subst wl u. rewrite <- Ef, <- En, <- Er.
  apply (pass_data_master_bounds _ (inject_Z (Z.of_nat (length (local_points mv))) :: ks));
    [|assumption|congruence ..].
  constructor; [|exact Hall]. split.
  - change 0%Q with (inject_Z 0). rewrite <- Zle_Qle. lia.
  - exists v. auto.
Qed.

(** ** Witnesses *)

(** A cube of side 1 at resolution 1 is read inside the allocation; a
    box flat in x ([n_car = (1, 3, 3)], packed to [(3, 3, 1)]) is not. *)
Lemma local_calc_reads_snapshot_witness :
  match make (fun _ => 0) D3 (Vec.vec3 0 0 0) (Vec.vec3 1 1 1) 1 1 1 ""%string false with
  | Ok (mv, _) => Forall (chunk_in_bounds (snap mv)) (local_reads mv)
  | Fatal _ => False
  end
  /\ match make (fun _ => 0) D3 (Vec.vec3 0 0 0) (Vec.vec3 0 1 1) 1 1 2 ""%string false with
  | Ok (mv, _) => ~ Forall (chunk_in_bounds (snap mv)) (local_reads mv)
  | Fatal _ => False
  end.
Proof.
  split.
  - destruct (make _ D3 _ (Vec.vec3 1 1 1) _ _ _ _ _) as [[mv pts]|f] eqn:E;
      [|vm_compute in E; discriminate].
    pose proof E as E'. vm_compute in E'. injection E' as <- _.
    apply (local_calc_reads_snapshot _ _ _ _ _ _ _ _ _ _ E);
      [vm_compute; discriminate .. | vm_compute; reflexivity].
  - destruct (make _ D3 _ (Vec.vec3 0 1 1) _ _ _ _ _) as [[mv pts]|f] eqn:E;
      [|vm_compute in E; discriminate].
    pose proof E as E'. vm_compute in E'. injection E' as <- _.
    rewrite (proj1 (local_calc_reads_snapshot _ _ _ _ _ _ _ _ _ _ E ltac:(vm_compute; discriminate)
      ltac:(vm_compute; discriminate) ltac:(vm_compute; discriminate))).
    vm_compute. discriminate.
Defined.

(** A cube of side 1 at resolution 1 has 8 samples; chunks of one
    value [1] and [eps = 1] everywhere, one other process. *)
Lemma output_mode_volume_bounds_witness :
  let mv := mkmv (Vec.vec3 0 0 0) (Vec.vec3 1 1 1) ""%string 1 1 1 false
       (Snapshot.make (fun _ => 0) D3 3 ""%string (Vec.vec3 0 0 0) (Vec.vec3 1 1 1) 0 NO_DIRECTION 1 1)
       0 (Some 0%Q) in
  let mv' := output true [(Some 2%Q, 1%Q)] (fun _ _ _ _ => Some [(1%Q, 0%Q)]) (fun _ => 1%Q) mv in
  ((max_val mv' == 0)%Q -> vol mv' = None)
  /\ ((0 < max_val mv')%Q -> exists V, vol mv' = Some V /\
        (0 <= V * ((1 / 1 / 1) * (1 / 1 / 1) * (1 / 1 / 1) * (1 * 1 * 1)) <= 8 + fold_right Qplus 0 [2%Q])%Q).
Proof.
  apply (output_mode_volume_bounds _ _ _ [2%Q]).
  - intros ? ? ? ? l [= <-]. discriminate.
  - intros. lra.
  - repeat constructor; try lra. eexists. split; [reflexivity|simpl; lra].
  - reflexivity.
  - reflexivity.
  - reflexivity.
Defined.

(** Chunk [(0, 0, 0, 0)] of the cube is empty. *)
Lemma local_calc_empty_chunk_nan_witness :
  vol (local_calc (fun comp n0 n1 n2 => if (comp =? 0) && (n0 =? 0) && (n1 =? 0) && (n2 =? 0)
                                         then Some [] else Some [(1%Q, 0%Q)]) (fun _ => 1%Q)
         (mkmv (Vec.vec3 0 0 0) (Vec.vec3 1 1 1) ""%string 1 1 1 false
            (Snapshot.make (fun _ => 0) D3 3 ""%string (Vec.vec3 0 0 0) (Vec.vec3 1 1 1) 0 NO_DIRECTION 1 1)
            0 (Some 0%Q))) = None.
Proof.
  apply (local_calc_empty_chunk_nan _ _ _ 0 0 0 0);
    [lia|split; [lia|vm_compute; reflexivity] ..|reflexivity].
Defined.

End ModeVolume.
