(* ===== verification/Split.v ===== *)
(** * Split: domain decomposition of a [grid_volume]

    [split_at_fraction] cuts the longest entry of [num] in two;
    [split(n, which)] recursively bisects the grid into [n] parts and
    returns part [which].  The recursion is not structural (it recurses
    on a smaller grid): [split_fuel] takes fuel, and [split_fuel_total]
    shows that the fuel [split_bound gv] (one plus the sum of the extents)
    is never exhausted, since every cut shrinks that sum.  The double
    arithmetic of the cut points is exact rational arithmetic on small
    integers followed by the C++ truncation [c_int].

    The invariant [split_inv] (well formed; unread entries of [num] at
    most 1; non-negative [r] origin in cylindrical coordinates) is kept
    by every cut.  The theorems: [split] is total for
    [0 <= which < n <= nowned_min()] (C3), its parts partition the owned
    lattice points (C1) and conserve the owned-point count (C2).  Both
    sums over the parts come from one generic lemma ([part_sum_bounded],
    a section over a measure additive on one cut). *)

From S2P Require Import Prelude Geom Coord Volume GridVolume.
Import GridVolume.

Module Split.

(** The longest axis: [for (i=0;i<3;i++) if (num[i] > bestlen) ...],
    starting from [bestd = -1, bestlen = 1]. *)
Definition best_axis (gv : grid_volume) : int * int :=
  fold_left (fun '(bestd, bestlen) i => if bestlen <? num gv i then (i, num gv i) else (bestd, bestlen))
    [0; 1; 2] (-1, 1).

(** [retval.num[i] = num[i]] for the three entries, without [num_changed]. *)
Definition copy_num (r gv : grid_volume) : grid_volume :=
  set_num_raw (set_num_raw (set_num_raw r 0 (num gv 0)) 1 (num gv 1)) 2 (num gv 2).

(** [direction d = (direction) bestd; if (dim == Dcyl && d == X) d = R;] *)
Definition split_dir (gv : grid_volume) (bestd : int) : direction :=
  let d := dir_of_int bestd in
  if bool_decide (dim gv = Dcyl /\ d = X) then R else d.

Definition split_at_fraction (gv : grid_volume) (want_high : bool) (numer : int) : res grid_volume :=
  let '(bestd, bestlen) := best_axis gv in
  if bestd =? -1 then Fatal (Abort "Crazy weird splitting error.")
  else
    let retval := copy_num (make (dim gv) (a gv) 1 1 1) gv in
    if num gv bestd <=? numer then Fatal (Abort "Aaack bad bug in split_at_fraction.")
    else
      let d := split_dir gv bestd in
      let retval := set_origin retval (io gv) in
      let retval := if want_high then shift_origin retval d (numer * 2) else retval in
      let retval := set_num_raw retval bestd
                      (if want_high then num retval bestd - numer else numer) in
      Ok (num_changed retval).

(** [biglen]: the largest of the three entries of [num], from 0. *)
Definition biglen_of (gv : grid_volume) : int :=
  fold_left (fun biglen i => if biglen <? num gv i then num gv i else biglen) [0; 1; 2] 0.

(** The cut of [split]: [(int)(biglen*(n/2)/(double)n + 0.5)] and the
    number of parts on the low side [(int)(split_point*n/(double)biglen + 0.5)]. *)
Definition split_point_of (biglen n : int) : int :=
  c_int (inject_Z (biglen * Z.quot n 2) / inject_Z n + (1#2))%Q.
Definition num_low_of (split_point n biglen : int) : int :=
  c_int (inject_Z (split_point * n) / inject_Z biglen + (1#2))%Q.

Fixpoint split_fuel (fuel : nat) (gv : grid_volume) (n which : int) : option (res grid_volume) :=
  match fuel with
  | O => None
  | S fuel' =>
      if nowned_min gv <? n then Some (Fatal (Abort "Cannot split grid points into parts"))
      else if n =? 1 then Some (Ok gv)
      else
        let biglen := biglen_of gv in
        let split_point := split_point_of biglen n in
        let num_low := num_low_of split_point n biglen in
        if which <? num_low then
          match split_at_fraction gv false split_point with
          | Ok g => split_fuel fuel' g num_low which
          | Fatal e => Some (Fatal e)
          end
        else
          match split_at_fraction gv true split_point with
          | Ok g => split_fuel fuel' g (n - num_low) (which - num_low)
          | Fatal e => Some (Fatal e)
          end
  end.

(** Each level of the recursion strictly shrinks the sum of the extents. *)
Definition split_bound (gv : grid_volume) : nat :=
  S (Z.to_nat (num0 gv) + Z.to_nat (num1 gv) + Z.to_nat (num2 gv)).

(** [grid_volume::split(n, which)].  [split_fuel_enough] shows the
    [Fatal (Abort "fuel")] branch is never taken for [0 <= which < n]. *)
Definition split (gv : grid_volume) (n which : int) : res grid_volume :=
  match split_fuel (split_bound gv) gv n which with
  | Some r => r
  | None => Fatal (Abort "fuel")
  end.

(** The sum of [mu] over the [n] parts [split gv n 0] ... [split gv n (n-1)]. *)
Definition part_sum (mu : grid_volume -> int) (gv : grid_volume) (n : int) : int :=
  sumZ (fun w => match split gv n w with Ok g => mu g | Fatal _ => 0 end) (Z.to_nat n) 0.

(** ** The splitter's invariant

    The splitter relies on three facts about its input, which the
    constructors [volone] ... [volcyl] establish and [split_at_fraction]
    keeps: the descriptor is well formed; an entry of [num] that no active
    direction reads is at most 1 (so the longest axis is an active one);
    a cylindrical grid does not start at negative [r]. *)
Definition is_active_index (dim : ndim) (i : int) : bool :=
  existsb (fun d => Z.eqb (num_index d) i) (loop_dirs dim).

Definition inactive_ok (gv : grid_volume) : Prop :=
  forall i, In i [0; 1; 2] -> is_active_index (dim gv) i = false -> num gv i <= 1.

Definition cyl_ok (gv : grid_volume) : Prop :=
  dim gv = Dcyl -> 0 <= IVec.in_direction (io gv) R.

Definition split_inv (gv : grid_volume) : Prop := wf gv /\ inactive_ok gv /\ cyl_ok gv.

(** The product of the extents off the cut axis. *)
Definition rest_prod (gv : grid_volume) : int :=
  let d := split_dir gv (fst (best_axis gv)) in
  prod_over (num_direction gv) (remove (decide_rel eq) d (loop_dirs (dim gv))).

(** ** Arithmetic of the cut *)

Lemma split_point_eq (biglen n : int) :
  0 <= biglen -> 0 < n -> split_point_of biglen n = (2 * (biglen * (n / 2)) + n) / (2 * n).
Proof.
  intros Hb Hn. unfold split_point_of. rewrite quot_nonneg by lia.
  apply qround_div; [apply Z.mul_nonneg_nonneg; [lia|apply Z.div_pos; lia]|lia].
Qed.

Lemma num_low_eq (sp n b : int) :
  0 <= sp -> 0 <= n -> 0 < b -> num_low_of sp n b = (2 * (sp * n) + b) / (2 * b).
Proof. intros. unfold num_low_of. apply qround_div; [apply Z.mul_nonneg_nonneg|]; lia. Qed.

(** The cut is strictly inside the longest axis. *)
Lemma split_point_bounds (b n : int) :
  2 <= b -> 2 <= n -> 1 <= split_point_of b n < b.
Proof.
  intros Hb Hn. rewrite split_point_eq by lia.
  assert (0 <= n / 2 /\ 2 * (n / 2) <= n /\ n <= 2 * (n / 2) + 1) as (H1 & H2 & H3)
    by (Z.div_mod_to_equations; lia).
  split.
  - apply Z.div_le_lower_bound; nia.
  - apply Z.div_lt_upper_bound; nia.
Qed.

(** Both sides of the cut receive no more parts than they own points. *)
Lemma num_low_bounds (sp n b Pr : int) :
  0 <= sp <= b -> 1 <= b -> 0 <= Pr -> 0 <= n <= b * Pr ->
  0 <= num_low_of sp n b <= sp * Pr /\ n - num_low_of sp n b <= (b - sp) * Pr.
Proof.
  intros Hsp Hb HP Hn. rewrite num_low_eq by lia.
  split; [split|].
  - apply Z.div_pos; nia.
  - apply Z.lt_succ_r, Z.div_lt_upper_bound; nia.
  - cut (n - (b - sp) * Pr <= (2 * (sp * n) + b) / (2 * b)); [lia|].
    apply Z.div_le_lower_bound; nia.
Qed.

(** The cut hands at least one part to each side. *)
Lemma num_low_range (b n : int) :
  2 <= b -> 2 <= n -> 1 <= num_low_of (split_point_of b n) n b <= n - 1.
Proof.
  intros Hb Hn. pose proof (split_point_bounds b n Hb Hn) as Hsp.
  rewrite num_low_eq by lia. rewrite split_point_eq in * by lia.
  set (sp := (2 * (b * (n / 2)) + n) / (2 * n)) in *.
  assert (2 * (n / 2) <= n <= 2 * (n / 2) + 1) by (Z.div_mod_to_equations; lia).
  assert (2 * n * sp <= 2 * (b * (n / 2)) + n < 2 * n * sp + 2 * n)
    by (unfold sp; Z.div_mod_to_equations; lia).
  split.
  - apply Z.div_le_lower_bound; nia.
  - apply Z.lt_succ_r, Z.div_lt_upper_bound; nia.
Qed.

(** ** The longest axis *)

Lemma best_axis_spec gv :
  let '(bd, bl) := best_axis gv in
  (bd = -1 /\ num gv 0 <= 1 /\ num gv 1 <= 1 /\ num gv 2 <= 1)
  \/ ((bd = 0 \/ bd = 1 \/ bd = 2) /\ bl = num gv bd /\ 1 < bl
      /\ num gv 0 <= bl /\ num gv 1 <= bl /\ num gv 2 <= bl /\ biglen_of gv = bl).
Proof.
  unfold best_axis, biglen_of, num. simpl.
  repeat (match goal with
          | |- context [?x <? ?y] => destruct (Z.ltb_spec x y)
          | H : context [?x <? ?y] |- _ => destruct (Z.ltb_spec x y)
          end; simpl in * ); lia.
Qed.

(** ** What [split_at_fraction] returns *)

Lemma split_at_fraction_spec gv want numer g :
  split_at_fraction gv want numer = Ok g ->
  exists bd, fst (best_axis gv) = bd /\ (bd = 0 \/ bd = 1 \/ bd = 2) /\ numer < num gv bd /\
    1 < num gv bd /\ biglen_of gv = num gv bd /\
    dim g = dim gv /\ a g = a gv /\ inva g = (/ a gv)%Q /\ caches_ok g /\ origin_ok g /\
    num g bd = (if want then num gv bd - numer else numer) /\
    (forall i, In i [0; 1; 2] -> i <> bd -> num g i = num gv i) /\
    io g = (if want then IVec.set_direction (io gv) (split_dir gv bd)
                           (IVec.in_direction (io gv) (split_dir gv bd) + numer * 2)
            else io gv).
Proof.
  unfold split_at_fraction. pose proof (best_axis_spec gv) as Hb.
  destruct (best_axis gv) as [bd bl]. simpl.
  destruct (Z.eqb_spec bd (-1)); [discriminate|].
  destruct (Z.leb_spec (num gv bd) numer); [discriminate|].
  intros Hok; injection Hok as <-. exists bd.
  destruct Hb as [Hb|[Hbd Hbl]]; [lia|].
  split; [reflexivity|]. split; [exact Hbd|]. split; [lia|]. split; [lia|]. split; [lia|].
  destruct want; destruct Hbd as [ -> | [ -> | -> ] ];
    (split; [reflexivity|]); (split; [reflexivity|]); (split; [reflexivity|]);
    (split; [apply caches_ok_num_changed|]); (split; [auto with meep|]);
    (split; [reflexivity|]); (split; [|reflexivity]);
    intros i Hi Hne; destruct Hi as [ <- | [ <- | [ <- | [] ] ] ];
    solve [reflexivity | contradiction Hne; reflexivity].
Qed.

Lemma split_at_fraction_ok gv want numer :
  fst (best_axis gv) <> -1 -> numer < num gv (fst (best_axis gv)) ->
  exists g, split_at_fraction gv want numer = Ok g.
Proof.
  unfold split_at_fraction. destruct (best_axis gv) as [bd bl]. simpl. intros H1 H2.
  destruct (Z.eqb_spec bd (-1)); [contradiction|].
  destruct (Z.leb_spec (num gv bd) numer); [lia|]. eexists. reflexivity.
Qed.

(** ** The cut axis *)

(** On a grid whose unread entries are at most 1, an entry longer than 1
    belongs to an active direction, the one [split_dir] picks. *)
Lemma split_dir_active gv bd :
  inactive_ok gv -> (bd = 0 \/ bd = 1 \/ bd = 2) -> 1 < num gv bd ->
  In (split_dir gv bd) (loop_dirs (dim gv)) /\ num_index (split_dir gv bd) = bd.
Proof.
  intros Hin Hbd Hlong. unfold split_dir.
  destruct (dim gv) eqn:E; destruct Hbd as [ -> | [ -> | -> ] ];
    try (exfalso; match goal with H : 1 < num gv ?b |- _ =>
           specialize (Hin b ltac:(simpl; tauto)) end;
         rewrite E in Hin; specialize (Hin eq_refl); lia);
    vm_compute; (split; [tauto|reflexivity]).
Qed.

Lemma num_direction_of gv g bd v d :
  num g bd = v -> (forall i, In i [0; 1; 2] -> i <> bd -> num g i = num gv i) ->
  num_direction g d = if Z.eqb (num_index d) bd then v else num_direction gv d.
Proof.
  intros Hbd Hoth. unfold num_direction.
  destruct (Z.eqb_spec (num_index d) bd) as [->|Hne]; [exact Hbd|].
  apply Hoth; [apply num_index_range|exact Hne].
Qed.

(** ** [split_at_fraction] keeps the invariant and cuts one axis *)

Lemma split_at_fraction_inv gv want numer g :
  split_inv gv -> 0 <= numer -> split_at_fraction gv want numer = Ok g -> split_inv g.
Proof.
  intros (Hwf & Hin & Hcyl) Hn Hg.
  destruct (split_at_fraction_spec _ _ _ _ Hg) as
    (bd & _ & Hbd & Hlt & Hlong & _ & Hdim & Ha & Hinv & Hc & Ho & Hnbd & Hoth & Hio).
  pose proof Hwf as (Ha0 & Hinv0 & Hio0 & Hc0 & Horg0 & H0 & H1 & H2).
  destruct (split_dir_active gv bd Hin Hbd Hlong) as [Hact Hidx].
  assert (Hnum : forall i, In i [0; 1; 2] -> 0 <= num g i).
  { intros i Hi. destruct (Z.eq_dec i bd) as [->|Hne].
    - rewrite Hnbd. destruct want; lia.
    - rewrite Hoth by assumption. destruct Hi as [<-|[<-|[<-|[]]]]; simpl; lia. }
  split; [|split].
  - split; [rewrite Ha; exact Ha0|]. split; [rewrite Hinv, Ha; reflexivity|].
    split; [rewrite Hio, Hdim; destruct want; [rewrite ivec_set_dim|]; exact Hio0|].
    split; [exact Hc|]. split; [exact Ho|].
    split; [apply (Hnum 0); simpl; tauto|]. split; [apply (Hnum 1); simpl; tauto|].
    apply (Hnum 2); simpl; tauto.
  - intros i Hi Hinact. rewrite Hdim in Hinact.
    destruct (Z.eq_dec i bd) as [->|Hne].
    + exfalso. unfold is_active_index in Hinact.
      assert (existsb (fun d => Z.eqb (num_index d) bd) (loop_dirs (dim gv)) = true) as Ht.
      { apply existsb_exists. exists (split_dir gv bd). rewrite Hidx, Z.eqb_refl. auto. }
      congruence.
    + rewrite Hoth by assumption. apply Hin; assumption.
  - intros Hcy. rewrite Hdim in Hcy. specialize (Hcyl Hcy). rewrite Hio.
    destruct want; [|exact Hcyl].
    rewrite ivec_get_set by discriminate. destruct (decide (split_dir gv bd = R)) as [->|]; lia.
Qed.

Lemma own_axis_congr g g' d o :
  dim g = dim g' -> num_direction g d = num_direction g' d ->
  (dim g = Dcyl -> d = R -> IVec.in_direction (io g) R = IVec.in_direction (io g') R) ->
  own_axis g d o <-> own_axis g' d o.
Proof.
  intros Hd Hn Hr. unfold own_axis. rewrite <- Hd, Hn.
  case_bool_decide as Hc; [|reflexivity].
  destruct Hc as [Hc1 Hc2]. subst d. rewrite Hr, ?Hn by (assumption || reflexivity). reflexivity.
Qed.

(** One cut multiplies the point count of the cut axis by the share of
    each side; the other axes are untouched. *)
Lemma split_at_fraction_nowned_min gv want numer g :
  split_inv gv -> split_at_fraction gv want numer = Ok g ->
  nowned_min gv = biglen_of gv * rest_prod gv
  /\ nowned_min g = (if want then biglen_of gv - numer else numer) * rest_prod gv.
Proof.
  intros Hsi Hg. pose proof Hsi as ((_ & _ & _ & _ & _ & H0 & H1 & H2) & Hin & _).
  destruct (split_at_fraction_spec _ _ _ _ Hg) as
    (bd & Hfst & Hbd & Hlt & Hlong & Hbl & Hdim & _ & _ & _ & _ & Hnbd & Hoth & _).
  destruct (split_dir_active gv bd Hin Hbd Hlong) as [Hact Hidx].
  unfold nowned_min, rest_prod. rewrite Hfst, Hdim.
  rewrite (prod_over_remove _ _ (split_dir gv bd)) by (apply loop_dirs_NoDup || exact Hact).
  rewrite (prod_over_remove (num_direction g) _ (split_dir gv bd)) by (apply loop_dirs_NoDup || exact Hact).
  rewrite (num_direction_of gv g bd _ (split_dir gv bd) Hnbd Hoth), Hidx, Z.eqb_refl.
  unfold num_direction at 1. rewrite Hidx, Hbl. split; [reflexivity|].
  f_equal. apply prod_over_ext. intros d Hd. apply in_remove in Hd as [Hd Hne].
  rewrite (num_direction_of gv g bd _ d Hnbd Hoth).
  destruct (Z.eqb_spec (num_index d) bd) as [E|]; [|reflexivity].
  exfalso. apply Hne. apply (active_index_inj (dim gv)); congruence.
Qed.

Lemma rest_prod_nonneg gv : split_inv gv -> 0 <= rest_prod gv.
Proof.
  intros ((_ & _ & _ & _ & _ & H0 & H1 & H2) & _). unfold rest_prod.
  apply prod_over_nonneg. intros. apply num_direction_nonneg; assumption.
Qed.

(** One cut partitions the owned points: a point owned by the grid is
    owned by exactly one of the two halves, and by no half otherwise. *)
Lemma split_at_fraction_owns gv numer lo hi p :
  split_inv gv -> 1 <= numer ->
  split_at_fraction gv false numer = Ok lo -> split_at_fraction gv true numer = Ok hi ->
  IVec.dim p = dim gv ->
  (owns gv p = true <-> owns lo p = true \/ owns hi p = true) /\ ~ (owns lo p = true /\ owns hi p = true).
Proof.
  intros Hsi Hn Hlo Hhi Hp.
  pose proof (split_at_fraction_inv gv false numer lo Hsi ltac:(lia) Hlo) as (Wlo & _).
  pose proof (split_at_fraction_inv gv true numer hi Hsi ltac:(lia) Hhi) as (Whi & _).
  pose proof Hsi as (Hwf & Hin & Hcyl).
  destruct (split_at_fraction_spec _ _ _ _ Hlo) as
    (bd & Hfst & Hbd & Hlt & Hlong & _ & Hdl & _ & _ & _ & _ & Hnl & Hol & Hiol).
  destruct (split_at_fraction_spec _ _ _ _ Hhi) as
    (bd' & Hfst' & _ & _ & _ & _ & Hdh & _ & _ & _ & _ & Hnh & Hoh & Hioh).
  assert (bd' = bd) as -> by congruence. clear Hfst'.
  destruct (split_dir_active gv bd Hin Hbd Hlong) as [Hact Hidx].
  set (ds := split_dir gv bd) in *.
  rewrite (owns_iff gv p Hwf Hp), (owns_iff lo p Wlo ltac:(congruence)),
          (owns_iff hi p Whi ltac:(congruence)), Hdl, Hdh.
  simpl in Hiol, Hioh. rewrite Hiol, Hioh.
  assert (Hl : num_direction lo ds = numer)
    by (rewrite (num_direction_of gv lo bd _ ds Hnl Hol), Hidx, Z.eqb_refl; reflexivity).
  assert (Hh : num_direction hi ds = num gv bd - numer)
    by (rewrite (num_direction_of gv hi bd _ ds Hnh Hoh), Hidx, Z.eqb_refl; reflexivity).
  assert (Hg : num_direction gv ds = num gv bd) by (unfold num_direction; rewrite Hidx; reflexivity).
  apply forall_split with (x := ds); [exact Hact| | |].
  2, 3: cbv beta; unfold own_axis; rewrite Hdl, Hdh, Hioh, Hiol;
    rewrite !ivec_get_set by (first [discriminate | eapply loop_dirs_not_no; eassumption]);
    case_bool_decide as Hc; [destruct Hc as [Hc1 Hc2]; specialize (Hcyl Hc1); rewrite <- Hc2 in *|];
    rewrite !decide_True by reflexivity; rewrite ?Hl, ?Hh, ?Hg; lia.
  - intros d Hd Hne. rewrite ivec_get_set by (eapply loop_dirs_not_no; eauto).
    destruct (decide (ds = d)) as [E|_]; [congruence|].
    assert (Hnd : forall g v, num g bd = v ->
                  (forall i, In i [0; 1; 2] -> i <> bd -> num g i = num gv i) ->
                  num_direction g d = num_direction gv d).
    { intros g v Hv Hov. rewrite (num_direction_of gv g bd v d Hv Hov).
      destruct (Z.eqb_spec (num_index d) bd) as [E|]; [|reflexivity].
      exfalso. apply Hne. apply (active_index_inj (dim gv)); congruence. }
    split; apply own_axis_congr; try congruence.
    + symmetry. eapply Hnd; eassumption.
    + symmetry. eapply Hnd; eassumption.
    + intros _ ->. rewrite Hioh, ivec_get_set by discriminate.
      destruct (decide (ds = R)); [congruence|reflexivity].
Qed.

(** A grid with no axis longer than 1 owns at most one point. *)
Lemma no_axis_small gv :
  split_inv gv -> fst (best_axis gv) = -1 -> nowned_min gv <= 1.
Proof.
  intros ((_ & _ & _ & _ & _ & H0 & H1 & H2) & _) Hb.
  pose proof (best_axis_spec gv) as Hs. destruct (best_axis gv) as [bd bl].
  simpl in Hb. subst bd. destruct Hs as [(_ & B0 & B1 & B2)|(Hbd & _)]; [|lia].
  unfold nowned_min. apply prod_over_le_one. intros d _. unfold num_direction.
  destruct (num_index_range d) as [<-|[<-|[<-|[]]]]; unfold num in *; simpl in *; lia.
Qed.

(** One level of [split]: both cuts succeed and each side gets between
    one part and as many parts as it owns points. *)
Lemma split_step gv n :
  split_inv gv -> 2 <= n <= nowned_min gv ->
  exists lo hi,
    split_at_fraction gv false (split_point_of (biglen_of gv) n) = Ok lo /\
    split_at_fraction gv true (split_point_of (biglen_of gv) n) = Ok hi /\
    1 <= split_point_of (biglen_of gv) n /\
    1 <= num_low_of (split_point_of (biglen_of gv) n) n (biglen_of gv) <= n - 1 /\
    num_low_of (split_point_of (biglen_of gv) n) n (biglen_of gv) <= nowned_min lo /\
    n - num_low_of (split_point_of (biglen_of gv) n) n (biglen_of gv) <= nowned_min hi.
Proof.
  intros Hsi Hn.
  destruct (Z.eqb_spec (fst (best_axis gv)) (-1)) as [E|Hne];
    [pose proof (no_axis_small gv Hsi E); lia|].
  pose proof (best_axis_spec gv) as Hb. destruct (best_axis gv) as [bd bl] eqn:Eb.
  simpl in Hne. destruct Hb as [[? _]|(Hbd & Hbl & Hlong & _ & _ & _ & Hbig)]; [lia|].
  rewrite Hbig. set (sp := split_point_of bl n).
  assert (Hsp : 1 <= sp < bl) by (apply split_point_bounds; lia).
  destruct (split_at_fraction_ok gv false sp) as [lo Hlo]; [rewrite Eb; simpl; lia..|].
  destruct (split_at_fraction_ok gv true sp) as [hi Hhi]; [rewrite Eb; simpl; lia..|].
  destruct (split_at_fraction_nowned_min _ _ _ _ Hsi Hlo) as [Eg Elo].
  destruct (split_at_fraction_nowned_min _ _ _ _ Hsi Hhi) as [_ Ehi].
  rewrite Hbig in Eg, Ehi. pose proof (rest_prod_nonneg gv Hsi).
  destruct (num_low_bounds sp n bl (rest_prod gv)) as [[? ?] ?]; [lia..|].
  pose proof (num_low_range bl n ltac:(lia) ltac:(lia)) as Hr. fold sp in Hr.
  exists lo, hi. rewrite Elo, Ehi. repeat split; assumption || lia.
Qed.

(** Each cut strictly shrinks the sum of the extents. *)
Lemma split_at_fraction_shrinks gv want numer g :
  split_inv gv -> 1 <= numer -> split_at_fraction gv want numer = Ok g ->
  (split_bound g < split_bound gv)%nat.
Proof.
  intros ((_ & _ & _ & _ & _ & H0 & H1 & H2) & _) Hn Hg.
  destruct (split_at_fraction_spec _ _ _ _ Hg) as
    (bd & _ & Hbd & Hlt & _ & _ & _ & _ & _ & _ & _ & Hnbd & Hoth & _).
  assert (E0 : 0 <> bd -> num0 g = num0 gv) by (intros; apply (Hoth 0); simpl; tauto).
  assert (E1 : 1 <> bd -> num1 g = num1 gv) by (intros; apply (Hoth 1); simpl; tauto).
  assert (E2 : 2 <> bd -> num2 g = num2 gv) by (intros; apply (Hoth 2); simpl; tauto).
  unfold split_bound.
  destruct want; destruct Hbd as [ -> | [ -> | -> ] ]; unfold num in Hnbd, Hlt; simpl in Hnbd, Hlt;
    rewrite ?E0, ?E1, ?E2 by discriminate; lia.
Qed.

(** More fuel never changes a result already reached. *)
Lemma split_fuel_mono f f' gv n w r :
  split_fuel f gv n w = Some r -> (f <= f')%nat -> split_fuel f' gv n w = Some r.
Proof.
  revert f' gv n w. induction f as [|f IH]; intros f' gv n w H Hle; [discriminate|].
  destruct f' as [|f']; [lia|]. cbn [split_fuel] in *.
  destruct (nowned_min gv <? n); [exact H|]. destruct (n =? 1); [exact H|].
  repeat match goal with
         | |- context [if ?c then _ else _] => destruct c
         | |- context [match ?m with Ok _ => _ | Fatal _ => _ end] => destruct m
         end; try exact H; (eapply IH; [exact H|lia]).
Qed.

Lemma split_at_fraction_cut gv want numer g :
  split_inv gv -> 1 <= numer -> split_at_fraction gv want numer = Ok g ->
  split_inv g /\ (split_bound g < split_bound gv)%nat.
Proof.
  intros Hsi Hn Hg. split;
    [apply (split_at_fraction_inv gv want numer g) | apply (split_at_fraction_shrinks gv want numer g)];
    assumption || lia.
Qed.

(** Enough fuel: for [0 <= w < n <= nowned_min gv] the recursion
    reaches a grid, without abort, within [split_bound gv] levels. *)
Lemma split_fuel_total f gv n w :
  split_inv gv -> 0 <= w < n -> n <= nowned_min gv -> (split_bound gv <= f)%nat ->
  exists g, split_fuel f gv n w = Some (Ok g) /\ split_inv g.
Proof.
  revert gv n w. induction f as [|f IH]; intros gv n w Hsi Hw Hn Hf;
    [unfold split_bound in Hf; lia|].
  cbn [split_fuel].
  destruct (Z.ltb_spec (nowned_min gv) n); [lia|].
  destruct (Z.eqb_spec n 1); [eauto|].
  destruct (split_step gv n Hsi ltac:(lia)) as (lo & hi & Hlo & Hhi & Hsp & Hnl & Hlo' & Hhi').
  destruct (split_at_fraction_cut _ _ _ _ Hsi Hsp Hlo), (split_at_fraction_cut _ _ _ _ Hsi Hsp Hhi).
  match goal with |- context [if w <? ?x then _ else _] => destruct (Z.ltb_spec w x) end;
    [rewrite Hlo | rewrite Hhi]; apply IH; assumption || lia.
Qed.

Lemma split_fuel_split f gv n w :
  split_inv gv -> 0 <= w < n -> n <= nowned_min gv -> (split_bound gv <= f)%nat ->
  split_fuel f gv n w = Some (split gv n w).
Proof.
  intros Hsi Hw Hn Hf.
  destruct (split_fuel_total (split_bound gv) gv n w) as (g & Hg & _); [assumption|lia..|].
  unfold split. rewrite Hg. eapply split_fuel_mono; eassumption.
Qed.

(** The recursive equation of [grid_volume::split], as the code writes it. *)
Lemma split_unfold gv n w lo hi :
  split_inv gv -> 2 <= n <= nowned_min gv -> 0 <= w < n ->
  split_at_fraction gv false (split_point_of (biglen_of gv) n) = Ok lo ->
  split_at_fraction gv true (split_point_of (biglen_of gv) n) = Ok hi ->
  split gv n w =
    let nl := num_low_of (split_point_of (biglen_of gv) n) n (biglen_of gv) in
    if w <? nl then split lo nl w else split hi (n - nl) (w - nl).
Proof.
  intros Hsi Hn Hw Hlo Hhi.
  destruct (split_step gv n Hsi Hn) as (lo' & hi' & Hlo' & Hhi' & Hsp & Hnl & Hlo'' & Hhi'').
  rewrite Hlo in Hlo'. rewrite Hhi in Hhi'. injection Hlo' as <-. injection Hhi' as <-.
  destruct (split_at_fraction_cut _ _ _ _ Hsi Hsp Hlo), (split_at_fraction_cut _ _ _ _ Hsi Hsp Hhi).
  unfold split at 1. destruct (split_bound gv) as [|m] eqn:Eb; [lia|]. cbn [split_fuel].
  destruct (Z.ltb_spec (nowned_min gv) n); [lia|]. destruct (Z.eqb_spec n 1); [lia|].
  cbv zeta.
  match goal with |- context [if w <? ?x then _ else _] => destruct (Z.ltb_spec w x) end;
    [rewrite Hlo | rewrite Hhi]; rewrite split_fuel_split; reflexivity || assumption || lia.
Qed.

Lemma split_one gv : split_inv gv -> 1 <= nowned_min gv -> split gv 1 0 = Ok gv.
Proof.
  intros Hsi Hn. unfold split. destruct (split_bound gv) eqn:Eb; [unfold split_bound in Eb; lia|].
  cbn [split_fuel]. destruct (Z.ltb_spec (nowned_min gv) 1); [lia|]. reflexivity.
Qed.

(** ** Quantities additive over one cut are additive over the parts *)

Section Additive.
Variable dm : ndim.
Variable mu : grid_volume -> int.
Hypothesis mu_cut : forall gv numer lo hi,
  split_inv gv -> dim gv = dm -> 1 <= numer ->
  split_at_fraction gv false numer = Ok lo -> split_at_fraction gv true numer = Ok hi ->
  mu gv = mu lo + mu hi.

Lemma part_sum_bounded m gv n :
  (split_bound gv <= m)%nat -> split_inv gv -> dim gv = dm -> 1 <= n <= nowned_min gv ->
  part_sum mu gv n = mu gv.
Proof.
  revert gv n. induction m as [|m IH]; intros gv n Hm Hsi Hd Hn;
    [unfold split_bound in Hm; lia|].
  destruct (Z.eqb_spec n 1) as [->|Hn1].
  { unfold part_sum. change (Z.to_nat 1) with 1%nat. cbn [sumZ].
    rewrite split_one by (assumption || lia). lia. }
  destruct (split_step gv n Hsi ltac:(lia)) as (lo & hi & Hlo & Hhi & Hsp & Hnl & Hlo' & Hhi').
  destruct (split_at_fraction_cut _ _ _ _ Hsi Hsp Hlo) as [Ilo Slo].
  destruct (split_at_fraction_cut _ _ _ _ Hsi Hsp Hhi) as [Ihi Shi].
  assert (dim lo = dm /\ dim hi = dm) as [Dlo Dhi].
  { destruct (split_at_fraction_spec _ _ _ _ Hlo) as (? & _ & _ & _ & _ & _ & ? & _).
    destruct (split_at_fraction_spec _ _ _ _ Hhi) as (? & _ & _ & _ & _ & _ & ? & _).
    split; congruence. }
  rewrite (mu_cut gv _ lo hi Hsi Hd Hsp Hlo Hhi).
  set (nl := num_low_of (split_point_of (biglen_of gv) n) n (biglen_of gv)) in *.
  rewrite <- (IH lo nl), <- (IH hi (n - nl)) by (assumption || lia).
  unfold part_sum. replace (Z.to_nat n) with (Z.to_nat nl + Z.to_nat (n - nl))%nat by lia.
  rewrite sumZ_app, Z2Nat.id, sumZ_shift by lia. f_equal; apply sumZ_ext; intros w Hw;
    rewrite (split_unfold gv n _ lo hi) by (assumption || lia); cbv zeta; fold nl.
  - destruct (Z.ltb_spec w nl); [reflexivity|lia].
  - destruct (Z.ltb_spec (w + nl) nl); [lia|]. rewrite Z.add_simpl_r. reflexivity.
Qed.

End Additive.

(** ** Correctness of [grid_volume::split] *)

(** C3. [split] is total on its domain: for an invariant grid, [n] at most
    the number of owned points and [0 <= which < n], it returns a grid
    (neither abort of the code is reached, and the fuel never runs out)
    which again satisfies the invariant. *)
Theorem split_total gv n which :
  split_inv gv -> 0 <= which < n -> n <= nowned_min gv ->
  exists g, split gv n which = Ok g /\ split_inv g.
Proof.
  intros Hsi Hw Hn. destruct (split_fuel_total (split_bound gv) gv n which) as (g & Hg & Hi);
    [assumption|lia..|]. exists g. unfold split. rewrite Hg. split; [reflexivity|exact Hi].
Qed.

(** C1. The parts partition the owned points: every lattice point owned
    by the grid is owned by exactly one of the [n] parts, and a point the
    grid does not own is owned by none. *)
Theorem split_partition gv n p :
  split_inv gv -> 1 <= n <= nowned_min gv -> IVec.dim p = dim gv ->
  part_sum (fun g => if owns g p then 1 else 0) gv n = if owns gv p then 1 else 0.
Proof.
  intros Hsi Hn Hp. apply (part_sum_bounded (dim gv)) with (m := split_bound gv); auto.
  intros g numer lo hi Hg Hd Hnum Hlo Hhi.
  destruct (split_at_fraction_owns g numer lo hi p Hg Hnum Hlo Hhi ltac:(congruence)) as [Hiff Hex].
  destruct (owns lo p), (owns hi p), (owns g p); intuition congruence.
Qed.

(** C2. The parts conserve the points: the owned-point counts
    [nowned_min] of the [n] parts add up to that of the grid. *)
Theorem split_conserves_points gv n :
  split_inv gv -> 1 <= n <= nowned_min gv -> part_sum nowned_min gv n = nowned_min gv.
Proof.
  intros Hsi Hn. apply (part_sum_bounded (dim gv)) with (m := split_bound gv); auto.
  intros g numer lo hi Hg _ _ Hlo Hhi.
  destruct (split_at_fraction_nowned_min _ _ _ _ Hg Hlo) as [Eg Elo].
  destruct (split_at_fraction_nowned_min _ _ _ _ Hg Hhi) as [_ Ehi].
  rewrite Eg, Elo, Ehi. ring.
Qed.

(** ** Witnesses, on the 4 x 3 grid of [voltwo] *)

Lemma split_inv_example : split_inv (make D2 (10#1) 4 3 0).
Proof.
  split; [apply make_wf; [reflexivity|lia..]|split].
  - intros i Hi Hact. destruct Hi as [<-|[<-|[<-|[]]]]; vm_compute in Hact |- *;
      discriminate || (intros; discriminate).
  - intros H. discriminate H.
Qed.

Lemma split_total_witness :
  exists g, split (make D2 (10#1) 4 3 0) 3 2 = Ok g /\ split_inv g.
Proof.
  apply split_total; [exact split_inv_example|lia|vm_compute; discriminate].
Defined.

Lemma split_partition_witness :
  part_sum (fun g => if owns g (IVec.ivec2 3 5) then 1 else 0) (make D2 (10#1) 4 3 0) 3
  = if owns (make D2 (10#1) 4 3 0) (IVec.ivec2 3 5) then 1 else 0.
Proof.
  apply split_partition; [exact split_inv_example|split; [lia|vm_compute; discriminate]|reflexivity].
Defined.

Lemma split_conserves_points_witness :
  part_sum nowned_min (make D2 (10#1) 4 3 0) 3 = nowned_min (make D2 (10#1) 4 3 0).
Proof.
  apply split_conserves_points; [exact split_inv_example|split; [lia|vm_compute; discriminate]].
Defined.

End Split.
