(* ===== verification/GridIntersect.v ===== *)
(** * GridIntersect: [grid_volume::intersect_with]

    The intersection of two lattice boxes, and optionally the slabs of
    [*this] outside [vol_in] ([others]), with the code's two parity checks
    and its point-count check.  The C++ function writes through the
    pointers it is given; the model returns the intersection
    ([intersect_with], the mode [split_by_effort] uses) or the
    intersection with the slabs ([intersect_with_others]).  With [others]
    but no [intersection] pointer the code dereferences the null pointer
    in the point count; that mode is not offered by the model. *)

From S2P Require Import Prelude Geom Coord Volume GridVolume.
Import GridVolume.

Module GridIntersect.

(** [temp_num[d%3] = v] on the three-entry array [temp_num]. *)
Definition tnum_set (t : int * int * int) (i v : int) : int * int * int :=
  let '(t0, t1, t2) := t in
  if i =? 0 then (v, t1, t2) else if i =? 1 then (t0, v, t2) else (t0, t1, v).

Definition corner_min (gv vol_in : grid_volume) (d : direction) : int :=
  Z.max (IVec.in_direction (little_corner gv) d) (IVec.in_direction (little_corner vol_in) d).
Definition corner_max (gv vol_in : grid_volume) (d : direction) : int :=
  Z.min (IVec.in_direction (big_corner gv) d) (IVec.in_direction (big_corner vol_in) d).

(** The first loop: [return false] on an empty overlap, else the extents
    and the origin of the intersection. *)
Fixpoint inter_loop (gv vol_in : grid_volume) (ds : list direction)
  (tn : int * int * int) (new_io : IVec.ivec) : option ((int * int * int) * IVec.ivec) :=
  match ds with
  | [] => Some (tn, new_io)
  | d :: ds' =>
      let minval := corner_min gv vol_in d in
      let maxval := corner_max gv vol_in d in
      if maxval <=? minval then None
      else inter_loop gv vol_in ds' (tnum_set tn (num_index d) (Z.quot (maxval - minval) 2))
             (IVec.set_direction new_io d minval)
  end.

(** [intersect_with(vol_in, &intersection)]: [None] is [return false]. *)
Definition intersect_with (gv vol_in : grid_volume) : option grid_volume :=
  match inter_loop gv vol_in (loop_dirs (dim gv)) (0, 0, 0) (IVec.blank (dim gv)) with
  | None => None
  | Some ((t0, t1, t2), new_io) => Some (set_origin (make (dim gv) (a gv) t0 t1 t2) new_io)
  end.

(** The lower slab along [d]: [thick] layers below [vol_in], cut off
    [vol_containing], with the check that the corners then agree. *)
Definition shave_low (vol_in : grid_volume) (st : grid_volume * list grid_volume) (d : direction)
  : res (grid_volume * list grid_volume) :=
  let '(vc, others) := st in
  if IVec.in_direction (little_corner vc) d <? IVec.in_direction (little_corner vol_in) d then
    let thick := Z.quot (IVec.in_direction (little_corner vol_in) d
                         - IVec.in_direction (little_corner vc) d) 2 in
    let other := set_num_direction vc d thick in
    let vc1 := shift_origin vc d (thick * 2) in
    let vc2 := set_num_direction vc1 d (num_direction vc1 d - thick) in
    if IVec.in_direction (little_corner vc2) d <? IVec.in_direction (little_corner vol_in) d
    then Fatal (Abort "intersect_with: little corners differ by odd integer?")
    else Ok (vc2, others ++ [other])
  else Ok (vc, others).

(** The upper slab along [d]. *)
Definition shave_high (vol_in : grid_volume) (st : grid_volume * list grid_volume) (d : direction)
  : res (grid_volume * list grid_volume) :=
  let '(vc, others) := st in
  if IVec.in_direction (big_corner vol_in) d <? IVec.in_direction (big_corner vc) d then
    let thick := Z.quot (IVec.in_direction (big_corner vc) d
                         - IVec.in_direction (big_corner vol_in) d) 2 in
    let other := shift_origin (set_num_direction vc d thick) d ((num_direction vc d - thick) * 2) in
    let vc2 := set_num_direction vc d (num_direction vc d - thick) in
    if IVec.in_direction (big_corner vc2) d <? IVec.in_direction (big_corner vol_in) d
    then Fatal (Abort "intersect_with: big corners differ by odd integer?")
    else Ok (vc2, others ++ [other])
  else Ok (vc, others).

Definition shave (vol_in : grid_volume) (st : grid_volume * list grid_volume) (d : direction)
  : res (grid_volume * list grid_volume) :=
  let* st1 := shave_low vol_in st d in shave_high vol_in st1 d.

(** [intersect_with(vol_in, &intersection, others, &num_others)]:
    [Ok None] is [return false]. *)
Definition intersect_with_others (gv vol_in : grid_volume)
  : res (option (grid_volume * list grid_volume)) :=
  match intersect_with gv vol_in with
  | None => Ok None
  | Some inter =>
      let* st := res_fold_left (shave vol_in) (loop_dirs (dim gv)) (gv, []) in
      let others := snd st in
      let initial_points := nowned_min gv in
      let final_points := nowned_min inter + sum_over nowned_min others in
      if negb (initial_points =? final_points)
      then Fatal (Abort "intersect_with: initial_points != final_points")
      else Ok (Some (inter, others))
  end.

(** ** Definitions for the proofs *)

(** [temp_num[i]] *)
Definition tsel (t : int * int * int) (i : int) : int :=
  let '(t0, t1, t2) := t in if i =? 0 then t0 else if i =? 1 then t1 else t2.

(** The product of the extents off direction [d]. *)
Definition rest (gv : grid_volume) (d : direction) : int :=
  prod_over (num_direction gv) (remove (decide_rel eq) d (loop_dirs (dim gv))).

(** The state of the shaving loop after the directions [done]: the slabs
    cut so far and [vol_containing] hold the points of [*this]; on a done
    direction [vol_containing] spans the overlap, elsewhere it is [*this]. *)
Definition shave_inv (gv vol_in : grid_volume) (done : list direction)
  (st : grid_volume * list grid_volume) : Prop :=
  let '(vc, others) := st in
  dim vc = dim gv /\ IVec.dim (io vc) = dim gv
  /\ nowned_min gv = nowned_min vc + sum_over nowned_min others
  /\ forall d, In d (loop_dirs (dim gv)) ->
       if decide (In d done)
       then IVec.in_direction (io vc) d = corner_min gv vol_in d
            /\ IVec.in_direction (io vc) d + 2 * num_direction vc d = corner_max gv vol_in d
       else IVec.in_direction (io vc) d = IVec.in_direction (io gv) d
            /\ num_direction vc d = num_direction gv d.

(** ** Lemmas *)

Lemma num_direction_set gv d v e :
  num_direction (set_num_direction gv d v) e = if num_index e =? num_index d then v else num_direction gv e.
Proof.
  unfold set_num_direction, num_direction.
  destruct (num_index_range e) as [E|[E|[E|[]]]], (num_index_range d) as [F|[F|[F|[]]]];
    rewrite <- E, <- F; reflexivity.
Qed.

Lemma nowned_min_ext g g' :
  dim g = dim g' -> (forall d, In d (loop_dirs (dim g)) -> num_direction g d = num_direction g' d) ->
  nowned_min g = nowned_min g'.
Proof. intros Hd H. unfold nowned_min. rewrite <- Hd. apply prod_over_ext, H. Qed.

Lemma nowned_min_rest gv d :
  In d (loop_dirs (dim gv)) -> nowned_min gv = num_direction gv d * rest gv d.
Proof. intros Hd. unfold nowned_min, rest. apply prod_over_remove; [apply loop_dirs_NoDup | exact Hd]. Qed.

Lemma rest_set gv d v :
  In d (loop_dirs (dim gv)) -> rest (set_num_direction gv d v) d = rest gv d.
Proof.
  intros Hd. unfold rest. change (dim (set_num_direction gv d v)) with (dim gv).
  apply prod_over_ext. intros e He. apply in_remove in He as [He Hne].
  rewrite num_direction_set. destruct (Z.eqb_spec (num_index e) (num_index d)) as [E|]; [|reflexivity].
  exfalso. apply Hne. apply (active_index_inj (dim gv)); assumption.
Qed.

(** Cutting [v] layers off direction [d] splits the point count. *)
Lemma nowned_min_cut gv d v :
  In d (loop_dirs (dim gv)) ->
  nowned_min gv = nowned_min (set_num_direction gv d v)
                  + nowned_min (set_num_direction gv d (num_direction gv d - v)).
Proof.
  intros Hd. rewrite !(nowned_min_rest _ d) by exact Hd.
  rewrite !rest_set by exact Hd. rewrite !num_direction_set, Z.eqb_refl. ring.
Qed.

Lemma big_corner_get gv d :
  In d (loop_dirs (dim gv)) -> IVec.dim (io gv) = dim gv ->
  IVec.in_direction (big_corner gv) d = IVec.in_direction (io gv) d + 2 * num_direction gv d.
Proof.
  intros Hd Hio. unfold big_corner. unfold num_direction.
  destruct (dim gv) eqn:E; unfold IVec.add, IVec.scale;
    rewrite ivec_map2_get by (rewrite Hio; exact Hd);
    rewrite ivec_map1_get by (simpl; simpl in Hd; tauto);
    simpl in Hd; intuition (subst; simpl; unfold num, nx, ny, nz, nr; simpl; lia).
Qed.

Lemma even_quot x : 0 <= x -> Z.Even x -> 2 * Z.quot x 2 = x.
Proof.
  intros H [k ->]. replace (Z.quot (2 * k) 2) with k; [lia|].
  rewrite Z.mul_comm, Z.quot_mul; lia.
Qed.

Lemma io_set_num gv d v : io (set_num_direction gv d v) = io gv.
Proof. reflexivity. Qed.

Lemma io_dim_set gv d v : IVec.dim (io (set_num_direction gv d v)) = IVec.dim (io gv).
Proof. reflexivity. Qed.

Lemma nowned_min_shift gv d s : nowned_min (shift_origin gv d s) = nowned_min gv.
Proof. reflexivity. Qed.

Lemma num_direction_shift gv d s e : num_direction (shift_origin gv d s) e = num_direction gv e.
Proof. reflexivity. Qed.

Lemma io_shift_get gv d s e :
  e <> NO_DIRECTION ->
  IVec.in_direction (io (shift_origin gv d s)) e =
    if decide (d = e) then IVec.in_direction (io gv) d + s else IVec.in_direction (io gv) e.
Proof. intros He. unfold shift_origin, set_origin_dir. simpl. apply ivec_get_set, He. Qed.

(** Other active directions keep their extent when [d] is cut. *)
Lemma num_direction_set_other dm gv d v e :
  In d (loop_dirs dm) -> In e (loop_dirs dm) -> e <> d ->
  num_direction (set_num_direction gv d v) e = num_direction gv e.
Proof.
  intros Hd He Hne. rewrite num_direction_set.
  destruct (Z.eqb_spec (num_index e) (num_index d)); [|reflexivity].
  exfalso. apply Hne. eapply active_index_inj; eassumption.
Qed.

Section Shaving.
Variable vol_in : grid_volume.
Variable vc : grid_volume.
Variable others : list grid_volume.
Variable d : direction.
Hypothesis Hd : In d (loop_dirs (dim vc)).
Hypothesis Hio : IVec.dim (io vc) = dim vc.

Lemma shave_low_spec :
  Z.Even (IVec.in_direction (io vc) d - IVec.in_direction (io vol_in) d) ->
  exists vc' others', shave_low vol_in (vc, others) d = Ok (vc', others')
    /\ dim vc' = dim vc /\ IVec.dim (io vc') = dim vc
    /\ nowned_min vc + sum_over nowned_min others = nowned_min vc' + sum_over nowned_min others'
    /\ IVec.in_direction (io vc') d = Z.max (IVec.in_direction (io vc) d) (IVec.in_direction (io vol_in) d)
    /\ IVec.in_direction (io vc') d + 2 * num_direction vc' d
       = IVec.in_direction (io vc) d + 2 * num_direction vc d
    /\ forall e, In e (loop_dirs (dim vc)) -> e <> d ->
         IVec.in_direction (io vc') e = IVec.in_direction (io vc) e
         /\ num_direction vc' e = num_direction vc e.
Proof.
  intros Hev. pose proof (loop_dirs_not_no _ _ Hd) as Hdn. unfold shave_low, little_corner.
  destruct (Z.ltb_spec (IVec.in_direction (io vc) d) (IVec.in_direction (io vol_in) d)) as [Hlt|Hge].
  - set (thick := Z.quot (IVec.in_direction (io vol_in) d - IVec.in_direction (io vc) d) 2).
    assert (Ht : 2 * thick = IVec.in_direction (io vol_in) d - IVec.in_direction (io vc) d).
    { apply even_quot; [lia|]. destruct Hev as [k Hk]. exists (- k). lia. }
    rewrite ?io_set_num. rewrite (io_shift_get vc d) by exact Hdn. rewrite decide_True by reflexivity.
    destruct (Z.ltb_spec (IVec.in_direction (io vc) d + thick * 2) (IVec.in_direction (io vol_in) d)); [lia|].
    do 2 eexists. split; [reflexivity|].
    split; [reflexivity|]. split; [exact Hio|]. split.
    { rewrite sum_over_app_one, (nowned_min_cut vc d thick Hd).
      rewrite (nowned_min_ext (set_num_direction (shift_origin vc d (thick * 2)) d _)
                              (set_num_direction vc d (num_direction vc d - thick))); [lia|reflexivity|].
      intros e He. rewrite !num_direction_set. reflexivity. }
    split; [|split].
    + rewrite ?io_set_num, (io_shift_get vc d) by exact Hdn. rewrite decide_True by reflexivity. lia.
    + rewrite ?io_set_num. rewrite (io_shift_get vc d) by exact Hdn.
      rewrite decide_True by reflexivity. rewrite num_direction_set, Z.eqb_refl, num_direction_shift. lia.
    + intros e He Hne. rewrite ?io_set_num.
      rewrite (io_shift_get vc d) by (eapply loop_dirs_not_no; eassumption).
      rewrite decide_False by congruence. split; [reflexivity|].
      rewrite (num_direction_set_other (dim vc)) by assumption. reflexivity.
  - do 2 eexists. split; [reflexivity|]. repeat split; auto. lia.
Qed.

Lemma shave_high_spec :
  Z.Even (IVec.in_direction (big_corner vc) d - IVec.in_direction (big_corner vol_in) d) ->
  exists vc' others', shave_high vol_in (vc, others) d = Ok (vc', others')
    /\ dim vc' = dim vc /\ IVec.dim (io vc') = dim vc
    /\ nowned_min vc + sum_over nowned_min others = nowned_min vc' + sum_over nowned_min others'
    /\ IVec.in_direction (io vc') d = IVec.in_direction (io vc) d
    /\ IVec.in_direction (io vc') d + 2 * num_direction vc' d
       = Z.min (IVec.in_direction (big_corner vc) d) (IVec.in_direction (big_corner vol_in) d)
    /\ forall e, In e (loop_dirs (dim vc)) -> e <> d ->
         IVec.in_direction (io vc') e = IVec.in_direction (io vc) e
         /\ num_direction vc' e = num_direction vc e.
Proof.
  intros Hev. pose proof (big_corner_get vc d Hd Hio) as Hb. unfold shave_high.
  destruct (Z.ltb_spec (IVec.in_direction (big_corner vol_in) d) (IVec.in_direction (big_corner vc) d))
    as [Hlt|Hge].
  - set (thick := Z.quot (IVec.in_direction (big_corner vc) d - IVec.in_direction (big_corner vol_in) d) 2).
    assert (Ht : 2 * thick = IVec.in_direction (big_corner vc) d - IVec.in_direction (big_corner vol_in) d)
      by (apply even_quot; [lia|exact Hev]).
    rewrite (big_corner_get (set_num_direction vc d _)) by assumption.
    rewrite ?io_set_num. rewrite num_direction_set, Z.eqb_refl.
    destruct (Z.ltb_spec (IVec.in_direction (io vc) d + 2 * (num_direction vc d - thick))
                (IVec.in_direction (big_corner vol_in) d)); [lia|].
    do 2 eexists. split; [reflexivity|].
    split; [reflexivity|]. split; [exact Hio|]. split.
    { rewrite sum_over_app_one, nowned_min_shift, (nowned_min_cut vc d thick Hd). lia. }
    split; [reflexivity|]. split; [rewrite ?io_set_num, num_direction_set, Z.eqb_refl; lia|].
    intros e He Hne. split; [reflexivity|]. rewrite (num_direction_set_other (dim vc)) by assumption. reflexivity.
  - do 2 eexists. split; [reflexivity|]. repeat split; auto. lia.
Qed.

End Shaving.

Lemma tsel_set_same t i v : In i [0; 1; 2] -> tsel (tnum_set t i v) i = v.
Proof. destruct t as [[t0 t1] t2]. intros [<-|[<-|[<-|[]]]]; reflexivity. Qed.

Lemma tsel_set_other t i j v :
  In i [0; 1; 2] -> In j [0; 1; 2] -> i <> j -> tsel (tnum_set t j v) i = tsel t i.
Proof.
  destruct t as [[t0 t1] t2]. intros Hi Hj Hne.
  destruct Hi as [<-|[<-|[<-|[]]]], Hj as [<-|[<-|[<-|[]]]]; reflexivity || congruence.
Qed.

Lemma inter_loop_keep gv vol_in ds tn io0 tn' io' i :
  In i [0; 1; 2] -> (forall d, In d ds -> num_index d <> i) ->
  inter_loop gv vol_in ds tn io0 = Some (tn', io') -> tsel tn' i = tsel tn i.
Proof.
  revert tn io0. induction ds as [|d ds IH]; intros tn io0 Hi Hds H; simpl in H.
  - injection H as <- <-. reflexivity.
  - destruct (_ <=? _); [discriminate|]. rewrite (IH _ _ Hi (fun x Hx => Hds x (or_intror Hx)) H).
    apply tsel_set_other; [exact Hi|apply num_index_range|]. intros E. apply (Hds d (or_introl eq_refl)). auto.
Qed.

Lemma inter_loop_get gv vol_in dm ds tn io0 tn' io' :
  NoDup ds -> (forall d, In d ds -> In d (loop_dirs dm)) ->
  inter_loop gv vol_in ds tn io0 = Some (tn', io') ->
  forall d, In d ds -> corner_min gv vol_in d < corner_max gv vol_in d
    /\ tsel tn' (num_index d) = Z.quot (corner_max gv vol_in d - corner_min gv vol_in d) 2.
Proof.
  revert tn io0. induction ds as [|d0 ds IH]; intros tn io0 Hnd Hds H d Hd; [destruct Hd|].
  inversion Hnd as [|? ? Hnin Hnd']; subst. rewrite list_elem_of_In in Hnin.
  simpl in H. destruct (Z.leb_spec (corner_max gv vol_in d0) (corner_min gv vol_in d0)); [discriminate|].
  destruct Hd as [<-|Hd]; [|exact (IH _ _ Hnd' (fun x Hx => Hds x (or_intror Hx)) H d Hd)].
  assert (Hk : forall x, In x ds -> num_index x <> num_index d0).
  { intros x Hx E. apply Hnin. replace d0 with x; [exact Hx|].
    apply (active_index_inj dm); [apply Hds; right; exact Hx | apply Hds; left; reflexivity | exact E]. }
  split; [lia|]. rewrite (inter_loop_keep _ _ _ _ _ _ _ _ (num_index_range d0) Hk H).
  apply tsel_set_same, num_index_range.
Qed.

Lemma intersect_with_spec gv vol_in inter :
  intersect_with gv vol_in = Some inter ->
  dim inter = dim gv /\ forall d, In d (loop_dirs (dim gv)) ->
    corner_min gv vol_in d < corner_max gv vol_in d
    /\ num_direction inter d = Z.quot (corner_max gv vol_in d - corner_min gv vol_in d) 2.
Proof.
  unfold intersect_with.
  destruct (inter_loop _ _ _ _ _) as [[[[t0 t1] t2] new_io]|] eqn:E; [|discriminate].
  intros H. injection H as <-. split; [reflexivity|]. intros d Hd.
  destruct (inter_loop_get _ _ (dim gv) _ _ _ _ _ (loop_dirs_NoDup _) (fun x Hx => Hx) E d Hd) as [H1 H2].
  split; [exact H1|]. rewrite <- H2. unfold num_direction.
  destruct (num_index_range d) as [<-|[<-|[<-|[]]]]; reflexivity.
Qed.

Section Intersect.
Variables gv vol_in : grid_volume.
Hypothesis Hwf : wf gv.
Hypothesis Hwf_in : wf vol_in.
Hypothesis Hdim : dim vol_in = dim gv.
Hypothesis Hpar : forall d, In d (loop_dirs (dim gv)) ->
  Z.Even (IVec.in_direction (io gv) d - IVec.in_direction (io vol_in) d).

Lemma big_in_get d :
  In d (loop_dirs (dim gv)) ->
  IVec.in_direction (big_corner vol_in) d = IVec.in_direction (io vol_in) d + 2 * num_direction vol_in d.
Proof.
  intros Hd. pose proof Hwf_in as (_ & _ & Hio & _).
  apply big_corner_get; [rewrite Hdim; exact Hd | exact Hio].
Qed.

Lemma shave_step done vc others d :
  In d (loop_dirs (dim gv)) -> ~ In d done ->
  shave_inv gv vol_in done (vc, others) ->
  exists st', shave vol_in (vc, others) d = Ok st' /\ shave_inv gv vol_in (d :: done) st'.
Proof.
  intros Hd Hnd (Dvc & Dio & Hsum & Hdirs).
  pose proof (Hdirs d Hd) as Hdd. rewrite decide_False in Hdd by exact Hnd. destruct Hdd as [Eio Enum].
  pose proof Hwf as (_ & _ & Hiogv & _).
  assert (Hd' : In d (loop_dirs (dim vc))) by congruence.
  assert (Hio' : IVec.dim (io vc) = dim vc) by congruence.
  assert (Hev1 : Z.Even (IVec.in_direction (io vc) d - IVec.in_direction (io vol_in) d))
    by (rewrite Eio; apply Hpar, Hd).
  destruct (shave_low_spec vol_in vc others d Hd' Hio' Hev1) as (vc1 & o1 & E1 & D1 & I1 & S1 & L1 & B1 & O1).
  assert (Hd1 : In d (loop_dirs (dim vc1))) by congruence.
  assert (Hio1 : IVec.dim (io vc1) = dim vc1) by congruence.
  assert (Hev2 : Z.Even (IVec.in_direction (big_corner vc1) d - IVec.in_direction (big_corner vol_in) d)).
  { rewrite (big_corner_get vc1 d Hd1 Hio1), (big_in_get d Hd), B1, Eio, Enum.
    destruct (Hpar d Hd) as [k Hk]. exists (k + num_direction gv d - num_direction vol_in d). lia. }
  destruct (shave_high_spec vol_in vc1 o1 d Hd1 Hio1 Hev2) as (vc2 & o2 & E2 & D2 & I2 & S2 & L2 & B2 & O2).
  exists (vc2, o2). split; [unfold shave; rewrite E1; exact E2|].
  split; [congruence|]. split; [congruence|]. split; [lia|].
  intros e He. destruct (decide (e = d)) as [->|Hne].
  - rewrite decide_True by (left; reflexivity). unfold corner_min, corner_max, little_corner.
    rewrite (big_corner_get gv d Hd Hiogv). split; [rewrite L2, L1, Eio; reflexivity|].
    rewrite B2, (big_corner_get vc1 d Hd1 Hio1), B1, Eio, Enum. reflexivity.
  - assert (He1 : In e (loop_dirs (dim vc))) by congruence.
    destruct (O1 e He1 Hne) as [Io1 Nu1]. destruct (O2 e ltac:(congruence) Hne) as [Io2 Nu2].
    rewrite Io2, Nu2, Io1, Nu1. specialize (Hdirs e He).
    destruct (decide (In e done)) as [Hi|Hi].
    + rewrite decide_True by (right; exact Hi). exact Hdirs.
    + rewrite decide_False by (simpl; intuition congruence). exact Hdirs.
Qed.

Lemma shave_fold ds done st :
  NoDup ds -> (forall d, In d ds -> In d (loop_dirs (dim gv)) /\ ~ In d done) ->
  shave_inv gv vol_in done st ->
  exists st', res_fold_left (shave vol_in) ds st = Ok st' /\ shave_inv gv vol_in (rev ds ++ done) st'.
Proof.
  revert done st. induction ds as [|d ds IH]; intros done [vc others] Hnd Hds Hinv.
  - exists (vc, others). split; [reflexivity|exact Hinv].
  - inversion Hnd as [|? ? Hnin Hnd']; subst. rewrite list_elem_of_In in Hnin.
    destruct (Hds d (or_introl eq_refl)) as [Hd Hnd0].
    destruct (shave_step done vc others d Hd Hnd0 Hinv) as (st1 & E1 & I1).
    cbn [res_fold_left]. rewrite E1.
    destruct (IH (d :: done) st1 Hnd') as (st' & E' & I'); [|exact I1|].
    + intros x Hx. destruct (Hds x (or_intror Hx)) as [Hx1 Hx2]. split; [exact Hx1|].
      simpl. intros [E|Hx3]; [subst x; exact (Hnin Hx) | exact (Hx2 Hx3)].
    + exists st'. split; [exact E'|]. simpl. rewrite <- app_assoc. exact I'.
Qed.

Lemma shave_inv_init : shave_inv gv vol_in [] (gv, []).
Proof.
  pose proof Hwf as (_ & _ & Hio & _).
  split; [reflexivity|]. split; [exact Hio|]. split; [unfold sum_over; simpl; lia|].
  intros d Hd. simpl. split; reflexivity.
Qed.

(** C15. On two well-formed grids of the same dimension whose origins lie
    on the same lattice parity, [intersect_with] with [others] never
    aborts: its two parity checks and its point-count check pass, it
    returns the same intersection as without [others], and the slabs with
    the intersection hold exactly the points of [*this]. *)
Theorem intersect_with_others_ok :
  exists r, intersect_with_others gv vol_in = Ok r
    /\ match r with
       | None => intersect_with gv vol_in = None
       | Some (inter, others) =>
           intersect_with gv vol_in = Some inter
           /\ nowned_min gv = nowned_min inter + sum_over nowned_min others
       end.
Proof.
  unfold intersect_with_others.
  destruct (intersect_with gv vol_in) as [inter|] eqn:Ei; [|exists None; split; reflexivity].
  destruct (intersect_with_spec _ _ _ Ei) as [Di Hi].
  destruct (shave_fold (loop_dirs (dim gv)) [] (gv, []) (loop_dirs_NoDup _))
    as ([vc others] & Ef & (Dvc & Dio & Hsum & Hdirs));
    [intros d Hd; split; [exact Hd | intros []] | apply shave_inv_init |].
  rewrite Ef. cbn [res_bind snd].
  assert (Heq : nowned_min vc = nowned_min inter).
  { apply nowned_min_ext; [congruence|]. intros d Hd. rewrite Dvc in Hd.
    specialize (Hdirs d Hd). rewrite decide_True in Hdirs by (rewrite app_nil_r, <- in_rev; exact Hd).
    destruct Hdirs as [E1 E2]. destruct (Hi d Hd) as [_ Hn]. rewrite Hn.
    replace (corner_max gv vol_in d - corner_min gv vol_in d) with (num_direction vc d * 2) by lia.
    rewrite Z.quot_mul by lia. reflexivity. }
  rewrite <- Heq, <- Hsum, Z.eqb_refl. exists (Some (inter, others)). split; [reflexivity|].
  split; [reflexivity|]. lia.
Qed.

End Intersect.

(** C16. The upper parity check of [intersect_with]
    ([if (vol_containing.big_corner() < vol_in.big_corner()) abort]) never
    fires, whatever the grids: after shaving [thick = diff/2] layers the
    big corner is never below [vol_in]'s. *)
Theorem shave_high_never_aborts vol_in vc others d :
  In d (loop_dirs (dim vc)) -> IVec.dim (io vc) = dim vc ->
  exists st, shave_high vol_in (vc, others) d = Ok st.
Proof.
  intros Hd Hio. unfold shave_high.
  destruct (Z.ltb_spec (IVec.in_direction (big_corner vol_in) d) (IVec.in_direction (big_corner vc) d))
    as [Hlt|]; [|eexists; reflexivity].
  rewrite (big_corner_get (set_num_direction vc d _)) by assumption.
  rewrite io_set_num, num_direction_set, Z.eqb_refl. rewrite (big_corner_get vc d Hd Hio) in *.
  set (x := IVec.in_direction (io vc) d + 2 * num_direction vc d - IVec.in_direction (big_corner vol_in) d).
  assert (2 * Z.quot x 2 <= x) by (rewrite Z.quot_div_nonneg by lia; apply Z.mul_div_le; lia).
  match goal with |- context [if ?u <? ?v then _ else _] => destruct (Z.ltb_spec u v) end;
    [unfold x in *; lia|]. eexists. reflexivity.
Qed.

(** Odd corner differences: on the lower side the parity check
    reports them; on the upper side the slab is one half-cell short and
    only the point-count check catches the mismatch. *)
Theorem intersect_odd_corners :
  intersect_with_others (make D1 (10#1) 0 0 4) (set_origin (make D1 (10#1) 0 0 4) (IVec.ivec1 1))
    = Fatal (Abort "intersect_with: little corners differ by odd integer?")
  /\ intersect_with_others (make D1 (10#1) 0 0 4) (set_origin (make D1 (10#1) 0 0 4) (IVec.ivec1 (-1)))
    = Fatal (Abort "intersect_with: initial_points != final_points").
Proof. split; vm_compute; reflexivity. Qed.

(** ** Witnesses *)

Lemma intersect_with_others_ok_witness :
  exists r, intersect_with_others (make D2 (10#1) 4 4 0) (set_origin (make D2 (10#1) 4 4 0) (IVec.ivec2 2 2)) = Ok r
    /\ match r with
       | None => intersect_with (make D2 (10#1) 4 4 0) (set_origin (make D2 (10#1) 4 4 0) (IVec.ivec2 2 2)) = None
       | Some (inter, others) =>
           intersect_with (make D2 (10#1) 4 4 0) (set_origin (make D2 (10#1) 4 4 0) (IVec.ivec2 2 2)) = Some inter
           /\ nowned_min (make D2 (10#1) 4 4 0) = nowned_min inter + sum_over nowned_min others
       end.
Proof.
  apply intersect_with_others_ok.
  - apply make_wf; [reflexivity|lia..].
  - repeat split; try lia; try reflexivity; vm_compute; try reflexivity; intros; discriminate.
  - reflexivity.
  - intros d Hd. destruct Hd as [<-|[<-|[]]]; exists (-1); reflexivity.
Defined.

Lemma shave_high_never_aborts_witness :
  exists st, shave_high (set_origin (make D1 (10#1) 0 0 4) (IVec.ivec1 (-1)))
               (make D1 (10#1) 0 0 4, []) Z = Ok st.
Proof. apply shave_high_never_aborts; [simpl; tauto | reflexivity]. Defined.

End GridIntersect.
