(* ===== verification/Effort.v ===== *)
(** * Effort: [grid_volume::split_by_effort]

    The load-balancing splitter: along the longest active direction it
    scans every cut point, weighs both sides with the effort table (the
    overlap of each side with each region, times its effort; the point
    counts [ntot] when the table is empty), keeps the cut minimising the
    larger per-part load, assigns the parts in proportion to the effort,
    falls back to [split] when a side would get more parts than points,
    and recurses through [split_at_fraction] like [split].

    The table [(v[j], effort[j])] is a list of pairs.  Doubles are exact
    rationals; the fraction [left/(left+right)] is [None] when both sides
    weigh zero (the double is NaN), and converting it to [int] is
    undefined behaviour.  The recursion takes fuel like [split]; when the
    scan keeps no cut point (every measure at least [1e20]) the code
    recurses on the same grid without end, and the model runs out of
    fuel.  The
    [vec corner] the code computes before the scan is never read and is
    not modelled. *)

From S2P Require Import Prelude Geom Coord Volume GridVolume Split GridIntersect.
Import GridVolume Split GridIntersect.

Module Effort.

Definition effort_table := list (grid_volume * Q).

(** [LOOP_OVER_DIRECTIONS(dim, d) if (num_direction(d) > biglen)
    { biglen = num_direction(d); splitdir = d; }] from [(0, NO_DIRECTION)]. *)
Definition longest_dir (gv : grid_volume) : int * direction :=
  fold_left (fun '(bl, sd) d => if bl <? num_direction gv d then (num_direction gv d, d) else (bl, sd))
    (loop_dirs (dim gv)) (0, NO_DIRECTION).

(** [v_left] and [v_right] for the cut point [sp]. *)
Definition candidate (gv : grid_volume) (splitdir : direction) (sp : int) : grid_volume * grid_volume :=
  (set_num_direction gv splitdir sp,
   shift_origin (set_num_direction gv splitdir (num_direction gv splitdir - sp)) splitdir (sp * 2)).

(** [for (j) if (side.intersect_with(v[j], &vol)) total += effort[j] * vol.ntot();] *)
Definition side_effort (side : grid_volume) (tbl : effort_table) : Q :=
  fold_left (fun acc '(v, e) =>
      match intersect_with side v with
      | Some vol => (acc + e * inject_Z (ntot vol))%Q
      | None => acc
      end) tbl 0%Q.

Definition totals (gv : grid_volume) (splitdir : direction) (sp : int) (tbl : effort_table) : Q * Q :=
  let '(vl, vr) := candidate gv splitdir sp in
  match tbl with
  | [] => (inject_Z (ntot vl), inject_Z (ntot vr))
  | _ => (side_effort vl tbl, side_effort vr tbl)
  end.

(** The state of the scan: [best_split_measure], [best_split_point] and
    [left_effort_fraction] ([None] for NaN). *)
Record scan := mkscan { best_measure : Q; best_point : int; left_fraction : option Q }.

Definition scan_step (gv : grid_volume) (splitdir : direction) (n : int) (tbl : effort_table)
  (st : scan) (sp : int) : scan :=
  let '(l, r) := totals gv splitdir sp tbl in
  let split_measure := dmax (l / inject_Z (Z.quot n 2)) (r / inject_Z (n - Z.quot n 2)) in
  if Qlt_bool split_measure (best_measure st) then
    mkscan split_measure sp (if Qeq_bool (l + r) 0 then None else Some (l / (l + r)))%Q
  else st.

Definition best_split (gv : grid_volume) (n : int) (tbl : effort_table) : scan :=
  let '(biglen, splitdir) := longest_dir gv in
  fold_left (scan_step gv splitdir n tbl) (zrange 1 biglen) (mkscan (inject_Z (10 ^ 20)) 0 (Some 0%Q)).

Fixpoint split_by_effort_fuel (fuel : nat) (gv : grid_volume) (n which : int) (tbl : effort_table)
  : option (res grid_volume) :=
  match fuel with
  | O => None
  | S fuel' =>
      let grid_points_owned := nowned_min gv in
      if grid_points_owned <? n then Some (Fatal (Abort "Cannot split grid points into parts"))
      else if n =? 1 then Some (Ok gv)
      else
        let biglen := fst (longest_dir gv) in
        let st := best_split gv n tbl in
        let split_point := best_point st in
        match left_fraction st with
        | None => Some (Fatal (UndefinedBehaviour "(int) of a NaN left_effort_fraction"))
        | Some f =>
            let num_low := c_int (f * inject_Z n + (1#2))%Q in
            let per := Z.quot grid_points_owned biglen in
            if (split_point * per <? num_low)
               || (grid_points_owned - split_point * per <? n - num_low)
            then Some (split gv n which)
            else if which <? num_low then
              match split_at_fraction gv false split_point with
              | Ok g => split_by_effort_fuel fuel' g num_low which tbl
              | Fatal e => Some (Fatal e)
              end
            else
              match split_at_fraction gv true split_point with
              | Ok g => split_by_effort_fuel fuel' g (n - num_low) (which - num_low) tbl
              | Fatal e => Some (Fatal e)
              end
        end
  end.

Definition split_by_effort (gv : grid_volume) (n which : int) (tbl : effort_table) : res grid_volume :=
  match split_by_effort_fuel (split_bound gv) gv n which tbl with
  | Some r => r
  | None => Fatal (Abort "fuel")
  end.

(** ** Where [split_by_effort] departs from [split] *)

(** With an empty effort table [split_by_effort] does not reproduce
    [split]: on a 1D grid of 3 cells cut in 2 parts, the effort scan
    weighs the sides by [ntot] (points including the shared boundary) and
    keeps the first of two equal measures, cut point 1, while [split]
    cuts at 2. *)
Theorem effort_empty_table_differs :
  exists g g', split_by_effort (make D1 (10#1) 0 0 3) 2 0 [] = Ok g
    /\ split (make D1 (10#1) 0 0 3) 2 0 = Ok g' /\ num2 g = 1 /\ num2 g' = 2.
Proof. do 2 eexists. split; [vm_compute; reflexivity|]. split; [vm_compute; reflexivity|]. split; reflexivity. Qed.

(** C19. In cylindrical coordinates with [nr == nz] the scan of
    [split_by_effort] measures cuts along Z (its loop visits Z first)
    while [split_at_fraction] then cuts along R (it prefers [num[0]]): the
    chosen cut point is applied to the other axis. *)
Theorem effort_axis_mismatch gv :
  dim gv = Dcyl -> num0 gv = num2 gv -> 1 < num2 gv -> num1 gv <= 1 ->
  longest_dir gv = (num2 gv, Z) /\ split_dir gv (fst (best_axis gv)) = R.
Proof.
  intros Hd H02 H2 H1.
  assert (ER : num_direction gv R = num0 gv) by reflexivity.
  assert (EZ : num_direction gv Z = num2 gv) by reflexivity.
  unfold longest_dir, best_axis, split_dir. rewrite Hd. cbn [loop_dirs fold_left].
  repeat (rewrite ?ER, ?EZ; unfold num; cbn [fst];
          match goal with |- context [?u <? ?v] => destruct (Z.ltb_spec u v); try lia end).
  split; reflexivity.
Qed.

(** A side that meets no region of nonzero effort weighs zero. *)
Lemma side_effort_zero side tbl :
  (forall v e, In (v, e) tbl -> (e == 0)%Q \/ intersect_with side v = None) ->
  (side_effort side tbl == 0)%Q.
Proof.
  unfold side_effort. intros Hz. enough (H : forall acc, (fold_left (fun acc '(v, e) =>
      match intersect_with side v with
      | Some vol => (acc + e * inject_Z (ntot vol))%Q
      | None => acc
      end) tbl acc == acc)%Q) by apply H.
  induction tbl as [|[v e] tl IH]; intros acc; cbn [fold_left]; [reflexivity|].
  eapply Qeq_trans; [apply IH; intros; apply Hz; now right|].
  destruct (Hz v e (or_introl eq_refl)) as [He|He]; [|rewrite He; reflexivity].
  destruct (intersect_with side v); [|reflexivity]. rewrite He. ring.
Qed.

Lemma dmax_zero a b : (a == 0)%Q -> (b == 0)%Q -> (dmax a b == 0)%Q.
Proof. unfold dmax. now destruct (Qlt_bool b a). Qed.

Lemma Qdiv_zero_l a b : (a == 0)%Q -> (a / b == 0)%Q.
Proof. intros ->. reflexivity. Qed.

Lemma Qlt_bool_zero a b : (a == 0)%Q -> (b == 0)%Q -> Qlt_bool a b = false.
Proof.
  intros Ha Hb. unfold Qlt_bool. apply negb_false_iff, Qle_bool_iff.
  rewrite Ha, Hb. apply Qle_refl.
Qed.

Section ZeroEffort.
Variables (gv : grid_volume) (n : int) (tbl : effort_table).
Hypothesis Htbl : tbl <> [].
(** No region of nonzero effort meets either side of any cut point. *)
Hypothesis Hzero : forall v e sp side, In (v, e) tbl -> 1 <= sp < fst (longest_dir gv) ->
  side = fst (candidate gv (snd (longest_dir gv)) sp) \/ side = snd (candidate gv (snd (longest_dir gv)) sp) ->
  (e == 0)%Q \/ intersect_with side v = None.

Lemma totals_zero sp : 1 <= sp < fst (longest_dir gv) ->
  (fst (totals gv (snd (longest_dir gv)) sp tbl) == 0)%Q /\ (snd (totals gv (snd (longest_dir gv)) sp tbl) == 0)%Q.
Proof.
  intros Hsp. unfold totals.
  destruct (candidate gv (snd (longest_dir gv)) sp) as [vl vr] eqn:Ec.
  destruct tbl as [|x tl]; [congruence|]. cbn [fst snd].
  split; apply side_effort_zero; intros v e Hin; eapply Hzero; eauto; rewrite Ec; auto.
Qed.

(** Once the scan holds a NaN fraction at measure zero, every later cut
    point keeps it so. *)
Lemma scan_keeps_nan sps st :
  Forall (fun sp => 1 <= sp < fst (longest_dir gv)) sps ->
  left_fraction st = None -> (best_measure st == 0)%Q ->
  left_fraction (fold_left (scan_step gv (snd (longest_dir gv)) n tbl) sps st) = None.
Proof.
  revert st. induction sps as [|sp sps IH]; intros st Hf Hn Hm; [exact Hn|].
  pose proof (Forall_inv Hf) as Hsp; pose proof (Forall_inv_tail Hf) as Hf'. cbn [fold_left]. apply IH; [exact Hf'| |];
  destruct (totals_zero sp Hsp) as [Hl Hr]; unfold scan_step;
  destruct (totals gv _ sp tbl) as [l r]; cbn [fst snd] in Hl, Hr;
  rewrite Qlt_bool_zero by (exact Hm || apply dmax_zero; apply Qdiv_zero_l; assumption); assumption.
Qed.

Lemma best_split_nan : 2 <= fst (longest_dir gv) -> left_fraction (best_split gv n tbl) = None.
Proof.
  intros Hb. unfold best_split. pose proof totals_zero as Hr. pose proof scan_keeps_nan as K.
  destruct (longest_dir gv) as [biglen splitdir] eqn:El. cbn [fst snd] in Hb, Hr, K.
  unfold zrange. replace (Z.to_nat (biglen - 1)) with (S (Z.to_nat (biglen - 2))) by lia.
  cbn [seq map fold_left]. rewrite Z.add_0_r.
  destruct (Hr 1 ltac:(lia)) as [Hl Hr']. unfold scan_step at 2.
  destruct (totals gv splitdir 1 tbl) as [l r]. cbn [fst snd] in Hl, Hr'.
  assert (Hs : (dmax (l / inject_Z (Z.quot n 2)) (r / inject_Z (n - Z.quot n 2)) == 0)%Q)
    by (apply dmax_zero; apply Qdiv_zero_l; assumption).
  replace (Qlt_bool _ (best_measure _)) with true.
  2:{ symmetry. unfold Qlt_bool. apply negb_true_iff. apply not_true_iff_false.
      intros Hle. apply Qle_bool_iff in Hle. rewrite Hs in Hle. apply (Qle_not_lt _ _ Hle). reflexivity. }
  replace (Qeq_bool (l + r) 0) with true.
  2:{ symmetry. apply Qeq_bool_iff. rewrite Hl, Hr'. reflexivity. }
  apply K; [|reflexivity|exact Hs].
  apply List.Forall_forall. intros x Hx. apply in_map_iff in Hx as [k [<- Hk]].
  apply in_seq in Hk. lia.
Qed.
End ZeroEffort.

(** C20. When the effort table is not empty but no region of nonzero
    effort meets either side of any cut point along the longest axis (at
    least two cells long), every cut weighs zero on both sides: the
    fraction [0/0] is NaN and the code converts it to [int], which is
    undefined, for every number of parts the grid can hold. *)
Theorem effort_nan_fraction gv n which tbl :
  tbl <> [] -> 2 <= n <= nowned_min gv -> 2 <= fst (longest_dir gv) ->
  (forall v e sp side, In (v, e) tbl -> 1 <= sp < fst (longest_dir gv) ->
     side = fst (candidate gv (snd (longest_dir gv)) sp) \/ side = snd (candidate gv (snd (longest_dir gv)) sp) ->
     (e == 0)%Q \/ intersect_with side v = None) ->
  split_by_effort gv n which tbl = Fatal (UndefinedBehaviour "(int) of a NaN left_effort_fraction").
Proof.
  intros Ht Hn Hb Hz. unfold split_by_effort, split_bound. cbn [split_by_effort_fuel].
  replace (nowned_min gv <? n) with false by lia. replace (n =? 1) with false by lia.
  now rewrite (best_split_nan gv n tbl Ht Hz Hb).
Qed.

Lemma effort_axis_mismatch_witness :
  longest_dir (make Dcyl (10#1) 4 0 4) = (num2 (make Dcyl (10#1) 4 0 4), Z)
  /\ split_dir (make Dcyl (10#1) 4 0 4) (fst (best_axis (make Dcyl (10#1) 4 0 4))) = R.
Proof. apply effort_axis_mismatch; reflexivity || lia || (vm_compute; discriminate). Defined.

Lemma effort_nan_fraction_witness :
  split_by_effort (make D1 (10#1) 0 0 3) 2 0 [(set_origin (make D1 (10#1) 0 0 3) (IVec.ivec1 100), 1%Q)]
  = Fatal (UndefinedBehaviour "(int) of a NaN left_effort_fraction").
Proof.
  apply effort_nan_fraction; [discriminate|vm_compute; split; discriminate|vm_compute; discriminate|].
  intros v e sp side Hin Hsp Hs. right. destruct Hin as [Hin|[]]. injection Hin as <- <-.
  assert (Eb : fst (longest_dir (make D1 (10#1) 0 0 3)) = 3) by (vm_compute; reflexivity).
  rewrite Eb in Hsp. assert (sp = 1 \/ sp = 2) as [->| ->] by lia;
    destruct Hs as [->| ->]; vm_compute; reflexivity.
Defined.

End Effort.
