(* ===== verification/Symmetry.v ===== *)
(** * Symmetry: point-group generators and their action ([class symmetry])

    A C++ [symmetry] is a node holding one generator (its order [g], the
    one-step image [S[d]] of every direction, a phase [ph], and the fixed
    point in continuous and lattice coordinates) and a pointer [next] to
    the rest of the chain, which it owns and deep-copies.  The model is the
    chain as a list: the head is [*this], the tail is [*next], the empty
    list is the null pointer.  Copying, assignment and destruction are the
    value semantics of lists.

    Phases are complex doubles in the code.  The model keeps them as
    Gaussian integers ([cplx]), which holds every phase the constructors
    produce (the [+1]/[-1] of [r_to_minus_r_symmetry] for an integer [m])
    and the phases [+-1], [+-i] a client multiplies in with [operator*];
    the phase [polar(1, m pi)] of a non-integer [m] is not modelled.

    [transform(d, n)] recurses on the same node (with a smaller local
    count) and on the tail: [transform_fuel] takes fuel, and
    [transform_fuel_ref] shows that [transform_bound] (one plus the sum
    of the orders) never runs out for generators of positive order.

    The reference semantics [ref_transform] reads element [n] of a chain
    in mixed radix (the power [n mod g] of the head, then element [n / g]
    of the tail).  The theorems: [transform] refines it on directions and
    flips (C6) and, on chains whose inner nodes have order at most 2 or
    phase 1, on phases too (C7); [operator+] is the product of the groups
    (C8); [phase_shift] applies the determinant rule to pseudovectors (C9);
    component transforms never abort (C10); a generator that maps every
    direction to itself reflects lattice points about its symmetry point
    in the flipped coordinates, an involution (C11).  Two theorems record
    where the code departs from that reading, on every chain: the power
    [ph^(n mod g - 1)] of the phase dropped by elements that take the
    node's own step and then the tail's (C12), and the null dereference
    at [n = multiplicity()] (C13). *)

From S2P Require Import Prelude Geom Coord Volume GridVolume.

(** ** Phases: Gaussian integers *)

Record cplx := mkc { re : int; im : int }.

#[export] Instance cplx_eq_dec : EqDecision cplx.
Proof. solve_decision. Defined.

Definition c1 : cplx := mkc 1 0.
Definition cmul (a b : cplx) : cplx :=
  mkc (re a * re b - im a * im b) (re a * im b + im a * re b).
Definition cneg (a : cplx) : cplx := mkc (- re a) (- im a).
Definition cconj (a : cplx) : cplx := mkc (re a) (- im a).

(** ** [signed_direction] (meep/vec.hpp): a direction, a flip and a phase *)

Record signed_direction := mksd { dir : direction; flipped : bool; phase : cplx }.

#[export] Instance signed_direction_eq_dec : EqDecision signed_direction.
Proof. solve_decision. Defined.

(** [signed_direction(dd, f = false, ph = 1.0)] *)
Definition sd_of (d : direction) : signed_direction := mksd d false c1.

(** [flip(sd)]: the same direction and phase with the flip negated. *)
Definition flip (sd : signed_direction) : signed_direction :=
  mksd (dir sd) (negb (flipped sd)) (phase sd).

(** [signed_direction::operator*(complex p)]: [phase *= p]. *)
Definition sd_mul (sd : signed_direction) (p : cplx) : signed_direction :=
  mksd (dir sd) (flipped sd) (cmul (phase sd) p).

(** ** One node of the chain *)

Record sym_link := mklink {
  g : int;
  S_table : table signed_direction;          (** [S[5]] *)
  ph : cplx;
  symmetry_point : Vec.vec;
  i_symmetry_point : IVec.ivec }.

Definition symmetry := list sym_link.

(** [FOR_DIRECTIONS(d) { S[d].d = d; S[d].flipped = false; }] *)
Definition identity_table : table signed_direction :=
  mktable (sd_of X) (sd_of Y) (sd_of Z) (sd_of R) (sd_of P).

Definition set_S_d (t : table signed_direction) (x v : direction) : table signed_direction :=
  let e := tget t x in tset t x (mksd v (flipped e) (phase e)).
Definition set_S_flipped (t : table signed_direction) (x : direction) (b : bool) : table signed_direction :=
  let e := tget t x in tset t x (mksd (dir e) b (phase e)).

(** [symmetry::symmetry()]: order 1, phase 1, no tail.  The fixed points
    are left uninitialised by the code; the model puts zeros of 1D there
    (the identity never reads them: [operator+] skips it). *)
Definition identity : symmetry :=
  [mklink 1 identity_table c1 (Vec.blank D1) (IVec.blank D1)].

(** [rotate4(axis, gv)]: a quarter turn about [axis] through [gv.center()]. *)
Definition rotate4 (axis : direction) (gv : GridVolume.grid_volume) : res symmetry :=
  if 2 <? dir_to_int axis then Fatal (Abort "Can only rotate4 in 2D or 3D.")
  else
    let a1 := dir_of_int ((dir_to_int axis + 1) mod 3) in
    let a2 := dir_of_int ((dir_to_int axis + 2) mod 3) in
    let t := set_S_flipped (set_S_d identity_table a1 a2) a1 true in
    let t := set_S_d t a2 a1 in
    Ok [mklink 4 t c1 (GridVolume.center gv) (GridVolume.icenter gv)].

(** [rotate2(axis, gv)]: a half turn about [axis]. *)
Definition rotate2 (axis : direction) (gv : GridVolume.grid_volume) : res symmetry :=
  if 2 <? dir_to_int axis then Fatal (Abort "Can only rotate2 in 2D or 3D.")
  else
    let a1 := dir_of_int ((dir_to_int axis + 1) mod 3) in
    let a2 := dir_of_int ((dir_to_int axis + 2) mod 3) in
    let t := set_S_flipped (set_S_flipped identity_table a1 true) a2 true in
    Ok [mklink 2 t c1 (GridVolume.center gv) (GridVolume.icenter gv)].

(** [mirror(axis, gv)]: the reflection [axis -> -axis].  [S[NO_DIRECTION]]
    is out of the array in C++; [tset] ignores it. *)
Definition mirror (axis : direction) (gv : GridVolume.grid_volume) : symmetry :=
  [mklink 2 (set_S_flipped identity_table axis true) c1 (GridVolume.center gv) (GridVolume.icenter gv)].

(** [r_to_minus_r_symmetry(m)] for an integer [m]: phase [(-1)^m]. *)
Definition r_to_minus_r_symmetry (m : int) : symmetry :=
  [mklink 2 (set_S_flipped (set_S_flipped identity_table R true) P true)
     (if Z.odd m then mkc (-1) 0 else c1) (Vec.zero_vec Dcyl) (IVec.zero_ivec Dcyl)].

(** [multiplicity()]: [next ? g*next->multiplicity() : g]. *)
Fixpoint multiplicity (s : symmetry) : int :=
  match s with
  | [] => 1
  | [l] => g l
  | l :: next => g l * multiplicity next
  end.

(** [operator+]: the identity is skipped; otherwise [b] is appended at the
    end of a copy of the chain. *)
Definition plus (a b : symmetry) : symmetry :=
  if multiplicity a =? 1 then b
  else if multiplicity b =? 1 then a
  else a ++ b.

(** [symmetry::operator*(complex p)]: the head's [ph *= p]. *)
Definition scale (s : symmetry) (p : cplx) : symmetry :=
  match s with
  | [] => []
  | l :: next => mklink (g l) (S_table l) (cmul (ph l) p) (symmetry_point l) (i_symmetry_point l) :: next
  end.

(** ** [transform(direction d, int n)] *)

(** [(nme, nrest)]: [n] split into the local count and the count passed
    to the tail; for [n < 0], [nme = (g - (-n) % g) % g], [nrest = -((-n)/g)]. *)
Definition local_counts (gg n : int) : int * int :=
  if n <? 0 then (Z.rem (gg - Z.rem (- n) gg) gg, - Z.quot (- n) gg)
  else (Z.rem n gg, Z.quot n gg).

Definition obind {A B} (m : option (res A)) (k : A -> option (res B)) : option (res B) :=
  match m with
  | None => None
  | Some (Fatal e) => Some (Fatal e)
  | Some (Ok a) => k a
  end.

(** The assignment [if (nme == 1) sd = S[d];] of the code is overwritten
    by the next statement on every path, and is omitted. *)
Fixpoint transform_fuel (fuel : nat) (s : symmetry) (d : direction) (n : int)
  : option (res signed_direction) :=
  match fuel with
  | O => None
  | Datatypes.S fuel' =>
      match s with
      | [] => Some (Fatal (NullDereference "symmetry::next"))
      | l :: next =>
          if (n =? 0) || bool_decide (d = NO_DIRECTION) then Some (Ok (sd_of d))
          else if g l =? 0 then Some (Fatal DivisionByZero)
          else
            let '(nme, nrest) := local_counts (g l) n in
            if nme =? 0 then
              if nrest =? 0 then Some (Ok (sd_of d)) else transform_fuel fuel' next d nrest
            else
              let e := tget (S_table l) d in
              obind (transform_fuel fuel' s (dir e) (nme - 1)) (fun r =>
                let sd := if flipped e then flip r else r in
                if negb (bool_decide (next = [])) && negb (nrest =? 0) then
                  obind (transform_fuel fuel' next (dir sd) nrest) (fun t =>
                    Some (Ok (sd_mul (if flipped sd then flip t else t) (ph l))))
                else Some (Ok (sd_mul sd (ph l))))
      end
  end.

Definition transform_bound (s : symmetry) : nat :=
  Datatypes.S (fold_right (fun l acc => (Z.to_nat (g l) + acc)%nat) 0%nat s).

Definition transform (s : symmetry) (d : direction) (n : int) : res signed_direction :=
  match transform_fuel (transform_bound s) s d n with
  | Some r => r
  | None => Fatal (Abort "fuel")
  end.

(** ** The action on points, volumes and components *)

(** The node a method runs on: [*this]. *)
Definition this (s : symmetry) : res sym_link :=
  match s with [] => Fatal (NullDereference "this") | l :: _ => Ok l end.

(** [transform(const ivec &ov, int n)]: each active direction [d] is sent
    to [S.d] about the lattice fixed point, negated when flipped. *)
Definition transform_ivec (s : symmetry) (ov : IVec.ivec) (n : int) : res IVec.ivec :=
  if n =? 0 then Ok ov
  else
    let* l := this s in
    res_fold_left (fun out d =>
      let* sd := transform s d n in
      let sp_d := IVec.in_direction (i_symmetry_point l) d in
      let sp_sd := IVec.in_direction (i_symmetry_point l) (dir sd) in
      let delta := IVec.in_direction ov d - sp_d in
      Ok (IVec.set_direction out (dir sd) (if flipped sd then sp_sd - delta else sp_sd + delta)))
      (loop_dirs (IVec.dim ov)) ov.

(** [transform_unshifted(const ivec &ov, int n)]: the same about the origin. *)
Definition transform_unshifted (s : symmetry) (ov : IVec.ivec) (n : int) : res IVec.ivec :=
  if n =? 0 then Ok ov
  else
    res_fold_left (fun out d =>
      let* sd := transform s d n in
      Ok (IVec.set_direction out (dir sd)
            (if flipped sd then - IVec.in_direction ov d else IVec.in_direction ov d)))
      (loop_dirs (IVec.dim ov)) (IVec.blank (IVec.dim ov)).

(** [transform(const vec &ov, int n)]: [symmetry_point + delta]. *)
Definition transform_vec (s : symmetry) (ov : Vec.vec) (n : int) : res Vec.vec :=
  if n =? 0 then Ok ov
  else
    let* l := this s in
    let* delta := res_fold_left (fun delta d =>
      let* sd := transform s d n in
      let deltad := (Vec.in_direction ov d - Vec.in_direction (symmetry_point l) d)%Q in
      Ok (Vec.set_direction delta (dir sd) (if flipped sd then (- deltad)%Q else deltad)))
      (loop_dirs (Vec.dim ov)) ov in
    Ok (Vec.add (symmetry_point l) delta).

(** [transform(const volume &v, int n)]: both corners, re-sorted by the
    [volume] constructor. *)
Definition transform_volume (s : symmetry) (v : Volume.volume) (n : int) : res Volume.volume :=
  let* a := transform_vec s (Volume.min_corner v) n in
  let* b := transform_vec s (Volume.max_corner v) n in
  Ok (Volume.make a b).

(** [transform(component c, int n)] and its [derived_component] and
    [int c] overloads. *)
Definition transform_component (s : symmetry) (c : component) (n : int) : res component :=
  let* sd := transform s (component_direction c) n in
  direction_component c (dir sd).

Definition transform_derived (s : symmetry) (c : derived_component) (n : int) : res derived_component :=
  let* sd := transform s (derived_direction c) n in
  derived_direction_component c (dir sd).

Definition transform_any (s : symmetry) (c : any_component) (n : int) : res any_component :=
  match c with
  | Comp c => res_map Comp (transform_component s c n)
  | Derived c => res_map Derived (transform_derived s c n)
  end.

(** The handedness test of [phase_shift]: over [FOR_DIRECTIONS(d)], every
    flipped image negates [flip], and [shift = (S.d - d + 6) % 3] records
    whether shifts 1 and 2 both occur. *)
Definition handedness (s : symmetry) (n : int) (flip0 : bool) : res bool :=
  let* acc := res_fold_left (fun '(fl, one, two) d =>
      let* sd := transform s d n in
      let shift := Z.rem (dir_to_int (dir sd) - dir_to_int d + 6) 3 in
      Ok (if flipped sd then negb fl else fl, one || (shift =? 1), two || (shift =? 2)))
    all_dirs (flip0, false, false) in
  let '(fl, one, two) := acc in
  Ok (if one && two then negb fl else fl).

(** [phase_shift(component c, int n)] *)
Definition phase_shift (s : symmetry) (c : component) (n : int) : res cplx :=
  if bool_decide (c = Dielectric) || bool_decide (c = Permeability) then Ok c1
  else
    let* sd := transform s (component_direction c) n in
    let* fl := if is_magnetic c || is_B c then handedness s n (flipped sd) else Ok (flipped sd) in
    Ok (if fl then cneg (phase sd) else phase sd).

(** [phase_shift(derived_component c, int n)]: Poynting components pick up
    [|phase|^2] with the flip; energy densities are invariant. *)
Definition phase_shift_derived (s : symmetry) (c : derived_component) (n : int) : res cplx :=
  if is_poynting c then
    let* ds := transform s (derived_direction c) n in
    let p := cmul (cconj (phase ds)) (phase ds) in
    Ok (if flipped ds then cneg p else p)
  else Ok c1.

Definition phase_shift_any (s : symmetry) (c : any_component) (n : int) : res cplx :=
  match c with
  | Comp c => phase_shift s c n
  | Derived c => phase_shift_derived s c n
  end.

(** [is_primitive(const ivec &p)]: no image under elements [1 .. mult-1]
    precedes [p] in the order of its dimension. *)
Definition precedes (dm : ndim) (p pp : IVec.ivec) : bool :=
  let x := IVec.in_direction p X in let y := IVec.in_direction p Y in
  let z := IVec.in_direction p Z in
  let x' := IVec.in_direction pp X in let y' := IVec.in_direction pp Y in
  let z' := IVec.in_direction pp Z in
  match dm with
  | D2 => (x' + y' <? x + y) || ((x' + y' =? x + y) && (x <? y) && (y' <=? x'))
  | D3 =>
      (x' + y' + z' <? x + y + z)
      || ((x' + y' + z' =? x + y + z) && (x' + y' - z' <? x + y - z))
      || ((x' + y' + z' =? x + y + z) && (x' + y' - z' =? x + y - z) && (x' - y' - z' <? x - y - z))
  | D1 | Dcyl => z' <? z
  end.

Fixpoint primitive_loop (s : symmetry) (p : IVec.ivec) (ns : list int) : res bool :=
  match ns with
  | [] => Ok true
  | i :: rest =>
      let* pp := transform_ivec s p i in
      if precedes (IVec.dim p) p pp then Ok false else primitive_loop s p rest
  end.

Definition is_primitive (s : symmetry) (p : IVec.ivec) : res bool :=
  if multiplicity s =? 1 then Ok true
  else primitive_loop s p (zrange 1 (multiplicity s)).

(** [symmetry::operator==]: equal multiplicities and equal images of every
    direction under every non-identity element. *)
Definition eqb (a b : symmetry) : res bool :=
  let gtot := multiplicity a in
  if negb (gtot =? multiplicity b) then Ok false
  else
    res_fold_left (fun acc sn =>
      if negb acc then Ok false
      else res_fold_left (fun acc d =>
             if negb acc then Ok false
             else let* x := transform a d sn in
                  let* y := transform b d sn in
                  Ok (bool_decide (x = y))) all_dirs true)
      (zrange 1 gtot) true.

(** ** The reference for the handedness test: the sign of a determinant

    The image of a group element on [X, Y, Z, R, P] is a signed
    permutation matrix [M]; a pseudovector picks up [det M] on top of the
    vector's sign.  [det M] is negative when the permutation of [X, Y, Z]
    is odd (its inversions) or when an odd number of images is flipped. *)
Definition inversion (u v : direction) : bool := dir_to_int v <? dir_to_int u.

Definition perm_odd (a b c : direction) : bool :=
  xorb (inversion a b) (xorb (inversion a c) (inversion b c)).

Definition perms3 : list (direction * direction * direction) :=
  [(X, Y, Z); (X, Z, Y); (Y, X, Z); (Y, Z, X); (Z, X, Y); (Z, Y, X)].

Definition det_negative (a b c : direction) (fx fy fz fr fp : bool) : bool :=
  xorb (perm_odd a b c) (xorb fx (xorb fy (xorb fz (xorb fr fp)))).

(** ** The reference: the chain as a group element in mixed radix

    Element [n] of a chain [l :: next] applies the generator [l] to the
    power [n mod g] and then element [n / g] of the tail, composing the
    flips (exclusive or) and multiplying the phases. *)

(** [compose r t]: first [r], then [t] applied to [dir r]. *)
Definition compose (r t : signed_direction) : signed_direction :=
  mksd (dir t) (xorb (flipped r) (flipped t)) (cmul (phase r) (phase t)).

(** The generator applied [k] times: the one-step image [S[d]], then
    [k - 1] more steps, one factor [ph] per step. *)
Fixpoint gen_pow (l : sym_link) (d : direction) (k : nat) : signed_direction :=
  match k with
  | O => sd_of d
  | Datatypes.S k' =>
      if bool_decide (d = NO_DIRECTION) then sd_of d
      else
        let e := tget (S_table l) d in
        let r := gen_pow l (dir e) k' in
        sd_mul (if flipped e then flip r else r) (ph l)
  end.

Fixpoint ref_transform (s : symmetry) (d : direction) (n : int) : signed_direction :=
  match s with
  | [] => sd_of d
  | l :: next =>
      let r := gen_pow l d (Z.to_nat (n mod g l)) in
      compose r (ref_transform next (dir r) (n / g l))
  end.

(** [a] to the power [k]. *)
Fixpoint cpow (a : cplx) (k : nat) : cplx :=
  match k with O => c1 | Datatypes.S k => cmul (cpow a k) a end.

(** Chains built by the constructors and [operator+]: every order is positive. *)
Definition chain_ok (s : symmetry) : Prop := Forall (fun l => 1 <= g l) s.

(** The chains on which the code's phase is the group element's phase:
    every node followed by a tail has order at most 2 or phase 1. *)
Fixpoint phase_ok (s : symmetry) : Prop :=
  match s with
  | [] => True
  | [_] => True
  | l :: next => (g l <= 2 \/ ph l = c1) /\ phase_ok next
  end.

(** Every node sends every direction to a direction (the constructors'
    tables hold no [NO_DIRECTION]). *)
Definition dirs_ok (s : symmetry) : Prop :=
  Forall (fun l => forall d, d <> NO_DIRECTION -> dir (tget (S_table l) d) <> NO_DIRECTION) s.

(** The kind of a field component: E, H, D, B or a material constant. *)
Definition kind (c : component) : bool * bool * bool * bool :=
  (is_electric c, is_magnetic c, is_D c, is_B c).

(** ** Lemmas on phases, composition and the reference *)

Lemma cmul_1_l a : cmul c1 a = a.
Proof. destruct a; unfold cmul, c1; simpl; f_equal; lia. Qed.

Lemma cmul_1_r a : cmul a c1 = a.
Proof. destruct a; unfold cmul, c1; simpl; f_equal; lia. Qed.

Lemma cplx_mul_comm a b : cmul a b = cmul b a.
Proof. destruct a, b; unfold cmul; simpl; f_equal; lia. Qed.

Lemma compose_sd_of_l d t : compose (sd_of d) t = t.
Proof. destruct t. unfold compose. simpl. rewrite cmul_1_l. reflexivity. Qed.

Lemma compose_sd_of_r r : compose r (sd_of (dir r)) = r.
Proof. destruct r as [d f p]. unfold compose. simpl. rewrite cmul_1_r, xorb_false_r. reflexivity. Qed.

Lemma gen_pow_no l k : gen_pow l NO_DIRECTION k = sd_of NO_DIRECTION.
Proof. destruct k; reflexivity. Qed.

Lemma ref_no s n : ref_transform s NO_DIRECTION n = sd_of NO_DIRECTION.
Proof.
  revert n. induction s as [|l s IH]; intros n; [reflexivity|].
  cbn [ref_transform]. rewrite gen_pow_no. simpl. rewrite IH. reflexivity.
Qed.

Lemma ref_zero s d : ref_transform s d 0 = sd_of d.
Proof.
  revert d. induction s as [|l s IH]; intros d; [reflexivity|].
  cbn [ref_transform]. rewrite Zmod_0_l, Zdiv_0_l. simpl. rewrite IH. reflexivity.
Qed.

Lemma gen_pow_phase_one l d k : ph l = c1 -> phase (gen_pow l d k) = c1.
Proof.
  intros Hph. revert d. induction k as [|k IH]; intros d; [reflexivity|].
  cbn [gen_pow]. case_bool_decide; [reflexivity|].
  simpl. rewrite Hph, cmul_1_r. destruct (flipped _); apply IH.
Qed.

Lemma local_counts_nonneg gg n : 0 <= n -> 0 < gg -> local_counts gg n = (n mod gg, n / gg).
Proof.
  intros. unfold local_counts. destruct (Z.ltb_spec n 0); [lia|].
  rewrite Z.rem_mod_nonneg, Z.quot_div_nonneg by lia. reflexivity.
Qed.

Lemma multiplicity_cons l next : multiplicity (l :: next) = g l * multiplicity next.
Proof. destruct next; simpl; lia. Qed.

Lemma multiplicity_pos s : chain_ok s -> 1 <= multiplicity s.
Proof.
  induction 1 as [|l s Hl Hs IH]; [simpl; lia|]. rewrite multiplicity_cons. nia.
Qed.

Lemma phase_ok_tail l next : phase_ok (l :: next) -> phase_ok next.
Proof. destruct next; simpl; tauto. Qed.

(** Within one node, [transform(d, k)] for [0 <= k < g] is the generator to the power [k]. *)
Lemma transform_local l next d k f :
  1 <= g l -> Z.of_nat k < g l -> (k < f)%nat ->
  transform_fuel f (l :: next) d (Z.of_nat k) = Some (Ok (gen_pow l d k)).
Proof.
  revert d f. induction k as [|k IH]; intros d f Hg Hk Hf; (destruct f as [|f]; [lia|]);
    cbn [transform_fuel]; [reflexivity|].
  destruct (Z.eqb_spec (Z.of_nat (Datatypes.S k)) 0); [lia|]. cbn [orb].
  case_bool_decide as Hd; [subst; reflexivity|].
  destruct (Z.eqb_spec (g l) 0); [lia|]. rewrite local_counts_nonneg by lia.
  rewrite Z.mod_small, Z.div_small by lia. cbn iota beta zeta.
  destruct (Z.eqb_spec (Z.of_nat (Datatypes.S k)) 0); [lia|].
  replace (Z.of_nat (Datatypes.S k) - 1) with (Z.of_nat k) by lia.
  rewrite IH by lia. cbn [obind]. rewrite andb_false_r.
  cbn [gen_pow]. rewrite bool_decide_false by exact Hd. reflexivity.
Qed.
(** The code's [transform] on a chain agrees with the reference on the
    direction and the flip of every group element; on the chains of
    [phase_ok] it agrees on the phase too. *)
Lemma transform_fuel_ref s : forall f d n,
  chain_ok s -> s <> [] -> 0 <= n < multiplicity s -> (transform_bound s <= f)%nat ->
  exists r, transform_fuel f s d n = Some (Ok r)
    /\ dir r = dir (ref_transform s d n) /\ flipped r = flipped (ref_transform s d n)
    /\ (phase_ok s -> r = ref_transform s d n).
Proof.
  induction s as [|l next IH]; intros f d n Hok Hne Hn Hf; [congruence|].
  inversion Hok as [|? ? Hg Hok']; subst.
  rewrite multiplicity_cons in Hn. pose proof (multiplicity_pos next Hok').
  unfold transform_bound in Hf. cbn [fold_right] in Hf.
  destruct f as [|f]; [lia|]. cbn [transform_fuel ref_transform].
  destruct (Z.eqb_spec n 0) as [->|Hn0].
  { exists (sd_of d). rewrite <- (ref_zero (l :: next) d). auto. }
  case_bool_decide as Hd.
  { subst. exists (sd_of NO_DIRECTION). rewrite <- (ref_no (l :: next) n). auto. }
  destruct (Z.eqb_spec (g l) 0); [lia|]. rewrite local_counts_nonneg by lia. cbn iota beta zeta.
  pose proof (Z.mod_pos_bound n (g l) ltac:(lia)) as Hm.
  assert (Hq : 0 <= n / g l < multiplicity next) by (split; [apply Z.div_pos|apply Z.div_lt_upper_bound]; lia).
  assert (Hnq : next = [] -> n / g l = 0) by (intros ->; simpl in Hq; lia).
  assert (Hfq : (transform_bound next <= f)%nat) by (unfold transform_bound; lia).
  destruct (Z.eqb_spec (n mod g l) 0) as [Hm0|Hm0].
  - assert (Hq0 : n / g l <> 0) by (intros E; pose proof (Z.div_mod n (g l)); lia).
    destruct (Z.eqb_spec (n / g l) 0); [contradiction|].
    assert (Hnn : next <> []) by (intros E; apply Hq0, Hnq, E).
    destruct (IH f d (n / g l) Hok' Hnn Hq Hfq) as (r & Hr & H1 & H2 & H3).
    exists r. rewrite Hm0. change (Z.to_nat 0) with 0%nat. cbn [gen_pow orb]. rewrite compose_sd_of_l.
    split; [exact Hr|]. split; [exact H1|]. split; [exact H2|].
    intros Hp. apply H3, (phase_ok_tail l), Hp.
  - set (e := tget (S_table l) d).
    rewrite <- (Z2Nat.id (n mod g l - 1)) by lia.
    rewrite transform_local by lia. cbn [obind].
    replace (Z.to_nat (n mod g l)) with (Datatypes.S (Z.to_nat (n mod g l - 1))) by lia.
    cbn [gen_pow]. rewrite (bool_decide_false (d = NO_DIRECTION)) by exact Hd. fold e.
    set (r0 := gen_pow l (dir e) (Z.to_nat (n mod g l - 1))).
    set (sd := if flipped e then flip r0 else r0).
    destruct (decide (next = [])) as [En|En].
    + rewrite (Hnq En), bool_decide_true by exact En. cbn [negb andb].
      rewrite ref_zero, compose_sd_of_r. eexists. split; [reflexivity|]. auto.
    + rewrite bool_decide_false by exact En. cbn [negb andb].
      destruct (Z.eqb_spec (n / g l) 0) as [Eq|Eq].
      * rewrite Eq, ref_zero, compose_sd_of_r. eexists. split; [reflexivity|]. auto.
      * destruct (IH f (dir sd) (n / g l) Hok' En Hq Hfq) as (t & Ht & H1 & H2 & H3).
        cbn [negb]. rewrite Ht. cbn [obind]. eexists. split; [reflexivity|].
        unfold compose, sd_mul. simpl. rewrite <- H1, <- H2.
        split; [destruct (flipped sd); reflexivity|]. split; [destruct (flipped sd); reflexivity|].
        intros Hp. assert (Hp' : phase_ok next) by (apply (phase_ok_tail l), Hp).
        rewrite <- (H3 Hp').
        assert (Hsd : phase sd = c1).
        { destruct next as [|l' next']; [contradiction|]. destruct Hp as [[Hg2|Hph] _].
          - assert (n mod g l = 1) as E1 by lia. unfold sd, r0. rewrite E1. simpl.
            destruct (flipped e); reflexivity.
          - unfold sd. destruct (flipped e); apply gen_pow_phase_one, Hph. }
        rewrite Hsd, cmul_1_l. destruct t as [td tf tp], (flipped sd); simpl; f_equal; apply cplx_mul_comm.
Qed.

(** ** Correctness of [transform(direction, n)] *)

(** C6. On a chain of generators of positive order, [transform(d, n)]
    for [0 <= n < multiplicity()] returns (no null dereference, no
    division by zero, the recursion terminates) the direction and the
    flip of group element [n]: the generator powers [n mod g] of the
    nodes in mixed radix, composed in chain order. *)
Theorem transform_refines s d n :
  chain_ok s -> s <> [] -> 0 <= n < multiplicity s ->
  exists r, transform s d n = Ok r
    /\ dir r = dir (ref_transform s d n) /\ flipped r = flipped (ref_transform s d n).
Proof.
  intros Hok Hne Hn. destruct (transform_fuel_ref s (transform_bound s) d n Hok Hne Hn (le_n _))
    as (r & Hr & H1 & H2 & _).
  exists r. unfold transform. rewrite Hr. auto.
Qed.

(** C7. On the chains where every node followed by a tail has order at
    most 2 or phase 1 (every chain of mirrors, half turns and
    [r_to_minus_r_symmetry], and every single generator), the phase is
    the group element's too: [transform] is exactly the reference. *)
Theorem transform_phase_exact s d n :
  chain_ok s -> s <> [] -> phase_ok s -> 0 <= n < multiplicity s ->
  transform s d n = Ok (ref_transform s d n).
Proof.
  intros Hok Hne Hp Hn. destruct (transform_fuel_ref s (transform_bound s) d n Hok Hne Hn (le_n _))
    as (r & Hr & _ & _ & H3).
  unfold transform. rewrite Hr, (H3 Hp). reflexivity.
Qed.

(** The phase of [k] steps of a generator is its phase to the power [k]. *)
Lemma gen_pow_phase l d k :
  (forall d, d <> NO_DIRECTION -> dir (tget (S_table l) d) <> NO_DIRECTION) -> d <> NO_DIRECTION ->
  phase (gen_pow l d k) = cpow (ph l) k.
Proof.
  intros Hl. revert d. induction k as [|k IH]; intros d Hd; [reflexivity|].
  cbn [gen_pow]. rewrite bool_decide_false by exact Hd.
  cbn. rewrite <- (IH _ (Hl d Hd)). destruct (flipped _); reflexivity.
Qed.

(** On a chain of generators of positive order, [transform(d, multiplicity())]
    reaches the tail of the last node with [nrest = 1]. *)
Lemma transform_fuel_null s f d :
  chain_ok s -> d <> NO_DIRECTION -> (transform_bound s <= f)%nat ->
  transform_fuel f s d (multiplicity s) = Some (Fatal (NullDereference "symmetry::next")).
Proof.
  revert f d. induction s as [|l next IH]; intros f d Hok Hd Hf.
  - unfold transform_bound in Hf. destruct f; [simpl in Hf; lia|]. reflexivity.
  - inversion Hok as [|? ? Hg Hok']; subst. pose proof (multiplicity_pos next Hok').
    unfold transform_bound in Hf. cbn [fold_right] in Hf.
    destruct f as [|f]; [lia|]. cbn [transform_fuel]. rewrite multiplicity_cons.
    destruct (Z.eqb_spec (g l * multiplicity next) 0); [nia|].
    rewrite bool_decide_false by exact Hd. cbn [orb].
    destruct (Z.eqb_spec (g l) 0); [lia|]. rewrite local_counts_nonneg by nia.
    rewrite Z.mul_comm, Z_mod_mult, Z_div_mult by lia. cbn iota beta zeta.
    destruct (Z.eqb_spec (multiplicity next) 0); [lia|].
    apply IH; [exact Hok'|exact Hd|unfold transform_bound; lia].
Qed.

(** C12. The phase of a chained element drops the generator's power.
    For a head generator [l] followed by a tail on which the code is
    exact, and an element [n] whose own part [nme = n mod g] is non-zero
    and whose tail part [n / g] is non-zero (the branch [next && nrest]
    of line 1220), [transform(d, n)] returns the right direction and
    flip, but the group element's phase is the code's phase times
    [ph^(nme - 1)]: the phase [sd] carries from the [nme - 1] recursive
    steps is thrown away.  The code is right exactly when that power
    is 1 (order at most 2, or phase 1). *)
Theorem transform_phase_dropped l next d n :
  chain_ok (l :: next) -> dirs_ok (l :: next) -> phase_ok next -> next <> [] -> d <> NO_DIRECTION ->
  0 <= n < multiplicity (l :: next) -> n / g l <> 0 -> n mod g l <> 0 ->
  exists r, transform (l :: next) d n = Ok r
    /\ dir r = dir (ref_transform (l :: next) d n) /\ flipped r = flipped (ref_transform (l :: next) d n)
    /\ phase (ref_transform (l :: next) d n) = cmul (phase r) (cpow (ph l) (Z.to_nat (n mod g l - 1))).
Proof.
  intros Hok Hdirs Hp Hne Hd Hn Hq Hm.
  inversion Hok as [|? ? Hg Hok']; subst. inversion Hdirs as [|? ? Hl Hdirs']; subst.
  rewrite multiplicity_cons in Hn. pose proof (multiplicity_pos next Hok').
  pose proof (Z.mod_pos_bound n (g l) ltac:(lia)) as Hmb.
  assert (Hqb : 0 <= n / g l < multiplicity next) by (split; [apply Z.div_pos|apply Z.div_lt_upper_bound]; lia).
  unfold transform, transform_bound. cbn [fold_right transform_fuel].
  destruct (Z.eqb_spec n 0) as [->|]; [rewrite Zdiv_0_l in Hq; congruence|].
  rewrite bool_decide_false by exact Hd. cbn [orb].
  destruct (Z.eqb_spec (g l) 0); [lia|]. rewrite local_counts_nonneg by lia. cbn iota beta zeta.
  destruct (Z.eqb_spec (n mod g l) 0); [contradiction|].
  set (e := tget (S_table l) d).
  rewrite <- (Z2Nat.id (n mod g l - 1)) by lia.
  rewrite transform_local by lia. cbn [obind].
  rewrite bool_decide_false by exact Hne. destruct (Z.eqb_spec (n / g l) 0); [contradiction|]. cbn [negb andb].
  set (r0 := gen_pow l (dir e) (Z.to_nat (n mod g l - 1))).
  set (sd := if flipped e then flip r0 else r0).
  destruct (transform_fuel_ref next (Z.to_nat (g l) + fold_right (fun l acc => (Z.to_nat (g l) + acc)%nat) 0%nat next)
              (dir sd) (n / g l) Hok' Hne Hqb ltac:(unfold transform_bound; lia)) as (t & Ht & _ & _ & Hteq).
  rewrite Ht. cbn [obind]. eexists. split; [reflexivity|].
  rewrite (Hteq Hp).
  cbn [ref_transform].
  replace (Z.to_nat (n mod g l)) with (Datatypes.S (Z.to_nat (n mod g l - 1))) by lia.
  cbn [gen_pow]. rewrite bool_decide_false by exact Hd. fold e. fold r0.
  pose proof (gen_pow_phase l (dir e) (Z.to_nat (n mod g l - 1)) Hl (Hl d Hd)) as Hr0. fold r0 in Hr0.
  unfold sd. clearbody r0. rewrite Nat2Z.id, <- Hr0.
  destruct (flipped e); cbn [flip sd_mul compose dir flipped phase];
    generalize (ref_transform next (dir r0) (n / g l)); intros [td tf [a b]];
    destruct (flipped r0), (phase r0) as [u v], (ph l) as [c d'];
    cbn; (split; [reflexivity|]); (split; [reflexivity|]); unfold cmul; cbn; f_equal; ring.
Qed.

(** C13. [transform(d, n)] is not periodic in [n] with period
    [multiplicity()]: on every chain of generators of positive order,
    [transform(d, 0)] is the identity, but [transform(d,
    multiplicity())] passes [nrest = 1] down to the last node, which
    calls [next->transform] through the null [next] pointer. *)
Theorem transform_not_periodic s d :
  chain_ok s -> s <> [] -> d <> NO_DIRECTION ->
  transform s d 0 = Ok (sd_of d)
  /\ transform s d (multiplicity s) = Fatal (NullDereference "symmetry::next").
Proof.
  intros Hok Hne Hd. split.
  - destruct s as [|l s]; [congruence|]. unfold transform, transform_bound. reflexivity.
  - unfold transform. rewrite (transform_fuel_null s) by (auto || lia). reflexivity.
Qed.

(** ** The handedness test computes the determinant *)

Lemma handedness_det s n f0 a b c fx fy fz fr fp px py pz pr pp :
  In (a, b, c) perms3 ->
  transform s X n = Ok (mksd a fx px) -> transform s Y n = Ok (mksd b fy py) ->
  transform s Z n = Ok (mksd c fz pz) -> transform s R n = Ok (mksd R fr pr) ->
  transform s P n = Ok (mksd P fp pp) ->
  handedness s n f0 = Ok (xorb f0 (det_negative a b c fx fy fz fr fp)).
Proof.
  intros Hp HX HY HZ HR HP. unfold handedness, all_dirs. cbn [res_fold_left].
  rewrite HX. cbn. rewrite HY. cbn. rewrite HZ. cbn. rewrite HR. cbn. rewrite HP. cbn.
  simpl in Hp. unfold det_negative, perm_odd, inversion.
  destruct Hp as [E|[E|[E|[E|[E|[E|[]]]]]]]; injection E as <- <- <-;
    destruct f0, fx, fy, fz, fr, fp; reflexivity.
Qed.

(** C9. [phase_shift] follows the transformation rules of vectors and
    pseudovectors: under a group element acting on [X, Y, Z] as a signed
    permutation (and on [R], [P] as signs), an electric or D component
    picks up the sign of its own image, and a magnetic or B component
    additionally the sign of [det M] (the shift test of the code computes
    it), times the element's phase. *)
Theorem phase_shift_pseudovector s n c a b cz fx fy fz fr fp px py pz pr pp sd :
  In (a, b, cz) perms3 ->
  transform s X n = Ok (mksd a fx px) -> transform s Y n = Ok (mksd b fy py) ->
  transform s Z n = Ok (mksd cz fz pz) -> transform s R n = Ok (mksd R fr pr) ->
  transform s P n = Ok (mksd P fp pp) ->
  transform s (component_direction c) n = Ok sd ->
  c <> Dielectric -> c <> Permeability ->
  phase_shift s c n =
    Ok (let neg := if is_magnetic c || is_B c
                   then xorb (flipped sd) (det_negative a b cz fx fy fz fr fp)
                   else flipped sd in
        if neg then cneg (phase sd) else phase sd).
Proof.
  intros Hp HX HY HZ HR HP Hc Hd Hm. unfold phase_shift.
  rewrite (bool_decide_false (c = Dielectric)), (bool_decide_false (c = Permeability)) by assumption.
  cbn [orb]. rewrite Hc. cbn [res_bind].
  destruct (is_magnetic c || is_B c); [|reflexivity].
  rewrite (handedness_det s n (flipped sd) a b cz fx fy fz fr fp px py pz pr pp Hp HX HY HZ HR HP).
  reflexivity.
Qed.

(** ** Lattice points under generators of order 2 *)

Lemma transform_diag_one l d :
  2 <= g l -> d <> NO_DIRECTION -> dir (tget (S_table l) d) = d ->
  exists ph', transform [l] d 1 = Ok (mksd d (flipped (tget (S_table l) d)) ph').
Proof.
  intros Hg Hd Hdiag. unfold transform. change 1 with (Z.of_nat 1).
  rewrite transform_local by (unfold transform_bound; simpl; lia).
  cbn [gen_pow]. rewrite bool_decide_false by exact Hd. rewrite Hdiag.
  destruct (flipped (tget (S_table l) d)); eexists; reflexivity.
Qed.

(** C11. A generator of order 2 that sends every direction to itself
    ([mirror], [rotate2], [r_to_minus_r_symmetry]) acts on a lattice
    point [p] as the reflection through its symmetry point on the
    flipped axes: [transform(p, 1)] has coordinate [2 sp_d - p_d] on
    every active direction [d] whose image is flipped and [p_d] on the
    others, the same dimension, and applying it again gives [p] back. *)
Theorem transform_ivec_involutive l p :
  g l = 2 -> (forall d, d <> NO_DIRECTION -> dir (tget (S_table l) d) = d) ->
  exists q, transform_ivec [l] p 1 = Ok q
    /\ IVec.dim q = IVec.dim p
    /\ (forall d, In d (loop_dirs (IVec.dim p)) ->
          IVec.in_direction q d =
            if flipped (tget (S_table l) d)
            then 2 * IVec.in_direction (i_symmetry_point l) d - IVec.in_direction p d
            else IVec.in_direction p d)
    /\ transform_ivec [l] q 1 = Ok p.
Proof.
  intros Hg Hdiag.
  set (refl := fun (d : direction) (x : int) =>
         let sp := IVec.in_direction (i_symmetry_point l) d in
         if flipped (tget (S_table l) d) then sp - (x - sp) else sp + (x - sp)).
  assert (Hstep : forall v, transform_ivec [l] v 1 =
    Ok (fold_left (fun o d => IVec.set_direction o d (refl d (IVec.in_direction v d)))
          (loop_dirs (IVec.dim v)) v)).
  { intros v. unfold transform_ivec. cbn [Z.eqb this res_bind].
    rewrite <- res_fold_left_Ok. apply res_fold_left_ext. intros o d Hd.
    destruct (transform_diag_one l d ltac:(lia) (loop_dirs_not_no _ _ Hd) (Hdiag d (loop_dirs_not_no _ _ Hd)))
      as [ph' E].
    rewrite E. reflexivity. }
  destruct (ivec_set_fold (fun d => refl d (IVec.in_direction p d)) (loop_dirs (IVec.dim p)) p
              (loop_dirs_NoDup _) (loop_dirs_not_no _)) as [Dq Gq].
  eexists. split; [apply Hstep|]. split; [exact Dq|]. split.
  { intros d Hd. rewrite Gq by exact (loop_dirs_not_no _ _ Hd).
    destruct (decide (In d _)); [|contradiction]. unfold refl. destruct (flipped _); lia. }
  rewrite Hstep. f_equal.
  set (q := fold_left _ (loop_dirs (IVec.dim p)) p) in *. rewrite Dq.
  destruct (ivec_set_fold (fun d => refl d (IVec.in_direction q d)) (loop_dirs (IVec.dim p)) q
              (loop_dirs_NoDup _) (loop_dirs_not_no _)) as [Dr Gr].
  apply ivec_ext; [congruence|]. intros e He. rewrite Gr, Gq by exact He.
  destruct (decide (In e _)); [|reflexivity]. unfold refl. destruct (flipped _); lia.
Qed.

(** ** [operator+]: the direct product of the chains *)

Lemma cmul_assoc a b c : cmul a (cmul b c) = cmul (cmul a b) c.
Proof. destruct a, b, c; unfold cmul; simpl; f_equal; ring. Qed.

Lemma compose_assoc a b c : compose a (compose b c) = compose (compose a b) c.
Proof. unfold compose; simpl. rewrite cmul_assoc, xorb_assoc. reflexivity. Qed.

Lemma multiplicity_app a b : multiplicity (a ++ b) = multiplicity a * multiplicity b.
Proof.
  induction a as [|l a IH]; [simpl; lia|].
  rewrite <- app_comm_cons, !multiplicity_cons, IH. lia.
Qed.



Lemma ref_app a b d n :
  chain_ok a -> 0 <= n ->
  ref_transform (a ++ b) d n =
    compose (ref_transform a d (n mod multiplicity a))
            (ref_transform b (dir (ref_transform a d (n mod multiplicity a))) (n / multiplicity a)).
Proof.
  intros Ha. revert d n. induction Ha as [|l a Hl Ha IH]; intros d n Hn.
  - rewrite app_nil_l. change (multiplicity []) with 1. rewrite Z.mod_1_r, Z.div_1_r.
    cbn [ref_transform]. symmetry. apply compose_sd_of_l.
  - pose proof (multiplicity_pos a Ha). rewrite <- app_comm_cons, multiplicity_cons.
    cbn [ref_transform]. rewrite IH by (apply Z.div_pos; lia).
    rewrite mod_mul_r by lia. pose proof (Z.mod_pos_bound n (g l) ltac:(lia)).
    pose proof (Z.mod_pos_bound (n / g l) (multiplicity a) ltac:(lia)).
    set (x := n mod g l) in *. set (y := (n / g l) mod multiplicity a) in *.
    assert (E1 : (x + g l * y) mod g l = x)
      by (rewrite Z.mul_comm, Z.mod_add, Z.mod_small; lia).
    assert (E2 : (x + g l * y) / g l = y)
      by (rewrite Z.mul_comm, Z.div_add, Z.div_small; lia).
    rewrite E1, E2, <- Z.div_div by lia. rewrite compose_assoc. reflexivity.
Qed.

Lemma plus_multiplicity a b : multiplicity (plus a b) = multiplicity a * multiplicity b.
Proof.
  unfold plus. destruct (Z.eqb_spec (multiplicity a) 1) as [E|]; [lia|].
  destruct (Z.eqb_spec (multiplicity b) 1); [lia|]. apply multiplicity_app.
Qed.

Lemma chain_ok_plus a b : chain_ok a -> chain_ok b -> chain_ok (plus a b).
Proof.
  intros Ha Hb. unfold plus. destruct (_ =? 1); [exact Hb|].
  destruct (_ =? 1); [exact Ha|]. apply Forall_app. auto.
Qed.

Lemma dirs_ok_plus a b : dirs_ok a -> dirs_ok b -> dirs_ok (plus a b).
Proof.
  intros Ha Hb. unfold plus. destruct (_ =? 1); [exact Hb|].
  destruct (_ =? 1); [exact Ha|]. apply Forall_app. auto.
Qed.

Lemma chain_ok_mirror axis gv : chain_ok (mirror axis gv).
Proof. repeat constructor. simpl. lia. Qed.

Lemma dirs_ok_mirror axis gv : dirs_ok (mirror axis gv).
Proof.
  repeat constructor. intros d Hd. destruct axis, d; try congruence; simpl; discriminate.
Qed.

(** C8. [operator+] builds the product group: the sum has the product of
    the multiplicities, and its element [n] is element [n mod |a|] of [a]
    followed by element [n / |a|] of [b] (the identity summand is skipped
    without changing any element). *)
Theorem plus_refines a b d n :
  chain_ok a -> chain_ok b -> 0 <= n < multiplicity a * multiplicity b ->
  multiplicity (plus a b) = multiplicity a * multiplicity b
  /\ ref_transform (plus a b) d n =
     compose (ref_transform a d (n mod multiplicity a))
             (ref_transform b (dir (ref_transform a d (n mod multiplicity a))) (n / multiplicity a)).
Proof.
  intros Ha Hb Hn. split; [apply plus_multiplicity|].
  pose proof (multiplicity_pos a Ha). pose proof (multiplicity_pos b Hb).
  unfold plus. destruct (Z.eqb_spec (multiplicity a) 1) as [Ea|Ea].
  - rewrite Ea, Z.mod_1_r, Z.div_1_r, ref_zero. symmetry. apply compose_sd_of_l.
  - destruct (Z.eqb_spec (multiplicity b) 1) as [Eb|Eb].
    + rewrite Eb in Hn. rewrite (Z.mod_small n), (Z.div_small n), ref_zero by lia.
      symmetry. apply compose_sd_of_r.
    + apply ref_app; [exact Ha|lia].
Qed.

(** ** Components under the group *)

Lemma gen_pow_dir_ok l d k :
  (forall e, e <> NO_DIRECTION -> dir (tget (S_table l) e) <> NO_DIRECTION) ->
  d <> NO_DIRECTION -> dir (gen_pow l d k) <> NO_DIRECTION.
Proof.
  intros Hl. revert d. induction k as [|k IH]; intros d Hd; [exact Hd|].
  cbn [gen_pow]. rewrite bool_decide_false by exact Hd.
  destruct (flipped _); apply IH, Hl, Hd.
Qed.

Lemma ref_dir_ok s d n :
  dirs_ok s -> d <> NO_DIRECTION -> dir (ref_transform s d n) <> NO_DIRECTION.
Proof.
  intros Hs. revert d n. induction Hs as [|l s Hl Hs IH]; intros d n Hd; [exact Hd|].
  cbn [ref_transform]. apply IH, gen_pow_dir_ok; assumption.
Qed.

Lemma direction_component_ok c d :
  d <> NO_DIRECTION -> c <> Dielectric -> c <> Permeability ->
  exists c', direction_component c d = Ok c' /\ component_direction c' = d /\ kind c' = kind c.
Proof.
  intros Hd H1 H2.
  destruct c; try congruence; destruct d; try congruence; eexists; split; reflexivity || split; reflexivity.
Qed.

(** C10. [transform(component c, n)] never aborts on a group element: it
    returns a component of the same kind (E, H, D, B; [Dielectric] and
    [Permeability] to themselves) along the image of [c]'s direction. *)
Theorem transform_component_ok s c n :
  chain_ok s -> dirs_ok s -> s <> [] -> 0 <= n < multiplicity s ->
  exists c', transform_component s c n = Ok c'
    /\ component_direction c' = dir (ref_transform s (component_direction c) n)
    /\ kind c' = kind c.
Proof.
  intros Hok Hd Hne Hn.
  destruct (transform_refines s (component_direction c) n Hok Hne Hn) as (r & Hr & H1 & _).
  unfold transform_component. rewrite Hr. cbn [res_bind]. rewrite H1.
  destruct (decide (c = Dielectric \/ c = Permeability)) as [[->| ->]|Hc].
  - exists Dielectric. cbn [component_direction]. rewrite ref_no. auto.
  - exists Permeability. cbn [component_direction]. rewrite ref_no. auto.
  - apply direction_component_ok; [|tauto..]. apply ref_dir_ok; [exact Hd|].
    destruct c; try tauto; discriminate.
Qed.

(** ** Witnesses: the mirrors of a 4 x 4 planar grid *)

Ltac chain_ok_tac :=
  repeat first [apply chain_ok_plus | apply dirs_ok_plus | apply chain_ok_mirror | apply dirs_ok_mirror].

(** The quarter turn about Z with phase -1 followed by the mirror Z:
    element 6 (the half turn, then the mirror) comes out with phase -1,
    the group element has phase +1. *)
Lemma transform_phase_dropped_witness :
  match rotate4 Z (GridVolume.make D3 (10#1) 4 4 4) with
  | Ok s4 =>
      match plus (scale s4 (mkc (-1) 0)) (mirror Z (GridVolume.make D3 (10#1) 4 4 4)) with
      | l :: next =>
          exists r, transform (l :: next) X 6 = Ok r /\ phase r = mkc (-1) 0
            /\ phase (ref_transform (l :: next) X 6) = cmul (phase r) (cpow (ph l) (Z.to_nat (6 mod g l - 1)))
      | [] => False
      end
  | Fatal _ => False
  end.
Proof.
  destruct (rotate4 Z _) as [s4|] eqn:E; [|vm_compute in E; discriminate].
  vm_compute in E. injection E as <-.
  destruct (plus _ _) as [|l next] eqn:Ech; [vm_compute in Ech; discriminate|].
  vm_compute in Ech. injection Ech as <- <-.
  lazymatch goal with |- exists r, transform (?l :: ?nx) X 6 = _ /\ _ =>
    assert (Hc : chain_ok (l :: nx)) by (unfold chain_ok; apply (bool_decide_unpack _); vm_compute; reflexivity);
    assert (Hds : dirs_ok (l :: nx)) by (unfold dirs_ok; apply List.Forall_forall; intros x Hx d Hd;
      repeat (destruct Hx as [<-|Hx]; [destruct d; vm_compute; congruence|]); destruct Hx);
    assert (Hpo : phase_ok nx) by (vm_compute; tauto);
    destruct (transform_phase_dropped l nx X 6 Hc Hds Hpo) as (r & Hr & _ & _ & Hph)
  end; [discriminate|discriminate|vm_compute; split; [discriminate|reflexivity]|vm_compute; discriminate|vm_compute; discriminate|].
  exists r. split; [exact Hr|]. split; [|exact Hph].
  vm_compute in Hr. injection Hr as <-. reflexivity.
Defined.

Lemma transform_not_periodic_witness :
  transform (mirror X (GridVolume.make D2 (10#1) 4 4 0)) X 0 = Ok (sd_of X)
  /\ transform (mirror X (GridVolume.make D2 (10#1) 4 4 0)) X (multiplicity (mirror X (GridVolume.make D2 (10#1) 4 4 0)))
     = Fatal (NullDereference "symmetry::next").
Proof.
  apply transform_not_periodic; [apply chain_ok_mirror|vm_compute; discriminate|discriminate].
Defined.

Lemma transform_refines_witness :
  exists r, transform (plus (mirror X (GridVolume.make D2 (10#1) 4 4 0)) (mirror Y (GridVolume.make D2 (10#1) 4 4 0))) X 3 = Ok r
    /\ dir r = dir (ref_transform (plus (mirror X (GridVolume.make D2 (10#1) 4 4 0)) (mirror Y (GridVolume.make D2 (10#1) 4 4 0))) X 3)
    /\ flipped r = flipped (ref_transform (plus (mirror X (GridVolume.make D2 (10#1) 4 4 0)) (mirror Y (GridVolume.make D2 (10#1) 4 4 0))) X 3).
Proof.
  apply transform_refines; [chain_ok_tac | vm_compute; discriminate | split; [lia | vm_compute; reflexivity]].
Defined.

Lemma transform_phase_exact_witness :
  transform (plus (mirror X (GridVolume.make D2 (10#1) 4 4 0)) (mirror Y (GridVolume.make D2 (10#1) 4 4 0))) Y 2
  = Ok (ref_transform (plus (mirror X (GridVolume.make D2 (10#1) 4 4 0)) (mirror Y (GridVolume.make D2 (10#1) 4 4 0))) Y 2).
Proof.
  apply transform_phase_exact;
    [chain_ok_tac | vm_compute; discriminate | vm_compute; split; [left; intros H; discriminate H | exact I]
    | split; [lia | vm_compute; reflexivity]].
Defined.

Lemma phase_shift_pseudovector_witness :
  phase_shift (mirror X (GridVolume.make D2 (10#1) 4 4 0)) Hy 1 = Ok (cneg c1).
Proof.
  rewrite (phase_shift_pseudovector (mirror X (GridVolume.make D2 (10#1) 4 4 0)) 1 Hy X Y Z
             true false false false false c1 c1 c1 c1 c1 (mksd Y false c1));
    [vm_compute; reflexivity | simpl; tauto | vm_compute; reflexivity.. | discriminate | discriminate].
Defined.

Lemma transform_ivec_involutive_witness :
  exists q,
    transform_ivec [mklink 2 (set_S_flipped identity_table X true) c1
                      (GridVolume.center (GridVolume.make D2 (10#1) 4 4 0))
                      (GridVolume.icenter (GridVolume.make D2 (10#1) 4 4 0))] (IVec.ivec2 3 5) 1 = Ok q
    /\ transform_ivec [mklink 2 (set_S_flipped identity_table X true) c1
                      (GridVolume.center (GridVolume.make D2 (10#1) 4 4 0))
                      (GridVolume.icenter (GridVolume.make D2 (10#1) 4 4 0))] q 1 = Ok (IVec.ivec2 3 5).
Proof.
  destruct (transform_ivec_involutive
    (mklink 2 (set_S_flipped identity_table X true) c1
       (GridVolume.center (GridVolume.make D2 (10#1) 4 4 0))
       (GridVolume.icenter (GridVolume.make D2 (10#1) 4 4 0))) (IVec.ivec2 3 5)
    ltac:(reflexivity) ltac:(intros d Hd; destruct d; reflexivity || congruence)) as (q & H1 & _ & _ & H4).
  exists q. split; [exact H1|exact H4].
Defined.

Lemma plus_refines_witness :
  multiplicity (plus (mirror X (GridVolume.make D2 (10#1) 4 4 0)) (mirror Y (GridVolume.make D2 (10#1) 4 4 0))) = 2 * 2
  /\ ref_transform (plus (mirror X (GridVolume.make D2 (10#1) 4 4 0)) (mirror Y (GridVolume.make D2 (10#1) 4 4 0))) Y 3 =
     compose (ref_transform (mirror X (GridVolume.make D2 (10#1) 4 4 0)) Y (3 mod 2))
             (ref_transform (mirror Y (GridVolume.make D2 (10#1) 4 4 0))
                (dir (ref_transform (mirror X (GridVolume.make D2 (10#1) 4 4 0)) Y (3 mod 2))) (3 / 2)).
Proof.
  apply (plus_refines (mirror X (GridVolume.make D2 (10#1) 4 4 0)) (mirror Y (GridVolume.make D2 (10#1) 4 4 0)) Y 3);
    [chain_ok_tac | chain_ok_tac | split; [lia | vm_compute; reflexivity]].
Defined.

Lemma transform_component_ok_witness :
  exists c', transform_component (plus (mirror X (GridVolume.make D2 (10#1) 4 4 0)) (mirror Y (GridVolume.make D2 (10#1) 4 4 0))) Hx 1 = Ok c'
    /\ component_direction c' = dir (ref_transform (plus (mirror X (GridVolume.make D2 (10#1) 4 4 0)) (mirror Y (GridVolume.make D2 (10#1) 4 4 0))) (component_direction Hx) 1)
    /\ kind c' = kind Hx.
Proof.
  apply transform_component_ok;
    [chain_ok_tac | chain_ok_tac | vm_compute; discriminate | split; [lia | vm_compute; reflexivity]].
Defined.
