(* ===== verification/Reduce.v ===== *)
(** * Reduce: folding a weighted volume list by a symmetry ([symmetry::reduce])

    A [volume_list] is a singly linked list of entries (a volume, a
    component, a complex weight); [reduce] builds a new list [glnew] by
    prepending, then walks it once more, halving self-symmetric entries
    and unlinking the entries of weight zero.  The model keeps the lists
    as Rocq lists in link order: prepending is [::], unlinking is dropping
    the entry, and the in-place weight updates of the first pass rebuild
    the list with the updated entry ([add_first]).  The input list is only
    read, as in the code.

    Weights are complex doubles in the code and pairs of rationals here;
    phases come from [phase_shift] as Gaussian integers.  Volumes are
    compared exactly ([round_float] is the identity of the model).

    The first loop is [reduce_first_pass].  Its invariant, proved by
    induction over the input list, is that [glnew] holds one entry per
    symmetry orbit, the images of each entry matching no key behind it,
    and that every input entry of nonzero weight is represented (C36).
    [reduce_spec_example] runs the specification's example. *)

From S2P Require Import Prelude Geom Coord Volume GridVolume Symmetry.

Record cweight := mkw { wre : Q; wim : Q }.

Definition wadd (a b : cweight) : cweight := mkw (wre a + wre b) (wim a + wim b).

(** [weight * phase_shift(c, sn)] *)
Definition wmul_phase (w : cweight) (p : cplx) : cweight :=
  mkw (wre w * inject_Z (re p) - wim w * inject_Z (im p))
      (wre w * inject_Z (im p) + wim w * inject_Z (re p)).

(** [weight == 0.0] *)
Definition wzero (w : cweight) : bool := Qeq_bool (wre w) 0 && Qeq_bool (wim w) 0.

Record entry := mkentry { ev : Volume.volume; ec : any_component; ew : cweight }.

Definition volume_list := list entry.

(** [gn->c == cS && gn->v.round_float() == gS.round_float()] *)
Definition same_key (gn : entry) (v : Volume.volume) (c : any_component) : bool :=
  bool_decide (ec gn = c) && Volume.eqb (ev gn) v.

Definition with_weight (e : entry) (w : cweight) : entry := mkentry (ev e) (ec e) w.

(** [gn->weight += w] on the first entry [gn] of [glnew] with the key. *)
Fixpoint add_first (glnew : volume_list) (v : Volume.volume) (c : any_component) (w : cweight)
  : volume_list :=
  match glnew with
  | [] => []
  | gn :: rest =>
      if same_key gn v c then with_weight gn (wadd (ew gn) w) :: rest
      else gn :: add_first rest v c w
  end.

(** The loop [for (sn = 0; sn < multiplicity(); ++sn)] of the first pass:
    [Some glnew'] when an image of [g] matches an entry (and is folded
    into it), [None] when the loop runs to its end. *)
Fixpoint match_loop (s : symmetry) (g : entry) (glnew : volume_list) (sns : list int)
  : res (option volume_list) :=
  match sns with
  | [] => Ok None
  | sn :: rest =>
      let* gS := transform_volume s (ev g) sn in
      let* cS := transform_any s (ec g) sn in
      if existsb (fun gn => same_key gn gS cS) glnew then
        let* p := phase_shift_any s (ec g) sn in
        Ok (Some (add_first glnew gS cS (wmul_phase (ew g) p)))
      else match_loop s g glnew rest
  end.

(** One entry of the first pass: fold it into a match, or prepend it
    ([new volume_list(g->v, g->c, g->weight, glnew)]) when its weight is
    not zero. *)
Definition reduce_insert (s : symmetry) (glnew : volume_list) (g : entry) : res volume_list :=
  let* m := match_loop s g glnew (zrange 0 (multiplicity s)) in
  match m with
  | Some glnew' => Ok glnew'
  | None => Ok (if wzero (ew g) then glnew else g :: glnew)
  end.

(** [LOOP_OVER_DIRECTIONS(g->v.dim, d) if (transform(d,sn).flipped)
    { halve[d] = true; break; }] *)
Fixpoint first_flipped (s : symmetry) (sn : int) (ds : list direction) (halve : table bool)
  : res (table bool) :=
  match ds with
  | [] => Ok halve
  | d :: rest =>
      let* sd := transform s d sn in
      if flipped sd then Ok (tset halve d true) else first_flipped s sn rest halve
  end.

(** The loop over [sn = 1 .. multiplicity()-1] of the second pass: each
    element fixing the entry adds [weight * phase] (with [weight] the
    weight before the loop) and marks the first flipped axis. *)
Fixpoint self_loop (s : symmetry) (g : entry) (weight0 : cweight) (sns : list int)
  (halve : table bool) : res (entry * table bool) :=
  match sns with
  | [] => Ok (g, halve)
  | sn :: rest =>
      let* cS := transform_any s (ec g) sn in
      if bool_decide (ec g = cS) then
        let* vS := transform_volume s (ev g) sn in
        if Volume.eqb (ev g) vS then
          let* halve' := first_flipped s sn (loop_dirs (Volume.dim (ev g))) halve in
          let* p := phase_shift_any s (ec g) sn in
          self_loop s (with_weight g (wadd (ew g) (wmul_phase weight0 p))) weight0 rest halve'
        else self_loop s g weight0 rest halve
      else self_loop s g weight0 rest halve
  end.

(** [g->v.set_direction_max(d, g->v.in_direction_min(d) + 0.5 * g->v.in_direction(d))]
    on every marked active direction. *)
Definition apply_halve (v : Volume.volume) (halve : table bool) : Volume.volume :=
  fold_left (fun v d =>
      if tget halve d
      then Volume.set_direction_max v d
             (Volume.in_direction_min v d + (1#2) * Volume.in_direction v d)%Q
      else v)
    (loop_dirs (Volume.dim v)) v.

(** One entry of the second pass: [None] when it is unlinked. *)
Definition reduce_self (s : symmetry) (g : entry) : res (option entry) :=
  let* r := self_loop s g (ew g) (zrange 1 (multiplicity s)) (tconst false) in
  let '(g', halve) := r in
  let g'' := mkentry (apply_halve (ev g') halve) (ec g') (ew g') in
  Ok (if wzero (ew g'') then None else Some g'').

(** The first loop of [reduce], over the input list [gl]. *)
Definition reduce_first_pass (s : symmetry) (gl : volume_list) : res volume_list :=
  res_fold_left (reduce_insert s) gl [].

Definition reduce (s : symmetry) (gl : volume_list) : res volume_list :=
  let* glnew := reduce_first_pass s gl in
  res_fold_left (fun acc g =>
      let* o := reduce_self s g in
      Ok (match o with Some g' => acc ++ [g'] | None => acc end))
    glnew [].

(** ** Specification helpers *)

(** The key [(v, c)] the first pass compares entries by. *)
Definition entry_key (e : entry) : Volume.volume * any_component := (ev e, ec e).

(** No image [transform(k, sn)] of a key matches a key further down the
    list: one representative per orbit, the later-added first. *)
Definition orbit_sep (s : symmetry) (ks : list (Volume.volume * any_component)) : Prop :=
  forall i j k k' sn v c, (i < j)%nat -> ks !! i = Some k -> ks !! j = Some k' ->
    0 <= sn < multiplicity s -> transform_volume s k.1 sn = Ok v -> transform_any s k.2 sn = Ok c ->
    ~ (k'.2 = c /\ Volume.eqb k'.1 v = true).

(** An input entry is represented in [glnew]: by its own key, or by the
    key one of its images matches. *)
Definition covered (s : symmetry) (glnew : volume_list) (g : entry) : Prop :=
  exists e, In e glnew /\ (entry_key e = entry_key g \/
    exists sn v c, 0 <= sn < multiplicity s /\ transform_volume s (ev g) sn = Ok v
      /\ transform_any s (ec g) sn = Ok c /\ same_key e v c = true).

(** ** The first pass *)

Lemma add_first_keys l v c w : map entry_key (add_first l v c w) = map entry_key l.
Proof. induction l as [|gn l IH]; [reflexivity|]. simpl. destruct (same_key gn v c); cbn [map]; [reflexivity|now rewrite IH]. Qed.

Lemma same_key_entry_key e e' v c : entry_key e = entry_key e' -> same_key e v c = same_key e' v c.
Proof. unfold entry_key, same_key. intros H. injection H as -> ->. reflexivity. Qed.

(** Two lists with the same keys represent the same entries. *)
Lemma in_same_keys l l' e : map entry_key l = map entry_key l' -> In e l ->
  exists e', In e' l' /\ entry_key e' = entry_key e.
Proof.
  intros Hk He. apply (in_map entry_key) in He. rewrite Hk in He.
  apply in_map_iff in He as (e' & E & He'). eauto.
Qed.

Lemma match_loop_some s g glnew sns glnew' :
  match_loop s g glnew sns = Ok (Some glnew') ->
  map entry_key glnew' = map entry_key glnew /\
  exists sn v c e, In sn sns /\ transform_volume s (ev g) sn = Ok v /\ transform_any s (ec g) sn = Ok c
    /\ In e glnew /\ same_key e v c = true.
Proof.
  induction sns as [|sn sns IH]; simpl; [discriminate|].
  destruct (transform_volume s (ev g) sn) as [v|] eqn:Ev; [|discriminate].
  destruct (transform_any s (ec g) sn) as [c|] eqn:Ec; [|discriminate]. cbn [res_bind].
  destruct (existsb _ glnew) eqn:Ex.
  - destruct (phase_shift_any s (ec g) sn); [|discriminate]. cbn [res_bind]. intros H. injection H as <-.
    split; [apply add_first_keys|]. apply existsb_exists in Ex as (e & He & Hs). exists sn, v, c, e. auto.
  - intros H. destruct (IH H) as [Hk (sn' & v' & c' & e & ?)]. split; [exact Hk|]. exists sn', v', c', e. tauto.
Qed.

Lemma match_loop_none s g glnew sns :
  match_loop s g glnew sns = Ok None ->
  forall sn, In sn sns -> exists v c, transform_volume s (ev g) sn = Ok v /\ transform_any s (ec g) sn = Ok c
    /\ forall e, In e glnew -> same_key e v c = false.
Proof.
  induction sns as [|sn sns IH]; simpl; [intros _ ? []|].
  destruct (transform_volume s (ev g) sn) as [v|] eqn:Ev; [|discriminate].
  destruct (transform_any s (ec g) sn) as [c|] eqn:Ec; [|discriminate]. cbn [res_bind].
  destruct (existsb _ glnew) eqn:Ex.
  - destruct (phase_shift_any s (ec g) sn); discriminate.
  - intros H sn' [<-|Hin]; [|exact (IH H sn' Hin)]. subst. exists v, c. split; [exact Ev|]. split; [exact Ec|].
    intros e He. destruct (same_key e v c) eqn:Hs; [|reflexivity].
    rewrite <- Ex. symmetry. apply existsb_exists. eauto.
Qed.

Lemma orbit_sep_keys s l l' : map entry_key l = map entry_key l' -> orbit_sep s (map entry_key l) ->
  orbit_sep s (map entry_key l').
Proof. intros ->. exact id. Qed.

Lemma orbit_sep_cons s g glnew :
  orbit_sep s (map entry_key glnew) ->
  (forall sn, 0 <= sn < multiplicity s -> exists v c, transform_volume s (ev g) sn = Ok v
     /\ transform_any s (ec g) sn = Ok c /\ forall e, In e glnew -> same_key e v c = false) ->
  orbit_sep s (map entry_key (g :: glnew)).
Proof.
  intros Hsep Hnew [|i] [|j] k k' sn v c Hij Hi Hj Hsn Hv Hc; try lia.
  - cbn in Hi. injection Hi as <-. cbn in Hv, Hc, Hj.
    destruct (Hnew sn Hsn) as (v' & c' & Hv' & Hc' & Hno). rewrite Hv in Hv'. rewrite Hc in Hc'.
    injection Hv' as <-. injection Hc' as <-.
    apply list_lookup_fmap_Some in Hj as (e & Ek & He). subst k'. apply list_elem_of_lookup_2, list_elem_of_In in He.
    specialize (Hno e He). unfold same_key in Hno. cbn. intros [Ec Eb]. rewrite Ec, Eb, bool_decide_eq_true_2 in Hno by reflexivity.
    discriminate.
  - exact (Hsep i j k k' sn v c ltac:(lia) Hi Hj Hsn Hv Hc).
Qed.

Lemma covered_mono s acc r g :
  (forall e, In e acc -> exists e', In e' r /\ entry_key e' = entry_key e) -> covered s acc g -> covered s r g.
Proof.
  intros Hk (e & He & H). destruct (Hk e He) as (e' & He' & Ek). exists e'. split; [exact He'|].
  destruct H as [H|(sn & v & c & ?)]; [left; congruence|right; exists sn, v, c].
  rewrite (same_key_entry_key e' e) by exact Ek. tauto.
Qed.

Lemma reduce_insert_step s acc g acc' :
  reduce_insert s acc g = Ok acc' -> orbit_sep s (map entry_key acc) ->
  orbit_sep s (map entry_key acc')
  /\ (forall e, In e acc -> exists e', In e' acc' /\ entry_key e' = entry_key e)
  /\ (wzero (ew g) = false -> covered s acc' g).
Proof.
  unfold reduce_insert. intros H Hsep.
  destruct (match_loop s g acc (zrange 0 (multiplicity s))) as [[gl'|]|] eqn:Em; [| |discriminate];
    cbn [res_bind] in H; injection H as <-.
  - destruct (match_loop_some _ _ _ _ _ Em) as [Hk (sn & v & c & e & Hsn & Hv & Hc & He & Hs)].
    split; [exact (orbit_sep_keys s acc gl' (eq_sym Hk) Hsep)|].
    split; [intros e0; apply in_same_keys; congruence|]. intros _.
    destruct (in_same_keys acc gl' e (eq_sym Hk) He) as (e' & He' & Ek). exists e'. split; [exact He'|].
    right. exists sn, v, c. apply in_zrange in Hsn. rewrite (same_key_entry_key e' e) by exact Ek. tauto.
  - destruct (wzero (ew g)) eqn:Ez.
    + split; [exact Hsep|]. split; [eauto|discriminate].
    + split; [|split; [intros e He; exists e; split; [right; exact He|reflexivity]|intros _; exists g; split; [left|left]; reflexivity]].
      apply orbit_sep_cons; [exact Hsep|]. intros sn Hsn. apply (match_loop_none _ _ _ _ Em). apply in_zrange. exact Hsn.
Qed.

Lemma first_pass_inv s gl acc r :
  res_fold_left (reduce_insert s) gl acc = Ok r -> orbit_sep s (map entry_key acc) ->
  orbit_sep s (map entry_key r)
  /\ (forall e, In e acc -> exists e', In e' r /\ entry_key e' = entry_key e)
  /\ (forall g, In g gl -> wzero (ew g) = false -> covered s r g).
Proof.
  revert acc. induction gl as [|g gl IH]; intros acc H Hsep; cbn [res_fold_left] in H.
  - injection H as <-. split; [exact Hsep|]. split; [eauto|intros _ []].
  - destruct (reduce_insert s acc g) as [acc'|] eqn:Ei; [|discriminate]. cbn [res_bind] in H.
    destruct (reduce_insert_step _ _ _ _ Ei Hsep) as (Hsep' & Hk & Hc).
    destruct (IH acc' H Hsep') as (Hr & Hk' & Hc'). split; [exact Hr|]. split.
    + intros e He. destruct (Hk e He) as (e' & He' & E'). destruct (Hk' e' He') as (e'' & He'' & E'').
      exists e''. split; [exact He''|congruence].
    + intros g' [<-|Hin] Hz; [|exact (Hc' g' Hin Hz)]. exact (covered_mono _ _ _ _ Hk' (Hc Hz)).
Qed.

(** ** What [reduce] returns *)

(** C36. The first pass of [reduce] keeps one entry per symmetry orbit:
    for any two entries of [glnew], no group element maps the one nearer
    the head (added later) onto the key (component and volume) of the
    other, and every input entry of nonzero weight is represented in
    [glnew], by its own key or by the key one of its images matches
    (where its weight was folded). *)
Theorem reduce_first_pass_orbits s gl glnew :
  reduce_first_pass s gl = Ok glnew ->
  (forall i j a b sn v c, (i < j)%nat -> glnew !! i = Some a -> glnew !! j = Some b ->
     0 <= sn < multiplicity s -> transform_volume s (ev a) sn = Ok v -> transform_any s (ec a) sn = Ok c ->
     same_key b v c = false)
  /\ (forall g, In g gl -> wzero (ew g) = false -> covered s glnew g).
Proof.
  intros H. destruct (first_pass_inv s gl [] glnew H) as (Hsep & _ & Hc).
  { intros i j k k' sn v c Hij Hi. discriminate. }
  split; [|exact Hc]. intros i j a b sn v c Hij Ha Hb Hsn Hv Hc'.
  specialize (Hsep i j (entry_key a) (entry_key b) sn v c Hij).
  assert (Ha' : map entry_key glnew !! i = Some (entry_key a)) by (apply list_lookup_fmap_Some; eauto).
  assert (Hb' : map entry_key glnew !! j = Some (entry_key b)) by (apply list_lookup_fmap_Some; eauto).
  specialize (Hsep Ha' Hb' Hsn Hv Hc'). cbn in Hsep.
  unfold same_key. case_bool_decide; [|reflexivity]. destruct (Volume.eqb (ev b) v); tauto.
Qed.


(** The example of the specification: the mirror [x -> -x] of a
    planar grid centred at [x = 0], on one [Ez] entry over
    [x in [-1,1], y in [0,1]] of weight 1.  The entry is self-symmetric and
    is folded with weight 2, but the code keeps the low half
    [x in [-1,0]] ([set_direction_max]), where the specification expects
    [x in [0,1]]. *)
Theorem reduce_spec_example :
  exists e,
    reduce (mirror X (GridVolume.set_origin (GridVolume.make D2 (10#1) 20 10 0) (IVec.ivec2 (-20) 0)))
      [mkentry (Volume.make (Vec.vec2 (-1) 0) (Vec.vec2 1 1)) (Comp Ez) (mkw 1 0)] = Ok [e]
    /\ Volume.eqb (ev e) (Volume.make (Vec.vec2 (-1) 0) (Vec.vec2 0 1)) = true
    /\ Volume.eqb (ev e) (Volume.make (Vec.vec2 0 0) (Vec.vec2 1 1)) = false
    /\ ec e = Comp Ez /\ wzero (wadd (ew e) (mkw (-2) 0)) = true.
Proof. eexists. split; [vm_compute; reflexivity|]. vm_compute. repeat split. Qed.

(** ** Witnesses *)

Lemma reduce_first_pass_orbits_witness :
  exists glnew,
    reduce_first_pass (mirror X (GridVolume.set_origin (GridVolume.make D2 (10#1) 20 10 0) (IVec.ivec2 (-20) 0)))
      [mkentry (Volume.make (Vec.vec2 0 0) (Vec.vec2 1 1)) (Comp Ez) (mkw 1 0);
       mkentry (Volume.make (Vec.vec2 (-1) 0) (Vec.vec2 0 1)) (Comp Ez) (mkw 1 0)] = Ok glnew
    /\ length glnew = 1%nat
    /\ (forall i j a b sn v c, (i < j)%nat -> glnew !! i = Some a -> glnew !! j = Some b ->
          0 <= sn < multiplicity (mirror X (GridVolume.set_origin (GridVolume.make D2 (10#1) 20 10 0) (IVec.ivec2 (-20) 0))) ->
          transform_volume (mirror X (GridVolume.set_origin (GridVolume.make D2 (10#1) 20 10 0) (IVec.ivec2 (-20) 0))) (ev a) sn = Ok v ->
          transform_any (mirror X (GridVolume.set_origin (GridVolume.make D2 (10#1) 20 10 0) (IVec.ivec2 (-20) 0))) (ec a) sn = Ok c ->
          same_key b v c = false)
    /\ (forall g, In g [mkentry (Volume.make (Vec.vec2 0 0) (Vec.vec2 1 1)) (Comp Ez) (mkw 1 0);
                       mkentry (Volume.make (Vec.vec2 (-1) 0) (Vec.vec2 0 1)) (Comp Ez) (mkw 1 0)] ->
          wzero (ew g) = false ->
          covered (mirror X (GridVolume.set_origin (GridVolume.make D2 (10#1) 20 10 0) (IVec.ivec2 (-20) 0))) glnew g).
Proof.
  eexists. split; [vm_compute; reflexivity|]. split; [reflexivity|].
  apply reduce_first_pass_orbits. vm_compute. reflexivity.
Defined.
